(** * Futures Trading & Hedging Lab ([app.py]): the panels' computations

    The application is one Streamlit script.  Each panel reads a few widget
    values and evaluates closed-form expressions on Python numbers and NumPy
    arrays.  This development embeds those expressions, one definition per
    source line, with the free variables of the line as arguments, and
    proves the properties stated about them.

    Python [int]s are [Z].  An [int] operand of a float operation is
    converted first, and the conversion raises [OverflowError] beyond the
    float range; a division by zero raises [ZeroDivisionError]: the
    expressions that can raise return a [Py.result].  Python [float]s
    (IEEE-754 binary64) are modelled by an arithmetic signature [Arith] with
    two implementations:

    - [Binary64]: Rocq's primitive floats, the arithmetic CPython and NumPy
      execute, specified bit for bit by [SpecFloat];
    - [Rounded rnd]: rationals whose every operation is followed by the
      rounding operator [rnd]; the usual model of floating-point arithmetic
      for error analysis.  [Exact] is [Rounded] with the identity.

    The two are connected: [round53], rounding to 53 significant bits, is
    proved to satisfy the standard model and to be what the binary64
    operations compute in the normal range, which carries the error bounds
    over to [Binary64].

    One dimensional float64 arrays are lists, and the element-wise NumPy
    operators are [map] and [zip_with]. *)

From Stdlib Require Import ZArith QArith Qabs Qround Qpower Lqa Lia Bool String DecimalString List Floats.
Import ListNotations.

Set Implicit Arguments.

(** ** Python results *)

Module Py.

Inductive exc : Type :=
| ZeroDivisionError
| OverflowError
| ValueError.

Inductive result (T : Type) : Type :=
| Ok (v : T)
| Raise (e : exc).

Arguments Ok {T} v.
Arguments Raise {T} e.

Definition bind {T U : Type} (r : result T) (k : T -> result U) : result U :=
  match r with
  | Ok v => k v
  | Raise e => Raise e
  end.


(** Truth value of a [str]: the empty string is false. *)
Definition truthy (s : string) : bool :=
  match s with
  | EmptyString => false
  | String _ _ => true
  end.

End Py.

Notation "x <- r ;; k" := (Py.bind r (fun x => k))
  (at level 61, r at next level, right associativity).

(** ** Float arithmetic *)

Record Arith : Type := mkArith {
  num : Type;
  fadd : num -> num -> num;
  fsub : num -> num -> num;
  fmul : num -> num -> num;
  fdiv : num -> num -> num;
  fneg : num -> num;
  fabs : num -> num;
  (** [float(n)] for an [int] operand of a mixed operation *)
  of_int : Z -> num;
  (** whether [float(n)] exists: Python raises [OverflowError] for an [int]
      beyond the largest float *)
  fits : Z -> bool;
  (** a decimal literal, read to the nearest float *)
  lit : Q -> num;
  feqb : num -> num -> bool;
  fltb : num -> num -> bool;
  fleb : num -> num -> bool
}.

(** *** binary64 *)

Definition b64_of_int (z : Z) : float :=
  SF2Prim (binary_normalize prec emax z 0 false).

(** A float that is neither an infinity nor a NaN. *)
Definition b64_finite (x : float) : bool :=
  match Prim2SF x with
  | S754_zero _ | S754_finite _ _ _ => true
  | S754_infinity _ | S754_nan => false
  end.

(** [float(n)] rounds to nearest and raises when the rounded value is out
    of range, which is when [b64_of_int] is an infinity. *)
Definition b64_fits (z : Z) : bool := b64_finite (b64_of_int z).

(** The quotient of two exactly represented integers is correctly rounded,
    so for numerator and denominator below 2^53 this is the float nearest
    to [q], the one Python reads the literal as. *)
Definition b64_lit (q : Q) : float :=
  PrimFloat.div (b64_of_int (Qnum q)) (b64_of_int (Zpos (Qden q))).

Definition Binary64 : Arith := {|
  num := float;
  fadd := PrimFloat.add;
  fsub := PrimFloat.sub;
  fmul := PrimFloat.mul;
  fdiv := PrimFloat.div;
  fneg := PrimFloat.opp;
  fabs := PrimFloat.abs;
  of_int := b64_of_int;
  fits := b64_fits;
  lit := b64_lit;
  feqb := PrimFloat.eqb;
  fltb := PrimFloat.ltb;
  fleb := PrimFloat.leb
|}.

(** A strictly increasing array. *)
Fixpoint increasing (l : list float) : bool :=
  match l with
  | x :: (y :: _) as t => PrimFloat.ltb x y && increasing t
  | _ => true
  end.

(** The floats nearest to [k / 100] for [k] from [from] on, [count] of them:
    the values a slider of step 0.01 offers. *)
Definition hundredths (from : nat) (count : nat) : list float :=
  map (fun k => b64_lit (Z.of_nat k # 100)) (seq from count).

(** *** rounded rationals *)

Definition Rounded (rnd : Q -> Q) : Arith := {|
  num := Q;
  fadd := fun x y => rnd (x + y);
  fsub := fun x y => rnd (x - y);
  fmul := fun x y => rnd (x * y);
  fdiv := fun x y => rnd (x / y);
  fneg := Qopp;
  fabs := Qabs;
  of_int := fun z => rnd (inject_Z z);
  fits := fun _ => true;
  lit := rnd;
  feqb := Qeq_bool;
  fltb := fun x y => negb (Qle_bool y x);
  fleb := Qle_bool
|}.

Definition Exact : Arith := Rounded (fun x => x).

(** The unit roundoff of binary64. *)
Definition u64 : Q := 1 # (2 ^ 53).

(** The standard model: rounding to nearest commits a relative error of at
    most [u64] (no overflow, no underflow) and is monotone. *)
Record standard_model (rnd : Q -> Q) : Prop := {
  rnd_error : forall x, Qabs (rnd x - x) <= u64 * Qabs x;
  rnd_mono : forall x y, x <= y -> rnd x <= rnd y
}.

(** Error tracking in the standard model.  [within y lo hi x]: the computed
    [x] lies between [y * lo] and [y * hi], where [y >= 0] is the exact
    magnitude; [swithin s] is the same for a value of sign [s]
    ([true]: negative). *)
Definition within (y lo hi x : Q) : Prop :=
  0 <= y /\ 0 < lo /\ 0 < hi /\ y * lo <= x /\ x <= y * hi.

Definition signed (s : bool) (x : Q) : Q := if s then - x else x.

Definition swithin (s : bool) (y lo hi x : Q) : Prop := within y lo hi (signed s x).

(** *** binary64 as rounded rationals

    The value of a finite float, and the rounding of a rational to 53
    significant bits, to nearest with ties to even: on finite operands in
    the normal range each binary64 operation returns the float whose value
    is the rounding of the exact result (proved below from [SpecFloat]),
    which makes [Rounded round53] the rational image of [Binary64]. *)

Definition pow2 (e : Z) : Q := 2 ^ e.

Definition SF2Q (x : spec_float) : Q :=
  match x with
  | S754_finite s m e => signed s (inject_Z (Zpos m) * pow2 e)
  | _ => 0
  end.

(** The rational a finite float stands for (zero for the others). *)
Definition B2Q (x : float) : Q := SF2Q (Prim2SF x).

(** The integer nearest to [t], the even one of two at the same distance. *)
Definition rne (t : Q) : Z :=
  let f := Qfloor t in
  match Qcompare (t - inject_Z f) (1 # 2) with
  | Lt => f
  | Eq => if Z.even f then f else (f + 1)%Z
  | Gt => (f + 1)%Z
  end.

(** For [x > 0]: the exponent [e] with [2^(e-1) <= x < 2^e]. *)
Definition mag (x : Q) : Z :=
  let k := (Z.log2 (Qnum x) - Z.log2 (Zpos (Qden x)))%Z in
  if Qle_bool (pow2 k) x then (k + 1)%Z else k.

Definition round53_pos (x : Q) : Q :=
  let c := (mag x - 53)%Z in
  inject_Z (rne (x * pow2 (- c))) * pow2 c.

Definition round53 (x : Q) : Q :=
  match Qcompare x 0 with
  | Eq => 0
  | Gt => round53_pos x
  | Lt => - round53_pos (- x)
  end.

(** What [SpecFloat]'s locations and shift records say of the real [t]
    being truncated to the integer [m]. *)
Definition loc_ok (m : Z) (l : location) (t : Q) : Prop :=
  match l with
  | loc_Exact => t == inject_Z m
  | loc_Inexact Lt => inject_Z m < t /\ t < inject_Z m + (1 # 2)
  | loc_Inexact Eq => t == inject_Z m + (1 # 2)
  | loc_Inexact Gt => inject_Z m + (1 # 2) < t /\ t < inject_Z m + 1
  end.

Definition rec_ok (r : shr_record) (t : Q) : Prop :=
  (0 <= shr_m r)%Z /\ loc_ok (shr_m r) (loc_of_shr_record r) t.

(** Error tracking on binary64: the finite float [x] has sign [s] and a
    magnitude between [y * lo] and [y * hi], the exact magnitude [y] lying
    between [2^a] and [2^b]. *)
Definition fw (s : bool) (y lo hi : Q) (a b : Z) (x : float) : Prop :=
  b64_finite x = true /\ swithin s y lo hi (B2Q x) /\
  pow2 a <= y /\ y <= pow2 b /\ (1 # 2) <= lo /\ hi <= 2.

(** Floats of moderate magnitude: finite, between [2^-100] and [2^100] in
    absolute value. *)
Definition b64_moderate (x : float) : bool :=
  b64_finite x && Qle_bool (pow2 (-100)) (Qabs (B2Q x)) && Qle_bool (Qabs (B2Q x)) (pow2 100).

(** A move the hedging bound is proved for: a zero, or of moderate
    magnitude. *)
Definition b64_move (m : float) : bool := (m =? 0)%float || b64_moderate m.

(** A correlation the monotonicity is proved for: zero, or between
    [2^-1000] and [1]. *)
Definition b64_unit (x : float) : bool :=
  (x =? 0)%float || ((0x1p-1000 <=? x)%float && (x <=? 1)%float).

(** ** NumPy *)

Section Numpy.

Variable A : Arith.

Definition zip_with (f : num A -> num A -> num A) (xs ys : list (num A)) : list (num A) :=
  map (fun p => f (fst p) (snd p)) (combine xs ys).

(** [np.arange(0, n)] as float64 *)
Definition arange (n : nat) : list (num A) :=
  map (fun i => of_int A (Z.of_nat i)) (seq 0 n).

(** [y[-1] = v] *)
Definition set_last (y : list (num A)) (v : num A) : list (num A) :=
  match y with
  | [] => []
  | _ :: _ => removelast y ++ [v]
  end.

(** [np.linspace(start, stop, n)] with the default [endpoint=True], after
    [numpy/_core/function_base.py]: the grid [arange(0, n) * step + start]
    with [step = (stop - start) / (n - 1)], the last sample then overwritten
    by [stop]; a zero [step] takes the branch written for denormals. *)
Definition linspace (start stop : num A) (n : nat) : list (num A) :=
  let div := (Z.of_nat n - 1)%Z in
  let delta := fsub A stop start in
  let y := arange n in
  let y :=
    if (0 <? div)%Z then
      let step := fdiv A delta (of_int A div) in
      if feqb A step (of_int A 0)
      then map (fun v => fmul A (fdiv A v (of_int A div)) delta) y
      else map (fun v => fmul A v step) y
    else map (fun v => fmul A v delta) y in
  let y := map (fun v => fadd A v start) y in
  if (1 <? n)%nat then set_last y stop else y.

(** [np.linspace] with [n] as Python passes it: a negative count raises. *)
Definition np_linspace (start stop : num A) (n : Z) : Py.result (list (num A)) :=
  if (n <? 0)%Z then Py.Raise Py.ValueError
  else Py.Ok (linspace start stop (Z.to_nat n)).

(** The conversion of an [int] operand of a float operation. *)
Definition to_float (n : Z) : Py.result (num A) :=
  if fits A n then Py.Ok (of_int A n) else Py.Raise Py.OverflowError.

(** [x * n] with a Python float [x] and a Python int [n]. *)
Definition mul_int (x : num A) (n : Z) : Py.result (num A) :=
  v <- to_float n ;; Py.Ok (fmul A x v).

(** [n * x] with a Python int [n] and a Python float [x]. *)
Definition int_mul (n : Z) (x : num A) : Py.result (num A) :=
  v <- to_float n ;; Py.Ok (fmul A v x).

(** [x / d] with a Python float [x] and a Python int [d]: the divisor is
    converted, then tested for zero. *)
Definition truediv (x : num A) (d : Z) : Py.result (num A) :=
  v <- to_float d ;;
  if (d =? 0)%Z then Py.Raise Py.ZeroDivisionError
  else Py.Ok (fdiv A x v).

End Numpy.

(** The [i]-th of [n] evenly spaced points from [a] to [b], in exact
    arithmetic: what [linspace] approximates. *)
Definition grid_point (a b : Q) (n i : nat) : Q :=
  a + inject_Z (Z.of_nat i) * ((b - a) / inject_Z (Z.of_nat n - 1)).

(** The three-point scenario [np.linspace(-0.1, 0.1, 3)]. *)
Definition example_scenario (A : Arith) : list (num A) :=
  linspace A (fneg A (lit A (1 # 10))) (lit A (1 # 10)) 3.

(** ** Panel 5: Hedging Strategy Builder *)

Module HedgingBuilder.
Section Panel.

Variable A : Arith.

(** [size = 50] *)
Definition size : Z := 50.

(** [optimal_contracts = (beta * V) / (F * size)]: [beta] is the slider's
    float, [V], [F] and [size] are ints; [F * size] is an int product and
    the division raises when it is zero. *)
Definition optimal_contracts (beta : num A) (V F size : Z) : Py.result (num A) :=
  bv <- mul_int A beta V ;;
  truediv A bv (F * size).

(** The [if hedge_type == ... elif ... else] chain setting [contracts]. *)
Definition contracts (hedge_type : string) (optimal_contracts : num A) : num A :=
  if String.eqb hedge_type "Optimal Hedge" then optimal_contracts
  else if String.eqb hedge_type "Under Hedge" then fmul A optimal_contracts (lit A (1 # 2))
  else fmul A optimal_contracts (lit A (3 # 2)).

(** [moves = np.linspace(-0.1, 0.1, 20)] *)
Definition moves : list (num A) :=
  linspace A (fneg A (lit A (1 # 10))) (lit A (1 # 10)) 20.

(** [portfolio = V * beta * moves]: the scalar [V * beta], then the array *)
Definition portfolio (V : Z) (beta : num A) (moves : list (num A))
    : Py.result (list (num A)) :=
  vb <- int_mul A V beta ;;
  Py.Ok (map (fun m => fmul A vb m) moves).

(** [futures = -contracts * size * F * moves]: the scalar
    [((-contracts) * size) * F], then the array *)
Definition futures (contracts : num A) (size F : Z) (moves : list (num A))
    : Py.result (list (num A)) :=
  cs <- mul_int A (fneg A contracts) size ;;
  csf <- mul_int A cs F ;;
  Py.Ok (map (fun m => fmul A csf m) moves).

(** [net = portfolio + futures] *)
Definition net (portfolio futures : list (num A)) : list (num A) :=
  zip_with A (fadd A) portfolio futures.

(** What the panel hands to the chart and the table. *)
Record output : Type := mkOutput {
  out_optimal : num A;
  out_contracts : num A;
  out_moves : list (num A);
  out_portfolio : list (num A);
  out_futures : list (num A);
  out_net : list (num A)
}.

(** Lines 173-202 on the widget values [V], [beta], [F], [hedge_type]. *)
Definition run (V : Z) (beta : num A) (F : Z) (hedge_type : string) : Py.result output :=
  oc <- optimal_contracts beta V F size ;;
  let c := contracts hedge_type oc in
  p <- portfolio V beta moves ;;
  f <- futures c size F moves ;;
  Py.Ok (mkOutput oc c moves p f (net p f)).

End Panel.
End HedgingBuilder.

(** ** Panel 6: Optimal Hedge Ratio *)

Module OptimalHedge.
Section Panel.

Variable A : Arith.

(** [N = (beta * V) / (F * 50)] *)
Definition N (beta : num A) (V F : Z) : Py.result (num A) :=
  bv <- mul_int A beta V ;;
  truediv A bv (F * 50).

End Panel.
End OptimalHedge.

(** ** Panel 7: Basis & Convergence *)

Module BasisConvergence.
Section Panel.

Variable A : Arith.

(** [basis = spot - futures], on ints *)
Definition basis (spot futures : Z) : Z := spot - futures.

(** The [if market_type == "Contango (F > S)": ... else: ...] statement
    assigning [basis_path]; [basis] and [0] are ints NumPy converts. *)
Definition basis_path (market_type : string) (basis : Z) (days : nat) : list (num A) :=
  if String.eqb market_type "Contango (F > S)"
  then linspace A (of_int A basis) (of_int A 0) days
  else linspace A (of_int A basis) (of_int A 0) days.

(** [contracts = (beta * V) / (futures * size)] *)
Definition contracts (beta : num A) (V futures size : Z) : Py.result (num A) :=
  bv <- mul_int A beta V ;;
  truediv A bv (futures * size).

(** [moves = np.linspace(-0.05, 0.05, 10)] *)
Definition moves : list (num A) :=
  linspace A (fneg A (lit A (5 # 100))) (lit A (5 # 100)) 10.

End Panel.
End BasisConvergence.

(** ** Panel 8: Basis Risk *)

Module BasisRisk.
Section Panel.

Variable A : Arith.

(** [st.metric("Effectiveness %", corr*100)] *)
Definition effectiveness (corr : num A) : num A :=
  fmul A corr (of_int A 100).

End Panel.
End BasisRisk.

(** ** Panel 13: Quiz & Certificate *)

Module Quiz.
Section Panel.

Variable A : Arith.

(** The ten widget values: radios return the chosen label, number inputs
    without bounds return floats. *)
Record answers : Type := mkAnswers {
  q1 : string; q2 : string;
  q3 : num A; q4 : num A; q5 : num A;
  q6 : string; q7 : string; q8 : string; q9 : string;
  q10 : num A
}.

(** [abs(q - target) < tol] *)
Definition close_to (q : num A) (target : Z) (tol : num A) : bool :=
  fltb A (fabs A (fsub A q (of_int A target))) tol.

Definition incr (cond : bool) (score : Z) : Z :=
  if cond then (score + 1)%Z else score.

(** Lines 663-673: [score = 0] followed by the ten [if ...: score+=1]. *)
Definition score (a : answers) : Z :=
  let score := 0%Z in
  let score := incr (String.eqb (q1 a) "Short") score in
  let score := incr (String.eqb (q2 a) "Zero") score in
  let score := incr (close_to (q3 a) 110 (of_int A 1)) score in
  let score := incr (close_to (q4 a) 500 (of_int A 1)) score in
  let score := incr (close_to (q5 a) 1 (lit A (1 # 2))) score in
  let score := incr (String.eqb (q6 a) "Credit risk") score in
  let score := incr (String.eqb (q7 a) "Contango") score in
  let score := incr (String.eqb (q8 a) "High") score in
  let score := incr (String.eqb (q9 a) "Close & reopen") score in
  let score := incr (close_to (q10 a) 200 (of_int A 1)) score in
  score.

Definition str_of_int (n : Z) : string :=
  NilZero.string_of_int (Z.to_int n).

(** The strings drawn on the certificate, top to bottom, and its file name. *)
Record certificate : Type := mkCertificate {
  cert_lines : list string;
  cert_file_name : string
}.

Definition make_certificate (student_name student_id : string) (score : Z) (today : string)
  : certificate :=
  mkCertificate
    [ "Certificate of Completion";
      "Futures Trading & Hedging Lab";
      student_name;
      "Student ID: " ++ student_id;
      "Score: " ++ str_of_int score ++ "/10";
      "Date: " ++ today;
      "Instructor: Prof. Shalini Velappan" ]%string
    (student_id ++ "_certificate.pdf")%string.

(** What a run of the panel shows after the widgets. *)
Record submission : Type := mkSubmission {
  sub_score : Z;
  sub_message : string;
  sub_workings_file : string;
  sub_certificate : option certificate
}.

(** The body of [if st.button("Submit Quiz"):]. *)
Definition submit (a : answers) (student_name student_id today : string) : submission :=
  let s := score a in
  mkSubmission s
    ("Score: " ++ str_of_int s ++ "/10")%string
    (student_id ++ "_workings.xlsx")%string
    (if (5 <=? s)%Z && Py.truthy student_name && Py.truthy student_id
     then Some (make_certificate student_name student_id s today)
     else None).

(** The panel: nothing is scored until the button is pressed. *)
Definition run (button : bool) (a : answers) (student_name student_id today : string)
  : option submission :=
  if button then Some (submit a student_name student_id today) else None.

End Panel.
End Quiz.

(** ** The input widgets

    [st.number_input(label, min_value)] takes its lower bound as the second
    positional argument and starts from it; an [int] input stays within the
    integers a browser represents exactly, below [2^53].
    [st.slider(label, min_value, max_value, value)] returns a value between
    its two bounds. *)

Module St.



End St.



(** * The other panels

    The integers of these panels are number-input and slider values, below
    [2^53] in magnitude, which Python and NumPy convert exactly; the
    properties are stated for such values. *)

(** ** Panels 1 and 12: the payoff of a directional trade *)

Module Directional.
Section Panel.

Variable A : Arith.

(** [prices = np.linspace(entry-2000, entry+2000, 8)] *)
Definition prices (entry : Z) : list (num A) :=
  linspace A (of_int A (entry - 2000)) (of_int A (entry + 2000)) 8.

(** [pnl = prices-entry] *)
Definition pnl (prices : list (num A)) (entry : Z) : list (num A) :=
  map (fun p => fsub A p (of_int A entry)) prices.

End Panel.
End Directional.

(** ** Panel 3: MTM & Margin Calls *)

Module Margin.
Section Panel.

Variable A : Arith.

Definition size : Z := 50.

(** The [if position=="Long": ... else: ...] of the loop body. *)
Definition pnl (position : string) (p : num A) (entry contracts : Z) : num A :=
  if String.eqb position "Long"
  then fmul A (fmul A (fsub A p (of_int A entry)) (of_int A contracts)) (of_int A size)
  else fmul A (fmul A (fsub A (of_int A entry) p) (of_int A contracts)) (of_int A size).

(** [bal=init_margin+pnl] *)
Definition bal (init_margin : Z) (pnl : num A) : num A :=
  fadd A (of_int A init_margin) pnl.

(** The [if bal<maint_margin: ... else: ...] appending to [status]. *)
Definition status_of (bal : num A) (maint_margin : Z) : string :=
  if fltb A bal (of_int A maint_margin) then "MARGIN CALL" else "OK".

(** One turn of [for p in prices:] on the two lists being built. *)
Definition body (position : string) (entry contracts init_margin maint_margin : Z)
    (acc : list (num A) * list string) (p : num A) : list (num A) * list string :=
  let '(balances, status) := acc in
  let pnl := pnl position p entry contracts in
  let bal := bal init_margin pnl in
  (balances ++ [bal], status ++ [status_of bal maint_margin]).

(** Lines 106-123: [balances] and [status] after the loop. *)
Definition run (position : string) (entry contracts init_margin maint_margin : Z)
  : list (num A) * list string :=
  fold_left (body position entry contracts init_margin maint_margin)
            (Directional.prices A entry) ([], []).

End Panel.
End Margin.

(** ** Panel 4: Trading P&L *)

Module Trading.
Section Panel.

Variable A : Arith.

Definition size : Z := 50.

(** [long=(prices-entry)*contracts*size] *)
Definition long (prices : list (num A)) (entry contracts : Z) : list (num A) :=
  map (fun p => fmul A (fmul A (fsub A p (of_int A entry)) (of_int A contracts))
                     (of_int A size)) prices.

(** [short=(entry-prices)*contracts*size] *)
Definition short (prices : list (num A)) (entry contracts : Z) : list (num A) :=
  map (fun p => fmul A (fmul A (fsub A (of_int A entry) p) (of_int A contracts))
                     (of_int A size)) prices.

End Panel.
End Trading.

(** ** Panel 7: the hedged portfolio *)

Module BasisImpact.
Section Panel.

Variable A : Arith.

(** [time = np.arange(days)], an array of ints *)
Definition time (days : nat) : list Z := map Z.of_nat (seq 0 days).

(** Lines 286-293: [contracts], [portfolio = V * beta * moves],
    [futures_pnl = -contracts * size * futures * moves] and their sum, the
    expressions of panel 5 on this panel's scenario. *)
Definition run (V : Z) (beta : num A) (futures : Z)
  : Py.result (num A * list (num A) * list (num A) * list (num A)) :=
  contracts <- BasisConvergence.contracts A beta V futures 50 ;;
  portfolio <- HedgingBuilder.portfolio A V beta (BasisConvergence.moves A) ;;
  futures_pnl <- HedgingBuilder.futures A contracts 50 futures (BasisConvergence.moves A) ;;
  Py.Ok (contracts, portfolio, futures_pnl, HedgingBuilder.net A portfolio futures_pnl).

End Panel.
End BasisImpact.

(** ** Panel 11: Real-World Cases *)

Module Cases.
Section Panel.

Variable A : Arith.

(** [a / b] on two [int]s.  Python returns the correctly rounded quotient;
    for operands that convert exactly it is the quotient of the two
    conversions. *)
Definition int_truediv (a b : Z) : Py.result (num A) :=
  if (b =? 0)%Z then Py.Raise Py.ZeroDivisionError
  else Py.Ok (fdiv A (of_int A a) (of_int A b)).

(** [np.linspace(-0.1,0.1,8)] and [np.linspace(-0.2,0.2,8)] *)
Definition moves10 : list (num A) :=
  linspace A (fneg A (lit A (1 # 10))) (lit A (1 # 10)) 8.

Definition moves20 : list (num A) :=
  linspace A (fneg A (lit A (2 # 10))) (lit A (2 # 10)) 8.

(** *** Equity Portfolio Hedge *)

(** [N = V/(F*size)] with [size = 50] *)
Definition equity_N (V F : Z) : Py.result (num A) := int_truediv V (F * 50).

(** [portfolio = V*moves] *)
Definition equity_portfolio (V : Z) (moves : list (num A)) : list (num A) :=
  map (fun m => fmul A (of_int A V) m) moves.

(** [futures = -N*50*F*moves] *)
Definition equity_futures (N : num A) (F : Z) (moves : list (num A)) : list (num A) :=
  map (fun m => fmul A (fmul A (fmul A (fneg A N) (of_int A 50)) (of_int A F)) m) moves.

(** Lines 379-385: [portfolio], [futures] and [net = portfolio + futures]. *)
Definition equity (V F : Z) : Py.result (list (num A) * list (num A) * list (num A)) :=
  N <- equity_N V F ;;
  let portfolio := equity_portfolio V moves10 in
  let futures := equity_futures N F moves10 in
  Py.Ok (portfolio, futures, zip_with A (fadd A) portfolio futures).

(** *** Airline Fuel Hedge *)

(** [hedge_ratio = st.slider("Hedge %", 0, 100, 70)/100] *)
Definition hedge_ratio (percent : Z) : Py.result (num A) := int_truediv percent 100.

(** [unhedged = fuel_cost*moves] *)
Definition airline_unhedged (fuel_cost : Z) : list (num A) :=
  map (fun m => fmul A (of_int A fuel_cost) m) moves20.

(** [hedged = unhedged*(1-hedge_ratio)] *)
Definition airline_hedged (unhedged : list (num A)) (hedge_ratio : num A) : list (num A) :=
  map (fun u => fmul A u (fsub A (of_int A 1) hedge_ratio)) unhedged.

(** *** Exporter Currency Hedge *)

(** [moves = np.linspace(-5,5,8)] *)
Definition fx_moves : list (num A) := linspace A (of_int A (-5)) (of_int A 5) 8.

(** Lines 431-433: [unhedged = exposure*moves] and
    [hedged = np.zeros_like(unhedged)]; [rate] is read and not used. *)
Definition exporter (exposure : Z) (rate : num A) : list (num A) * list (num A) :=
  let unhedged := map (fun m => fmul A (of_int A exposure) m) fx_moves in
  (unhedged, map (fun _ => of_int A 0) unhedged).

(** *** Commodity Producer Hedge *)

(** [revenue = output*price*(1+moves)]: an [int] product, then the array *)
Definition revenue (output price : Z) : list (num A) :=
  map (fun m => fmul A (of_int A (output * price)) (fadd A (of_int A 1) m)) moves20.

(** *** Calendar Spread Desk (and panel 12's Calendar Spread) *)

(** [prices = np.linspace(near-1000, near+1000, 8)] *)
Definition calendar_prices (near : Z) : list (num A) :=
  linspace A (of_int A (near - 1000)) (of_int A (near + 1000)) 8.

(** [pnl = (far-near) - (prices-near)] *)
Definition calendar_pnl (near far : Z) (prices : list (num A)) : list (num A) :=
  map (fun p => fsub A (of_int A (far - near)) (fsub A p (of_int A near))) prices.

(** *** Arbitrage Desk *)

(** [fair = spot*(1+r)] with [r = st.slider("Interest %", 0, 15, 8)/100] *)
Definition fair (spot percent : Z) : Py.result (num A) :=
  r <- int_truediv percent 100 ;;
  Py.Ok (fmul A (of_int A spot) (fadd A (of_int A 1) r)).

(** [prices = np.linspace(spot-200, spot+200, 8)] and [pnl = futures - prices] *)
Definition arbitrage_prices (spot : Z) : list (num A) :=
  linspace A (of_int A (spot - 200)) (of_int A (spot + 200)) 8.

Definition arbitrage_pnl (futures : Z) (prices : list (num A)) : list (num A) :=
  map (fun p => fsub A (of_int A futures) p) prices.

End Panel.
End Cases.

(** ** Panel 12: Advanced Strategies *)

Module Strategies.
Section Panel.

Variable A : Arith.

(** *** Cross Hedging *)

(** [unhedged = exposure*moves] *)
Definition cross_unhedged (exposure : Z) : list (num A) :=
  map (fun m => fmul A (of_int A exposure) m) (Cases.moves10 A).

(** [hedged = exposure*moves*(1-corr)] *)
Definition cross_hedged (exposure : Z) (corr : num A) : list (num A) :=
  map (fun m => fmul A (fmul A (of_int A exposure) m) (fsub A (of_int A 1) corr))
      (Cases.moves10 A).

(** *** Strategy Comparison *)

(** [directional = prices-entry] *)
Definition directional (prices : list (num A)) (entry : Z) : list (num A) :=
  map (fun p => fsub A p (of_int A entry)) prices.

(** [calendar = (entry+200)-(prices-entry)] *)
Definition calendar (prices : list (num A)) (entry : Z) : list (num A) :=
  map (fun p => fsub A (of_int A (entry + 200)) (fsub A p (of_int A entry))) prices.

End Panel.
End Strategies.

(** ** Checks on the grids of eight prices *)

(** The offsets [i * step] of the first seven samples of an eight-point
    grid of width [w], and the check that each lies between the integers
    around [w * i / 7]. *)
Definition grid_offsets (w : Z) : list float :=
  map (fun i => (b64_of_int (Z.of_nat i) * (b64_of_int w / b64_of_int 7))%float) (seq 0 7).

Definition offset_ok (w : Z) (i : nat) (t : float) : bool :=
  b64_move t && Qle_bool (inject_Z (w * Z.of_nat i / 7)) (B2Q t)
  && Qle_bool (B2Q t) (inject_Z (w * Z.of_nat i / 7 + 1)).

Definition offsets_ok (w : Z) : bool :=
  forallb (fun it => offset_ok w (fst it) (snd it)) (combine (seq 0 7) (grid_offsets w)).

(** ** Rational images of the binary64 computations

    What a chain of binary64 operations returns on finite operands in the
    normal range, each operation rounding its exact result. *)

(** The P&L of one side at a price difference [d]:
    [d * contracts * size]. *)
Definition side_value (d : Q) (contracts : Z) : Q :=
  round53 (round53 (round53 d * inject_Z contracts) * 50).

(** The margin balance at a price [P]: [init_margin + pnl]. *)
Definition balance_value (long : bool) (P : Q) (entry contracts init_margin : Z) : Q :=
  let d := if long then P - inject_Z entry else inject_Z entry - P in
  round53 (inject_Z init_margin
           + round53 (round53 (round53 d * inject_Z contracts) * 50)).

(** A fraction as the sliders give it: a zero, or between [2^-20] and 1. *)
Definition b64_fraction (x : float) : bool :=
  (x =? 0)%float || ((0x1p-20 <=? x)%float && (x <=? 1)%float).

(** Sample [i] of the basis path over [n1 + 1] days, short of the last:
    [i * step + basis] with [step = (0 - basis) / n1]. *)
Definition path_value (B : Q) (n1 i : Z) : Q :=
  round53 (round53 (inject_Z i * round53 (- B / inject_Z n1)) + B).

(** A finite float that is zero or of magnitude between [2^-k] and [2^k]. *)
Definition b64_in (k : Z) (x : float) : Prop :=
  b64_finite x = true /\
  (B2Q x == 0 \/ (pow2 (- k) <= Qabs (B2Q x) /\ Qabs (B2Q x) <= pow2 k)).

(** * Properties *)

(** ** Arrays *)

Section ArrayFacts.

Variable A : Arith.

Lemma zip_with_length (f : num A -> num A -> num A) (xs ys : list (num A)) :
  length xs = length ys -> length (zip_with A f xs ys) = length xs.
Proof.
  intros E. unfold zip_with.
  rewrite length_map, length_combine, <- E. apply Nat.min_id.
Qed.

Lemma zip_with_nth_error (f : num A -> num A -> num A) (xs ys : list (num A)) i x y :
  nth_error xs i = Some x -> nth_error ys i = Some y ->
  nth_error (zip_with A f xs ys) i = Some (f x y).
Proof.
  revert ys i. induction xs as [|a xs IH]; intros [|b ys] [|i] Hx Hy;
    simpl in *; try discriminate.
  - now inversion Hx; inversion Hy.
  - now apply IH.
Qed.

Lemma arange_length n : length (arange A n) = n.
Proof. unfold arange. now rewrite length_map, length_seq. Qed.

Lemma arange_nth_error n i :
  (i < n)%nat -> nth_error (arange A n) i = Some (of_int A (Z.of_nat i)).
Proof.
  intros Hi. unfold arange.
  rewrite nth_error_map, nth_error_seq.
  destruct (Nat.ltb_spec i n) as [_|Hn]; [reflexivity | lia].
Qed.

Lemma removelast_length (y : list (num A)) : length (removelast y) = pred (length y).
Proof.
  induction y as [|a [|b y] IH]; try reflexivity.
  change (removelast (a :: b :: y)) with (a :: removelast (b :: y)).
  simpl length in *. now rewrite IH.
Qed.

Lemma set_last_length (y : list (num A)) v : length (set_last A y v) = length y.
Proof.
  destruct y as [|a y]; [reflexivity|].
  unfold set_last. rewrite length_app, removelast_length. simpl. lia.
Qed.

Lemma removelast_nth_error (y : list (num A)) i :
  (S i < length y)%nat -> nth_error (removelast y) i = nth_error y i.
Proof.
  revert i. induction y as [|a [|b y] IH]; intros i Hi; simpl in Hi; try lia.
  change (removelast (a :: b :: y)) with (a :: removelast (b :: y)).
  destruct i as [|i]; [reflexivity|]. simpl. apply IH. simpl. lia.
Qed.

Lemma set_last_nth_error_last (y : list (num A)) v :
  y <> [] -> nth_error (set_last A y v) (pred (length y)) = Some v.
Proof.
  intros Hy. destruct y as [|a y]; [congruence|].
  unfold set_last.
  rewrite nth_error_app2 by (rewrite removelast_length; lia).
  now rewrite removelast_length, Nat.sub_diag.
Qed.

Lemma set_last_nth_error_init (y : list (num A)) v i :
  (S i < length y)%nat -> nth_error (set_last A y v) i = nth_error y i.
Proof.
  intros Hi. destruct y as [|a y]; [simpl in Hi; lia|].
  unfold set_last.
  rewrite nth_error_app1 by (rewrite removelast_length; lia).
  now apply removelast_nth_error.
Qed.

Lemma linspace_length (start stop : num A) n : length (linspace A start stop n) = n.
Proof.
  unfold linspace.
  destruct (1 <? n)%nat; [rewrite set_last_length|]; rewrite length_map;
    destruct (0 <? Z.of_nat n - 1)%Z;
    try destruct (feqb A _ _); rewrite length_map; apply arange_length.
Qed.

(** With at least two samples the last one is [stop] itself. *)
Lemma linspace_last (start stop : num A) n :
  (2 <= n)%nat -> nth_error (linspace A start stop n) (pred n) = Some stop.
Proof.
  intros Hn.
  pose proof (linspace_length start stop n) as L. revert L.
  unfold linspace.
  destruct (Nat.ltb_spec 1 n) as [_|]; [|lia].
  set (y := map _ _). rewrite set_last_length. intros L.
  rewrite <- L. apply set_last_nth_error_last.
  intros E. rewrite E in L. simpl in L. lia.
Qed.

(** The samples before the last, when the step is not zero. *)
Lemma linspace_init (start stop : num A) n i :
  (S i < n)%nat ->
  let step := fdiv A (fsub A stop start) (of_int A (Z.of_nat n - 1)) in
  feqb A step (of_int A 0) = false ->
  nth_error (linspace A start stop n) i =
    Some (fadd A (fmul A (of_int A (Z.of_nat i)) step) start).
Proof.
  intros Hi step Hs. unfold linspace.
  destruct (Nat.ltb_spec 1 n) as [_|]; [|lia].
  destruct (Z.ltb_spec 0 (Z.of_nat n - 1)) as [_|]; [|lia].
  fold step. rewrite Hs.
  rewrite set_last_nth_error_init by (rewrite !length_map, arange_length; lia).
  rewrite !nth_error_map, arange_nth_error by lia. reflexivity.
Qed.

(** The same samples when the step is zero. *)
Lemma linspace_init_zero (start stop : num A) n i :
  (S i < n)%nat ->
  let div := of_int A (Z.of_nat n - 1) in
  let delta := fsub A stop start in
  feqb A (fdiv A delta div) (of_int A 0) = true ->
  nth_error (linspace A start stop n) i =
    Some (fadd A (fmul A (fdiv A (of_int A (Z.of_nat i)) div) delta) start).
Proof.
  intros Hi div delta Hs. unfold linspace.
  destruct (Nat.ltb_spec 1 n) as [_|]; [|lia].
  destruct (Z.ltb_spec 0 (Z.of_nat n - 1)) as [_|]; [|lia].
  fold delta. fold div. rewrite Hs.
  rewrite set_last_nth_error_init by (rewrite !length_map, arange_length; lia).
  rewrite !nth_error_map, arange_nth_error by lia. reflexivity.
Qed.
End ArrayFacts.

(** ** Conversions

    When the [int] operands convert, the scalar operations return, and the
    series are the element-wise products. *)

Section ConversionFacts.

Variable A : Arith.

Lemma to_float_ok n : fits A n = true -> to_float A n = Py.Ok (of_int A n).
Proof. unfold to_float. now intros ->. Qed.


Lemma optimal_contracts_ok (beta : num A) (V F size : Z) :
  fits A V = true -> fits A (F * size) = true -> (F * size)%Z <> 0%Z ->
  HedgingBuilder.optimal_contracts A beta V F size
  = Py.Ok (fdiv A (fmul A beta (of_int A V)) (of_int A (F * size))).
Proof.
  intros HV HFs Hnz. unfold HedgingBuilder.optimal_contracts, mul_int, truediv.
  rewrite (to_float_ok _ HV). cbn [Py.bind]. rewrite (to_float_ok _ HFs). cbn [Py.bind].
  destruct (Z.eqb_spec (F * size) 0) as [E|_]; [contradiction|reflexivity].
Qed.

Lemma portfolio_ok (V : Z) (beta : num A) (moves : list (num A)) :
  fits A V = true ->
  HedgingBuilder.portfolio A V beta moves
  = Py.Ok (map (fun m => fmul A (fmul A (of_int A V) beta) m) moves).
Proof.
  intros HV. unfold HedgingBuilder.portfolio, int_mul.
  rewrite (to_float_ok _ HV). reflexivity.
Qed.

Lemma futures_ok (c : num A) (size F : Z) (moves : list (num A)) :
  fits A size = true -> fits A F = true ->
  HedgingBuilder.futures A c size F moves
  = Py.Ok (map (fun m => fmul A (fmul A (fmul A (fneg A c) (of_int A size)) (of_int A F)) m)
               moves).
Proof.
  intros Hs HF. unfold HedgingBuilder.futures, mul_int.
  rewrite (to_float_ok _ Hs). cbn [Py.bind]. rewrite (to_float_ok _ HF). reflexivity.
Qed.

End ConversionFacts.

(** ** Grids in exact arithmetic *)

Lemma linspace_exact_nth (a b : Q) n i :
  (2 <= n)%nat -> (i < n)%nat ->
  exists v, nth_error (linspace Exact a b n) i = Some v /\ v == grid_point a b n i.
Proof.
  intros Hn Hi. unfold grid_point.
  assert (Hd : 0 < inject_Z (Z.of_nat n - 1)).
  { change 0 with (inject_Z 0). rewrite <- Zlt_Qlt. lia. }
  destruct (Nat.eq_dec i (pred n)) as [->|Hne].
  - exists b. split; [now apply (linspace_last Exact)|].
    replace (Z.of_nat (pred n)) with (Z.of_nat n - 1)%Z by lia.
    field. lra.
  - assert (Hi' : (S i < n)%nat) by lia.
    destruct (feqb Exact (fdiv Exact (fsub Exact b a) (of_int Exact (Z.of_nat n - 1)))
                (of_int Exact 0)) eqn:Hs.
    + eexists. split; [apply (linspace_init_zero Exact); [exact Hi'|exact Hs]|].
      cbn. field. lra.
    + eexists. split; [apply (linspace_init Exact); [exact Hi'|exact Hs]|].
      cbn. ring.
Qed.

Lemma grid_point_step a b n i :
  grid_point a b n (S i) - grid_point a b n i == (b - a) / inject_Z (Z.of_nat n - 1).
Proof.
  unfold grid_point. rewrite Nat2Z.inj_succ. unfold Z.succ. rewrite inject_Z_plus. ring.
Qed.

Lemma grid_point_mono a b n i j :
  (2 <= n)%nat -> a <= b -> (i <= j)%nat -> grid_point a b n i <= grid_point a b n j.
Proof.
  intros Hn Hab Hij. unfold grid_point.
  assert (Hd : 0 < inject_Z (Z.of_nat n - 1)).
  { change 0 with (inject_Z 0). rewrite <- Zlt_Qlt. lia. }
  assert (Hs : 0 <= (b - a) / inject_Z (Z.of_nat n - 1)).
  { apply Qle_shift_div_l; [exact Hd|]. lra. }
  assert (Hz : inject_Z (Z.of_nat i) <= inject_Z (Z.of_nat j)).
  { rewrite <- Zle_Qle. lia. }
  set (s := (b - a) / inject_Z (Z.of_nat n - 1)) in *. nra.
Qed.

Lemma grid_point_strict a b n i j :
  (2 <= n)%nat -> a < b -> (i < j)%nat -> grid_point a b n i < grid_point a b n j.
Proof.
  intros Hn Hab Hij. unfold grid_point.
  assert (Hd : 0 < inject_Z (Z.of_nat n - 1)).
  { change 0 with (inject_Z 0). rewrite <- Zlt_Qlt. lia. }
  assert (Hs : 0 < (b - a) / inject_Z (Z.of_nat n - 1)).
  { apply Qlt_shift_div_l; [exact Hd|]. lra. }
  assert (Hz : inject_Z (Z.of_nat i) < inject_Z (Z.of_nat j)).
  { rewrite <- Zlt_Qlt. lia. }
  set (s := (b - a) / inject_Z (Z.of_nat n - 1)) in *. nra.
Qed.

Lemma grid_point_first a b n : grid_point a b n 0 == a.
Proof. unfold grid_point. simpl. ring. Qed.

Lemma grid_point_last a b n : (2 <= n)%nat -> grid_point a b n (pred n) == b.
Proof.
  intros Hn. unfold grid_point.
  assert (Hd : 0 < inject_Z (Z.of_nat n - 1)).
  { change 0 with (inject_Z 0). rewrite <- Zlt_Qlt. lia. }
  replace (Z.of_nat (pred n)) with (Z.of_nat n - 1)%Z by lia.
  field. lra.
Qed.

(** ** binary64, from the specification of the primitive operations *)

Section Binary64Facts.

Local Open Scope float_scope.

Lemma b64_eqb_zero (x : float) :
  (x =? 0) = true -> exists s, Prim2SF x = S754_zero s.
Proof.
  rewrite eqb_spec. change (Prim2SF 0) with (S754_zero false).
  destruct (Prim2SF x) as [s|s| |s m e]; simpl; try discriminate.
  - intros _. now exists s.
  - destruct s; discriminate.
  - destruct s; discriminate.
Qed.

Lemma b64_zero_eqb (x : float) s : Prim2SF x = S754_zero s -> (x =? 0) = true.
Proof. intros E. rewrite eqb_spec, E. reflexivity. Qed.

(** A finite float times a zero is a zero (of either sign). *)
Lemma b64_mul_zero (a x : float) :
  b64_finite a = true -> (x =? 0) = true -> exists s, Prim2SF (a * x) = S754_zero s.
Proof.
  unfold b64_finite. intros Ha Hx. apply b64_eqb_zero in Hx as [s Hs].
  rewrite mul_spec, Hs.
  destruct (Prim2SF a) as [sa|sa| |sa m e]; try discriminate; simpl; eauto.
Qed.

Lemma b64_add_zero (x y : float) sx sy :
  Prim2SF x = S754_zero sx -> Prim2SF y = S754_zero sy ->
  exists s, Prim2SF (x + y) = S754_zero s.
Proof.
  intros Hx Hy. rewrite add_spec, Hx, Hy. destruct sx, sy; simpl; eauto.
Qed.

Lemma SF64mul_comm x y : SF64mul x y = SF64mul y x.
Proof.
  destruct x as [sx|sx| |sx mx ex], y as [sy|sy| |sy my ey]; simpl;
    try reflexivity; try (now rewrite xorb_comm).
  unfold SF64mul. simpl. now rewrite xorb_comm, Pos.mul_comm, Z.add_comm.
Qed.

Lemma b64_mul_comm (x y : float) : x * y = y * x.
Proof. apply Prim2SF_inj. rewrite !mul_spec. apply SF64mul_comm. Qed.

(** Shifting out the zero bits a multiplication by a power of two appended. *)
Lemma digits2_iter_xO m n :
  Zpos (digits2_pos (Pos.iter xO m n)) = (Zpos (digits2_pos m) + Zpos n)%Z.
Proof.
  induction n using Pos.peano_ind.
  - simpl. lia.
  - rewrite Pos.iter_succ. simpl digits2_pos. lia.
Qed.

Lemma iter_pos_iter {T : Type} (f : T -> T) n x : iter_pos f n x = Pos.iter f x n.
Proof.
  revert x. induction n as [n IH|n IH|]; intros x; simpl.
  - now rewrite !IH, <- !Pos.iter_swap.
  - now rewrite !IH.
  - reflexivity.
Qed.

Lemma shr_iter_xO m n :
  iter_pos shr_1 n {| shr_m := Zpos (Pos.iter xO m n); shr_r := false; shr_s := false |}
  = {| shr_m := Zpos m; shr_r := false; shr_s := false |}.
Proof.
  rewrite iter_pos_iter.
  induction n using Pos.peano_ind.
  - reflexivity.
  - rewrite Pos.iter_succ_r, Pos.iter_succ. exact IHn.
Qed.

Lemma mul_pow2_iter m n : (m * Pos.iter xO 1%positive n = Pos.iter xO m n)%positive.
Proof.
  induction n using Pos.peano_ind.
  - simpl. lia.
  - rewrite !Pos.iter_succ. lia.
Qed.

Lemma SF64mul_one_r x :
  valid_binary x = true ->
  SF64mul x (S754_finite false (Pos.iter xO 1%positive 52) (-52)) = x.
Proof.
  destruct x as [sx|sx| |sx mx ex]; intros Hv;
    try (unfold SF64mul, SFmul; now rewrite ?xorb_false_r).
  unfold SF64mul, SFmul. rewrite xorb_false_r.
  unfold valid_binary, bounded, canonical_mantissa in Hv.
  apply andb_prop in Hv as [Hc Hb].
  apply Z.eqb_eq in Hc. apply Z.leb_le in Hb.
  rewrite mul_pow2_iter.
  unfold binary_round_aux, shr_fexp at 1.
  unfold Zdigits2 at 1. rewrite digits2_iter_xO.
  replace (Z.pos (digits2_pos mx) + 52 + (ex + -52))%Z
    with (Z.pos (digits2_pos mx) + ex)%Z by lia.
  rewrite Hc.
  replace (ex - (ex + -52))%Z with 52%Z by lia.
  unfold shr, shr_record_of_loc. rewrite shr_iter_xO.
  replace (ex + -52 + 52)%Z with ex by lia.
  cbn [shr_m loc_of_shr_record round_nearest_even].
  unfold shr_fexp, Zdigits2. rewrite Hc, Z.sub_diag.
  cbn [shr shr_record_of_loc shr_m].
  destruct (Z.leb_spec ex (emax - prec)); [reflexivity | lia].
Qed.

(** Multiplying by [1.0] changes no float, NaN and infinities included. *)
Lemma b64_mul_one_r (x : float) : x * 1 = x.
Proof.
  apply Prim2SF_inj. rewrite mul_spec.
  change (Prim2SF 1) with (S754_finite false (Pos.iter xO 1%positive 52) (-52)).
  apply SF64mul_one_r, Prim2SF_valid.
Qed.

(** At a zero move each P&L is a zero, provided the scalar it multiplies is
    finite. *)
Lemma b64_zero_move (a b m : float) :
  b64_finite a = true -> b64_finite b = true -> (m =? 0) = true ->
  (a * m =? 0) = true /\ (b * m =? 0) = true /\ (a * m + b * m =? 0) = true.
Proof.
  intros Ha Hb Hz.
  destruct (b64_mul_zero _ Ha Hz) as [sp Hp].
  destruct (b64_mul_zero _ Hb Hz) as [sf Hf].
  destruct (b64_add_zero _ _ Hp Hf) as [sn Hn].
  repeat split; eapply b64_zero_eqb; eassumption.
Qed.

End Binary64Facts.

(** ** The standard model of rounded arithmetic *)

Lemma u64_pos : 0 < u64. Proof. reflexivity. Qed.
Lemma u64_lt1 : u64 < 1. Proof. reflexivity. Qed.

Section StandardModel.

Variable rnd : Q -> Q.
Hypothesis Hm : standard_model rnd.

Lemma rnd_bounds x :
  (0 <= x -> x * (1 - u64) <= rnd x /\ rnd x <= x * (1 + u64)) /\
  (x <= 0 -> x * (1 + u64) <= rnd x /\ rnd x <= x * (1 - u64)).
Proof.
  pose proof (rnd_error Hm x) as H. split; intros Hx.
  - rewrite (Qabs_pos x Hx) in H.
    apply Qabs_Qle_condition in H. destruct H as [H1 H2]. split; lra.
  - rewrite (Qabs_neg x Hx) in H.
    apply Qabs_Qle_condition in H. destruct H as [H1 H2]. split; lra.
Qed.

Lemma swithin_rnd s y lo hi x :
  swithin s y lo hi x -> swithin s y (lo * (1 - u64)) (hi * (1 + u64)) (rnd x).
Proof.
  unfold swithin, within. intros (Hy & Hl & Hh & Ha & Hb).
  pose proof u64_pos. pose proof u64_lt1.
  assert (0 <= y * lo) by nra.
  assert (0 <= y * hi) by nra.
  destruct s; simpl in *.
  - destruct (proj2 (rnd_bounds x)) as [H3 H4]; [lra|].
    repeat split; try nra.
  - destruct (proj1 (rnd_bounds x)) as [H3 H4]; [lra|].
    repeat split; try nra.
Qed.

Lemma swithin_mul s1 y1 lo1 hi1 x1 s2 y2 lo2 hi2 x2 :
  swithin s1 y1 lo1 hi1 x1 -> swithin s2 y2 lo2 hi2 x2 ->
  swithin (xorb s1 s2) (y1 * y2) (lo1 * lo2) (hi1 * hi2) (x1 * x2).
Proof.
  unfold swithin, within.
  intros (Hy1 & Hl1 & Hh1 & Ha1 & Hb1) (Hy2 & Hl2 & Hh2 & Ha2 & Hb2).
  assert (0 <= y1 * lo1) by nra.
  assert (0 <= y2 * lo2) by nra.
  assert (E : signed (xorb s1 s2) (x1 * x2) == signed s1 x1 * signed s2 x2)
    by (destruct s1, s2; simpl; ring).
  rewrite E. repeat split; try nra.
Qed.

Lemma signed_inv s x : signed s (/ x) == / signed s x.
Proof.
  destruct s; simpl; [|reflexivity].
  destruct (Qeq_dec x 0) as [E|N].
  - rewrite E. reflexivity.
  - field. exact N.
Qed.

Lemma swithin_inv s y lo hi x :
  0 < y -> swithin s y lo hi x -> swithin s (/ y) (/ hi) (/ lo) (/ x).
Proof.
  unfold swithin, within. intros Hy0 (Hy & Hl & Hh & Ha & Hb).
  rewrite signed_inv. set (X := signed s x) in *.
  assert (HX : 0 < X) by nra.
  pose proof (Qinv_lt_0_compat _ Hy0). pose proof (Qinv_lt_0_compat _ Hl).
  pose proof (Qinv_lt_0_compat _ Hh).
  repeat split; try lra.
  - apply Qle_shift_inv_l; [exact HX|].
    assert (E : / y * / hi * (y * hi) == 1) by (field; split; lra).
    assert (0 <= / y * / hi) by nra. nra.
  - apply Qle_shift_inv_r; [exact HX|].
    assert (E : / y * / lo * (y * lo) == 1) by (field; split; lra).
    assert (0 <= / y * / lo) by nra. nra.
Qed.

Lemma swithin_div s1 y1 lo1 hi1 x1 s2 y2 lo2 hi2 x2 :
  0 < y2 ->
  swithin s1 y1 lo1 hi1 x1 -> swithin s2 y2 lo2 hi2 x2 ->
  swithin (xorb s1 s2) (y1 / y2) (lo1 / hi2) (hi1 / lo2) (x1 / x2).
Proof.
  intros Hy H1 H2. apply swithin_mul; [exact H1|]. now apply swithin_inv.
Qed.

Lemma swithin_neg s y lo hi x :
  swithin s y lo hi x -> swithin (negb s) y lo hi (- x).
Proof.
  unfold swithin, within. destruct s; simpl; intros H; [exact H|].
  now rewrite Qopp_involutive.
Qed.

Lemma swithin_nonneg x : 0 <= x -> swithin false x 1 1 x.
Proof. unfold swithin, within. simpl. intros. repeat split; lra. Qed.

Lemma swithin_nonpos x : x <= 0 -> swithin true (- x) 1 1 x.
Proof. unfold swithin, within. simpl. intros. repeat split; lra. Qed.

Lemma swithin_eq s y y' lo hi x :
  y == y' -> swithin s y lo hi x -> swithin s y' lo hi x.
Proof. unfold swithin, within. intros E. now rewrite E. Qed.

Lemma swithin_weaken s y lo hi lo' hi' x :
  0 < lo' -> lo' <= lo -> hi <= hi' ->
  swithin s y lo hi x -> swithin s y lo' hi' x.
Proof.
  unfold swithin, within. intros H1 H2 H3 (Hy & Hl & Hh & Ha & Hb).
  repeat split; try nra.
Qed.

Lemma inject_Z_pos z : (0 < z)%Z -> 0 < inject_Z z.
Proof. intros H. change 0 with (inject_Z 0). now rewrite <- Zlt_Qlt. Qed.

Ltac track :=
  lazymatch goal with
  | |- swithin _ _ _ _ (rnd _) => eapply swithin_rnd; track
  | |- swithin _ _ _ _ (_ * _) => eapply swithin_mul; track
  | |- swithin _ _ _ _ (_ / _) => eapply swithin_div; [ | track | track ]
  | |- swithin _ _ _ _ (- _) => eapply swithin_neg; track
  | |- swithin _ _ _ _ _ => first [ eassumption | eapply swithin_nonneg; auto with qarith ]
  end.

Lemma signed_negb s x : signed (negb s) x == - signed s x.
Proof. destruct s; simpl; ring. Qed.

Lemma Qabs_signed s x : Qabs (signed s x) == Qabs x.
Proof. destruct s; simpl; [apply Qabs_opp | reflexivity]. Qed.

Lemma signed_plus s x y : signed s (x + y) == signed s x - - signed s y.
Proof. destruct s; simpl; ring. Qed.

Lemma cancel_bound (P a b r u : Q) :
  0 < u -> u <= 1 # 100 -> 0 <= P ->
  P * (1 - 4 * u) <= a -> a <= P * (1 + 4 * u) ->
  P * (1 - 12 * u) <= b -> b <= P * (1 + 12 * u) ->
  Qabs (r - (a - b)) <= u * Qabs (a - b) ->
  Qabs r <= a.
Proof.
  intros Hu Hu' HP Ha1 Ha2 Hb1 Hb2 Hr.
  assert (Hd : Qabs (a - b) <= P * (16 * u)).
  { apply Qabs_Qle_condition. split; nra. }
  assert (Hd0 := Qabs_nonneg (a - b)).
  set (d := Qabs (a - b)) in *.
  apply Qabs_Qle_condition in Hr. destruct Hr as [Hr1 Hr2].
  assert (Hq := Qle_Qabs (a - b)). fold d in Hq.
  assert (Hq' : - d <= a - b).
  { unfold d. apply (proj1 (Qabs_Qle_condition (a - b) (Qabs (a - b)))). apply Qle_refl. }
  apply Qabs_Qle_condition. split; nra.
Qed.

(** The sum of two values that cancel up to a few roundings is, once
    rounded, no larger than the first of them. *)
Lemma cancel_rounded s P lop hip lof hif p f r :
  swithin s P lop hip p -> swithin (negb s) P lof hif f ->
  1 - 4 * u64 <= lop -> hip <= 1 + 4 * u64 ->
  1 - 12 * u64 <= lof -> hif <= 1 + 12 * u64 ->
  r == rnd (p + f) ->
  Qabs r <= Qabs p.
Proof.
  intros Hp Hf Hlop Hhip Hlof Hhif Er.
  assert (HP : 0 <= P) by apply Hp.
  unfold swithin, within in Hp, Hf.
  destruct Hp as (_ & Hp1 & Hp2 & Hp3 & Hp4).
  destruct Hf as (_ & Hf1 & Hf2 & Hf3 & Hf4).
  assert (Ep : Qabs p == signed s p).
  { rewrite <- (Qabs_signed s). apply Qabs_pos. nra. }
  rewrite Ep, <- (Qabs_signed s r).
  rewrite signed_negb in Hf3, Hf4.
  pose proof (rnd_error Hm (p + f)) as Hr.
  pose proof u64_pos.
  apply cancel_bound with (P := P) (b := - signed s f) (u := u64);
    try (reflexivity || discriminate || assumption || nra).
  rewrite <- signed_plus, (Qabs_signed s (p + f)).
  eapply Qle_trans; [|exact Hr].
  rewrite <- (Qabs_signed s (rnd (p + f) - (p + f))).
  assert (E : signed s r - signed s (p + f) == signed s (rnd (p + f) - (p + f))).
  { destruct s; simpl signed; rewrite Er; ring. }
  rewrite E. apply Qle_refl.
Qed.

Lemma hedged_point (V F size : Z) (beta m : Q) :
  (0 < V)%Z -> (0 < F)%Z -> (0 < size)%Z ->
  let A := Rounded rnd in
  let opt := fdiv A (fmul A beta (of_int A V)) (of_int A (F * size)) in
  let p := fmul A (fmul A (of_int A V) beta) m in
  let f := fmul A (fmul A (fmul A (fneg A opt) (of_int A size)) (of_int A F)) m in
  Qabs (fadd A p f) <= Qabs p.
Proof.
  intros HV HF Hs A opt p f.
  pose proof (inject_Z_pos HV) as HV'.
  pose proof (inject_Z_pos HF) as HF'.
  pose proof (inject_Z_pos Hs) as Hs'.
  assert (HFs : 0 < inject_Z (F * size)) by (apply inject_Z_pos; nia).
  assert (Hb : exists sb yb, swithin sb yb 1 1 beta).
  { destruct (Qlt_le_dec beta 0).
    - exists true, (- beta). apply swithin_nonpos. lra.
    - exists false, beta. now apply swithin_nonneg. }
  assert (Hmv : exists sm ym, swithin sm ym 1 1 m).
  { destruct (Qlt_le_dec m 0).
    - exists true, (- m). apply swithin_nonpos. lra.
    - exists false, m. now apply swithin_nonneg. }
  destruct Hb as (sb & yb & Hb). destruct Hmv as (sm & ym & Hmv).
  assert (Hyb : 0 <= yb) by apply Hb. assert (Hym : 0 <= ym) by apply Hmv.
  set (P := inject_Z V * yb * ym).
  assert (Hp : exists lo hi, swithin (xorb sb sm) P lo hi p /\
     Qle_bool (1 - 4 * u64) lo = true /\ Qle_bool hi (1 + 4 * u64) = true).
  { assert (H : exists s y lo hi, swithin s y lo hi p /\ s = xorb sb sm /\ y == P /\
       Qle_bool (1 - 4 * u64) lo = true /\ Qle_bool hi (1 + 4 * u64) = true).
    { do 4 eexists. split; [|split; [|split]].
      - unfold p. cbn [fmul fdiv lit of_int fneg A Rounded]. track; lra.
      - reflexivity.
      - reflexivity.
      - split; vm_compute; reflexivity. }
    destruct H as (s & y & lo & hi & H & -> & Ey & Hlo & Hhi).
    exists lo, hi. split; [|split]; auto. now apply (swithin_eq Ey). }
  assert (Hf : exists lo hi, swithin (negb (xorb sb sm)) P lo hi f /\
     Qle_bool (1 - 12 * u64) lo = true /\ Qle_bool hi (1 + 12 * u64) = true).
  { assert (H : exists s y lo hi, swithin s y lo hi f /\ s = negb (xorb sb sm) /\ y == P /\
       Qle_bool (1 - 12 * u64) lo = true /\ Qle_bool hi (1 + 12 * u64) = true).
    { do 4 eexists. split; [|split; [|split]].
      - unfold f, opt. cbn [fmul fdiv lit of_int fneg A Rounded]. track; lra.
      - now destruct sb, sm.
      - unfold P. rewrite inject_Z_mult. field. split; lra.
      - split; vm_compute; reflexivity. }
    destruct H as (s & y & lo & hi & H & -> & Ey & Hlo & Hhi).
    exists lo, hi. split; [|split]; auto. now apply (swithin_eq Ey). }
  destruct Hp as (lop & hip & Hp & Hlop & Hhip).
  destruct Hf as (lof & hif & Hf & Hlof & Hhif).
  apply Qle_bool_iff in Hlop, Hhip, Hlof, Hhif.
  eapply cancel_rounded; try eassumption. reflexivity.
Qed.

(** A short hedge gains on a falling market: with positive contracts,
    multiplier and price, a negative move gives a positive futures P&L. *)
Lemma short_hedge_gains (c : Q) (size F : Z) (m : Q) :
  0 < c -> (0 < size)%Z -> (0 < F)%Z -> m < 0 ->
  let A := Rounded rnd in
  0 < fmul A (fmul A (fmul A (fneg A c) (of_int A size)) (of_int A F)) m.
Proof.
  intros Hc Hs HF Hneg A.
  pose proof (inject_Z_pos HF) as HF'.
  pose proof (inject_Z_pos Hs) as Hs'.
  assert (Hc' : swithin false c 1 1 c) by (apply swithin_nonneg; lra).
  assert (Hm' : swithin true (- m) 1 1 m) by (apply swithin_nonpos; lra).
  assert (H : exists s y lo hi,
    swithin s y lo hi (fmul A (fmul A (fmul A (fneg A c) (of_int A size)) (of_int A F)) m)
    /\ s = false /\ y == c * inject_Z size * inject_Z F * - m).
  { do 4 eexists. split; [|split].
    - cbn [fmul fneg of_int A Rounded]. track; lra.
    - reflexivity.
    - reflexivity. }
  destruct H as (s & y & lo & hi & H & -> & Ey).
  apply (swithin_eq Ey) in H.
  unfold swithin, within, signed in H. destruct H as (_ & Hl & _ & Ha & _).
  assert (H1 : 0 < c * inject_Z size) by nra.
  assert (H2 : 0 < c * inject_Z size * inject_Z F) by nra.
  assert (H3 : 0 < c * inject_Z size * inject_Z F * - m) by nra.
  set (y0 := c * inject_Z size * inject_Z F * - m) in *. nra.
Qed.

(** At a zero move all three values are zero. *)
Lemma zero_move_rounded (a b m : Q) :
  m == 0 ->
  let A := Rounded rnd in
  fmul A a m == 0 /\ fmul A b m == 0 /\ fadd A (fmul A a m) (fmul A b m) == 0.
Proof.
  intros Em A.
  assert (Z0 : forall x, x == 0 -> rnd x == 0).
  { intros x Ex. pose proof (rnd_error Hm x) as H.
    assert (Ea : Qabs x == 0) by (rewrite Ex; reflexivity).
    rewrite Ea in H. apply Qabs_Qle_condition in H. lra. }
  cbn [fmul fadd A Rounded].
  assert (Ea : rnd (a * m) == 0) by (apply Z0; rewrite Em; ring).
  assert (Eb : rnd (b * m) == 0) by (apply Z0; rewrite Em; ring).
  repeat split; auto. apply Z0. rewrite Ea, Eb. ring.
Qed.

(** Rounded multiplication by [100] is monotone. *)
Lemma effectiveness_mono_rounded (x y : Q) :
  x <= y ->
  BasisRisk.effectiveness (Rounded rnd) x <= BasisRisk.effectiveness (Rounded rnd) y.
Proof.
  intros Hxy. unfold BasisRisk.effectiveness. cbn [fmul of_int Rounded].
  apply (rnd_mono Hm).
  assert (H : 0 <= rnd (inject_Z 100)).
  { destruct (proj1 (rnd_bounds (inject_Z 100))) as [H _]; [discriminate|].
    eapply Qle_trans; [|exact H]. discriminate. }
  nra.
Qed.

(** For positive [V], [F], [size] and [beta = 1.0], the contract count
    multiplied back by [F] and [size] is [V] up to ten units of roundoff. *)
Lemma round_trip_rounded (V F size : Z) :
  (0 < V)%Z -> (0 < F)%Z -> (0 < size)%Z ->
  let A := Rounded rnd in
  exists opt,
    HedgingBuilder.optimal_contracts A (lit A 1) V F size = Py.Ok opt /\
    Qabs (fmul A (fmul A opt (of_int A F)) (of_int A size) - inject_Z V)
      <= 10 * u64 * inject_Z V.
Proof.
  intros HV HF Hs A.
  unfold HedgingBuilder.optimal_contracts, truediv.
  destruct (Z.eqb_spec (F * size) 0) as [E|_]; [nia|].
  eexists. split; [reflexivity|].
  pose proof (inject_Z_pos HV) as HV'.
  pose proof (inject_Z_pos HF) as HF'.
  pose proof (inject_Z_pos Hs) as Hs'.
  assert (HFs : 0 < inject_Z (F * size)) by (apply inject_Z_pos; nia).
  assert (H : exists s y lo hi, swithin s y lo hi
    (fmul A (fmul A (fdiv A (fmul A (lit A 1) (of_int A V)) (of_int A (F * size)))
                    (of_int A F)) (of_int A size)) /\
     s = false /\ y == inject_Z V /\
     Qle_bool (1 - 10 * u64) lo = true /\ Qle_bool hi (1 + 10 * u64) = true).
  { do 4 eexists. split; [|split; [|split]].
    - cbn [fmul fdiv lit of_int A Rounded]. track; lra.
    - reflexivity.
    - rewrite inject_Z_mult. field. split; lra.
    - split; vm_compute; reflexivity. }
  destruct H as (s & y & lo & hi & H & -> & Ey & Hlo & Hhi).
  apply Qle_bool_iff in Hlo, Hhi.
  apply (swithin_eq Ey) in H.
  unfold swithin, within, signed in H. destruct H as (_ & Hl & Hh & Ha & Hb).
  apply Qabs_Qle_condition. pose proof u64_pos. split; nra.
Qed.

(** With the contract count of the optimal hedge, the hedged P&L is at most
    the unhedged P&L in absolute value at every move of every scenario. *)
Lemma full_hedge_rounded (V F size : Z) (beta : Q) (moves : list Q) :
  (0 < V)%Z -> (0 < F)%Z -> (0 < size)%Z ->
  let A := Rounded rnd in
  exists opt p f,
    HedgingBuilder.optimal_contracts A beta V F size = Py.Ok opt /\
    HedgingBuilder.contracts A "Optimal Hedge" opt = opt /\
    HedgingBuilder.portfolio A V beta moves = Py.Ok p /\
    HedgingBuilder.futures A (HedgingBuilder.contracts A "Optimal Hedge" opt) size F moves
      = Py.Ok f /\
    forall i, (i < length moves)%nat ->
      exists pv nv, nth_error p i = Some pv /\
                    nth_error (HedgingBuilder.net A p f) i = Some nv /\
                    Qabs nv <= Qabs pv.
Proof.
  intros HV HF Hs A.
  do 3 eexists.
  split; [apply optimal_contracts_ok; [reflexivity|reflexivity|nia]|].
  split; [reflexivity|].
  split; [apply portfolio_ok; reflexivity|].
  split; [apply futures_ok; reflexivity|].
  intros i Hi.
  destruct (nth_error moves i) as [m|] eqn:Em;
    [|apply nth_error_None in Em; lia].
  unfold HedgingBuilder.net.
  do 2 eexists. split; [|split].
  - apply map_nth_error. exact Em.
  - apply zip_with_nth_error; apply map_nth_error; exact Em.
  - change (HedgingBuilder.contracts A "Optimal Hedge" ?o) with o.
    now apply hedged_point.
Qed.

End StandardModel.

(** Exact arithmetic is the instance of the standard model that never
    rounds. *)
Lemma exact_standard_model : standard_model (fun x => x).
Proof.
  split.
  - intros x. setoid_replace (x - x) with 0 by ring. simpl.
    pose proof (Qabs_nonneg x). pose proof u64_pos. nra.
  - intros x y H. exact H.
Qed.

(** * binary64 and the standard model

    [SpecFloat] defines each operation by an integer computation followed
    by [binary_round_aux]; this part shows that, on finite operands and
    with the result in the normal range, the value returned is
    [round53] of the exact result, and that [round53] satisfies the
    standard model. *)

Lemma pow2_pos e : 0 < pow2 e.
Proof. apply Qpower_0_lt. reflexivity. Qed.

Lemma pow2_add a b : pow2 (a + b) == pow2 a * pow2 b.
Proof. apply Qpower_plus. discriminate. Qed.

Lemma pow2_sub a b : pow2 (a - b) == pow2 a / pow2 b.
Proof. apply Qpower_minus. discriminate. Qed.

Lemma pow2_succ a : pow2 (a + 1) == 2 * pow2 a.
Proof. rewrite pow2_add. change (pow2 1) with 2. ring. Qed.

Lemma pow2_pred a : pow2 (a - 1) == pow2 a / 2.
Proof. rewrite pow2_sub. reflexivity. Qed.

Lemma pow2_le a b : (a <= b)%Z -> pow2 a <= pow2 b.
Proof. intros H. apply Qpower_le_compat_l; [exact H|discriminate]. Qed.

Lemma pow2_lt a b : (a < b)%Z -> pow2 a < pow2 b.
Proof. intros H. apply Qpower_lt_compat_l; [exact H|reflexivity]. Qed.

Lemma pow2_lt_inv a b : pow2 a < pow2 b -> (a < b)%Z.
Proof. intros H. apply (Qpower_lt_compat_l_inv _ _ _ H). reflexivity. Qed.

Lemma pow2_le_inv a b : pow2 a <= pow2 b -> (a <= b)%Z.
Proof. intros H. apply (Qpower_le_compat_l_inv _ _ _ H). reflexivity. Qed.

Lemma pow2_inject e : (0 <= e)%Z -> pow2 e == inject_Z (2 ^ e).
Proof. intros H. unfold pow2. now rewrite Zpower_Qpower. Qed.

(** The magnitude of a positive rational is unique. *)
Lemma mag_unique x a b :
  pow2 (a - 1) <= x -> x < pow2 a -> pow2 (b - 1) <= x -> x < pow2 b -> a = b.
Proof.
  intros Ha1 Ha2 Hb1 Hb2.
  assert (H1 : (a - 1 < b)%Z) by (apply pow2_lt_inv; lra).
  assert (H2 : (b - 1 < a)%Z) by (apply pow2_lt_inv; lra).
  lia.
Qed.

Lemma digits2_size m : digits2_pos m = Pos.size m.
Proof. induction m; simpl; congruence. Qed.

Lemma digits2_bounds m :
  (2 ^ (Zpos (digits2_pos m) - 1) <= Zpos m < 2 ^ Zpos (digits2_pos m))%Z.
Proof.
  rewrite digits2_size.
  pose proof (Pos.size_gt m) as H1. pose proof (Pos.size_le m) as H2.
  assert (E : (2 ^ Zpos (Pos.size m) = Zpos (2 ^ Pos.size m))%Z) by (now rewrite Pos2Z.inj_pow).
  split.
  - assert (E2 : (2 ^ Zpos (Pos.size m) = 2 * 2 ^ (Zpos (Pos.size m) - 1))%Z).
    { rewrite <- Z.pow_succ_r by lia. f_equal. lia. }
    lia.
  - lia.
Qed.

Lemma digits2_bounds_Q m :
  pow2 (Zpos (digits2_pos m) - 1) <= inject_Z (Zpos m) /\
  inject_Z (Zpos m) < pow2 (Zpos (digits2_pos m)).
Proof.
  destruct (digits2_bounds m) as [H1 H2].
  rewrite !pow2_inject by lia. split; [now rewrite <- Zle_Qle | now rewrite <- Zlt_Qlt].
Qed.

(** ** Locations *)

Lemma inject_xO p : inject_Z (Zpos p~0) == 2 * inject_Z (Zpos p).
Proof. change (Zpos p~0) with (2 * Zpos p)%Z. now rewrite inject_Z_mult. Qed.

Lemma inject_xI p : inject_Z (Zpos p~1) == 2 * inject_Z (Zpos p) + 1.
Proof.
  change (Zpos p~1) with (2 * Zpos p + 1)%Z.
  now rewrite inject_Z_plus, inject_Z_mult.
Qed.

Ltac split_and H :=
  lazymatch type of H with
  | _ /\ _ => destruct H
  | _ => idtac
  end.

Lemma shr_1_ok r t : rec_ok r t -> rec_ok (shr_1 r) (t * (1 # 2)).
Proof.
  destruct r as [m rb sb]. unfold rec_ok. simpl shr_m. intros [Hm H].
  destruct m as [|p|p]; [| |lia].
  - destruct rb, sb; simpl in *; (split; [lia|]);
      change (inject_Z 0) with 0 in *; split_and H; try split; lra.
  - destruct p as [p|p|]; destruct rb, sb; simpl in H |- *; (split; [lia|]);
      rewrite ?inject_xO, ?inject_xI in H;
      change (inject_Z 1) with 1 in *; change (inject_Z 0) with 0 in *;
      split_and H; try split; lra.
Qed.

Lemma loc_ok_eq m l t t' : t == t' -> loc_ok m l t -> loc_ok m l t'.
Proof.
  intros E. destruct l as [|[| |]]; simpl; rewrite E; auto.
Qed.

Lemma rec_ok_eq r t t' : t == t' -> rec_ok r t -> rec_ok r t'.
Proof. intros E [H1 H2]. split; [exact H1|]. now apply (loc_ok_eq _ _ E). Qed.

Lemma shr_iter_ok r t n :
  rec_ok r t -> rec_ok (iter_pos shr_1 n r) (t * pow2 (- Zpos n)).
Proof.
  intros H. rewrite iter_pos_iter.
  induction n using Pos.peano_ind.
  - simpl. apply shr_1_ok in H. revert H. apply rec_ok_eq.
    change (pow2 (-1)) with (1 # 2). reflexivity.
  - rewrite Pos.iter_succ. apply shr_1_ok in IHn. revert IHn. apply rec_ok_eq.
    replace (- Zpos (Pos.succ n))%Z with (- Zpos n + - 1)%Z by lia.
    rewrite pow2_add. change (pow2 (-1)) with (1 # 2). ring.
Qed.

(** ** Rounding to the nearest integer, ties to even *)

Lemma Qfloor_unique t m : inject_Z m <= t -> t < inject_Z m + 1 -> Qfloor t = m.
Proof.
  intros H1 H2.
  pose proof (Qfloor_le t) as F1. pose proof (Qlt_floor t) as F2.
  rewrite inject_Z_plus in F2. change (inject_Z 1) with 1 in F2.
  assert (A : (Qfloor t < m + 1)%Z).
  { rewrite Zlt_Qlt, inject_Z_plus. change (inject_Z 1) with 1. lra. }
  assert (B : (m < Qfloor t + 1)%Z).
  { rewrite Zlt_Qlt, inject_Z_plus. change (inject_Z 1) with 1. lra. }
  lia.
Qed.

Lemma round_nearest_even_rne m l t :
  loc_ok m l t -> round_nearest_even m l = rne t.
Proof.
  intros H. unfold rne.
  assert (F : Qfloor t = m).
  { apply Qfloor_unique; destruct l as [|[| |]]; cbn [loc_ok] in H; split_and H; lra. }
  rewrite F.
  destruct l as [|[| |]]; cbn [loc_ok round_nearest_even] in H |- *; split_and H.
  - assert (C : Qcompare (t - inject_Z m) (1 # 2) = Lt) by (apply (proj1 (Qlt_alt _ _)); lra).
    now rewrite C.
  - assert (C : Qcompare (t - inject_Z m) (1 # 2) = Eq) by (apply (proj1 (Qeq_alt _ _)); lra).
    now rewrite C.
  - assert (C : Qcompare (t - inject_Z m) (1 # 2) = Lt) by (apply (proj1 (Qlt_alt _ _)); lra).
    now rewrite C.
  - assert (C : Qcompare (t - inject_Z m) (1 # 2) = Gt) by (apply (proj1 (Qgt_alt _ _)); lra).
    now rewrite C.
Qed.

Lemma rne_bounds t :
  Qabs (inject_Z (rne t) - t) <= 1 # 2 /\
  (Qfloor t <= rne t <= Qfloor t + 1)%Z.
Proof.
  unfold rne.
  pose proof (Qfloor_le t) as F1. pose proof (Qlt_floor t) as F2.
  rewrite inject_Z_plus in F2. change (inject_Z 1) with 1 in F2.
  set (f := Qfloor t) in *.
  destruct (Qcompare_spec (t - inject_Z f) (1 # 2)) as [E|L|G].
  - destruct (Z.even f); (split; [|lia]); apply Qabs_Qle_condition;
      rewrite ?inject_Z_plus; change (inject_Z 1) with 1; split; lra.
  - split; [|lia]. apply Qabs_Qle_condition. split; lra.
  - split; [|lia]. apply Qabs_Qle_condition.
    rewrite inject_Z_plus. change (inject_Z 1) with 1. split; lra.
Qed.

Lemma rne_mono t t' : t <= t' -> (rne t <= rne t')%Z.
Proof.
  intros H. unfold rne.
  pose proof (Qfloor_resp_le _ _ H) as Hf.
  pose proof (Qfloor_le t) as F1. pose proof (Qlt_floor t) as F2.
  pose proof (Qfloor_le t') as F1'. pose proof (Qlt_floor t') as F2'.
  rewrite inject_Z_plus in F2, F2'. change (inject_Z 1) with 1 in F2, F2'.
  set (f := Qfloor t) in *. set (f' := Qfloor t') in *.
  destruct (Z.eq_dec f f') as [E|N].
  - rewrite <- E in *.
    destruct (Qcompare_spec (t - inject_Z f) (1 # 2)) as [E1|L1|G1];
      destruct (Qcompare_spec (t' - inject_Z f) (1 # 2)) as [E2|L2|G2];
      destruct (Z.even f); try lia; lra.
  - assert (f + 1 <= f')%Z by lia.
    destruct (Qcompare (t - inject_Z f) (1 # 2)); destruct (Qcompare (t' - inject_Z f') (1 # 2));
      destruct (Z.even f); destruct (Z.even f'); lia.
Qed.

Lemma rne_inject z : rne (inject_Z z) = z.
Proof.
  unfold rne. rewrite Qfloor_Z.
  assert (C : Qcompare (inject_Z z - inject_Z z) (1 # 2) = Lt) by (apply (proj1 (Qlt_alt _ _)); lra).
  now rewrite C.
Qed.

(** ** The rounding step of every operation *)

Lemma fexp_eq e : fexp prec emax e = Z.max (e - 53) (-1074).
Proof. reflexivity. Qed.

Lemma digits2_unique p k :
  (2 ^ (k - 1) <= Zpos p < 2 ^ k)%Z -> Zpos (digits2_pos p) = k.
Proof.
  intros [H1 H2]. destruct (digits2_bounds p) as [D1 D2].
  set (d := Zpos (digits2_pos p)) in *.
  assert (Hk : (0 < k)%Z).
  { destruct (Z.lt_ge_cases 0 k); [assumption|].
    rewrite (Z.pow_neg_r 2 (k - 1)) in H1 by lia.
    destruct (Z.eq_dec k 0) as [->|]; [simpl in H2; lia|].
    rewrite (Z.pow_neg_r 2 k) in H2 by lia. lia. }
  assert (A : (k - 1 < d)%Z).
  { apply (Z.pow_lt_mono_r_iff 2); lia. }
  assert (B : (d - 1 < k)%Z).
  { apply (Z.pow_lt_mono_r_iff 2); lia. }
  lia.
Qed.

Lemma loc_of_shr_record_of_loc m l :
  loc_of_shr_record (shr_record_of_loc m l) = l /\ shr_m (shr_record_of_loc m l) = m.
Proof. destruct l as [|[| |]]; split; reflexivity. Qed.

Lemma binary_round_aux_correct s mz ez lz x :
  (0 < mz)%Z -> loc_ok mz lz (x * pow2 (- ez)) ->
  let e' := (Zdigits2 mz + ez - 53)%Z in
  (ez <= e')%Z -> (-1074 <= e')%Z -> (e' <= 970)%Z ->
  exists m e,
    binary_round_aux prec emax s mz ez lz = S754_finite s m e /\
    valid_binary (S754_finite s m e) = true /\
    inject_Z (Zpos m) * pow2 e == inject_Z (rne (x * pow2 (- e'))) * pow2 e'.
Proof.
  intros Hmz Hloc e' Hn Hlo Hhi.
  destruct mz as [|pz|pz]; try lia.
  set (d := Zdigits2 (Zpos pz)) in *.
  assert (Hd : d = Zpos (digits2_pos pz)) by reflexivity.
  destruct (digits2_bounds_Q pz) as [D1 D2]. rewrite <- Hd in D1, D2.
  (* first shift *)
  assert (H1 : exists mrs, shr_fexp prec emax (Zpos pz) ez lz = (mrs, e') /\
                           rec_ok mrs (x * pow2 (- e'))).
  { unfold shr_fexp. fold d. rewrite fexp_eq.
    replace (Z.max (d + ez - 53) (-1074)) with e' by (unfold e'; lia).
    destruct (loc_of_shr_record_of_loc (Zpos pz) lz) as [L1 L2].
    assert (R0 : rec_ok (shr_record_of_loc (Zpos pz) lz) (x * pow2 (- ez))).
    { split; [rewrite L2; lia|]. now rewrite L1, L2. }
    destruct (e' - ez)%Z as [|n|n] eqn:En; try lia.
    - exists (shr_record_of_loc (Zpos pz) lz). split.
      + unfold shr. f_equal. lia.
      + replace e' with ez by lia. exact R0.
    - exists (iter_pos shr_1 n (shr_record_of_loc (Zpos pz) lz)). split.
      + unfold shr. f_equal. lia.
      + apply (shr_iter_ok n) in R0. revert R0. apply rec_ok_eq.
        rewrite <- Qmult_assoc, <- pow2_add. 
        replace (- ez + - Z.pos n)%Z with (- e')%Z by lia. reflexivity. }
  destruct H1 as (mrs & E1 & [Hm' Hl']).
  unfold binary_round_aux. rewrite E1.
  rewrite (round_nearest_even_rne _ _ _ Hl').
  set (t := x * pow2 (- e')) in *.
  (* the scaled value lies in [2^52, 2^53) *)
  assert (Ht : pow2 52 <= t /\ t < pow2 53).
  { assert (Hx : inject_Z (Zpos pz) <= x * pow2 (- ez) /\ x * pow2 (- ez) < inject_Z (Zpos pz) + 1).
    { destruct lz as [|[| |]]; cbn [loc_ok] in Hloc; split_and Hloc; split; lra. }
    assert (D3 : inject_Z (Zpos pz) + 1 <= pow2 d).
    { destruct (digits2_bounds pz) as [_ B]. rewrite <- Hd in B.
      rewrite pow2_inject by lia. rewrite <- (inject_Z_plus _ 1), <- Zle_Qle. lia. }
    assert (Et : t == x * pow2 (- ez) * pow2 (- (d - 53))).
    { unfold t. rewrite <- Qmult_assoc, <- pow2_add.
      replace (- ez + - (d - 53))%Z with (- e')%Z by (unfold e'; lia). reflexivity. }
    assert (P1 : pow2 52 == pow2 (d - 1) * pow2 (- (d - 53))).
    { rewrite <- pow2_add. replace (d - 1 + - (d - 53))%Z with 52%Z by lia. reflexivity. }
    assert (P2 : pow2 53 == pow2 d * pow2 (- (d - 53))).
    { rewrite <- pow2_add. replace (d + - (d - 53))%Z with 53%Z by lia. reflexivity. }
    pose proof (pow2_pos (- (d - 53))) as Pp.
    rewrite Et, P1, P2. destruct Hx. split; nra. }
  assert (HR : (2 ^ 52 <= rne t <= 2 ^ 53)%Z).
  { destruct Ht as [T1 T2]. split.
    - rewrite <- (rne_inject (2 ^ 52)). apply rne_mono.
      rewrite <- pow2_inject by lia. exact T1.
    - rewrite <- (rne_inject (2 ^ 53)). apply rne_mono.
      rewrite <- pow2_inject by lia. lra. }
  destruct (rne t) as [|R|R] eqn:ER; try lia.
  destruct (Z.eq_dec (Zpos R) (2 ^ 53)) as [E53|N53].
  - (* the mantissa carried into a 54th bit *)
    assert (DR : Zpos (digits2_pos R) = 54%Z) by (apply digits2_unique; lia).
    unfold shr_fexp. cbn [Zdigits2]. rewrite DR, fexp_eq.
    replace (Z.max (54 + e' - 53) (-1074) - e')%Z with 1%Z by lia.
    injection E53 as ->.
    cbn [shr shr_record_of_loc iter_pos shr_1 shr_m].
    exists (2 ^ 52)%positive, (e' + 1)%Z. split; [|split].
    + destruct (Z.leb_spec (e' + 1) (emax - prec)) as [_|B]; [reflexivity|].
      unfold emax, prec in B. lia.
    + unfold valid_binary, bounded, canonical_mantissa. rewrite fexp_eq.
      change (Zpos (digits2_pos (2 ^ 52))) with 53%Z.
      apply andb_true_intro. split; [apply Z.eqb_eq|apply Z.leb_le; unfold emax, prec]; lia.
    + rewrite pow2_succ. 
      change (inject_Z (Zpos (2 ^ 52))) with (4503599627370496 # 1).
      change (inject_Z (Zpos (2 ^ 53))) with (9007199254740992 # 1). ring.
  - assert (DR : Zpos (digits2_pos R) = 53%Z) by (apply digits2_unique; lia).
    unfold shr_fexp. cbn [Zdigits2]. rewrite DR, fexp_eq.
    replace (Z.max (53 + e' - 53) (-1074) - e')%Z with 0%Z by lia.
    cbn [shr shr_record_of_loc shr_m].
    exists R, e'. split; [|split; [|reflexivity]].
    + destruct (Z.leb_spec e' (emax - prec)) as [_|B]; [reflexivity|].
      unfold emax, prec in B. lia.
    + unfold valid_binary, bounded, canonical_mantissa. rewrite fexp_eq, DR.
      apply andb_true_intro. split; [apply Z.eqb_eq|apply Z.leb_le; unfold emax, prec]; lia.
Qed.

(** ** Rounding a rational to 53 significant bits *)

Lemma mag_spec x : 0 < x -> pow2 (mag x - 1) <= x /\ x < pow2 (mag x).
Proof.
  intros Hx. unfold mag.
  destruct x as [n d]. cbn [Qnum Qden].
  assert (Hn : (0 < n)%Z).
  { unfold Qlt in Hx. simpl in Hx. lia. }
  pose proof (Z.log2_spec n Hn) as [N1 N2].
  pose proof (Z.log2_spec (Zpos d) (Pos2Z.is_pos d)) as [D1 D2].
  pose proof (Z.log2_nonneg n) as Ln. pose proof (Z.log2_nonneg (Zpos d)) as Ld.
  set (ln := Z.log2 n) in *. set (ld := Z.log2 (Zpos d)) in *.
  assert (Ex : n # d == inject_Z n / inject_Z (Zpos d)) by apply Qmake_Qdiv.
  assert (Hd0 : 0 < inject_Z (Zpos d)) by (change 0 with (inject_Z 0); now rewrite <- Zlt_Qlt).
  assert (Q1 : pow2 ln <= inject_Z n) by (rewrite pow2_inject by lia; now rewrite <- Zle_Qle).
  assert (Q2 : inject_Z n < pow2 (ln + 1))
    by (rewrite pow2_inject by lia; now rewrite <- Zlt_Qlt).
  assert (Q3 : pow2 ld <= inject_Z (Zpos d)) by (rewrite pow2_inject by lia; now rewrite <- Zle_Qle).
  assert (Q4 : inject_Z (Zpos d) < pow2 (ld + 1))
    by (rewrite pow2_inject by lia; now rewrite <- Zlt_Qlt).
  assert (Hup : n # d < pow2 (ln - ld + 1)).
  { rewrite Ex. apply Qlt_shift_div_r; [exact Hd0|].
    replace (ln - ld + 1)%Z with ((ln + 1) + - ld)%Z by lia.
    rewrite pow2_add.
    assert (E : pow2 (- ld) * pow2 ld == 1).
    { rewrite <- pow2_add. replace (- ld + ld)%Z with 0%Z by lia. reflexivity. }
    pose proof (pow2_pos (- ld)). pose proof (pow2_pos (ln + 1)). pose proof (pow2_pos ld).
    assert (1 <= pow2 (- ld) * inject_Z (Zpos d)) by nra.
    set (a := pow2 (- ld) * inject_Z (Zpos d)) in *.
    setoid_replace (pow2 (ln + 1) * pow2 (- ld) * inject_Z (Zpos d))
      with (pow2 (ln + 1) * a) by (unfold a; ring).
    nra. }
  assert (Hlow : pow2 (ln - ld - 1) <= n # d).
  { rewrite Ex. apply Qle_shift_div_l; [exact Hd0|].
    replace (ln - ld - 1)%Z with (ln + - (ld + 1))%Z by lia.
    rewrite pow2_add.
    assert (E : pow2 (- (ld + 1)) * pow2 (ld + 1) == 1).
    { rewrite <- pow2_add. replace (- (ld + 1) + (ld + 1))%Z with 0%Z by lia. reflexivity. }
    pose proof (pow2_pos (- (ld + 1))). pose proof (pow2_pos ln). pose proof (pow2_pos (ld + 1)).
    assert (pow2 (- (ld + 1)) * inject_Z (Zpos d) <= 1) by nra.
    set (a := pow2 (- (ld + 1)) * inject_Z (Zpos d)) in *.
    setoid_replace (pow2 ln * pow2 (- (ld + 1)) * inject_Z (Zpos d))
      with (pow2 ln * a) by (unfold a; ring).
    assert (0 <= a) by (unfold a; nra).
    nra. }
  destruct (Qle_bool (pow2 (ln - ld)) (n # d)) eqn:B.
  - apply Qle_bool_iff in B.
    replace (ln - ld + 1 - 1)%Z with (ln - ld)%Z by lia. split; assumption.
  - assert (B' : n # d < pow2 (ln - ld)).
    { apply Qnot_le_lt. intros C. apply Qle_bool_iff in C. congruence. }
    split; assumption.
Qed.

Lemma mag_of_bounds x k : pow2 (k - 1) <= x -> x < pow2 k -> mag x = k.
Proof.
  intros H1 H2.
  assert (Hx : 0 < x) by (pose proof (pow2_pos (k - 1)); lra).
  destruct (mag_spec Hx) as [M1 M2].
  apply mag_unique with (x := x); assumption.
Qed.

Lemma round53_pos_bounds x :
  0 < x -> pow2 (mag x - 1) <= round53_pos x /\ round53_pos x <= pow2 (mag x) /\
           Qabs (round53_pos x - x) <= pow2 (mag x - 54).
Proof.
  intros Hx. destruct (mag_spec Hx) as [M1 M2]. unfold round53_pos.
  set (c := (mag x - 53)%Z). set (t := x * pow2 (- c)).
  pose proof (pow2_pos c) as Pc. pose proof (pow2_pos (- c)) as Pc'.
  assert (Ecc : pow2 (- c) * pow2 c == 1).
  { rewrite <- pow2_add. replace (- c + c)%Z with 0%Z by lia. reflexivity. }
  assert (Ex : x == t * pow2 c) by (unfold t; rewrite <- Qmult_assoc, Ecc; ring).
  assert (P52 : pow2 (mag x - 1) == pow2 52 * pow2 c).
  { rewrite <- pow2_add. replace (52 + c)%Z with (mag x - 1)%Z by (unfold c; lia). reflexivity. }
  assert (P53 : pow2 (mag x) == pow2 53 * pow2 c).
  { rewrite <- pow2_add. replace (53 + c)%Z with (mag x)%Z by (unfold c; lia). reflexivity. }
  assert (P54 : pow2 (mag x - 54) == (1 # 2) * pow2 c).
  { replace (mag x - 54)%Z with (-1 + c)%Z by (unfold c; lia). rewrite pow2_add. reflexivity. }
  assert (Ht : pow2 52 <= t /\ t < pow2 53).
  { split.
    - apply (Qmult_le_r _ _ (pow2 c)); [exact Pc|]. lra.
    - apply (Qmult_lt_r _ _ (pow2 c)); [exact Pc|]. lra. }
  assert (HR : (2 ^ 52 <= rne t <= 2 ^ 53)%Z).
  { destruct Ht as [T1 T2]. split.
    - rewrite <- (rne_inject (2 ^ 52)). apply rne_mono.
      rewrite <- pow2_inject by lia. exact T1.
    - rewrite <- (rne_inject (2 ^ 53)). apply rne_mono.
      rewrite <- pow2_inject by lia. lra. }
  destruct (rne_bounds t) as [B _].
  apply Qabs_Qle_condition in B. destruct B as [B1 B2].
  destruct HR as [R1 R2]. rewrite Zle_Qle in R1, R2.
  rewrite <- !pow2_inject in R1, R2 by lia.
  set (r := inject_Z (rne t)) in *.
  split; [nra|]. split; [nra|].
  apply Qabs_Qle_condition. split; nra.
Qed.

Lemma round53_pos_mono x y : 0 < x -> x <= y -> round53_pos x <= round53_pos y.
Proof.
  intros Hx Hxy. assert (Hy : 0 < y) by lra.
  destruct (mag_spec Hx) as [X1 X2]. destruct (mag_spec Hy) as [Y1 Y2].
  assert (Hm : (mag x <= mag y)%Z).
  { destruct (Z.le_gt_cases (mag x) (mag y)) as [|C]; [assumption|].
    assert (pow2 (mag y) <= pow2 (mag x - 1)) by (apply pow2_le; lia). lra. }
  destruct (Z.eq_dec (mag x) (mag y)) as [E|N].
  - unfold round53_pos. rewrite E. set (c := (mag y - 53)%Z).
    pose proof (pow2_pos c) as Pc. pose proof (pow2_pos (- c)) as Pc'.
    assert (T : x * pow2 (- c) <= y * pow2 (- c)) by nra.
    apply rne_mono in T. rewrite Zle_Qle in T. nra.
  - destruct (round53_pos_bounds Hx) as (_ & B & _).
    destruct (round53_pos_bounds Hy) as (B' & _ & _).
    assert (pow2 (mag x) <= pow2 (mag y - 1)) by (apply pow2_le; lia). lra.
Qed.

Lemma round53_pos_error x : 0 < x -> Qabs (round53_pos x - x) <= u64 * x.
Proof.
  intros Hx. destruct (round53_pos_bounds Hx) as (_ & _ & B).
  destruct (mag_spec Hx) as [M1 _].
  eapply Qle_trans; [exact B|].
  assert (E : pow2 (mag x - 54) == u64 * pow2 (mag x - 1)).
  { replace (mag x - 54)%Z with (-53 + (mag x - 1))%Z by lia.
    rewrite pow2_add. reflexivity. }
  rewrite E. pose proof u64_pos. nra.
Qed.

Lemma round53_cases x :
  (x == 0 /\ round53 x = 0) \/
  (0 < x /\ round53 x = round53_pos x) \/
  (x < 0 /\ round53 x = - round53_pos (- x)).
Proof.
  unfold round53. destruct (Qcompare_spec x 0) as [E|L|G]; auto.
Qed.

Lemma round53_standard_model : standard_model round53.
Proof.
  split.
  - intros x. destruct (round53_cases x) as [[E ->]|[[H ->]|[H ->]]].
    + setoid_replace (0 - x) with (- x) by ring.
      rewrite Qabs_opp. rewrite E. simpl. pose proof u64_pos. nra.
    + rewrite (Qabs_pos x) by lra. now apply round53_pos_error.
    + rewrite (Qabs_neg x) by lra.
      setoid_replace (- round53_pos (- x) - x) with (- (round53_pos (- x) - - x)) by ring.
      rewrite Qabs_opp. apply round53_pos_error. lra.
  - intros x y Hxy.
    assert (P : forall z, 0 < z -> 0 < round53_pos z).
    { intros z Hz. destruct (round53_pos_bounds Hz) as (B & _).
      pose proof (pow2_pos (mag z - 1)). lra. }
    destruct (round53_cases x) as [[Ex ->]|[[Hx ->]|[Hx ->]]];
      destruct (round53_cases y) as [[Ey ->]|[[Hy ->]|[Hy ->]]]; try lra.
    + apply Qlt_le_weak, P, Hy.
    + now apply round53_pos_mono.
    + assert (0 < round53_pos (- x)) by (apply P; lra). lra.
    + assert (0 < round53_pos (- x)) by (apply P; lra).
      assert (0 < round53_pos y) by (apply P; lra). lra.
    + assert (round53_pos (- y) <= round53_pos (- x)) by (apply round53_pos_mono; lra). lra.
Qed.

(** ** Finite floats and their values *)

Lemma valid_finite_cases m e :
  valid_binary (S754_finite false m e) = true ->
  (e <= 971)%Z /\
  ((Zpos (digits2_pos m) = 53%Z /\ (-1074 <= e)%Z) \/
   ((Zpos (digits2_pos m) < 53)%Z /\ e = (-1074)%Z)).
Proof.
  unfold valid_binary, bounded, canonical_mantissa. rewrite fexp_eq.
  intros H. apply andb_prop in H as [Hc Hb].
  apply Z.eqb_eq in Hc. apply Z.leb_le in Hb.
  unfold emax, prec in Hb. split; [lia|]. lia.
Qed.

Lemma mantissa_value_bounds m e :
  let v := inject_Z (Zpos m) * pow2 e in
  pow2 (Zpos (digits2_pos m) + e - 1) <= v /\ v < pow2 (Zpos (digits2_pos m) + e).
Proof.
  intros v. destruct (digits2_bounds_Q m) as [D1 D2].
  pose proof (pow2_pos e) as Pe.
  replace (Zpos (digits2_pos m) + e - 1)%Z with ((Zpos (digits2_pos m) - 1) + e)%Z by lia.
  rewrite !pow2_add. unfold v. split; nra.
Qed.

(** A valid finite float of magnitude at least 2^-1022 is normal. *)
Lemma valid_normal m e :
  valid_binary (S754_finite false m e) = true ->
  pow2 (-1022) <= inject_Z (Zpos m) * pow2 e ->
  Zpos (digits2_pos m) = 53%Z /\ (-1074 <= e <= 971)%Z.
Proof.
  intros Hv Hx. destruct (@valid_finite_cases _ _ Hv) as [He [[Hd Hl]|[Hd ->]]].
  - split; [exact Hd|lia].
  - exfalso. destruct (mantissa_value_bounds m (-1074)) as [_ B]. cbv zeta in B.
    assert (pow2 (Zpos (digits2_pos m) + -1074) <= pow2 (-1022)) by (apply pow2_le; lia).
    lra.
Qed.

Lemma signed_mult s1 s2 a b : signed (xorb s1 s2) (a * b) == signed s1 a * signed s2 b.
Proof. destruct s1, s2; simpl; ring. Qed.

Lemma Qabs_signed_pos s a : 0 <= a -> Qabs (signed s a) == a.
Proof.
  intros Ha. rewrite Qabs_signed. now apply Qabs_pos.
Qed.

Lemma rne_comp t t' : t == t' -> rne t = rne t'.
Proof.
  intros E. unfold rne. rewrite (Qfloor_comp _ _ E).
  assert (C : Qcompare (t - inject_Z (Qfloor t')) (1 # 2)
            = Qcompare (t' - inject_Z (Qfloor t')) (1 # 2)).
  { apply Qcompare_comp; [now rewrite E | reflexivity]. }
  now rewrite C.
Qed.

Lemma mag_comp x y : 0 < x -> x == y -> mag x = mag y.
Proof.
  intros Hx E. destruct (mag_spec Hx) as [M1 M2].
  symmetry. apply mag_of_bounds; now rewrite <- E.
Qed.

Lemma round53_pos_comp x y : 0 < x -> x == y -> round53_pos x == round53_pos y.
Proof.
  intros Hx E. unfold round53_pos. rewrite <- (mag_comp Hx E).
  rewrite (rne_comp (t := x * pow2 (- (mag x - 53))) (t' := y * pow2 (- (mag x - 53)))).
  - reflexivity.
  - apply Qmult_comp; [exact E|reflexivity].
Qed.

#[global] Instance round53_proper : Proper (Qeq ==> Qeq) round53.
Proof.
  intros x y E.
  destruct (round53_cases x) as [[Ex ->]|[[Hx ->]|[Hx ->]]];
    destruct (round53_cases y) as [[Ey ->]|[[Hy ->]|[Hy ->]]]; try lra.
  - now apply round53_pos_comp.
  - apply Qopp_comp. apply round53_pos_comp; [lra|now rewrite E].
Qed.

Lemma round53_signed s a : 0 < a -> round53 (signed s a) == signed s (round53_pos a).
Proof.
  intros Ha. destruct s; simpl.
  - destruct (round53_cases (- a)) as [[Ex ->]|[[Hx ->]|[Hx ->]]]; try lra.
    apply Qopp_comp. apply round53_pos_comp; [lra|ring].
  - destruct (round53_cases a) as [[Ex ->]|[[Hx ->]|[Hx ->]]]; lra.
Qed.

(** A correctly rounded result, from the rounding step. *)
Lemma binary_round_aux_round53 s mz ez lz x :
  (0 < mz)%Z -> loc_ok mz lz (x * pow2 (- ez)) ->
  (53 <= Zdigits2 mz)%Z ->
  pow2 (-1021) <= x -> x < pow2 1023 ->
  exists m e,
    binary_round_aux prec emax s mz ez lz = S754_finite s m e /\
    valid_binary (S754_finite s m e) = true /\
    SF2Q (S754_finite s m e) == round53 (signed s x).
Proof.
  intros Hmz Hloc Hd Hlo Hhi.
  assert (Hx : 0 < x) by (pose proof (pow2_pos (-1021)); lra).
  destruct mz as [|pz|pz]; try lia.
  (* the magnitude of x *)
  assert (Hb : inject_Z (Zpos pz) <= x * pow2 (- ez) /\ x * pow2 (- ez) < inject_Z (Zpos pz) + 1).
  { destruct lz as [|[| |]]; cbn [loc_ok] in Hloc; split_and Hloc; split; lra. }
  set (d := Zdigits2 (Zpos pz)) in *.
  assert (Hdd : d = Zpos (digits2_pos pz)) by reflexivity.
  assert (Hmag : mag x = (d + ez)%Z).
  { destruct (digits2_bounds_Q pz) as [D1 D2]. rewrite <- Hdd in D1, D2.
    assert (D3 : inject_Z (Zpos pz) + 1 <= pow2 d).
    { destruct (digits2_bounds pz) as [_ B]. rewrite <- Hdd in B.
      rewrite pow2_inject by lia. rewrite <- (inject_Z_plus _ 1), <- Zle_Qle. lia. }
    pose proof (pow2_pos ez) as Pe. pose proof (pow2_pos (- ez)) as Pe'.
    assert (Ee : pow2 (- ez) * pow2 ez == 1).
    { rewrite <- pow2_add. replace (- ez + ez)%Z with 0%Z by lia. reflexivity. }
    set (t := x * pow2 (- ez)) in *.
    assert (Ex : x == t * pow2 ez) by (unfold t; rewrite <- Qmult_assoc, Ee; ring).
    apply mag_of_bounds.
    - replace (d + ez - 1)%Z with ((d - 1) + ez)%Z by lia. rewrite pow2_add. nra.
    - rewrite pow2_add. nra. }
  destruct (mag_spec Hx) as [M1 M2]. rewrite Hmag in M1, M2.
  assert (R1 : (-1021 < d + ez)%Z) by (apply pow2_lt_inv; lra).
  assert (R2 : (d + ez - 1 < 1023)%Z) by (apply pow2_lt_inv; lra).
  destruct (@binary_round_aux_correct s (Zpos pz) ez lz x) as (m & e & E1 & Ev & E2);
    try assumption; fold d; try lia.
  exists m, e. split; [exact E1|]. split; [exact Ev|].
  rewrite round53_signed by exact Hx. cbn [SF2Q].
  destruct s; cbn [signed]; [apply Qopp_comp|]; rewrite E2; unfold round53_pos; rewrite Hmag;
    reflexivity.
Qed.

(** ** Multiplication *)

Lemma digits2_ge p k : (2 ^ k <= Zpos p)%Z -> (0 <= k)%Z -> (k < Zpos (digits2_pos p))%Z.
Proof.
  intros H Hk. destruct (digits2_bounds p) as [_ B].
  apply (Z.pow_lt_mono_r_iff 2); lia.
Qed.

Lemma SF64mul_round53 sx mx ex sy my ey :
  valid_binary (S754_finite sx mx ex) = true ->
  valid_binary (S754_finite sy my ey) = true ->
  let X := inject_Z (Zpos mx) * pow2 ex in
  let Y := inject_Z (Zpos my) * pow2 ey in
  pow2 (-1022) <= X -> pow2 (-1022) <= Y ->
  pow2 (-1021) <= X * Y -> X * Y < pow2 1023 ->
  exists m e,
    SF64mul (S754_finite sx mx ex) (S754_finite sy my ey) = S754_finite (xorb sx sy) m e /\
    SF2Q (S754_finite (xorb sx sy) m e)
    == round53 (SF2Q (S754_finite sx mx ex) * SF2Q (S754_finite sy my ey)).
Proof.
  intros Vx Vy X Y Hx Hy Hlo Hhi.
  destruct (@valid_normal mx ex Vx Hx) as [Dx _].
  destruct (@valid_normal my ey Vy Hy) as [Dy _].
  destruct (digits2_bounds mx) as [Bx _]. destruct (digits2_bounds my) as [By _].
  rewrite Dx in Bx. rewrite Dy in By.
  assert (Hd : (53 <= Zdigits2 (Zpos (mx * my)))%Z).
  { cbn [Zdigits2].
    assert (104 < Zpos (digits2_pos (mx * my)))%Z; [|lia].
    apply digits2_ge; [|lia]. rewrite Pos2Z.inj_mul.
    change (2 ^ 104)%Z with (2 ^ (53 - 1) * 2 ^ (53 - 1))%Z. nia. }
  assert (Exy : X * Y == inject_Z (Zpos (mx * my)) * pow2 (ex + ey)).
  { unfold X, Y. rewrite Pos2Z.inj_mul, inject_Z_mult, pow2_add. ring. }
  destruct (@binary_round_aux_round53 (xorb sx sy) (Zpos (mx * my)) (ex + ey) loc_Exact (X * Y))
    as (m & e & E1 & _ & E2); try assumption; try lia.
  { cbn [loc_ok]. rewrite Exy, <- Qmult_assoc, <- pow2_add.
    replace (ex + ey + - (ex + ey))%Z with 0%Z by lia. change (pow2 0) with 1. ring. }
  exists m, e. split; [exact E1|].
  rewrite E2. apply round53_proper. cbn [SF2Q]. fold X. fold Y. apply signed_mult.
Qed.

Lemma b64_finite_cases x :
  b64_finite x = true ->
  (exists s, Prim2SF x = S754_zero s) \/ (exists s m e, Prim2SF x = S754_finite s m e).
Proof.
  unfold b64_finite. destruct (Prim2SF x) as [s|s| |s m e]; try discriminate; eauto.
Qed.

Lemma B2Q_nonzero x :
  b64_finite x = true -> 0 < Qabs (B2Q x) ->
  exists s m e, Prim2SF x = S754_finite s m e /\
                valid_binary (S754_finite s m e) = true /\
                Qabs (B2Q x) == inject_Z (Zpos m) * pow2 e.
Proof.
  intros Hf Hx. destruct (@b64_finite_cases x Hf) as [[s E]|(s & m & e & E)].
  - unfold B2Q in Hx. rewrite E in Hx. simpl in Hx. lra.
  - exists s, m, e. split; [exact E|]. split.
    + rewrite <- E. apply Prim2SF_valid.
    + unfold B2Q. rewrite E. cbn [SF2Q]. apply Qabs_signed_pos.
      pose proof (pow2_pos e).
      assert (0 < inject_Z (Zpos m)) by (change 0 with (inject_Z 0); now rewrite <- Zlt_Qlt).
      nra.
Qed.

(** binary64 multiplication is the correctly rounded product, as long as
    operands and result are in the normal range. *)
Theorem b64_mul_correct (x y : float) :
  b64_finite x = true -> b64_finite y = true ->
  pow2 (-1022) <= Qabs (B2Q x) -> pow2 (-1022) <= Qabs (B2Q y) ->
  pow2 (-1021) <= Qabs (B2Q x) * Qabs (B2Q y) ->
  Qabs (B2Q x) * Qabs (B2Q y) < pow2 1023 ->
  b64_finite (x * y) = true /\ B2Q (x * y) == round53 (B2Q x * B2Q y).
Proof.
  intros Fx Fy Hx Hy Hlo Hhi.
  pose proof (pow2_pos (-1022)) as P.
  destruct (@B2Q_nonzero x Fx) as (sx & mx & ex & Ex & Vx & Ax); [lra|].
  destruct (@B2Q_nonzero y Fy) as (sy & my & ey & Ey & Vy & Ay); [lra|].
  rewrite Ax in Hx, Hlo, Hhi. rewrite Ay in Hy, Hlo, Hhi.
  destruct (@SF64mul_round53 sx mx ex sy my ey Vx Vy Hx Hy Hlo Hhi) as (m & e & E1 & E2).
  unfold b64_finite, B2Q. rewrite mul_spec, Ex, Ey, E1. split; [reflexivity|exact E2].
Qed.

(** ** Division *)

Lemma new_location_ok n k q :
  (0 < n)%Z -> (0 <= k < n)%Z ->
  loc_ok q (new_location n k) (inject_Z q + inject_Z k / inject_Z n).
Proof.
  intros Hn Hk.
  assert (Hn' : 0 < inject_Z n) by (change 0 with (inject_Z 0); now rewrite <- Zlt_Qlt).
  set (f := inject_Z k / inject_Z n).
  assert (Ef : f * inject_Z n == inject_Z k) by (unfold f; field; lra).
  assert (Cmp : forall c, (2 * k ?= n)%Z = c ->
            match c with
            | Lt => f < 1 # 2
            | Eq => f == 1 # 2
            | Gt => 1 # 2 < f
            end).
  { intros c Hc.
    assert (E2 : inject_Z (2 * k) == 2 * f * inject_Z n) by (rewrite inject_Z_mult, <- Ef; ring).
    destruct c.
    - apply Z.compare_eq in Hc. rewrite Hc in E2. nra.
    - apply (proj1 (Z.compare_lt_iff _ _)) in Hc.
      assert (Hq : inject_Z (2 * k) < inject_Z n) by (now rewrite <- Zlt_Qlt). nra.
    - apply (proj1 (Z.compare_gt_iff _ _)) in Hc.
      assert (Hq : inject_Z n < inject_Z (2 * k)) by (now rewrite <- Zlt_Qlt). nra. }
  assert (F0 : 0 <= f /\ f < 1).
  { destruct Hk as [K1 K2]. rewrite Zle_Qle in K1. rewrite Zlt_Qlt in K2.
    change (inject_Z 0) with 0 in K1. split; nra. }
  assert (Fpos : k <> 0%Z -> 0 < f).
  { intros Hk0. assert (0 < k)%Z as K by lia. rewrite Zlt_Qlt in K.
    change (inject_Z 0) with 0 in K. nra. }
  unfold new_location, new_location_even, new_location_odd.
  destruct (Z.even n) eqn:En; destruct (Z.eqb_spec k 0) as [K0|K0].
  - subst k. cbn [loc_ok]. unfold f.
    change (inject_Z 0) with 0. field. lra.
  - specialize (Fpos K0). pose proof (Cmp _ eq_refl) as C.
    destruct (2 * k ?= n)%Z; cbn [loc_ok]; try split; lra.
  - subst k. cbn [loc_ok]. unfold f.
    change (inject_Z 0) with 0. field. lra.
  - specialize (Fpos K0).
    assert (Odd : (2 * k <> n)%Z).
    { intros E. rewrite <- E, Z.even_mul in En. discriminate. }
    destruct (2 * k + 1 ?= n)%Z eqn:C1.
    + apply Z.compare_eq in C1.
      assert (C : (2 * k ?= n)%Z = Lt) by (apply (proj2 (Z.compare_lt_iff _ _)); lia).
      apply Cmp in C. cbn [loc_ok]. split; lra.
    + apply (proj1 (Z.compare_lt_iff _ _)) in C1.
      assert (C : (2 * k ?= n)%Z = Lt) by (apply (proj2 (Z.compare_lt_iff _ _)); lia).
      apply Cmp in C. cbn [loc_ok]. split; lra.
    + apply (proj1 (Z.compare_gt_iff _ _)) in C1.
      assert (C : (2 * k ?= n)%Z = Gt) by (apply (proj2 (Z.compare_gt_iff _ _)); lia).
      apply Cmp in C. cbn [loc_ok]. split; lra.
Qed.

Lemma SF64div_round53 sx mx ex sy my ey :
  valid_binary (S754_finite sx mx ex) = true ->
  valid_binary (S754_finite sy my ey) = true ->
  let X := inject_Z (Zpos mx) * pow2 ex in
  let Y := inject_Z (Zpos my) * pow2 ey in
  pow2 (-1022) <= X -> pow2 (-1022) <= Y ->
  pow2 (-1021) <= X / Y -> X / Y < pow2 1023 ->
  exists m e,
    SF64div (S754_finite sx mx ex) (S754_finite sy my ey) = S754_finite (xorb sx sy) m e /\
    SF2Q (S754_finite (xorb sx sy) m e)
    == round53 (SF2Q (S754_finite sx mx ex) / SF2Q (S754_finite sy my ey)).
Proof.
  intros Vx Vy X Y Hx Hy Hlo Hhi.
  destruct (@valid_normal mx ex Vx Hx) as [Dx _].
  destruct (@valid_normal my ey Vy Hy) as [Dy _].
  destruct (mantissa_value_bounds mx ex) as [Bx1 Bx2].
  destruct (mantissa_value_bounds my ey) as [By1 By2].
  cbv zeta in Bx1, Bx2, By1, By2. fold X in Bx1, Bx2. fold Y in By1, By2.
  rewrite Dx in Bx1, Bx2. rewrite Dy in By1, By2.
  assert (HY : 0 < Y) by (pose proof (pow2_pos (-1022)); lra).
  assert (HX : 0 < X) by (pose proof (pow2_pos (-1022)); lra).
  (* the quotient lies in (2^(ex-ey-1), 2^(ex-ey+1)) *)
  assert (Q2 : X / Y < pow2 (ex - ey + 1)).
  { apply Qlt_shift_div_r; [exact HY|].
    assert (E : pow2 (53 + ex) == pow2 (ex - ey + 1) * pow2 (53 + ey - 1)).
    { rewrite <- pow2_add. replace (ex - ey + 1 + (53 + ey - 1))%Z with (53 + ex)%Z by lia.
      reflexivity. }
    pose proof (pow2_pos (ex - ey + 1)). nra. }
  assert (R1 : (-1021 < ex - ey + 1)%Z) by (apply pow2_lt_inv; lra).
  (* what the algorithm computes *)
  unfold SF64div, SFdiv, SFdiv_core_binary. cbn [Zdigits2]. rewrite Dx, Dy, fexp_eq.
  replace (Z.min (Z.max (53 + ex - (53 + ey) - 53) (-1074)) (ex - ey))
    with (ex - ey - 53)%Z by lia.
  replace (ex - ey - (ex - ey - 53))%Z with 53%Z by lia.
  rewrite Z.shiftl_mul_pow2 by lia.
  pose proof (Z_div_mod (Zpos mx * 2 ^ 53) (Zpos my) (eq_refl : (Zpos my ?= 0)%Z = Gt)) as DM.
  destruct (Z.div_eucl (Zpos mx * 2 ^ 53) (Zpos my)) as [q r]. destruct DM as [DM1 DM2].
  assert (Eq : X / Y * pow2 (- (ex - ey - 53)) == inject_Z q + inject_Z r / inject_Z (Zpos my)).
  { assert (Hm : 0 < inject_Z (Zpos my)) by (change 0 with (inject_Z 0); now rewrite <- Zlt_Qlt).
    assert (E1 : inject_Z (Zpos mx) * pow2 53 == inject_Z (Zpos my) * inject_Z q + inject_Z r).
    { rewrite pow2_inject by lia. rewrite <- !inject_Z_mult, <- inject_Z_plus. now rewrite DM1. }
    assert (E2 : pow2 (- (ex - ey - 53)) == pow2 53 * pow2 ey / pow2 ex).
    { replace (- (ex - ey - 53))%Z with (53 + ey - ex)%Z by lia.
      rewrite pow2_sub, pow2_add. reflexivity. }
    rewrite E2. unfold X, Y.
    pose proof (pow2_pos ex). pose proof (pow2_pos ey).
    setoid_replace (inject_Z (Zpos mx) * pow2 ex / (inject_Z (Zpos my) * pow2 ey)
                    * (pow2 53 * pow2 ey / pow2 ex))
      with (inject_Z (Zpos mx) * pow2 53 / inject_Z (Zpos my)) by (field; repeat split; lra).
    rewrite E1. field. lra. }
  assert (Hq : (2 ^ 52 <= q)%Z).
  { destruct (digits2_bounds mx) as [Mx _]. destruct (digits2_bounds my) as [_ My].
    rewrite Dx in Mx. rewrite Dy in My.
    change (2 ^ (53 - 1))%Z with (2 ^ 52)%Z in Mx.
    assert (2 ^ 52 * Zpos my <= Zpos my * q + r)%Z by nia.
    nia. }
  destruct q as [|pq|pq]; try lia.
  destruct (@binary_round_aux_round53 (xorb sx sy) (Zpos pq) (ex - ey - 53)
              (new_location (Zpos my) r) (X / Y))
    as (m & e & E1 & _ & E2); try assumption; try lia.
  { apply loc_ok_eq with (t := inject_Z (Zpos pq) + inject_Z r / inject_Z (Zpos my)).
    - now rewrite Eq.
    - apply new_location_ok; lia. }
  { cbn [Zdigits2]. assert (52 < Zpos (digits2_pos pq))%Z; [|lia].
    apply digits2_ge; lia. }
  exists m, e. split; [exact E1|].
  rewrite E2. apply round53_proper. cbn [SF2Q]. fold X. fold Y.
  destruct sx, sy; cbn [xorb signed]; field; lra.
Qed.

(** binary64 division is the correctly rounded quotient, as long as
    operands and result are in the normal range. *)
Theorem b64_div_correct (x y : float) :
  b64_finite x = true -> b64_finite y = true ->
  pow2 (-1022) <= Qabs (B2Q x) -> pow2 (-1022) <= Qabs (B2Q y) ->
  pow2 (-1021) <= Qabs (B2Q x) / Qabs (B2Q y) ->
  Qabs (B2Q x) / Qabs (B2Q y) < pow2 1023 ->
  b64_finite (x / y) = true /\ B2Q (x / y) == round53 (B2Q x / B2Q y).
Proof.
  intros Fx Fy Hx Hy Hlo Hhi.
  pose proof (pow2_pos (-1022)) as P.
  destruct (@B2Q_nonzero x Fx) as (sx & mx & ex & Ex & Vx & Ax); [lra|].
  destruct (@B2Q_nonzero y Fy) as (sy & my & ey & Ey & Vy & Ay); [lra|].
  rewrite Ax in Hx, Hlo, Hhi. rewrite Ay in Hy, Hlo, Hhi.
  destruct (@SF64div_round53 sx mx ex sy my ey Vx Vy Hx Hy Hlo Hhi) as (m & e & E1 & E2).
  unfold b64_finite, B2Q. rewrite div_spec, Ex, Ey, E1. split; [reflexivity|exact E2].
Qed.

(** ** Normalisation of an integer mantissa: addition and conversion *)

Lemma iter_xO_pow2 m n : Zpos (Pos.iter xO m n) = (Zpos m * 2 ^ Zpos n)%Z.
Proof.
  induction n using Pos.peano_ind.
  - simpl. lia.
  - rewrite Pos.iter_succ, Pos2Z.inj_succ, Z.pow_succ_r by lia.
    change (Zpos (Pos.iter xO m n)~0) with (2 * Zpos (Pos.iter xO m n))%Z. lia.
Qed.

Lemma shl_align_spec mx ex ex' :
  let '(mz, ez) := shl_align mx ex ex' in
  ez = Z.min ex ex' /\ Zpos mz = (Zpos mx * 2 ^ (ex - ez))%Z /\
  Zpos (digits2_pos mz) = (Zpos (digits2_pos mx) + (ex - ez))%Z.
Proof.
  unfold shl_align. destruct (ex' - ex)%Z as [|d|d] eqn:E.
  - replace (Z.min ex ex') with ex by lia. rewrite Z.sub_diag. simpl. lia.
  - replace (Z.min ex ex') with ex by lia. rewrite Z.sub_diag. simpl. lia.
  - replace (Z.min ex ex') with ex' by lia.
    replace (ex - ex')%Z with (Zpos d) by lia.
    split; [reflexivity|]. split; [apply iter_xO_pow2|apply digits2_iter_xO].
Qed.

Lemma binary_round_round53 s mx ex :
  let x := inject_Z (Zpos mx) * pow2 ex in
  pow2 (-1021) <= x -> x < pow2 1023 ->
  exists m e,
    binary_round prec emax s mx ex = S754_finite s m e /\
    valid_binary (S754_finite s m e) = true /\
    SF2Q (S754_finite s m e) == round53 (signed s x).
Proof.
  intros x Hlo Hhi.
  destruct (mantissa_value_bounds mx ex) as [B1 B2]. cbv zeta in B1, B2. fold x in B1, B2.
  set (d := Zpos (digits2_pos mx)) in *.
  assert (R1 : (-1021 < d + ex)%Z) by (apply pow2_lt_inv; lra).
  assert (R2 : (d + ex - 1 < 1023)%Z) by (apply pow2_lt_inv; lra).
  unfold binary_round. fold d. rewrite fexp_eq.
  replace (Z.max (d + ex - 53) (-1074)) with (d + ex - 53)%Z by lia.
  pose proof (shl_align_spec mx ex (d + ex - 53)) as S.
  destruct (shl_align mx ex (d + ex - 53)) as [mz ez].
  destruct S as (Ez & Em & Ed). fold d in Ed.
  apply binary_round_aux_round53; try assumption; try lia.
  - cbn [loc_ok]. unfold x. rewrite Em, inject_Z_mult.
    rewrite <- (pow2_inject (e := ex - ez)) by lia.
    rewrite <- Qmult_assoc, <- pow2_add.
    replace (ex + - ez)%Z with (ex - ez)%Z by lia. reflexivity.
  - cbn [Zdigits2]. lia.
Qed.

Lemma binary_normalize_round53 z e :
  let x := inject_Z z * pow2 e in
  pow2 (-1021) <= Qabs x -> Qabs x < pow2 1023 ->
  exists s m e',
    binary_normalize prec emax z e false = S754_finite s m e' /\
    valid_binary (S754_finite s m e') = true /\
    SF2Q (S754_finite s m e') == round53 x.
Proof.
  intros x Hlo Hhi. pose proof (pow2_pos e) as Pe. pose proof (pow2_pos (-1021)) as P.
  destruct z as [|p|p].
  - exfalso.
    assert (E0 : Qabs (inject_Z 0 * pow2 e) == 0).
    { change (inject_Z 0) with 0. setoid_replace (0 * pow2 e) with 0 by ring. reflexivity. }
    unfold x in Hlo. rewrite E0 in Hlo. lra.
  - assert (Hx : 0 < x).
    { unfold x. assert (0 < inject_Z (Zpos p)) by (change 0 with (inject_Z 0); now rewrite <- Zlt_Qlt).
      nra. }
    rewrite (Qabs_pos x) in Hlo, Hhi by lra.
    destruct (@binary_round_round53 false p e Hlo Hhi) as (m & e' & E1 & Ev & E2).
    exists false, m, e'. split; [exact E1|]. split; [exact Ev|exact E2].
  - assert (Ex : x == - (inject_Z (Zpos p) * pow2 e)).
    { unfold x. change (Zneg p) with (- Zpos p)%Z. rewrite inject_Z_opp. ring. }
    assert (Hx : 0 < inject_Z (Zpos p) * pow2 e).
    { assert (0 < inject_Z (Zpos p)) by (change 0 with (inject_Z 0); now rewrite <- Zlt_Qlt).
      nra. }
    assert (Ea : Qabs x == inject_Z (Zpos p) * pow2 e).
    { rewrite Ex. transitivity (Qabs (inject_Z (Zpos p) * pow2 e)); [apply Qabs_opp|].
      apply Qabs_pos. lra. }
    rewrite Ea in Hlo, Hhi.
    destruct (@binary_round_round53 true p e Hlo Hhi) as (m & e' & E1 & Ev & E2).
    exists true, m, e'. split; [exact E1|]. split; [exact Ev|].
    rewrite E2. apply round53_proper. cbn [signed]. now rewrite Ex.
Qed.

(** [float(n)] is the correctly rounded integer. *)
Theorem b64_of_int_correct (z : Z) :
  z <> 0%Z -> (Z.abs z < 2 ^ 1023)%Z ->
  b64_finite (b64_of_int z) = true /\ B2Q (b64_of_int z) == round53 (inject_Z z).
Proof.
  intros Hz Hb.
  assert (Ex : inject_Z z * pow2 0 == inject_Z z) by (change (pow2 0) with 1; ring).
  assert (Ha : Qabs (inject_Z z * pow2 0) == inject_Z (Z.abs z)).
  { rewrite Ex. symmetry. apply (Zabs_Qabs z 1). }
  destruct (@binary_normalize_round53 z 0) as (s & m & e & E1 & Ev & E2).
  - rewrite Ha. change (pow2 (-1021)) with (/ pow2 1021).
    apply Qle_shift_inv_r; [apply pow2_pos|].
    assert (1 <= inject_Z (Z.abs z)) by (change 1 with (inject_Z 1); rewrite <- Zle_Qle; lia).
    assert (1 <= pow2 1021) by (change 1 with (pow2 0); apply pow2_le; lia).
    nra.
  - rewrite Ha, pow2_inject by lia. now rewrite <- Zlt_Qlt.
  - unfold b64_finite, B2Q, b64_of_int.
    rewrite E1, (Prim2SF_SF2Prim _ Ev). split; [reflexivity|].
    rewrite E2. now apply round53_proper.
Qed.

(** ** Addition, negation, absolute value *)

Lemma cond_Zopp_signed s p : inject_Z (cond_Zopp s (Zpos p)) == signed s (inject_Z (Zpos p)).
Proof. destruct s; reflexivity. Qed.

Lemma shl_align_fst mx ex ez :
  (ez <= ex)%Z ->
  inject_Z (Zpos (fst (shl_align mx ex ez))) * pow2 ez == inject_Z (Zpos mx) * pow2 ex.
Proof.
  intros H. pose proof (shl_align_spec mx ex ez) as S.
  destruct (shl_align mx ex ez) as [mz e']. destruct S as (E1 & E2 & _). cbn [fst].
  rewrite E2, inject_Z_mult, E1. replace (Z.min ex ez) with ez by lia.
  rewrite <- (pow2_inject (e := ex - ez)) by lia.
  rewrite <- Qmult_assoc, <- pow2_add. replace (ex - ez + ez)%Z with ex by lia. reflexivity.
Qed.

Lemma SF64add_round53 sx mx ex sy my ey :
  let X := SF2Q (S754_finite sx mx ex) in
  let Y := SF2Q (S754_finite sy my ey) in
  (-1021 <= ex)%Z -> (-1021 <= ey)%Z ->
  Qabs (X + Y) < pow2 1023 ->
  let r := SF64add (S754_finite sx mx ex) (S754_finite sy my ey) in
  valid_binary r = true /\
  match r with S754_zero _ | S754_finite _ _ _ => True | _ => False end /\
  SF2Q r == round53 (X + Y).
Proof.
  intros X Y Hex Hey Hhi r.
  set (ez := Z.min ex ey).
  set (z := (cond_Zopp sx (Zpos (fst (shl_align mx ex ez)))
             + cond_Zopp sy (Zpos (fst (shl_align my ey ez))))%Z).
  assert (Er : r = binary_normalize prec emax z ez false) by reflexivity.
  assert (Ez : X + Y == inject_Z z * pow2 ez).
  { unfold z. rewrite inject_Z_plus, !cond_Zopp_signed. unfold X, Y. cbn [SF2Q].
    assert (Fx : inject_Z (Zpos (fst (shl_align mx ex ez))) * pow2 ez
                 == inject_Z (Zpos mx) * pow2 ex) by (apply shl_align_fst; unfold ez; lia).
    assert (Fy : inject_Z (Zpos (fst (shl_align my ey ez))) * pow2 ez
                 == inject_Z (Zpos my) * pow2 ey) by (apply shl_align_fst; unfold ez; lia).
    destruct sx, sy; cbn [signed]; nra. }
  destruct (Z.eq_dec z 0) as [Z0|Zn].
  - rewrite Er, Z0. cbn [binary_normalize valid_binary SF2Q].
    split; [reflexivity|]. split; [exact I|].
    assert (E0 : X + Y == 0) by (rewrite Ez, Z0; change (inject_Z 0) with 0; ring).
    rewrite (round53_proper E0). reflexivity.
  - destruct (@binary_normalize_round53 z ez) as (s & m & e & E1 & Ev & E2).
    + rewrite <- Ez.
      (* a non-zero multiple of 2^ez *)
      assert (Hz : 1 <= Qabs (inject_Z z)).
      { rewrite <- (Zabs_Qabs z 1). change 1 with (inject_Z 1) at 1.
        change (Z.abs z # 1) with (inject_Z (Z.abs z)). rewrite <- Zle_Qle. lia. }
      assert (Ea : Qabs (X + Y) == Qabs (inject_Z z) * pow2 ez).
      { rewrite Ez, Qabs_Qmult. rewrite (Qabs_pos (pow2 ez)); [reflexivity|].
        apply Qlt_le_weak, pow2_pos. }
      assert (pow2 (-1021) <= pow2 ez) by (apply pow2_le; unfold ez; lia).
      pose proof (pow2_pos ez). rewrite Ea. nra.
    + now rewrite <- Ez.
    + rewrite Er, E1. split; [exact Ev|]. split; [exact I|].
      rewrite E2. apply round53_proper. now rewrite Ez.
Qed.

Lemma normal_exponent m e :
  valid_binary (S754_finite false m e) = true ->
  pow2 (-968) <= inject_Z (Zpos m) * pow2 e -> (-1021 <= e)%Z.
Proof.
  intros Hv Hx.
  assert (Hx' : pow2 (-1022) <= inject_Z (Zpos m) * pow2 e).
  { assert (pow2 (-1022) <= pow2 (-968)) by (apply pow2_le; lia). lra. }
  destruct (@valid_normal m e Hv Hx') as [Hd _].
  destruct (mantissa_value_bounds m e) as [_ B]. cbv zeta in B. rewrite Hd in B.
  assert ((-968 < 53 + e)%Z) by (apply pow2_lt_inv; lra). lia.
Qed.

(** binary64 addition is the correctly rounded sum; operands of magnitude at
    least 2^-968 keep the sum out of the subnormal range. *)
Theorem b64_add_correct (x y : float) :
  b64_finite x = true -> b64_finite y = true ->
  pow2 (-968) <= Qabs (B2Q x) -> pow2 (-968) <= Qabs (B2Q y) ->
  Qabs (B2Q x + B2Q y) < pow2 1023 ->
  b64_finite (x + y) = true /\ B2Q (x + y) == round53 (B2Q x + B2Q y).
Proof.
  intros Fx Fy Hx Hy Hhi.
  pose proof (pow2_pos (-968)) as P.
  destruct (@B2Q_nonzero x Fx) as (sx & mx & ex & Ex & Vx & Ax); [lra|].
  destruct (@B2Q_nonzero y Fy) as (sy & my & ey & Ey & Vy & Ay); [lra|].
  rewrite Ax in Hx. rewrite Ay in Hy.
  pose proof (@normal_exponent mx ex Vx Hx) as Nx.
  pose proof (@normal_exponent my ey Vy Hy) as Ny.
  unfold B2Q in Hhi |- *. unfold b64_finite. rewrite add_spec. rewrite Ex, Ey in Hhi |- *.
  destruct (@SF64add_round53 sx mx ex sy my ey Nx Ny Hhi) as (_ & Hf & Hr).
  split; [|exact Hr].
  destruct (SF64add (S754_finite sx mx ex) (S754_finite sy my ey)); tauto.
Qed.

Lemma b64_opp_correct (x : float) :
  b64_finite (- x) = b64_finite x /\ B2Q (- x) == - B2Q x.
Proof.
  unfold b64_finite, B2Q. rewrite opp_spec.
  destruct (Prim2SF x) as [s|s| |s m e]; cbn [SFopp SF2Q]; split; try reflexivity.
  destruct s; cbn [negb signed]; ring.
Qed.

Lemma b64_abs_correct (x : float) :
  b64_finite (abs x) = b64_finite x /\ B2Q (abs x) == Qabs (B2Q x).
Proof.
  unfold b64_finite, B2Q. rewrite abs_spec.
  destruct (Prim2SF x) as [s|s| |s m e]; cbn [SFabs SF2Q]; split; try reflexivity.
  symmetry. change (signed false (inject_Z (Zpos m) * pow2 e)) with (inject_Z (Zpos m) * pow2 e).
  apply Qabs_signed_pos.
  pose proof (pow2_pos e).
  assert (0 < inject_Z (Zpos m)) by (change 0 with (inject_Z 0); now rewrite <- Zlt_Qlt).
  nra.
Qed.

(** ** Comparison *)

Lemma finite_value_pos m e : 0 < inject_Z (Zpos m) * pow2 e.
Proof.
  pose proof (pow2_pos e).
  assert (0 < inject_Z (Zpos m)) by (change 0 with (inject_Z 0); now rewrite <- Zlt_Qlt).
  nra.
Qed.

(** Among valid floats a smaller exponent means a smaller magnitude. *)
Lemma valid_exponent_lt m1 e1 m2 e2 :
  valid_binary (S754_finite false m1 e1) = true ->
  valid_binary (S754_finite false m2 e2) = true ->
  (e1 < e2)%Z ->
  inject_Z (Zpos m1) * pow2 e1 < inject_Z (Zpos m2) * pow2 e2.
Proof.
  intros V1 V2 He.
  destruct (@valid_finite_cases _ _ V1) as [_ H1].
  destruct (@valid_finite_cases _ _ V2) as [_ H2].
  assert (D2 : Zpos (digits2_pos m2) = 53%Z) by lia.
  assert (D1 : (Zpos (digits2_pos m1) <= 53)%Z) by lia.
  destruct (mantissa_value_bounds m1 e1) as [_ B1].
  destruct (mantissa_value_bounds m2 e2) as [B2 _]. cbv zeta in B1, B2.
  rewrite D2 in B2.
  assert (pow2 (Zpos (digits2_pos m1) + e1) <= pow2 (53 + e2 - 1)) by (apply pow2_le; lia).
  lra.
Qed.

Lemma mantissa_compare m1 m2 e :
  Qcompare (inject_Z (Zpos m1) * pow2 e) (inject_Z (Zpos m2) * pow2 e)
  = Pos.compare_cont Eq m1 m2.
Proof.
  change (Pos.compare_cont Eq m1 m2) with (Pos.compare m1 m2).
  pose proof (pow2_pos e) as Pe.
  destruct (Pos.compare_spec m1 m2) as [E|L|G].
  - subst. apply (proj1 (Qeq_alt _ _)). reflexivity.
  - apply (proj1 (Qlt_alt _ _)). assert (inject_Z (Zpos m1) < inject_Z (Zpos m2)) by (rewrite <- Zlt_Qlt; lia).
    nra.
  - apply (proj1 (Qgt_alt _ _)). assert (inject_Z (Zpos m2) < inject_Z (Zpos m1)) by (rewrite <- Zlt_Qlt; lia).
    nra.
Qed.

Lemma Qcompare_opp x y : Qcompare (- x) (- y) = CompOpp (Qcompare x y).
Proof.
  destruct (Qcompare_spec x y) as [E|L|G]; simpl.
  - apply (proj1 (Qeq_alt _ _)). now rewrite E.
  - apply (proj1 (Qgt_alt _ _)). lra.
  - apply (proj1 (Qlt_alt _ _)). lra.
Qed.

Lemma SFcompare_finite s1 m1 e1 s2 m2 e2 :
  valid_binary (S754_finite s1 m1 e1) = true ->
  valid_binary (S754_finite s2 m2 e2) = true ->
  SFcompare (S754_finite s1 m1 e1) (S754_finite s2 m2 e2)
  = Some (Qcompare (SF2Q (S754_finite s1 m1 e1)) (SF2Q (S754_finite s2 m2 e2))).
Proof.
  intros V1 V2. cbn [SFcompare SF2Q]. f_equal.
  pose proof (finite_value_pos m1 e1) as P1. pose proof (finite_value_pos m2 e2) as P2.
  assert (Same : match Z.compare e1 e2 with
                 | Lt => Lt
                 | Gt => Gt
                 | Eq => Pos.compare_cont Eq m1 m2
                 end
                 = Qcompare (inject_Z (Zpos m1) * pow2 e1) (inject_Z (Zpos m2) * pow2 e2)).
  { destruct (Z.compare_spec e1 e2) as [E|L|G].
    - subst. symmetry. apply mantissa_compare.
    - symmetry. apply (proj1 (Qlt_alt _ _)). now apply valid_exponent_lt.
    - symmetry. apply (proj1 (Qgt_alt _ _)). now apply valid_exponent_lt. }
  destruct s1, s2; cbn [signed].
  - rewrite Qcompare_opp, <- Same. now destruct (Z.compare e1 e2).
  - symmetry. apply (proj1 (Qlt_alt _ _)). lra.
  - symmetry. apply (proj1 (Qgt_alt _ _)). lra.
  - exact Same.
Qed.

Lemma SFcompare_correct x y :
  valid_binary x = true -> valid_binary y = true ->
  match x with S754_zero _ | S754_finite _ _ _ => True | _ => False end ->
  match y with S754_zero _ | S754_finite _ _ _ => True | _ => False end ->
  SFcompare x y = Some (Qcompare (SF2Q x) (SF2Q y)).
Proof.
  intros Vx Vy Fx Fy.
  destruct x as [sx|sx| |sx mx ex]; try contradiction;
    destruct y as [sy|sy| |sy my ey]; try contradiction.
  - reflexivity.
  - cbn [SFcompare SF2Q]. f_equal. pose proof (finite_value_pos my ey).
    destruct sy; cbn [signed]; symmetry; [apply (proj1 (Qgt_alt _ _))|apply (proj1 (Qlt_alt _ _))]; lra.
  - cbn [SFcompare SF2Q]. f_equal. pose proof (finite_value_pos mx ex).
    destruct sx; cbn [signed]; symmetry; [apply (proj1 (Qlt_alt _ _))|apply (proj1 (Qgt_alt _ _))]; lra.
  - now apply SFcompare_finite.
Qed.

Lemma b64_finite_SF x :
  b64_finite x = true ->
  match Prim2SF x with S754_zero _ | S754_finite _ _ _ => True | _ => False end.
Proof. unfold b64_finite. now destruct (Prim2SF x). Qed.

(** On finite floats [<=], [<] and [==] are those of the values. *)
Theorem b64_compare_correct (x y : float) :
  b64_finite x = true -> b64_finite y = true ->
  ((x <=? y)%float = true <-> B2Q x <= B2Q y) /\
  ((x <? y)%float = true <-> B2Q x < B2Q y) /\
  ((x =? y)%float = true <-> B2Q x == B2Q y).
Proof.
  intros Fx Fy.
  pose proof (SFcompare_correct (Prim2SF x) (Prim2SF y) (Prim2SF_valid x) (Prim2SF_valid y)
                (b64_finite_SF x Fx) (b64_finite_SF y Fy)) as C.
  rewrite leb_spec, ltb_spec, eqb_spec. unfold SFleb, SFltb, SFeqb, B2Q. rewrite C.
  destruct (Qcompare_spec (SF2Q (Prim2SF x)) (SF2Q (Prim2SF y))) as [E|L|G];
    repeat split; intros H; try reflexivity; try discriminate; try lra.
Qed.

(** ** Error tracking on binary64

    The rules of the standard model, each with the side conditions that keep
    the operation in the normal range, where it is the rounding of the exact
    result. *)

Lemma swithin_eq_x s y lo hi x x' : x == x' -> swithin s y lo hi x -> swithin s y lo hi x'.
Proof.
  intros E. unfold swithin, within.
  assert (Es : signed s x == signed s x') by (destruct s; simpl; now rewrite E).
  now rewrite Es.
Qed.

Lemma swithin_abs s y lo hi x :
  swithin s y lo hi x -> y * lo <= Qabs x /\ Qabs x <= y * hi.
Proof.
  unfold swithin, within. intros (Hy & Hl & Hh & Ha & Hb).
  assert (E : Qabs x == signed s x).
  { rewrite <- (Qabs_signed s). apply Qabs_pos. nra. }
  rewrite E. split; assumption.
Qed.

Lemma fw_abs_bounds s y lo hi a b x :
  fw s y lo hi a b x -> pow2 (a - 1) <= Qabs (B2Q x) /\ Qabs (B2Q x) <= pow2 (b + 1).
Proof.
  intros (_ & Hs & Ha & Hb & Hl & Hh).
  destruct (swithin_abs Hs) as [A1 A2].
  assert (Hy : 0 <= y) by apply Hs.
  rewrite pow2_pred, pow2_succ. pose proof (pow2_pos a). pose proof (pow2_pos b).
  split.
  - assert (pow2 a / 2 == pow2 a * (1 # 2)) by (field). nra.
  - nra.
Qed.

Lemma pow2_chain a b c : (a <= b)%Z -> pow2 b <= c -> pow2 a <= c.
Proof. intros H1 H2. pose proof (pow2_le H1). lra. Qed.

Lemma pow2_chain_lt a b c : (b < a)%Z -> c <= pow2 b -> c < pow2 a.
Proof. intros H1 H2. pose proof (pow2_lt H1). lra. Qed.

Lemma fw_mul s1 y1 lo1 hi1 a1 b1 x1 s2 y2 lo2 hi2 a2 b2 x2 :
  fw s1 y1 lo1 hi1 a1 b1 x1 -> fw s2 y2 lo2 hi2 a2 b2 x2 ->
  (-500 <= a1)%Z -> (b1 <= 500)%Z -> (-500 <= a2)%Z -> (b2 <= 500)%Z ->
  (1 # 2) <= lo1 * lo2 * (1 - u64) -> hi1 * hi2 * (1 + u64) <= 2 ->
  fw (xorb s1 s2) (y1 * y2) (lo1 * lo2 * (1 - u64)) (hi1 * hi2 * (1 + u64))
     (a1 + a2) (b1 + b2) (x1 * x2)%float.
Proof.
  intros F1 F2 A1 B1 A2 B2 Hlo Hhi.
  destruct (fw_abs_bounds F1) as [L1 U1]. destruct (fw_abs_bounds F2) as [L2 U2].
  destruct F1 as (Ff1 & S1 & Ya1 & Yb1 & _ & _). destruct F2 as (Ff2 & S2 & Ya2 & Yb2 & _ & _).
  pose proof (pow2_pos (a1 - 1)) as P1. pose proof (pow2_pos (a2 - 1)) as P2.
  assert (Hprod_lo : pow2 (-1021) <= Qabs (B2Q x1) * Qabs (B2Q x2)).
  { assert (pow2 (a1 - 1 + (a2 - 1)) <= Qabs (B2Q x1) * Qabs (B2Q x2))
      by (rewrite pow2_add; nra).
    eapply pow2_chain; [|eassumption]. lia. }
  assert (Hprod_hi : Qabs (B2Q x1) * Qabs (B2Q x2) < pow2 1023).
  { assert (Qabs (B2Q x1) * Qabs (B2Q x2) <= pow2 (b1 + 1 + (b2 + 1))).
    { rewrite pow2_add. pose proof (Qabs_nonneg (B2Q x1)). pose proof (Qabs_nonneg (B2Q x2)).
      nra. }
    eapply pow2_chain_lt; [|eassumption]. lia. }
  destruct (@b64_mul_correct x1 x2 Ff1 Ff2) as [Ff E]; try assumption.
  { eapply pow2_chain; [|exact L1]. lia. }
  { eapply pow2_chain; [|exact L2]. lia. }
  split; [exact Ff|]. split; [|split; [|split; [|split]]].
  - apply swithin_eq_x with (x := round53 (B2Q x1 * B2Q x2)); [now symmetry|].
    apply (swithin_rnd round53_standard_model). now apply swithin_mul.
  - rewrite pow2_add. pose proof (pow2_pos a1). pose proof (pow2_pos a2). nra.
  - rewrite pow2_add. assert (0 <= y1) by apply S1. assert (0 <= y2) by apply S2. nra.
  - exact Hlo.
  - exact Hhi.
Qed.

Lemma fw_div s1 y1 lo1 hi1 a1 b1 x1 s2 y2 lo2 hi2 a2 b2 x2 :
  fw s1 y1 lo1 hi1 a1 b1 x1 -> fw s2 y2 lo2 hi2 a2 b2 x2 ->
  (-500 <= a1)%Z -> (b1 <= 500)%Z -> (-500 <= a2)%Z -> (b2 <= 500)%Z ->
  (1 # 2) <= lo1 / hi2 * (1 - u64) -> hi1 / lo2 * (1 + u64) <= 2 ->
  fw (xorb s1 s2) (y1 / y2) (lo1 / hi2 * (1 - u64)) (hi1 / lo2 * (1 + u64))
     (a1 - b2) (b1 - a2) (x1 / x2)%float.
Proof.
  intros F1 F2 A1 B1 A2 B2 Hlo Hhi.
  destruct (fw_abs_bounds F1) as [L1 U1]. destruct (fw_abs_bounds F2) as [L2 U2].
  destruct F1 as (Ff1 & S1 & Ya1 & Yb1 & _ & _). destruct F2 as (Ff2 & S2 & Ya2 & Yb2 & _ & _).
  pose proof (pow2_pos (a1 - 1)) as P1. pose proof (pow2_pos (a2 - 1)) as P2.
  pose proof (pow2_pos a2) as Pa2. pose proof (pow2_pos a1) as Pa1.
  assert (Hy2 : 0 < y2) by lra.
  set (X1 := Qabs (B2Q x1)) in *. set (X2 := Qabs (B2Q x2)) in *.
  assert (HX2 : 0 < X2) by lra.
  assert (Hq_lo : pow2 (-1021) <= X1 / X2).
  { assert (pow2 (a1 - 1 - (b2 + 1)) <= X1 / X2).
    { rewrite pow2_sub. apply Qle_shift_div_l; [exact HX2|].
      pose proof (pow2_pos (b2 + 1)) as Pb.
      assert (E : pow2 (a1 - 1) / pow2 (b2 + 1) * pow2 (b2 + 1) == pow2 (a1 - 1))
        by (field; lra).
      assert (0 < pow2 (a1 - 1) / pow2 (b2 + 1)) by (apply Qlt_shift_div_l; lra).
      nra. }
    eapply pow2_chain; [|eassumption]. lia. }
  assert (Hq_hi : X1 / X2 < pow2 1023).
  { assert (X1 / X2 <= pow2 (b1 + 1 - (a2 - 1))).
    { rewrite pow2_sub. apply Qle_shift_div_r; [exact HX2|].
      pose proof (pow2_pos (b1 + 1)) as Pb.
      assert (E : pow2 (b1 + 1) / pow2 (a2 - 1) * pow2 (a2 - 1) == pow2 (b1 + 1))
        by (field; lra).
      assert (0 < pow2 (b1 + 1) / pow2 (a2 - 1)) by (apply Qlt_shift_div_l; lra).
      nra. }
    eapply pow2_chain_lt; [|eassumption]. lia. }
  destruct (@b64_div_correct x1 x2 Ff1 Ff2) as [Ff E]; try assumption.
  { eapply pow2_chain; [|exact L1]. lia. }
  { eapply pow2_chain; [|exact L2]. lia. }
  split; [exact Ff|]. split; [|split; [|split; [|split]]].
  - apply swithin_eq_x with (x := round53 (B2Q x1 / B2Q x2)); [now symmetry|].
    apply (swithin_rnd round53_standard_model). now apply swithin_div.
  - rewrite pow2_sub. apply Qle_shift_div_l; [exact Hy2|].
    pose proof (pow2_pos b2) as Pb.
    assert (E' : pow2 a1 / pow2 b2 * pow2 b2 == pow2 a1) by (field; lra).
    assert (0 < pow2 a1 / pow2 b2) by (apply Qlt_shift_div_l; lra).
    nra.
  - rewrite pow2_sub. apply Qle_shift_div_r; [exact Hy2|].
    pose proof (pow2_pos b1) as Pb.
    assert (E' : pow2 b1 / pow2 a2 * pow2 a2 == pow2 b1) by (field; lra).
    assert (0 < pow2 b1 / pow2 a2) by (apply Qlt_shift_div_l; lra).
    assert (0 <= y1) by apply S1.
    nra.
  - exact Hlo.
  - exact Hhi.
Qed.

Lemma fw_opp s y lo hi a b x :
  fw s y lo hi a b x -> fw (negb s) y lo hi a b (- x)%float.
Proof.
  intros (Ff & S & R). destruct (b64_opp_correct x) as [E1 E2].
  split; [now rewrite E1|]. split; [|exact R].
  apply swithin_eq_x with (x := - B2Q x); [now symmetry|]. now apply swithin_neg.
Qed.

Lemma fw_of_int z k :
  (0 < z)%Z -> (z <= 2 ^ k)%Z -> (0 <= k <= 500)%Z ->
  fw false (inject_Z z) (1 - u64) (1 + u64) 0 k (b64_of_int z).
Proof.
  intros Hz Hk Hk'.
  destruct (@b64_of_int_correct z) as [Ff E]; [lia| |].
  { assert (2 ^ k < 2 ^ 1023)%Z by (apply Z.pow_lt_mono_r; lia). lia. }
  assert (Hq : 0 < inject_Z z) by (change 0 with (inject_Z 0); now rewrite <- Zlt_Qlt).
  split; [exact Ff|]. split; [|split; [|split; [|split]]].
  - apply swithin_eq_x with (x := round53 (inject_Z z)); [now symmetry|].
    assert (H1 : swithin false (inject_Z z) 1 1 (inject_Z z)) by (apply swithin_nonneg; lra).
    apply (swithin_rnd round53_standard_model) in H1.
    revert H1. unfold swithin, within. intros (H1 & H2 & H3 & H4 & H5).
    repeat split; try lra; try (reflexivity).
  - change (pow2 0) with (inject_Z 1). rewrite <- Zle_Qle. lia.
  - rewrite pow2_inject by lia. now rewrite <- Zle_Qle.
  - vm_compute. discriminate.
  - vm_compute. discriminate.
Qed.

Lemma fw_input (x : float) a b :
  b64_finite x = true -> pow2 a <= Qabs (B2Q x) -> Qabs (B2Q x) <= pow2 b ->
  exists s, fw s (Qabs (B2Q x)) 1 1 a b x.
Proof.
  intros Ff Ha Hb. pose proof (pow2_pos a) as Pa.
  destruct (Qlt_le_dec (B2Q x) 0) as [Hn|Hp].
  - exists true. split; [exact Ff|]. split; [|repeat split; try assumption; try lra].
    pose proof (Qabs_neg (B2Q x)) as E.
    unfold swithin, within, signed. lra.
  - exists false. split; [exact Ff|]. split; [|repeat split; try assumption; try lra].
    pose proof (Qabs_pos (B2Q x)) as E.
    unfold swithin, within, signed. lra.
Qed.

Lemma fw_moderate x :
  b64_moderate x = true -> exists s, fw s (Qabs (B2Q x)) 1 1 (-100) 100 x.
Proof.
  unfold b64_moderate. intros H.
  apply andb_prop in H as [H H3]. apply andb_prop in H as [H1 H2].
  apply Qle_bool_iff in H2, H3. now apply fw_input.
Qed.

Ltac ftrack :=
  lazymatch goal with
  | |- fw _ _ _ _ _ _ (PrimFloat.mul _ _) =>
      eapply fw_mul;
      [ ftrack | ftrack | lia | lia | lia | lia
      | vm_compute; discriminate | vm_compute; discriminate ]
  | |- fw _ _ _ _ _ _ (PrimFloat.div _ _) =>
      eapply fw_div;
      [ ftrack | ftrack | lia | lia | lia | lia
      | vm_compute; discriminate | vm_compute; discriminate ]
  | |- fw _ _ _ _ _ _ (PrimFloat.opp _) => eapply fw_opp; ftrack
  | |- fw _ _ _ _ _ _ (b64_of_int _) => eapply fw_of_int; [ lia | eassumption | lia ]
  | |- fw _ _ _ _ _ _ _ => eassumption
  end.

(** ** The hedge in binary64 *)

(** Integers below [2^1023] in magnitude convert. *)
Lemma b64_fits_range z : (Z.abs z < 2 ^ 1023)%Z -> fits Binary64 z = true.
Proof.
  intros H. destruct (Z.eq_dec z 0) as [->|N]; [reflexivity|].
  now destruct (@b64_of_int_correct z N H).
Qed.

Lemma b64_fits_widget z : (0 < z <= 2 ^ 100)%Z -> fits Binary64 z = true.
Proof.
  intros [H1 H2]. apply b64_fits_range.
  assert (2 ^ 100 < 2 ^ 1023)%Z by (apply Z.pow_lt_mono_r; lia). lia.
Qed.

Lemma b64_fits_widget_mul x y :
  (0 < x <= 2 ^ 100)%Z -> (0 < y <= 2 ^ 100)%Z -> fits Binary64 (x * y) = true.
Proof.
  intros [H1 H2] [H3 H4]. apply b64_fits_range.
  assert (2 ^ 100 * 2 ^ 100 < 2 ^ 1023)%Z by (rewrite <- Z.pow_add_r by lia; apply Z.pow_lt_mono_r; lia).
  assert (x * y <= 2 ^ 100 * 2 ^ 100)%Z by nia. nia.
Qed.

Lemma fw_one : fw false 1 1 1 0 0 1%float.
Proof.
  split; [reflexivity|]. split; [|repeat split; vm_compute; discriminate].
  unfold swithin, within, signed.
  assert (E : B2Q 1%float == 1) by (vm_compute; reflexivity).
  repeat split; try lra.
Qed.

Lemma pow_bound_mul (x y : Z) a b :
  (0 < x <= 2 ^ a)%Z -> (0 < y <= 2 ^ b)%Z -> (0 <= a)%Z -> (0 <= b)%Z ->
  (0 < x * y <= 2 ^ (a + b))%Z.
Proof. intros Hx Hy Ha Hb. rewrite Z.pow_add_r by lia. nia. Qed.

Lemma round_trip_binary64 (V F size : Z) :
  (0 < V <= 2 ^ 100)%Z -> (0 < F <= 2 ^ 100)%Z -> (0 < size <= 2 ^ 100)%Z ->
  let opt := (1 * b64_of_int V / b64_of_int (F * size))%float in
  let r := (opt * b64_of_int F * b64_of_int size)%float in
  b64_finite opt = true /\ b64_finite r = true /\
  Qabs (B2Q r - inject_Z V) <= 10 * u64 * inject_Z V.
Proof.
  intros [HV HV'] [HF HF'] [Hs Hs'] opt r.
  destruct (@pow_bound_mul F size 100 100) as [HFs HFs']; try lia.
  change (100 + 100)%Z with 200%Z in HFs'.
  pose proof (inject_Z_pos HV) as QV. pose proof (inject_Z_pos HF) as QF.
  pose proof (inject_Z_pos Hs) as Qs. pose proof (inject_Z_pos HFs) as QFs.
  pose proof fw_one as H1.
  assert (Ho : exists s y lo hi a b, fw s y lo hi a b opt).
  { do 6 eexists. unfold opt. ftrack. }
  assert (H : exists s y lo hi a b, fw s y lo hi a b r /\
     s = false /\ y == inject_Z V /\
     Qle_bool (1 - 10 * u64) lo = true /\ Qle_bool hi (1 + 10 * u64) = true).
  { do 6 eexists. split; [|split; [|split]].
    - unfold r, opt. ftrack.
    - reflexivity.
    - rewrite inject_Z_mult. field. split; lra.
    - split; vm_compute; reflexivity. }
  destruct Ho as (s0 & y0 & lo0 & hi0 & a0 & b0 & Ho).
  destruct H as (s & y & lo & hi & a & b & H & -> & Ey & Hlo & Hhi).
  split; [apply Ho|]. split; [apply H|].
  destruct H as (_ & H & _).
  apply Qle_bool_iff in Hlo, Hhi.
  apply (swithin_eq Ey) in H.
  unfold swithin, within, signed in H. destruct H as (_ & Hl & Hh & Ha & Hb).
  apply Qabs_Qle_condition. pose proof u64_pos. split; nra.
Qed.

Lemma fw_eq s y y' lo hi a b x :
  y == y' -> fw s y lo hi a b x -> fw s y' lo hi a b x.
Proof.
  intros E (Ff & S & Ha & Hb & R). split; [exact Ff|]. split; [exact (swithin_eq E S)|].
  split; [now rewrite <- E|]. split; [now rewrite <- E|exact R].
Qed.

Lemma b64_zero_abs_le (n p : float) :
  (n =? 0)%float = true -> (p =? 0)%float = true -> (abs n <=? abs p)%float = true.
Proof.
  intros Hn Hp. apply b64_eqb_zero in Hn as [sn Hn]. apply b64_eqb_zero in Hp as [sp Hp].
  rewrite leb_spec, !abs_spec, Hn, Hp. reflexivity.
Qed.

Lemma hedged_point_binary64 (V F size : Z) (beta m : float) :
  (0 < V <= 2 ^ 100)%Z -> (0 < F <= 2 ^ 100)%Z -> (0 < size <= 2 ^ 100)%Z ->
  b64_moderate beta = true ->
  (m =? 0)%float = true \/ b64_moderate m = true ->
  let opt := (beta * b64_of_int V / b64_of_int (F * size))%float in
  let p := (b64_of_int V * beta * m)%float in
  let f := (- opt * b64_of_int size * b64_of_int F * m)%float in
  (abs (p + f) <=? abs p)%float = true.
Proof.
  intros [HV HV'] [HF HF'] [Hs Hs'] Hb Hmv opt p f.
  destruct (@pow_bound_mul F size 100 100) as [HFs HFs']; try lia.
  change (100 + 100)%Z with 200%Z in HFs'.
  pose proof (inject_Z_pos HV) as QV. pose proof (inject_Z_pos HF) as QF.
  pose proof (inject_Z_pos Hs) as Qs. pose proof (inject_Z_pos HFs) as QFs.
  destruct (fw_moderate _ Hb) as [sb Fb].
  assert (Hyb : 0 < Qabs (B2Q beta)).
  { destruct Fb as (_ & _ & H & _). pose proof (pow2_pos (-100)). lra. }
  set (yb := Qabs (B2Q beta)) in *.
  destruct Hmv as [Hz|Hmv].
  - assert (Fa : exists s y lo hi a b, fw s y lo hi a b (b64_of_int V * beta)%float).
    { do 6 eexists. ftrack. }
    assert (Ff : exists s y lo hi a b,
               fw s y lo hi a b (- opt * b64_of_int size * b64_of_int F)%float).
    { do 6 eexists. unfold opt. ftrack. }
    destruct Fa as (? & ? & ? & ? & ? & ? & Fa & _).
    destruct Ff as (? & ? & ? & ? & ? & ? & Ff & _).
    destruct (@b64_zero_move _ _ _ Fa Ff Hz) as (Hp0 & _ & Hn0).
    now apply b64_zero_abs_le.
  - destruct (fw_moderate _ Hmv) as [sm Fm].
    assert (Hym : 0 < Qabs (B2Q m)).
    { destruct Fm as (_ & _ & H & _). pose proof (pow2_pos (-100)). lra. }
    set (ym := Qabs (B2Q m)) in *.
    set (P := inject_Z V * yb * ym).
    assert (Hp : exists lo hi a b, fw (xorb sb sm) P lo hi a b p /\
       Qle_bool (1 - 4 * u64) lo = true /\ Qle_bool hi (1 + 4 * u64) = true /\
       (-900 <= a)%Z /\ (b <= 900)%Z).
    { assert (H : exists s y lo hi a b, fw s y lo hi a b p /\ s = xorb sb sm /\ y == P /\
         Qle_bool (1 - 4 * u64) lo = true /\ Qle_bool hi (1 + 4 * u64) = true /\
         (-900 <= a)%Z /\ (b <= 900)%Z).
      { do 6 eexists. split; [|split; [|split; [|split; [|split; [|split]]]]].
        - unfold p. ftrack.
        - reflexivity.
        - reflexivity.
        - vm_compute; reflexivity.
        - vm_compute; reflexivity.
        - lia.
        - lia. }
      destruct H as (s & y & lo & hi & a & b & H & -> & Ey & Hlo & Hhi & Ha & Hb').
      exists lo, hi, a, b. split; [exact (fw_eq Ey H)|]. repeat split; assumption. }
    assert (Hf : exists lo hi a b, fw (negb (xorb sb sm)) P lo hi a b f /\
       Qle_bool (1 - 12 * u64) lo = true /\ Qle_bool hi (1 + 12 * u64) = true /\
       (-900 <= a)%Z /\ (b <= 900)%Z).
    { assert (H : exists s y lo hi a b, fw s y lo hi a b f /\
         s = negb (xorb sb sm) /\ y == P /\
         Qle_bool (1 - 12 * u64) lo = true /\ Qle_bool hi (1 + 12 * u64) = true /\
         (-900 <= a)%Z /\ (b <= 900)%Z).
      { do 6 eexists. split; [|split; [|split; [|split; [|split; [|split]]]]].
        - unfold f, opt. ftrack.
        - now destruct sb, sm.
        - unfold P. rewrite inject_Z_mult. field. split; lra.
        - vm_compute; reflexivity.
        - vm_compute; reflexivity.
        - lia.
        - lia. }
      destruct H as (s & y & lo & hi & a & b & H & -> & Ey & Hlo & Hhi & Ha & Hb').
      exists lo, hi, a, b. split; [exact (fw_eq Ey H)|]. repeat split; assumption. }
    destruct Hp as (lop & hip & ap & bp & Fp & Hlop & Hhip & Hap & Hbp).
    destruct Hf as (lof & hif & af & bf & Ff & Hlof & Hhif & Haf & Hbf).
    apply Qle_bool_iff in Hlop, Hhip, Hlof, Hhif.
    destruct (fw_abs_bounds Fp) as [Lp Up]. destruct (fw_abs_bounds Ff) as [Lf Uf].
    assert (Fp' := Fp). assert (Ff' := Ff).
    destruct Fp' as (Fpf & Sp & _). destruct Ff' as (Fff & Sf & _).
    destruct (@b64_add_correct p f Fpf Fff) as [Fn En].
    + eapply pow2_chain; [|exact Lp]. lia.
    + eapply pow2_chain; [|exact Lf]. lia.
    + eapply Qle_lt_trans; [apply Qabs_triangle|].
      assert (Up' : Qabs (B2Q p) <= pow2 901) by (eapply Qle_trans; [exact Up|apply pow2_le; lia]).
      assert (Uf' : Qabs (B2Q f) <= pow2 901) by (eapply Qle_trans; [exact Uf|apply pow2_le; lia]).
      assert (E : pow2 902 == 2 * pow2 901) by (change 902%Z with (901 + 1)%Z; apply pow2_succ).
      assert (pow2 902 < pow2 1023) by (apply pow2_lt; lia).
      lra.
    + destruct (b64_abs_correct (p + f)) as [Fa Ea].
      destruct (b64_abs_correct p) as [Fa' Ea'].
      apply (proj1 (@b64_compare_correct (abs (p + f)) (abs p)
                      ltac:(now rewrite Fa) ltac:(now rewrite Fa'))).
      rewrite Ea, Ea'.
      eapply (cancel_rounded round53_standard_model); try eassumption.
Qed.

Lemma full_hedge_binary64 (V F size : Z) (beta : float) (moves : list float) :
  (0 < V <= 2 ^ 100)%Z -> (0 < F <= 2 ^ 100)%Z -> (0 < size <= 2 ^ 100)%Z ->
  b64_moderate beta = true -> forallb b64_move moves = true ->
  exists opt p f,
    HedgingBuilder.optimal_contracts Binary64 beta V F size = Py.Ok opt /\
    HedgingBuilder.portfolio Binary64 V beta moves = Py.Ok p /\
    HedgingBuilder.futures Binary64 (HedgingBuilder.contracts Binary64 "Optimal Hedge" opt)
      size F moves = Py.Ok f /\
    forall i, (i < length moves)%nat ->
      exists pv nv, nth_error p i = Some pv /\
                    nth_error (HedgingBuilder.net Binary64 p f) i = Some nv /\
                    (abs nv <=? abs pv)%float = true.
Proof.
  intros HV HF Hs Hb Hmv.
  do 3 eexists.
  split; [apply optimal_contracts_ok;
          [now apply b64_fits_widget | now apply b64_fits_widget_mul | nia]|].
  split; [apply portfolio_ok; now apply b64_fits_widget|].
  split; [apply futures_ok; now apply b64_fits_widget|].
  intros i Hi.
  destruct (nth_error moves i) as [m|] eqn:Em;
    [|apply nth_error_None in Em; lia].
  unfold HedgingBuilder.net.
  do 2 eexists. split; [|split].
  - apply map_nth_error. exact Em.
  - apply zip_with_nth_error; apply map_nth_error; exact Em.
  - change (HedgingBuilder.contracts Binary64 "Optimal Hedge" ?o) with o.
    apply (@hedged_point_binary64 V F size beta m HV HF Hs Hb).
    rewrite forallb_forall in Hmv. apply nth_error_In in Em. apply Hmv in Em.
    unfold b64_move in Em. apply orb_prop in Em. exact Em.
Qed.

Lemma panel_moves_moderate :
  forallb b64_move (HedgingBuilder.moves Binary64) = true.
Proof. vm_compute. reflexivity. Qed.

Lemma panel_full_hedge_binary64 (V F : Z) (beta : float) :
  (0 < V <= 2 ^ 100)%Z -> (0 < F <= 2 ^ 100)%Z -> b64_moderate beta = true ->
  exists out,
    HedgingBuilder.run Binary64 V beta F "Optimal Hedge" = Py.Ok out /\
    forall i, (i < 20)%nat ->
      exists pv nv, nth_error (HedgingBuilder.out_portfolio out) i = Some pv /\
                    nth_error (HedgingBuilder.out_net out) i = Some nv /\
                    (abs nv <=? abs pv)%float = true.
Proof.
  intros HV HF Hb.
  destruct (@full_hedge_binary64 V F HedgingBuilder.size beta (HedgingBuilder.moves Binary64)
              HV HF ltac:(unfold HedgingBuilder.size; lia) Hb panel_moves_moderate)
    as (opt & p & f & Eo & Ep & Ef & H).
  unfold HedgingBuilder.run. rewrite Eo. cbn [Py.bind]. rewrite Ep. cbn [Py.bind].
  rewrite Ef. cbn [Py.bind].
  eexists. split; [reflexivity|].
  cbn [HedgingBuilder.out_portfolio HedgingBuilder.out_net].
  intros i Hi. apply H.
  pose proof (linspace_length Binary64 (fneg Binary64 (lit Binary64 (1 # 10))) (lit Binary64 (1 # 10)) 20) as L.
  fold (HedgingBuilder.moves Binary64) in L.
  exact (eq_ind_r (fun n => (i < n)%nat) Hi L).
Qed.

(** The two scalars of the P&L series are finite on the widget ranges. *)
Lemma widget_scalars_finite (V F size : Z) (beta c : float) :
  (0 < V <= 2 ^ 100)%Z -> (0 < F <= 2 ^ 100)%Z -> (0 < size <= 2 ^ 100)%Z ->
  b64_moderate beta = true -> b64_moderate c = true ->
  b64_finite (b64_of_int V * beta) = true /\
  b64_finite (- c * b64_of_int size * b64_of_int F) = true.
Proof.
  intros [HV HV'] [HF HF'] [Hs Hs'] Hb Hc.
  destruct (fw_moderate _ Hb) as [sb Fb]. destruct (fw_moderate _ Hc) as [sc Fc].
  assert (Fa : exists s y lo hi a b, fw s y lo hi a b (b64_of_int V * beta)%float).
  { do 6 eexists. ftrack. }
  assert (Ff : exists s y lo hi a b,
             fw s y lo hi a b (- c * b64_of_int size * b64_of_int F)%float).
  { do 6 eexists. ftrack. }
  destruct Fa as (? & ? & ? & ? & ? & ? & Fa & _).
  destruct Ff as (? & ? & ? & ? & ? & ? & Ff & _).
  split; assumption.
Qed.

(** ** The effectiveness in binary64 *)

Lemma b64_between_finite (lo x hi : float) :
  b64_finite lo = true -> b64_finite hi = true ->
  (lo <=? x)%float = true -> (x <=? hi)%float = true -> b64_finite x = true.
Proof.
  unfold b64_finite. rewrite !leb_spec.
  destruct (Prim2SF x) as [s|s| |s m e]; try reflexivity;
    destruct (Prim2SF lo) as [sl|sl| |sl ml el]; try discriminate;
    destruct (Prim2SF hi) as [sh|sh| |sh mh eh]; try discriminate;
    intros _ _; try destruct s; cbn; try discriminate; intros; discriminate.
Qed.

Lemma b64_unit_cases x :
  b64_unit x = true ->
  b64_finite x = true /\
  ((x =? 0)%float = true /\ B2Q x == 0 \/ pow2 (-1000) <= B2Q x /\ B2Q x <= 1).
Proof.
  unfold b64_unit. intros H. apply orb_prop in H as [H|H].
  - destruct (b64_eqb_zero H) as [s E].
    split; [unfold b64_finite; now rewrite E|]. left. split; [exact H|].
    unfold B2Q. rewrite E. reflexivity.
  - apply andb_prop in H as [H1 H2].
    assert (Fx : b64_finite x = true).
    { apply (@b64_between_finite 0x1p-1000 x 1); auto. }
    split; [exact Fx|]. right.
    assert (E1 : B2Q 0x1p-1000 == pow2 (-1000)) by (vm_compute; reflexivity).
    assert (E2 : B2Q 1 == 1) by (vm_compute; reflexivity).
    split.
    + rewrite <- E1. apply (proj1 (@b64_compare_correct 0x1p-1000 x eq_refl Fx)). exact H1.
    + rewrite <- E2. apply (proj1 (@b64_compare_correct x 1 Fx eq_refl)). exact H2.
Qed.

Lemma b64_effectiveness_value x :
  b64_unit x = true ->
  b64_finite (BasisRisk.effectiveness Binary64 x) = true /\
  B2Q (BasisRisk.effectiveness Binary64 x) == round53 (B2Q x * 100).
Proof.
  intros H. destruct (b64_unit_cases _ H) as [Fx [[Hz Ez]|[Hlo Hhi]]].
  - unfold BasisRisk.effectiveness. cbn [fmul of_int Binary64].
    rewrite b64_mul_comm.
    destruct (@b64_mul_zero (b64_of_int 100) x eq_refl Hz) as [s E].
    split; [unfold b64_finite; now rewrite E|].
    unfold B2Q at 1. rewrite E. cbn [SF2Q].
    assert (E0 : B2Q x * 100 == 0) by (rewrite Ez; ring).
    rewrite E0. reflexivity.
  - unfold BasisRisk.effectiveness. cbn [fmul of_int Binary64].
    assert (E100 : B2Q (b64_of_int 100) == 100) by (vm_compute; reflexivity).
    pose proof (pow2_pos (-1000)) as P.
    assert (Ea : Qabs (B2Q x) == B2Q x) by (apply Qabs_pos; lra).
    assert (Eb : Qabs (B2Q (b64_of_int 100)) == 100) by (rewrite E100; reflexivity).
    destruct (@b64_mul_correct x (b64_of_int 100) Fx eq_refl) as [Ff E].
    + rewrite Ea. eapply pow2_chain; [|exact Hlo]. lia.
    + rewrite Eb. vm_compute. discriminate.
    + rewrite Ea, Eb.
      assert (pow2 (-1021) <= pow2 (-1000)) by (apply pow2_le; lia). lra.
    + rewrite Ea, Eb.
      assert (100 < pow2 1023) by (vm_compute; reflexivity). lra.
    + split; [exact Ff|]. rewrite E. now rewrite E100.
Qed.

Lemma effectiveness_mono_binary64 (x y : float) :
  b64_unit x = true -> b64_unit y = true -> (x <=? y)%float = true ->
  (BasisRisk.effectiveness Binary64 x <=? BasisRisk.effectiveness Binary64 y)%float = true.
Proof.
  intros Hx Hy Hxy.
  destruct (b64_effectiveness_value _ Hx) as [Fx Ex].
  destruct (b64_effectiveness_value _ Hy) as [Fy Ey].
  destruct (b64_unit_cases _ Hx) as [Fx' _]. destruct (b64_unit_cases _ Hy) as [Fy' _].
  apply (proj1 (@b64_compare_correct x y Fx' Fy')) in Hxy.
  apply (proj1 (@b64_compare_correct _ _ Fx Fy)).
  rewrite Ex, Ey. apply (rnd_mono round53_standard_model). lra.
Qed.

(** The sign of a float of moderate magnitude is the one [<?] reports. *)
Lemma fw_moderate_signed x :
  b64_moderate x = true ->
  fw (PrimFloat.ltb x 0) (Qabs (B2Q x)) 1 1 (-100) 100 x.
Proof.
  unfold b64_moderate. intros H.
  apply andb_prop in H as [H H3]. apply andb_prop in H as [H1 H2].
  apply Qle_bool_iff in H2, H3. pose proof (pow2_pos (-100)) as P.
  destruct (@b64_compare_correct x 0 H1 eq_refl) as (_ & Hlt & _).
  change (B2Q 0) with 0 in Hlt.
  split; [exact H1|]. split; [|repeat split; try assumption; try lra].
  unfold swithin, within. destruct (PrimFloat.ltb x 0) eqn:E; cbn [signed].
  - assert (B2Q x < 0) by now apply Hlt.
    pose proof (Qabs_neg (B2Q x)). lra.
  - assert (~ B2Q x < 0) by (intros C; apply Hlt in C; discriminate).
    pose proof (Qabs_pos (B2Q x)). lra.
Qed.

(** A short hedge gains on a falling market, in binary64. *)
Lemma short_hedge_gains_binary64 (c : float) (size F : Z) (m : float) :
  (0 < size <= 2 ^ 100)%Z -> (0 < F <= 2 ^ 100)%Z ->
  b64_moderate c = true -> PrimFloat.ltb 0 c = true ->
  b64_moderate m = true -> PrimFloat.ltb m 0 = true ->
  PrimFloat.ltb 0 (- c * b64_of_int size * b64_of_int F * m)%float = true.
Proof.
  intros [Hs Hs'] [HF HF'] Hc Hcp Hm Hmn.
  pose proof (fw_moderate_signed _ Hc) as Fc. pose proof (fw_moderate_signed _ Hm) as Fm.
  rewrite Hmn in Fm.
  assert (Ec : PrimFloat.ltb c 0 = false).
  { assert (Fin : b64_finite c = true).
    { unfold b64_moderate in Hc. apply andb_prop in Hc as [Hc _].
      now apply andb_prop in Hc as [Hc _]. }
    destruct (@b64_compare_correct c 0 Fin eq_refl) as (_ & H1 & _).
    destruct (@b64_compare_correct 0 c eq_refl Fin) as (_ & H2 & _).
    apply H2 in Hcp. destruct (PrimFloat.ltb c 0); [|reflexivity].
    assert (B2Q c < B2Q 0) by now apply H1. lra. }
  rewrite Ec in Fc.
  assert (H : exists s y lo hi a b,
    fw s y lo hi a b (- c * b64_of_int size * b64_of_int F * m)%float /\ s = false).
  { do 6 eexists. split; [ftrack|reflexivity]. }
  destruct H as (s & y & lo & hi & a & b & H & ->).
  destruct H as (Fin & S & Ha & _ & Hlo & _).
  apply (proj2 (@b64_compare_correct 0 _ eq_refl Fin)).
  change (B2Q 0) with 0.
  unfold swithin, within, signed in S. pose proof (pow2_pos a). nra.
Qed.

(** ** The optimal hedge *)

(** C1. The optimal contract count is [(beta * V) / (F * size)], panel 6
    computing the same number with the multiplier 50 written out; for
    positive [V], [F], [size] and [beta = 1.0], multiplying the count back
    by [F] and [size] returns [V] up to ten units of roundoff
    (under 1.2e-15 relative): in every arithmetic of the standard model,
    and in binary64 itself for [V], [F] and [size] up to [2^100]. *)
Theorem optimal_contracts_round_trip :
  (forall (A : Arith) (beta : num A) (V F size : Z),
     fits A V = true -> fits A (F * size) = true -> (F * size)%Z <> 0%Z ->
     HedgingBuilder.optimal_contracts A beta V F size
     = Py.Ok (fdiv A (fmul A beta (of_int A V)) (of_int A (F * size)))) /\
  (forall (A : Arith) (beta : num A) (V F : Z),
     OptimalHedge.N A beta V F = HedgingBuilder.optimal_contracts A beta V F 50) /\
  (forall rnd, standard_model rnd ->
   forall V F size : Z, (0 < V)%Z -> (0 < F)%Z -> (0 < size)%Z ->
     let A := Rounded rnd in
     exists opt,
       HedgingBuilder.optimal_contracts A (lit A 1) V F size = Py.Ok opt /\
       Qabs (fmul A (fmul A opt (of_int A F)) (of_int A size) - inject_Z V)
         <= 10 * u64 * inject_Z V) /\
  (forall V F size : Z,
     (0 < V <= 2 ^ 100)%Z -> (0 < F <= 2 ^ 100)%Z -> (0 < size <= 2 ^ 100)%Z ->
     exists opt,
       HedgingBuilder.optimal_contracts Binary64 (lit Binary64 1) V F size = Py.Ok opt /\
       b64_finite opt = true /\
       let r := fmul Binary64 (fmul Binary64 opt (of_int Binary64 F)) (of_int Binary64 size) in
       b64_finite r = true /\
       Qabs (B2Q r - inject_Z V) <= 10 * u64 * inject_Z V).
Proof.
  split; [|split; [|split]].
  - intros A beta V F size HV HFs H. now apply optimal_contracts_ok.
  - reflexivity.
  - intros rnd Hm V F size HV HF Hs. now apply round_trip_rounded.
  - intros V F size HV HF Hs.
    eexists. split.
    + apply optimal_contracts_ok;
        [now apply b64_fits_widget | now apply b64_fits_widget_mul | nia].
    + change (lit Binary64 1) with 1%float.
      exact (round_trip_binary64 HV HF Hs).
Qed.

Lemma optimal_contracts_round_trip_witness :
  exists opt,
    HedgingBuilder.optimal_contracts Binary64 (lit Binary64 1) 5000000 22000 50 = Py.Ok opt /\
    b64_finite opt = true /\
    let r := fmul Binary64 (fmul Binary64 opt (of_int Binary64 22000)) (of_int Binary64 50) in
    b64_finite r = true /\
    Qabs (B2Q r - inject_Z 5000000) <= 10 * u64 * inject_Z 5000000.
Proof.
  apply (proj2 (proj2 (proj2 optimal_contracts_round_trip)) 5000000%Z 22000%Z 50%Z);
    (split; [reflexivity|discriminate]).
Defined.

(** On the panel's default inputs the count is 4.545454545454546 and the
    product back is 5000000.000000001, the float next to 5000000. *)
Remark binary64_round_trip_default :
  match HedgingBuilder.optimal_contracts Binary64 1%float 5000000 22000 50 with
  | Py.Ok opt =>
      opt = 0x1.22e8ba2e8ba2fp+2%float /\
      (opt * b64_of_int 22000 * b64_of_int 50)%float = next_up (b64_of_int 5000000)
  | Py.Raise _ => False
  end.
Proof. vm_compute. split; reflexivity. Qed.

(** C3. With the contract count of the optimal hedge, the hedged P&L is at
    most the unhedged P&L in absolute value at every move of every
    scenario, for positive [V], [F], [size]: for any [beta] in every
    arithmetic of the standard model; in binary64 for [V], [F], [size] up
    to [2^100], a [beta] of moderate magnitude and moves that are zero or of
    moderate magnitude; and so in the panel's own run, with its multiplier
    and its 20 moves. *)
Theorem full_hedge_flattens :
  (forall rnd, standard_model rnd ->
   forall (V F size : Z) (beta : Q) (moves : list Q),
     (0 < V)%Z -> (0 < F)%Z -> (0 < size)%Z ->
     let A := Rounded rnd in
     exists opt p f,
       HedgingBuilder.optimal_contracts A beta V F size = Py.Ok opt /\
       HedgingBuilder.contracts A "Optimal Hedge" opt = opt /\
       HedgingBuilder.portfolio A V beta moves = Py.Ok p /\
       HedgingBuilder.futures A (HedgingBuilder.contracts A "Optimal Hedge" opt) size F moves
         = Py.Ok f /\
       forall i, (i < length moves)%nat ->
         exists pv nv, nth_error p i = Some pv /\
                       nth_error (HedgingBuilder.net A p f) i = Some nv /\
                       Qabs nv <= Qabs pv) /\
  (forall (V F size : Z) (beta : float) (moves : list float),
     (0 < V <= 2 ^ 100)%Z -> (0 < F <= 2 ^ 100)%Z -> (0 < size <= 2 ^ 100)%Z ->
     b64_moderate beta = true -> forallb b64_move moves = true ->
     exists opt p f,
       HedgingBuilder.optimal_contracts Binary64 beta V F size = Py.Ok opt /\
       HedgingBuilder.portfolio Binary64 V beta moves = Py.Ok p /\
       HedgingBuilder.futures Binary64
         (HedgingBuilder.contracts Binary64 "Optimal Hedge" opt) size F moves = Py.Ok f /\
       forall i, (i < length moves)%nat ->
         exists pv nv, nth_error p i = Some pv /\
                       nth_error (HedgingBuilder.net Binary64 p f) i = Some nv /\
                       PrimFloat.leb (PrimFloat.abs nv) (PrimFloat.abs pv) = true) /\
  (forall (V F : Z) (beta : float),
     (0 < V <= 2 ^ 100)%Z -> (0 < F <= 2 ^ 100)%Z -> b64_moderate beta = true ->
     exists out,
       HedgingBuilder.run Binary64 V beta F "Optimal Hedge" = Py.Ok out /\
       forall i, (i < 20)%nat ->
         exists pv nv, nth_error (HedgingBuilder.out_portfolio out) i = Some pv /\
                       nth_error (HedgingBuilder.out_net out) i = Some nv /\
                       PrimFloat.leb (PrimFloat.abs nv) (PrimFloat.abs pv) = true).
Proof.
  split; [|split].
  - intros rnd Hm V F size beta moves HV HF Hs. now apply full_hedge_rounded.
  - intros V F size beta moves HV HF Hs Hb Hmv. now apply full_hedge_binary64.
  - intros V F beta HV HF Hb. now apply panel_full_hedge_binary64.
Qed.

Lemma full_hedge_flattens_witness :
  exists out,
    HedgingBuilder.run Binary64 5000000 0x1.999999999999ap-1%float 22000 "Optimal Hedge"
      = Py.Ok out /\
    forall i, (i < 20)%nat ->
      exists pv nv, nth_error (HedgingBuilder.out_portfolio out) i = Some pv /\
                    nth_error (HedgingBuilder.out_net out) i = Some nv /\
                    PrimFloat.leb (PrimFloat.abs nv) (PrimFloat.abs pv) = true.
Proof.
  apply (proj2 (proj2 full_hedge_flattens) 5000000%Z 22000%Z 0x1.999999999999ap-1%float).
  - split; [reflexivity|discriminate].
  - split; [reflexivity|discriminate].
  - vm_compute. reflexivity.
Defined.

(** Every position of the beta slider is of moderate magnitude. *)
Remark slider_betas_moderate : forallb b64_moderate (hundredths 50 101) = true.
Proof. vm_compute. reflexivity. Qed.

(** ** The P&L series *)

(** C2. When the [int] operands convert, the three series have the
    scenario's length and are aligned with it: at index [i], with move [m],
    the unhedged P&L is [V * beta * m], the futures P&L is
    [-contracts * size * F * m] and the net P&L is their sum; and a short
    hedge gains when the price falls: with positive contracts, multiplier
    and price, a negative move has a positive futures P&L, in every
    arithmetic of the standard model and in binary64 (multiplier and price
    up to [2^100], contracts and move of moderate magnitude). *)
Theorem pnl_series_pointwise :
  (forall (A : Arith) (V : Z) (beta c : num A) (size F : Z) (moves : list (num A)),
     fits A V = true -> fits A size = true -> fits A F = true ->
     exists p f,
       HedgingBuilder.portfolio A V beta moves = Py.Ok p /\
       HedgingBuilder.futures A c size F moves = Py.Ok f /\
       let n := HedgingBuilder.net A p f in
       length p = length moves /\ length f = length moves /\ length n = length moves /\
       forall i m, nth_error moves i = Some m ->
         let pv := fmul A (fmul A (of_int A V) beta) m in
         let fv := fmul A (fmul A (fmul A (fneg A c) (of_int A size)) (of_int A F)) m in
         nth_error p i = Some pv /\ nth_error f i = Some fv /\
         nth_error n i = Some (fadd A pv fv)) /\
  (forall rnd, standard_model rnd ->
   forall (c : Q) (size F : Z) (moves : list Q) i m,
     0 < c -> (0 < size)%Z -> (0 < F)%Z ->
     nth_error moves i = Some m -> m < 0 ->
     exists f fv,
       HedgingBuilder.futures (Rounded rnd) c size F moves = Py.Ok f /\
       nth_error f i = Some fv /\ 0 < fv) /\
  (forall (c : float) (size F : Z) (moves : list float) i m,
     (0 < size <= 2 ^ 100)%Z -> (0 < F <= 2 ^ 100)%Z ->
     b64_moderate c = true -> PrimFloat.ltb 0 c = true ->
     nth_error moves i = Some m ->
     b64_moderate m = true -> PrimFloat.ltb m 0 = true ->
     exists f fv,
       HedgingBuilder.futures Binary64 c size F moves = Py.Ok f /\
       nth_error f i = Some fv /\ PrimFloat.ltb 0 fv = true).
Proof.
  split; [|split].
  - intros A V beta c size F moves HV Hs HF.
    do 2 eexists.
    split; [now apply portfolio_ok|]. split; [now apply futures_ok|].
    set (p := map (fun m => fmul A (fmul A (of_int A V) beta) m) moves).
    set (f := map (fun m => fmul A (fmul A (fmul A (fneg A c) (of_int A size))
                                     (of_int A F)) m) moves).
    intros n.
    assert (Lp : length p = length moves) by apply length_map.
    assert (Lf : length f = length moves) by apply length_map.
    split; [exact Lp|]. split; [exact Lf|]. split.
    + unfold n, HedgingBuilder.net. rewrite zip_with_length; congruence.
    + intros i m Em pv fv.
      assert (Hp : nth_error p i = Some pv).
      { apply map_nth_error with (f := fun m => fmul A (fmul A (of_int A V) beta) m).
        exact Em. }
      assert (Hf : nth_error f i = Some fv).
      { apply map_nth_error with
          (f := fun m => fmul A (fmul A (fmul A (fneg A c) (of_int A size)) (of_int A F)) m).
        exact Em. }
      split; [exact Hp|]. split; [exact Hf|].
      now apply zip_with_nth_error.
  - intros rnd Hm c size F moves i m Hc Hs HF Em Hneg.
    do 2 eexists. split; [apply futures_ok; reflexivity|]. split.
    + apply map_nth_error with
        (f := fun m => fmul (Rounded rnd) (fmul (Rounded rnd) (fmul (Rounded rnd)
                 (fneg (Rounded rnd) c) (of_int (Rounded rnd) size)) (of_int (Rounded rnd) F)) m).
      exact Em.
    + now apply short_hedge_gains.
  - intros c size F moves i m Hs HF Hc Hcp Em Hm Hmn.
    do 2 eexists. split; [apply futures_ok; now apply b64_fits_widget|]. split.
    + apply map_nth_error with
        (f := fun m => fmul Binary64 (fmul Binary64 (fmul Binary64
                 (fneg Binary64 c) (of_int Binary64 size)) (of_int Binary64 F)) m).
      exact Em.
    + now apply short_hedge_gains_binary64.
Qed.

Lemma pnl_series_pointwise_witness :
  exists f fv,
    HedgingBuilder.futures Binary64 0x1.22e8ba2e8ba2fp+2%float 50 22000
      [(- 0x1.999999999999ap-4)%float] = Py.Ok f /\
    nth_error f 0 = Some fv /\ PrimFloat.ltb 0 fv = true.
Proof.
  apply (proj2 (proj2 pnl_series_pointwise) 0x1.22e8ba2e8ba2fp+2%float 50%Z 22000%Z
           [(- 0x1.999999999999ap-4)%float] 0%nat (- 0x1.999999999999ap-4)%float);
    try (split; [reflexivity|discriminate]); vm_compute; reflexivity.
Defined.

(** An [int] too large for a float stops the series before any value. *)
Remark portfolio_overflow :
  HedgingBuilder.portfolio Binary64 (2 ^ 1024) 1%float [0%float]
  = Py.Raise Py.OverflowError.
Proof. reflexivity. Qed.

(** At a zero move the three series hold zeros, the scalars being finite. *)
Lemma zero_move_series (V : Z) (beta c : float) (size F : Z) (moves : list float)
    (i : nat) (m : float) :
  nth_error moves i = Some m ->
  PrimFloat.eqb m 0 = true ->
  fits Binary64 V = true -> fits Binary64 size = true -> fits Binary64 F = true ->
  b64_finite (PrimFloat.mul (b64_of_int V) beta) = true ->
  b64_finite (PrimFloat.mul (PrimFloat.mul (PrimFloat.opp c) (b64_of_int size)) (b64_of_int F))
    = true ->
  exists p f pv fv nv,
    HedgingBuilder.portfolio Binary64 V beta moves = Py.Ok p /\
    HedgingBuilder.futures Binary64 c size F moves = Py.Ok f /\
    nth_error p i = Some pv /\ nth_error f i = Some fv /\
    nth_error (HedgingBuilder.net Binary64 p f) i = Some nv /\
    PrimFloat.eqb pv 0 = true /\ PrimFloat.eqb fv 0 = true /\ PrimFloat.eqb nv 0 = true.
Proof.
  intros Em Hz HV Hs HF Ha Hb.
  destruct (@b64_zero_move _ _ _ Ha Hb Hz) as (Hp & Hf & Hn).
  set (p := map (fun m => fmul Binary64 (fmul Binary64 (of_int Binary64 V) beta) m) moves).
  set (f := map (fun m => fmul Binary64 (fmul Binary64 (fmul Binary64 (fneg Binary64 c)
               (of_int Binary64 size)) (of_int Binary64 F)) m) moves).
  assert (Ep : nth_error p i = Some (PrimFloat.mul (PrimFloat.mul (b64_of_int V) beta) m)).
  { apply map_nth_error with
      (f := fun m => fmul Binary64 (fmul Binary64 (of_int Binary64 V) beta) m). exact Em. }
  assert (Ef : nth_error f i = Some (PrimFloat.mul (PrimFloat.mul (PrimFloat.mul
               (PrimFloat.opp c) (b64_of_int size)) (b64_of_int F)) m)).
  { apply map_nth_error with
      (f := fun m => fmul Binary64 (fmul Binary64 (fmul Binary64 (fneg Binary64 c)
               (of_int Binary64 size)) (of_int Binary64 F)) m). exact Em. }
  exists p, f. do 3 eexists.
  split; [now apply portfolio_ok|]. split; [now apply futures_ok|].
  split; [exact Ep|]. split; [exact Ef|].
  split; [exact (zip_with_nth_error Binary64 (fadd Binary64) p f i Ep Ef)|].
  split; [exact Hp|]. split; [exact Hf|exact Hn].
Qed.

(** The same on the widget ranges, where the scalars are finite. *)
Lemma zero_move_on_ranges (V F size : Z) (beta c : float) (moves : list float)
    (i : nat) (m : float) :
  (0 < V <= 2 ^ 100)%Z -> (0 < F <= 2 ^ 100)%Z -> (0 < size <= 2 ^ 100)%Z ->
  b64_moderate beta = true -> b64_moderate c = true ->
  nth_error moves i = Some m ->
  PrimFloat.eqb m 0 = true ->
  exists p f pv fv nv,
    HedgingBuilder.portfolio Binary64 V beta moves = Py.Ok p /\
    HedgingBuilder.futures Binary64 c size F moves = Py.Ok f /\
    nth_error p i = Some pv /\ nth_error f i = Some fv /\
    nth_error (HedgingBuilder.net Binary64 p f) i = Some nv /\
    PrimFloat.eqb pv 0 = true /\ PrimFloat.eqb fv 0 = true /\ PrimFloat.eqb nv 0 = true.
Proof.
  intros HV HF Hs Hbeta Hc Em Hz.
  destruct (@widget_scalars_finite V F size beta c HV HF Hs Hbeta Hc) as [Ha Hb].
  apply (@zero_move_series V beta c size F moves i m Em Hz); try assumption;
    now apply b64_fits_widget.
Qed.

(** C4. In binary64, at an index whose move is zero the unhedged, the
    futures and the net P&L all compare equal to zero, whatever the rest of
    the scenario, when the [int] operands convert and the two scalars the
    move is multiplied by are finite floats; they are for [V], [F], [size]
    from 1 to [2^100] and a beta and a contract count of moderate
    magnitude. *)
Theorem zero_move_zero_pnl :
  (forall (V : Z) (beta c : float) (size F : Z) (moves : list float) (i : nat) (m : float),
     nth_error moves i = Some m ->
     PrimFloat.eqb m 0 = true ->
     fits Binary64 V = true -> fits Binary64 size = true -> fits Binary64 F = true ->
     b64_finite (PrimFloat.mul (b64_of_int V) beta) = true ->
     b64_finite (PrimFloat.mul (PrimFloat.mul (PrimFloat.opp c) (b64_of_int size))
                   (b64_of_int F)) = true ->
     exists p f pv fv nv,
       HedgingBuilder.portfolio Binary64 V beta moves = Py.Ok p /\
       HedgingBuilder.futures Binary64 c size F moves = Py.Ok f /\
       nth_error p i = Some pv /\ nth_error f i = Some fv /\
       nth_error (HedgingBuilder.net Binary64 p f) i = Some nv /\
       PrimFloat.eqb pv 0 = true /\ PrimFloat.eqb fv 0 = true /\
       PrimFloat.eqb nv 0 = true) /\
  (forall (V F size : Z) (beta c : float) (moves : list float) (i : nat) (m : float),
     (0 < V <= 2 ^ 100)%Z -> (0 < F <= 2 ^ 100)%Z -> (0 < size <= 2 ^ 100)%Z ->
     b64_moderate beta = true -> b64_moderate c = true ->
     nth_error moves i = Some m ->
     PrimFloat.eqb m 0 = true ->
     exists p f pv fv nv,
       HedgingBuilder.portfolio Binary64 V beta moves = Py.Ok p /\
       HedgingBuilder.futures Binary64 c size F moves = Py.Ok f /\
       nth_error p i = Some pv /\ nth_error f i = Some fv /\
       nth_error (HedgingBuilder.net Binary64 p f) i = Some nv /\
       PrimFloat.eqb pv 0 = true /\ PrimFloat.eqb fv 0 = true /\
       PrimFloat.eqb nv 0 = true).
Proof.
  split.
  - intros V beta c size F moves i m Em Hz HV Hs HF Ha Hb.
    exact (@zero_move_series V beta c size F moves i m Em Hz HV Hs HF Ha Hb).
  - intros V F size beta c moves i m HV HF Hs Hbeta Hc Em Hz.
    exact (@zero_move_on_ranges V F size beta c moves i m HV HF Hs Hbeta Hc Em Hz).
Qed.

Lemma zero_move_zero_pnl_witness :
  exists p f pv fv nv,
    HedgingBuilder.portfolio Binary64 5000000 1%float (example_scenario Binary64) = Py.Ok p /\
    HedgingBuilder.futures Binary64 0x1.22e8ba2e8ba2fp+2%float 50 22000
      (example_scenario Binary64) = Py.Ok f /\
    nth_error p 1 = Some pv /\ nth_error f 1 = Some fv /\
    nth_error (HedgingBuilder.net Binary64 p f) 1 = Some nv /\
    PrimFloat.eqb pv 0 = true /\ PrimFloat.eqb fv 0 = true /\ PrimFloat.eqb nv 0 = true.
Proof.
  apply (proj2 zero_move_zero_pnl 5000000%Z 22000%Z 50%Z 1%float 0x1.22e8ba2e8ba2fp+2%float
           (example_scenario Binary64) 1%nat 0%float);
    try (split; [reflexivity|discriminate]); vm_compute; reflexivity.
Defined.

(** Without finiteness the product with a zero move is a NaN: the
    finiteness hypothesis of [zero_move_series] is not superfluous. *)
Remark infinite_scalar_at_zero_move :
  PrimFloat.eqb (PrimFloat.mul infinity 0) 0 = false.
Proof. reflexivity. Qed.

(** The panel's own scenarios contain no zero move. *)
Remark panel_scenarios_skip_zero :
  existsb (fun m => PrimFloat.eqb m 0) (HedgingBuilder.moves Binary64) = false /\
  existsb (fun m => PrimFloat.eqb m 0) (BasisConvergence.moves Binary64) = false.
Proof. split; vm_compute; reflexivity. Qed.

(** ** The hedge ratio *)

(** C5. The contract count used is the optimal count itself in optimal
    mode, the optimal count times 0.5 in under mode and times 1.5 in over
    mode; in binary64 the optimal-mode result equals [1.0 * optimal], the
    under-hedge result equals 0.5 times the optimal-mode result and the
    over-hedge result 1.5 times it, bit for bit and for every float. *)
Theorem hedge_ratio_scaling :
  (forall (A : Arith) (o : num A),
     HedgingBuilder.contracts A "Optimal Hedge" o = o /\
     HedgingBuilder.contracts A "Under Hedge" o = fmul A o (lit A (1 # 2)) /\
     HedgingBuilder.contracts A "Over Hedge" o = fmul A o (lit A (3 # 2))) /\
  (lit Binary64 (1 # 2) = 0.5%float /\ lit Binary64 (3 # 2) = 1.5%float) /\
  (forall o : float,
     HedgingBuilder.contracts Binary64 "Optimal Hedge" o = (1 * o)%float /\
     HedgingBuilder.contracts Binary64 "Under Hedge" o
       = (0.5 * HedgingBuilder.contracts Binary64 "Optimal Hedge" o)%float /\
     HedgingBuilder.contracts Binary64 "Over Hedge" o
       = (1.5 * HedgingBuilder.contracts Binary64 "Optimal Hedge" o)%float).
Proof.
  split; [|split].
  - intros A o. repeat split.
  - split; reflexivity.
  - intros o. split; [|split].
    + rewrite b64_mul_comm. symmetry. apply b64_mul_one_r.
    + apply b64_mul_comm.
    + apply b64_mul_comm.
Qed.

(** ** Hedge effectiveness *)

(** C6. The effectiveness is [corr * 100]: in binary64 it is exactly 0 at
    0.0 and exactly 100 at 1.0, strictly increasing over the hundredths
    from 0.00 to 1.00 the slider offers, and monotone over the floats of
    the unit interval (zero, or from [2^-1000] to 1); it is monotone in
    every arithmetic of the standard model, and strictly increasing in
    exact arithmetic. *)
Theorem effectiveness_percentage :
  (forall (A : Arith) (corr : num A),
     BasisRisk.effectiveness A corr = fmul A corr (of_int A 100)) /\
  BasisRisk.effectiveness Binary64 0%float = 0%float /\
  BasisRisk.effectiveness Binary64 1%float = 100%float /\
  increasing (map (BasisRisk.effectiveness Binary64) (hundredths 0 101)) = true /\
  (forall x y : float, b64_unit x = true -> b64_unit y = true ->
     PrimFloat.leb x y = true ->
     PrimFloat.leb (BasisRisk.effectiveness Binary64 x) (BasisRisk.effectiveness Binary64 y)
     = true) /\
  (forall rnd, standard_model rnd -> forall x y : Q, x <= y ->
     BasisRisk.effectiveness (Rounded rnd) x <= BasisRisk.effectiveness (Rounded rnd) y) /\
  (forall x y : Q,
     BasisRisk.effectiveness Exact x == x * 100 /\
     (x < y -> BasisRisk.effectiveness Exact x < BasisRisk.effectiveness Exact y)).
Proof.
  split; [reflexivity|]. split; [reflexivity|]. split; [reflexivity|].
  split; [vm_compute; reflexivity|]. split; [|split].
  - intros x y Hx Hy Hxy. now apply effectiveness_mono_binary64.
  - intros rnd Hm x y Hxy. now apply effectiveness_mono_rounded.
  - intros x y. unfold BasisRisk.effectiveness. cbn. split; [reflexivity|].
    intros Hxy. change (inject_Z 100) with 100. lra.
Qed.

Lemma effectiveness_percentage_witness :
  PrimFloat.leb (BasisRisk.effectiveness Binary64 0.5%float)
                (BasisRisk.effectiveness Binary64 0x1.999999999999ap-1%float) = true.
Proof.
  apply (proj1 (proj2 (proj2 (proj2 (proj2 effectiveness_percentage))))); reflexivity.
Defined.

(** Between neighbouring floats the product can round to the same value
    (here at 0.7, the float [0x1.6666666666666p-1]): over all of binary64
    the map is not strictly increasing. *)
Remark effectiveness_not_injective :
  PrimFloat.ltb 0x1.6666666666666p-1 (next_up 0x1.6666666666666p-1) = true /\
  BasisRisk.effectiveness Binary64 0x1.6666666666666p-1%float
  = BasisRisk.effectiveness Binary64 (next_up 0x1.6666666666666p-1).
Proof. split; reflexivity. Qed.

(** ** Basis convergence *)

(** C9. The simulated basis path does not depend on the market structure
    selected: for every basis and number of days, both branches (and any
    other radio label) give the same path, the [days] evenly spaced samples
    [np.linspace(basis, 0, days)] from the current basis to 0. *)
Theorem basis_path_ignores_market_type (A : Arith) (basis : Z) (days : nat) :
  BasisConvergence.basis_path A "Contango (F > S)" basis days
  = BasisConvergence.basis_path A "Backwardation (F < S)" basis days /\
  (forall market_type market_type',
     BasisConvergence.basis_path A market_type basis days
     = BasisConvergence.basis_path A market_type' basis days) /\
  (forall market_type,
     BasisConvergence.basis_path A market_type basis days
     = linspace A (of_int A basis) (of_int A 0) days /\
     length (BasisConvergence.basis_path A market_type basis days) = days).
Proof.
  assert (H : forall market_type,
     BasisConvergence.basis_path A market_type basis days
     = linspace A (of_int A basis) (of_int A 0) days).
  { intros mt. unfold BasisConvergence.basis_path. now destruct (String.eqb _ _). }
  split; [now rewrite !H|]. split.
  - intros mt mt'. now rewrite !H.
  - intros mt. split; [apply H|]. rewrite H. apply linspace_length.
Qed.

(** ** The quiz *)

(** C10. On submission the score is an integer from 0 to 10, and a
    certificate is produced exactly when the score is at least 5 and the
    student name and the student ID are both non-empty; it then carries that
    name, ID and score.  Without a submission nothing is scored. *)
Theorem quiz_score_and_certificate (A : Arith) (a : Quiz.answers A)
    (student_name student_id today : string) :
  let s := Quiz.submit a student_name student_id today in
  Quiz.sub_score s = Quiz.score a /\
  (0 <= Quiz.sub_score s <= 10)%Z /\
  (Quiz.sub_certificate s <> None <->
     (5 <= Quiz.sub_score s)%Z /\ student_name <> ""%string /\ student_id <> ""%string) /\
  (forall c, Quiz.sub_certificate s = Some c ->
     c = Quiz.make_certificate student_name student_id (Quiz.score a) today) /\
  Quiz.run false a student_name student_id today = None /\
  Quiz.run true a student_name student_id today = Some s.
Proof.
  intros s. split; [reflexivity|]. split.
  - unfold s, Quiz.submit, Quiz.sub_score, Quiz.score, Quiz.incr.
    repeat match goal with |- context [if ?b then _ else _] => destruct b end; lia.
  - split; [|split; [|split; reflexivity]].
    + unfold s, Quiz.submit, Quiz.sub_certificate, Quiz.sub_score.
      destruct (Z.leb_spec 5 (Quiz.score a)) as [H5|H5];
        destruct student_name, student_id; simpl; split;
        try (intros (? & ? & ?)); try intros ?; try congruence; try lia;
        repeat split; try congruence; try lia.
    + intros c. unfold s, Quiz.submit, Quiz.sub_certificate.
      destruct (_ && _ && _); [now intros [= <-] | discriminate].
Qed.

(** ** Values of the binary64 operations, zeros included *)

Lemma round53_zero x : x == 0 -> round53 x == 0.
Proof.
  intros E. destruct (round53_cases x) as [[_ ->]|[[H _]|[H _]]]; [reflexivity|lra|lra].
Qed.

Lemma round53_opp x : round53 (- x) == - round53 x.
Proof.
  destruct (round53_cases x) as [[E ->]|[[H ->]|[H ->]]].
  - rewrite round53_zero by lra. reflexivity.
  - destruct (round53_cases (- x)) as [[E _]|[[H' _]|[H' ->]]]; try lra.
    apply Qopp_comp. apply round53_pos_comp; [lra|ring].
  - destruct (round53_cases (- x)) as [[E _]|[[H' ->]|[H' _]]]; lra.
Qed.

Lemma round53_le x y : x <= y -> round53 x <= round53 y.
Proof. apply (rnd_mono round53_standard_model). Qed.

Lemma round53_pow2 e : round53 (pow2 e) == pow2 e.
Proof.
  pose proof (pow2_pos e) as P.
  destruct (round53_cases (pow2 e)) as [[E _]|[[_ ->]|[H _]]]; try lra.
  unfold round53_pos.
  assert (M : mag (pow2 e) = (e + 1)%Z).
  { apply mag_of_bounds.
    - replace (e + 1 - 1)%Z with e by lia. apply Qle_refl.
    - apply pow2_lt. lia. }
  rewrite M.
  assert (E1 : pow2 e * pow2 (- (e + 1 - 53)) == inject_Z (2 ^ 52)).
  { rewrite <- pow2_add. replace (e + - (e + 1 - 53))%Z with 52%Z by lia.
    apply pow2_inject. lia. }
  rewrite (rne_comp E1), rne_inject.
  rewrite <- (@pow2_inject 52) by lia. rewrite <- pow2_add.
  replace (52 + (e + 1 - 53))%Z with e by lia. reflexivity.
Qed.

Lemma round53_abs x : Qabs (round53 x) == round53 (Qabs x).
Proof.
  destruct (Qlt_le_dec x 0) as [H|H].
  - rewrite (Qabs_neg x) by lra. rewrite round53_opp.
    apply Qabs_neg. rewrite <- (round53_zero (x := 0)) by reflexivity.
    apply round53_le. lra.
  - rewrite (Qabs_pos x) by lra.
    apply Qabs_pos. rewrite <- (round53_zero (x := 0)) by reflexivity.
    now apply round53_le.
Qed.

Lemma round53_bounds a b t :
  pow2 a <= t -> t <= pow2 b -> pow2 a <= round53 t /\ round53 t <= pow2 b.
Proof.
  intros H1 H2. split.
  - rewrite <- (round53_pow2 a). now apply round53_le.
  - rewrite <- (round53_pow2 b). now apply round53_le.
Qed.

Lemma round53_abs_bounds a b t :
  pow2 a <= Qabs t -> Qabs t <= pow2 b ->
  pow2 a <= Qabs (round53 t) /\ Qabs (round53 t) <= pow2 b.
Proof. intros H1 H2. rewrite round53_abs. now apply round53_bounds. Qed.

(** Integers up to [2^53] in magnitude are not changed. *)
Lemma round53_nat_small z :
  (0 < z <= 2 ^ 53)%Z -> round53 (inject_Z z) == inject_Z z.
Proof.
  intros [Hz Hb].
  assert (Hq : 0 < inject_Z z) by now apply inject_Z_pos.
  destruct (Z.eq_dec z (2 ^ 53)) as [->|N].
  { rewrite <- (@pow2_inject 53) by lia. apply round53_pow2. }
  destruct (round53_cases (inject_Z z)) as [[E _]|[[_ ->]|[H _]]]; try lra.
  unfold round53_pos.
  destruct (mag_spec Hq) as [M1 M2].
  set (e := mag (inject_Z z)) in *.
  assert (He : (e <= 53)%Z).
  { destruct (Z.le_gt_cases e 53) as [L|G]; [exact L|exfalso].
    assert (pow2 53 <= pow2 (e - 1)) by (apply pow2_le; lia).
    rewrite (@pow2_inject 53) in H by lia.
    assert (inject_Z (2 ^ 53) <= inject_Z z) by lra.
    rewrite <- Zle_Qle in H0. lia. }
  assert (E1 : inject_Z z * pow2 (- (e - 53)) == inject_Z (z * 2 ^ (53 - e))).
  { rewrite inject_Z_mult, <- (@pow2_inject (53 - e)) by lia.
    replace (- (e - 53))%Z with (53 - e)%Z by lia. reflexivity. }
  rewrite (rne_comp E1), rne_inject.
  rewrite inject_Z_mult, <- (@pow2_inject (53 - e)) by lia.
  rewrite <- Qmult_assoc, <- pow2_add.
  replace (53 - e + (e - 53))%Z with 0%Z by lia. change (pow2 0) with 1. ring.
Qed.

Lemma round53_int z :
  (Z.abs z <= 2 ^ 53)%Z -> round53 (inject_Z z) == inject_Z z.
Proof.
  intros H. destruct (Z.lt_trichotomy z 0) as [L|[->|G]].
  - assert (E : inject_Z z == - inject_Z (- z)) by (rewrite inject_Z_opp; ring).
    rewrite E at 1. rewrite round53_opp, round53_nat_small by lia.
    rewrite inject_Z_opp. ring.
  - apply round53_zero. reflexivity.
  - apply round53_nat_small. lia.
Qed.


(** Subtraction is the addition of the opposite, bit for bit. *)
Lemma b64_sub_add_opp (x y : float) : (x - y = x + (- y))%float.
Proof.
  apply Prim2SF_inj. rewrite sub_spec, add_spec, opp_spec.
  destruct (Prim2SF x) as [sx|sx| |sx mx ex], (Prim2SF y) as [sy|sy| |sy my ey];
    try reflexivity;
    try (destruct sx, sy; reflexivity).
Qed.

Lemma b64_zero_value x s : Prim2SF x = S754_zero s -> b64_finite x = true /\ B2Q x == 0.
Proof. intros E. unfold b64_finite, B2Q. rewrite E. split; reflexivity. Qed.

Lemma b64_value_zero x :
  b64_finite x = true -> B2Q x == 0 -> exists s, Prim2SF x = S754_zero s.
Proof.
  intros F E. destruct (@b64_finite_cases x F) as [[s Es]|(s & m & e & Es)]; [eauto|].
  exfalso. unfold B2Q in E. rewrite Es in E. cbn [SF2Q] in E.
  pose proof (finite_value_pos m e). destruct s; cbn [signed] in E; lra.
Qed.

Lemma b64_is_zero x : b64_finite x = true -> B2Q x == 0 -> (x =? 0)%float = true.
Proof. intros F E. destruct (@b64_value_zero x F E) as [s Es]. exact (@b64_zero_eqb x s Es). Qed.

(** Adding a zero to a finite float that is not [-0.0] returns it. *)
Lemma b64_zero_add z x s :
  Prim2SF z = S754_zero s -> b64_finite x = true -> Prim2SF x <> S754_zero true ->
  (z + x = x)%float.
Proof.
  intros Ez F N. apply Prim2SF_inj. rewrite add_spec, Ez.
  unfold b64_finite in F.
  destruct (Prim2SF x) as [sx|sx| |sx mx ex]; try discriminate; [|reflexivity].
  destruct sx; [contradiction|]. destruct s; reflexivity.
Qed.

Lemma Zabs_inject z : Qabs (inject_Z z) == inject_Z (Z.abs z).
Proof. symmetry. apply (Zabs_Qabs z 1). Qed.

(** The conversion of an integer, zero included. *)
Lemma b64_of_int_value z :
  (Z.abs z < 2 ^ 1023)%Z ->
  b64_finite (b64_of_int z) = true /\ B2Q (b64_of_int z) == round53 (inject_Z z).
Proof.
  intros H. destruct (Z.eq_dec z 0) as [->|N].
  - split; [reflexivity|]. rewrite round53_zero by reflexivity. reflexivity.
  - now apply b64_of_int_correct.
Qed.

Lemma b64_of_int_exact z :
  (Z.abs z <= 2 ^ 53)%Z ->
  b64_finite (b64_of_int z) = true /\ B2Q (b64_of_int z) == inject_Z z.
Proof.
  intros H.
  assert (P : (2 ^ 53 < 2 ^ 1023)%Z) by (apply Z.pow_lt_mono_r; lia).
  destruct (@b64_of_int_value z) as [F E]; [lia|].
  split; [exact F|]. rewrite E. now apply round53_int.
Qed.

Lemma b64_of_int_not_negzero z :
  (Z.abs z < 2 ^ 1023)%Z -> Prim2SF (b64_of_int z) <> S754_zero true.
Proof.
  intros H. destruct (Z.eq_dec z 0) as [->|N]; [discriminate|].
  intros E. destruct (@b64_zero_value _ _ E) as [_ E0].
  destruct (@b64_of_int_value z H) as [_ Ev]. rewrite Ev in E0.
  assert (B : pow2 0 <= Qabs (inject_Z z)).
  { rewrite Zabs_inject. change (pow2 0) with (inject_Z 1). rewrite <- Zle_Qle. lia. }
  assert (B' : Qabs (inject_Z z) <= pow2 1023).
  { rewrite Zabs_inject, (@pow2_inject 1023) by lia. rewrite <- Zle_Qle. lia. }
  destruct (@round53_abs_bounds _ _ _ B B') as [L _].
  rewrite E0 in L. change (Qabs 0) with 0 in L. change (pow2 0) with 1 in L. lra.
Qed.

Lemma b64_one_value : B2Q 1%float == 1.
Proof. vm_compute. reflexivity. Qed.

(** The value of a float in the normal range is not changed by rounding. *)
Lemma round53_B2Q x :
  b64_finite x = true ->
  B2Q x == 0 \/ (pow2 (-1021) <= Qabs (B2Q x) /\ Qabs (B2Q x) < pow2 1023) ->
  round53 (B2Q x) == B2Q x.
Proof.
  intros F [E|[L U]].
  - rewrite E. apply round53_zero. reflexivity.
  - assert (A1 : Qabs (B2Q 1%float) == 1) by (rewrite b64_one_value; reflexivity).
    assert (P : pow2 (-1022) <= pow2 (-1021)) by (apply pow2_le; lia).
    destruct (@b64_mul_correct x 1%float F eq_refl) as [_ E].
    + lra.
    + rewrite A1. vm_compute. discriminate.
    + rewrite A1. lra.
    + rewrite A1. lra.
    + rewrite b64_mul_one_r in E. rewrite E at 2.
      apply round53_proper. rewrite b64_one_value. ring.
Qed.

Lemma b64_in_normal k x :
  b64_in k x -> (0 <= k <= 1000)%Z ->
  b64_finite x = true /\
  (B2Q x == 0 \/ (pow2 (-1021) <= Qabs (B2Q x) /\ Qabs (B2Q x) < pow2 1023)).
Proof.
  intros [F [E|[L U]]] Hk; (split; [exact F|]); [now left|right].
  split.
  - eapply Qle_trans; [|exact L]. apply pow2_le. lia.
  - eapply Qle_lt_trans; [exact U|]. apply pow2_lt. lia.
Qed.

Lemma b64_in_round k x :
  b64_in k x -> (0 <= k <= 1000)%Z -> round53 (B2Q x) == B2Q x.
Proof. intros H Hk. destruct (b64_in_normal H Hk) as [F C]. now apply round53_B2Q. Qed.

Lemma b64_in_weaken k k' x : (k <= k')%Z -> b64_in k x -> b64_in k' x.
Proof.
  intros Hk [F [E|[L U]]]; (split; [exact F|]); [now left|right]. split.
  - eapply Qle_trans; [|exact L]. apply pow2_le. lia.
  - eapply Qle_trans; [exact U|]. apply pow2_le. lia.
Qed.

Lemma b64_in_of_value k x v :
  b64_finite x = true -> B2Q x == round53 v ->
  v == 0 \/ (pow2 (- k) <= Qabs v /\ Qabs v <= pow2 k) ->
  b64_in k x.
Proof.
  intros F E [Z|[L U]]; (split; [exact F|]).
  - left. rewrite E. now apply round53_zero.
  - right. rewrite E. now apply round53_abs_bounds.
Qed.

Lemma b64_in_opp k x : b64_in k x -> b64_in k (- x)%float.
Proof.
  intros [F C]. destruct (b64_opp_correct x) as [F' E]. split; [now rewrite F'|].
  rewrite E. destruct C as [Z|[L U]]; [left; lra|right].
  rewrite Qabs_opp. now split.
Qed.

Lemma b64_in_of_int z k :
  (Z.abs z <= 2 ^ k)%Z -> (0 <= k <= 1000)%Z ->
  b64_in k (b64_of_int z) /\ B2Q (b64_of_int z) == round53 (inject_Z z).
Proof.
  intros H Hk.
  assert (P : (2 ^ k < 2 ^ 1023)%Z) by (apply Z.pow_lt_mono_r; lia).
  destruct (@b64_of_int_value z) as [F E]; [lia|].
  split; [|exact E].
  apply (@b64_in_of_value k _ (inject_Z z) F E).
  destruct (Z.eq_dec z 0) as [->|N]; [left; reflexivity|right].
  rewrite Zabs_inject. split.
  - eapply Qle_trans with (y := pow2 0); [apply pow2_le; lia|].
    change (pow2 0) with (inject_Z 1). rewrite <- Zle_Qle. lia.
  - rewrite (@pow2_inject k) by lia. now rewrite <- Zle_Qle.
Qed.

(** Multiplication. *)
Lemma b64_mul_value k1 k2 x y :
  b64_in k1 x -> b64_in k2 y -> (0 <= k1)%Z -> (0 <= k2)%Z -> (k1 + k2 <= 1000)%Z ->
  b64_in (k1 + k2) (x * y)%float /\ B2Q (x * y)%float == round53 (B2Q x * B2Q y).
Proof.
  intros [Fx Cx] [Fy Cy] H1 H2 H3.
  assert (Z0 : B2Q x == 0 \/ B2Q y == 0 ->
               b64_finite (x * y)%float = true /\ B2Q (x * y)%float == round53 (B2Q x * B2Q y)).
  { intros [E|E].
    - destruct (@b64_mul_zero y x Fy (@b64_is_zero x Fx E)) as [s Es].
      rewrite b64_mul_comm in Es. destruct (@b64_zero_value _ _ Es) as [F' E'].
      split; [exact F'|]. rewrite E', round53_zero; [reflexivity|]. rewrite E. ring.
    - destruct (@b64_mul_zero x y Fx (@b64_is_zero y Fy E)) as [s Es].
      destruct (@b64_zero_value _ _ Es) as [F' E'].
      split; [exact F'|]. rewrite E', round53_zero; [reflexivity|]. rewrite E. ring. }
  destruct Cx as [Ex|[Lx Ux]].
  { destruct Z0 as [F E]; [now left|]. split; [|exact E].
    apply (@b64_in_of_value _ _ _ F E). left. rewrite Ex. ring. }
  destruct Cy as [Ey|[Ly Uy]].
  { destruct Z0 as [F E]; [now right|]. split; [|exact E].
    apply (@b64_in_of_value _ _ _ F E). left. rewrite Ey. ring. }
  clear Z0.
  pose proof (pow2_pos (- k1)) as P1. pose proof (pow2_pos (- k2)) as P2.
  set (X := Qabs (B2Q x)) in *. set (Y := Qabs (B2Q y)) in *.
  assert (L : pow2 (- (k1 + k2)) <= X * Y).
  { replace (- (k1 + k2))%Z with (- k1 + - k2)%Z by lia. rewrite pow2_add. nra. }
  assert (U : X * Y <= pow2 (k1 + k2)).
  { rewrite pow2_add. nra. }
  destruct (@b64_mul_correct x y Fx Fy) as [F E].
  - eapply Qle_trans; [|exact Lx]. apply pow2_le. lia.
  - eapply Qle_trans; [|exact Ly]. apply pow2_le. lia.
  - eapply Qle_trans; [|exact L]. apply pow2_le. lia.
  - eapply Qle_lt_trans; [exact U|]. apply pow2_lt. lia.
  - split; [|exact E]. apply (@b64_in_of_value _ _ _ F E). right.
    rewrite Qabs_Qmult. now split.
Qed.

(** A float of magnitude at least [2^-k] is a multiple of [2^(-k-52)]. *)
Lemma b64_grid k x :
  b64_in k x -> (0 <= k <= 900)%Z ->
  exists n : Z, B2Q x == inject_Z n * pow2 (- k - 52).
Proof.
  intros [F [E|[L U]]] Hk.
  - exists 0%Z. rewrite E. ring.
  - pose proof (pow2_pos (- k)) as P.
    destruct (@B2Q_nonzero x F) as (s & m & e & Es & V & Ea); [lra|].
    assert (V' : valid_binary (S754_finite false m e) = true) by exact V.
    rewrite Ea in L.
    destruct (@valid_normal m e V') as [D He].
    { eapply Qle_trans; [|exact L]. apply pow2_le. lia. }
    pose proof (mantissa_value_bounds m e) as [_ B]. cbv zeta in B. rewrite D in B.
    assert (Hlt : (- k < 53 + e)%Z) by (apply pow2_lt_inv; lra).
    exists (cond_Zopp s (Zpos m) * 2 ^ (e + k + 52))%Z.
    unfold B2Q. rewrite Es. cbn [SF2Q].
    rewrite inject_Z_mult, cond_Zopp_signed, <- (@pow2_inject (e + k + 52)) by lia.
    rewrite <- Qmult_assoc, <- pow2_add.
    replace (e + k + 52 + (- k - 52))%Z with e by lia.
    destruct s; cbn [signed]; ring.
Qed.

Lemma b64_add_zero_l z x s :
  Prim2SF z = S754_zero s -> b64_finite x = true -> 0 < Qabs (B2Q x) ->
  (z + x = x)%float.
Proof.
  intros Ez F N. apply (@b64_zero_add z x s Ez F).
  intros E. destruct (@b64_zero_value _ _ E) as [_ E0]. rewrite E0 in N. discriminate.
Qed.

Lemma b64_add_zero_r x z s :
  Prim2SF z = S754_zero s -> b64_finite x = true -> 0 < Qabs (B2Q x) ->
  (x + z = x)%float.
Proof.
  intros Ez F N. apply Prim2SF_inj. rewrite add_spec, Ez.
  destruct (@B2Q_nonzero x F N) as (sx & m & e & Es & _). rewrite Es. reflexivity.
Qed.

(** Addition. *)
Lemma b64_add_value k x y :
  b64_in k x -> b64_in k y -> (0 <= k <= 900)%Z ->
  b64_in (k + 53) (x + y)%float /\ B2Q (x + y)%float == round53 (B2Q x + B2Q y).
Proof.
  intros Hx Hy Hk.
  destruct (b64_grid Hx Hk) as [nx Gx]. destruct (b64_grid Hy Hk) as [ny Gy].
  assert (Rx : round53 (B2Q x) == B2Q x) by (apply (b64_in_round Hx); lia).
  assert (Ry : round53 (B2Q y) == B2Q y) by (apply (b64_in_round Hy); lia).
  assert (Hx' := Hx). assert (Hy' := Hy).
  destruct Hx as [Fx Cx]. destruct Hy as [Fy Cy].
  pose proof (pow2_pos (- k)) as P.
  assert (V : b64_finite (x + y)%float = true /\
              B2Q (x + y)%float == round53 (B2Q x + B2Q y)).
  { destruct Cx as [Ex|[Lx Ux]]; [|destruct Cy as [Ey|[Ly Uy]]].
    - destruct (@b64_value_zero x Fx Ex) as [sx Sx].
      destruct Cy as [Ey|[Ly Uy]].
      + destruct (@b64_value_zero y Fy Ey) as [sy Sy].
        destruct (@b64_add_zero x y sx sy Sx Sy) as [s Es].
        destruct (@b64_zero_value _ _ Es) as [F E]. split; [exact F|].
        rewrite E, round53_zero; [reflexivity|]. rewrite Ex, Ey. ring.
      + rewrite (@b64_add_zero_l x y sx Sx Fy) by lra. split; [exact Fy|].
        rewrite <- Ry at 1. apply round53_proper. rewrite Ex. ring.
    - destruct (@b64_value_zero y Fy Ey) as [sy Sy].
      rewrite (@b64_add_zero_r x y sy Sy Fx) by lra. split; [exact Fx|].
      rewrite <- Rx at 1. apply round53_proper. rewrite Ey. ring.
    - apply b64_add_correct; try assumption.
      + eapply Qle_trans; [|exact Lx]. apply pow2_le. lia.
      + eapply Qle_trans; [|exact Ly]. apply pow2_le. lia.
      + eapply Qle_lt_trans; [apply Qabs_triangle|].
        assert (pow2 (k + 1) < pow2 1023) by (apply pow2_lt; lia).
        rewrite pow2_succ in H. lra. }
  destruct V as [F E]. split; [|exact E].
  apply (@b64_in_of_value _ _ _ F E).
  assert (S : B2Q x + B2Q y == inject_Z (nx + ny) * pow2 (- k - 52)).
  { rewrite Gx, Gy, inject_Z_plus. ring. }
  destruct (Z.eq_dec (nx + ny) 0) as [Z0|N].
  - left. rewrite S, Z0. ring.
  - right. split.
    + rewrite S, Qabs_Qmult, Zabs_inject.
      pose proof (pow2_pos (- k - 52)) as P2. rewrite (Qabs_pos (pow2 (- k - 52))) by lra.
      assert (1 <= inject_Z (Z.abs (nx + ny))).
      { change 1 with (inject_Z 1). rewrite <- Zle_Qle. lia. }
      assert (pow2 (- (k + 53)) <= pow2 (- k - 52)) by (apply pow2_le; lia).
      nra.
    + eapply Qle_trans; [apply Qabs_triangle|].
      assert (Bx : Qabs (B2Q x) <= pow2 k).
      { destruct Cx as [Ex|[_ U]]; [rewrite Ex; pose proof (pow2_pos k); simpl; lra|exact U]. }
      assert (By : Qabs (B2Q y) <= pow2 k).
      { destruct Cy as [Ey|[_ U]]; [rewrite Ey; pose proof (pow2_pos k); simpl; lra|exact U]. }
      assert (pow2 (k + 1) <= pow2 (k + 53)) by (apply pow2_le; lia).
      rewrite pow2_succ in H. lra.
Qed.

(** Subtraction. *)
Lemma b64_sub_value k x y :
  b64_in k x -> b64_in k y -> (0 <= k <= 900)%Z ->
  b64_in (k + 53) (x - y)%float /\ B2Q (x - y)%float == round53 (B2Q x - B2Q y).
Proof.
  intros Hx Hy Hk. rewrite b64_sub_add_opp.
  destruct (b64_add_value Hx (b64_in_opp Hy) Hk) as [I E]. split; [exact I|].
  rewrite E. apply round53_proper.
  destruct (b64_opp_correct y) as [_ Eo]. rewrite Eo. ring.
Qed.

(** Division, by a float that is not zero. *)
Lemma b64_div_value k1 k2 x y :
  b64_in k1 x -> b64_in k2 y -> ~ B2Q y == 0 ->
  (0 <= k1)%Z -> (0 <= k2)%Z -> (k1 + k2 <= 1000)%Z ->
  b64_in (k1 + k2) (x / y)%float /\ B2Q (x / y)%float == round53 (B2Q x / B2Q y).
Proof.
  intros [Fx Cx] [Fy Cy] Ny H1 H2 H3.
  destruct Cy as [Ey|[Ly Uy]]; [contradiction|].
  pose proof (pow2_pos (- k2)) as P2.
  destruct Cx as [Ex|[Lx Ux]].
  - destruct (@b64_value_zero x Fx Ex) as [sx Sx].
    destruct (@B2Q_nonzero y Fy) as (sy & m & e & Sy & _); [lra|].
    assert (Es : Prim2SF (x / y)%float = S754_zero (xorb sx sy)).
    { rewrite div_spec, Sx, Sy. reflexivity. }
    destruct (@b64_zero_value _ _ Es) as [F E].
    assert (Ev : B2Q (x / y)%float == round53 (B2Q x / B2Q y)).
    { rewrite E, round53_zero; [reflexivity|]. rewrite Ex. unfold Qdiv. ring. }
    split; [|exact Ev]. apply (@b64_in_of_value _ _ _ F Ev). left.
    rewrite Ex. unfold Qdiv. ring.
  - pose proof (pow2_pos (- k1)) as P1. pose proof (pow2_pos k2) as Q2.
    set (X := Qabs (B2Q x)) in *. set (Y := Qabs (B2Q y)) in *.
    assert (HY : 0 < Y) by lra.
    assert (L : pow2 (- (k1 + k2)) <= X / Y).
    { apply Qle_shift_div_l; [exact HY|].
      replace (- (k1 + k2))%Z with (- k1 + - k2)%Z by lia. rewrite pow2_add.
      assert (E : pow2 (- k2) * pow2 k2 == 1).
      { rewrite <- pow2_add. replace (- k2 + k2)%Z with 0%Z by lia. reflexivity. }
      assert (pow2 (- k2) * Y <= 1) by nra.
      nra. }
    assert (U : X / Y <= pow2 (k1 + k2)).
    { apply Qle_shift_div_r; [exact HY|]. rewrite pow2_add.
      assert (E : pow2 k2 * pow2 (- k2) == 1).
      { rewrite <- pow2_add. replace (k2 + - k2)%Z with 0%Z by lia. reflexivity. }
      assert (1 <= pow2 k2 * Y) by nra.
      pose proof (pow2_pos k1). nra. }
    destruct (@b64_div_correct x y Fx Fy) as [F E].
    + eapply Qle_trans; [|exact Lx]. apply pow2_le. lia.
    + eapply Qle_trans; [|exact Ly]. apply pow2_le. lia.
    + eapply Qle_trans; [|exact L]. apply pow2_le. lia.
    + eapply Qle_lt_trans; [exact U|]. apply pow2_lt. lia.
    + split; [|exact E]. apply (@b64_in_of_value _ _ _ F E). right.
      assert (Ea : Qabs (B2Q x / B2Q y) == X / Y).
      { unfold Qdiv. rewrite Qabs_Qmult, Qabs_Qinv. reflexivity. }
      rewrite Ea. now split.
Qed.

(** Two finite floats of the same non-zero value are the same float. *)
Lemma b64_value_inj x y :
  b64_finite x = true -> b64_finite y = true ->
  B2Q x == B2Q y -> ~ B2Q x == 0 -> x = y.
Proof.
  intros Fx Fy E N.
  assert (Nx : 0 < Qabs (B2Q x)).
  { destruct (Qeq_dec (Qabs (B2Q x)) 0) as [Z|Z]; [|pose proof (Qabs_nonneg (B2Q x)); lra].
    exfalso. apply N. destruct (Qlt_le_dec (B2Q x) 0) as [L|L].
    - rewrite Qabs_neg in Z by lra. lra.
    - rewrite Qabs_pos in Z by lra. exact Z. }
  assert (Ny : 0 < Qabs (B2Q y)) by (rewrite <- E; exact Nx).
  destruct (@B2Q_nonzero x Fx Nx) as (sx & mx & ex & Sx & Vx & _).
  destruct (@B2Q_nonzero y Fy Ny) as (sy & my & ey & Sy & Vy & _).
  pose proof (@SFcompare_finite sx mx ex sy my ey Vx Vy) as C.
  assert (Q : Qcompare (SF2Q (S754_finite sx mx ex)) (SF2Q (S754_finite sy my ey)) = Eq).
  { apply Qeq_alt. unfold B2Q in E. now rewrite Sx, Sy in E. }
  rewrite Q in C. apply Prim2SF_inj. rewrite Sx, Sy.
  cbn [SFcompare] in C.
  destruct sx, sy; try discriminate.
  - destruct (Z.compare_spec ex ey) as [Ee|Ee|Ee]; try discriminate.
    injection C as C. apply (f_equal CompOpp) in C. rewrite CompOpp_involutive in C.
    cbn [CompOpp] in C. apply Pos.compare_eq in C. now subst.
  - destruct (Z.compare_spec ex ey) as [Ee|Ee|Ee]; try discriminate.
    injection C as C. apply Pos.compare_eq in C. now subst.
Qed.

(** A float whose value is a small integer is the conversion of that integer. *)
Lemma b64_int_value_eq x z :
  b64_finite x = true -> B2Q x == inject_Z z -> z <> 0%Z -> (Z.abs z <= 2 ^ 53)%Z ->
  x = b64_of_int z.
Proof.
  intros F E N H. destruct (@b64_of_int_exact z H) as [F' E'].
  apply b64_value_inj; try assumption.
  - now rewrite E, E'.
  - rewrite E. intros C. apply N.
    apply (proj1 (inject_Z_injective z 0)). exact C.
Qed.

Lemma inject_Z_sub a b : inject_Z (a - b) == inject_Z a - inject_Z b.
Proof. unfold Z.sub. rewrite inject_Z_plus, inject_Z_opp. reflexivity. Qed.

(** * The other panels: properties *)

(** ** Price grids of eight samples in binary64 *)

(** The difference of two converted integers is the converted difference. *)
Lemma b64_of_int_sub a b :
  (Z.abs a <= 2 ^ 52)%Z -> (Z.abs b <= 2 ^ 52)%Z -> a <> b ->
  (b64_of_int b - b64_of_int a)%float = b64_of_int (b - a).
Proof.
  intros Ha Hb N.
  assert (P : (2 ^ 53 = 2 * 2 ^ 52)%Z) by reflexivity.
  assert (P' : (2 ^ 52 <= 2 ^ 900)%Z) by (apply Z.pow_le_mono_r; lia).
  destruct (@b64_in_of_int a 900) as [Ia Ea]; [lia|lia|].
  destruct (@b64_in_of_int b 900) as [Ib Eb]; [lia|lia|].
  destruct (b64_sub_value Ib Ia) as [[F _] E]; [lia|].
  apply b64_int_value_eq; try lia; [exact F|].
  rewrite E, Ea, Eb, !round53_int by lia.
  rewrite <- inject_Z_sub. apply round53_int. lia.
Qed.

Section Grid.

Variables a w : Z.
Hypothesis Hw : (0 < w <= 2 ^ 20)%Z.
Hypothesis Ha : (Z.abs a <= 2 ^ 51)%Z.

Let start := b64_of_int a.
Let stop := b64_of_int (a + w).
Let step := (b64_of_int w / b64_of_int 7)%float.

Lemma grid_bounds : (Z.abs a <= 2 ^ 52)%Z /\ (Z.abs (a + w) <= 2 ^ 52)%Z.
Proof.
  assert (2 ^ 52 = 2 * 2 ^ 51)%Z by reflexivity.
  assert (2 ^ 20 <= 2 ^ 51)%Z by (apply Z.pow_le_mono_r; lia). lia.
Qed.

Lemma grid_step_in : b64_in 23 step /\ 0 < B2Q step.
Proof.
  assert (P : (2 ^ 20 <= 2 ^ 53)%Z) by (apply Z.pow_le_mono_r; lia).
  destruct (@b64_in_of_int w 20) as [Iw Ew]; [lia|lia|].
  destruct (@b64_in_of_int 7 3) as [I7 E7]; [vm_compute; discriminate|lia|].
  rewrite round53_int in Ew by lia. rewrite round53_int in E7 by (vm_compute; discriminate).
  destruct (@b64_div_value 20 3 _ _ Iw I7) as [I E]; try lia.
  { rewrite E7. discriminate. }
  split; [exact I|]. unfold step. rewrite E, Ew, E7.
  assert (Hq : 1 <= inject_Z w) by (change 1 with (inject_Z 1); rewrite <- Zle_Qle; lia).
  assert (B : pow2 (-3) <= inject_Z w / inject_Z 7).
  { apply Qle_shift_div_l; [reflexivity|]. change (pow2 (-3) * inject_Z 7) with (7 # 8). lra. }
  assert (B' := round53_le B). rewrite round53_pow2 in B'.
  pose proof (pow2_pos (-3)). lra.
Qed.

Lemma grid_samples :
  (forall i, (i < 7)%nat ->
     nth_error (linspace Binary64 start stop 8) i
     = Some (b64_of_int (Z.of_nat i) * step + start)%float) /\
  nth_error (linspace Binary64 start stop 8) 7 = Some stop.
Proof.
  destruct grid_bounds as [B1 B2]. destruct grid_step_in as [_ Sp].
  assert (D : (stop - start)%float = b64_of_int w).
  { unfold stop, start. rewrite b64_of_int_sub by lia. f_equal. lia. }
  split.
  - intros i Hi.
    pose proof (@linspace_init Binary64 start stop 8 i ltac:(lia)) as L.
    cbv zeta in L. cbn [fdiv fsub fmul fadd of_int feqb Binary64] in L.
    rewrite D in L. change (Z.of_nat 8 - 1)%Z with 7%Z in L. apply L.
    fold step.
    destruct (PrimFloat.eqb step (b64_of_int 0)) eqn:Eq; [|reflexivity].
    exfalso.
    destruct grid_step_in as [[F _] _].
    apply (proj1 (proj2 (proj2 (@b64_compare_correct step (b64_of_int 0) F eq_refl)))) in Eq.
    change (B2Q (b64_of_int 0)) with 0 in Eq. lra.
  - apply (@linspace_last Binary64 start stop 8). lia.
Qed.

(** The first sample is [start] itself. *)
Lemma grid_first : nth_error (linspace Binary64 start stop 8) 0 = Some start.
Proof.
  destruct grid_bounds as [B1 B2].
  rewrite (proj1 grid_samples 0%nat) by lia. f_equal.
  destruct grid_step_in as [[F _] _].
  destruct (@b64_mul_zero step (b64_of_int 0) F eq_refl) as [s Es].
  rewrite b64_mul_comm in Es. change (Z.of_nat 0) with 0%Z.
  assert (P : (2 ^ 52 < 2 ^ 1023)%Z) by (apply Z.pow_lt_mono_r; lia).
  apply (@b64_zero_add _ _ s Es).
  - apply b64_of_int_value. lia.
  - apply b64_of_int_not_negzero. lia.
Qed.

(** A sample lies between the integers that bracket its offset. *)
Lemma grid_bracket (t : float) (lo hi : Z) :
  b64_in 100 t -> inject_Z lo <= B2Q t -> B2Q t <= inject_Z hi ->
  (Z.abs lo <= 2 ^ 21)%Z -> (Z.abs hi <= 2 ^ 21)%Z ->
  let p := (t + start)%float in
  b64_in 153 p /\ inject_Z (a + lo) <= B2Q p /\ B2Q p <= inject_Z (a + hi).
Proof.
  intros It L U Hl Hh p.
  assert (P1 : (2 ^ 53 = 4 * 2 ^ 51)%Z) by reflexivity.
  assert (P2 : (2 ^ 21 <= 2 ^ 51)%Z) by (apply Z.pow_le_mono_r; lia).
  assert (P3 : (2 ^ 51 <= 2 ^ 100)%Z) by (apply Z.pow_le_mono_r; lia).
  destruct (@b64_in_of_int a 100) as [Ia Ea]; [lia|lia|].
  rewrite round53_int in Ea by lia.
  destruct (b64_add_value It Ia) as [I E]; [lia|].
  split; [exact I|]. unfold p, start. rewrite E, Ea.
  split.
  - rewrite <- (@round53_int (a + lo)) by lia. apply round53_le.
    rewrite inject_Z_plus. lra.
  - rewrite <- (@round53_int (a + hi)) by lia. apply round53_le.
    rewrite inject_Z_plus. lra.
Qed.

End Grid.

Lemma b64_move_in t : b64_move t = true -> b64_in 100 t.
Proof.
  unfold b64_move. intros H. apply orb_prop in H as [H|H].
  - destruct (b64_eqb_zero H) as [s Es]. destruct (@b64_zero_value _ _ Es) as [F E].
    split; [exact F|now left].
  - unfold b64_moderate in H.
    apply andb_prop in H as [H H3]. apply andb_prop in H as [H1 H2].
    apply Qle_bool_iff in H2, H3. split; [exact H1|right]. now split.
Qed.

Lemma offsets_ok_nth w i :
  offsets_ok w = true -> (i < 7)%nat ->
  offset_ok w i (b64_of_int (Z.of_nat i) * (b64_of_int w / b64_of_int 7))%float = true.
Proof.
  unfold offsets_ok, grid_offsets. intros H Hi.
  rewrite forallb_forall in H.
  apply (H (i, (b64_of_int (Z.of_nat i) * (b64_of_int w / b64_of_int 7))%float)).
  do 7 (destruct i as [|i]; [cbn; tauto|]). lia.
Qed.

(** Every sample of an eight-point grid from [a] to [a + w] lies between the
    integers around [a + w * i / 7]. *)
Lemma grid_sample (a w : Z) (i : nat) :
  offsets_ok w = true -> (0 < w <= 2 ^ 20)%Z -> (Z.abs a <= 2 ^ 51)%Z -> (i < 8)%nat ->
  exists p,
    nth_error (linspace Binary64 (b64_of_int a) (b64_of_int (a + w)) 8) i = Some p /\
    b64_in 153 p /\
    inject_Z (a + w * Z.of_nat i / 7) <= B2Q p /\
    B2Q p <= inject_Z (a + (w * Z.of_nat i / 7 + 1)).
Proof.
  intros Ok Hw Ha Hi.
  assert (P1 : (2 ^ 53 = 4 * 2 ^ 51)%Z) by reflexivity.
  assert (P2 : (2 ^ 20 <= 2 ^ 51)%Z) by (apply Z.pow_le_mono_r; lia).
  assert (P3 : (2 ^ 51 <= 2 ^ 100)%Z) by (apply Z.pow_le_mono_r; lia).
  destruct (Nat.eq_dec i 7) as [->|N].
  - exists (b64_of_int (a + w)).
    split; [exact (proj2 (@grid_samples a w Hw Ha))|].
    destruct (@b64_in_of_int (a + w) 100) as [I E]; [lia|lia|].
    rewrite round53_int in E by lia.
    split; [apply (@b64_in_weaken 100); [lia|exact I]|].
    rewrite E, <- !Zle_Qle. change (Z.of_nat 7) with 7%Z.
    rewrite Z.div_mul by lia. lia.
  - assert (Hi' : (i < 7)%nat) by lia.
    pose proof (@offsets_ok_nth w i Ok Hi') as O. unfold offset_ok in O.
    apply andb_prop in O as [O O3]. apply andb_prop in O as [O1 O2].
    apply Qle_bool_iff in O2, O3.
    assert (D0 : (0 <= w * Z.of_nat i / 7)%Z) by (apply Z.div_pos; lia).
    assert (D1 : (w * Z.of_nat i / 7 <= w)%Z).
    { apply Z.div_le_upper_bound; [lia|nia]. }
    destruct (@grid_bracket a Ha _ (w * Z.of_nat i / 7) (w * Z.of_nat i / 7 + 1)
                (b64_move_in _ O1) O2 O3) as (I & L & U);
      [assert (2 ^ 21 = 2 * 2 ^ 20)%Z by reflexivity; lia
      |assert (2 ^ 21 = 2 * 2 ^ 20)%Z by reflexivity; lia|].
    eexists. split; [exact (proj1 (@grid_samples a w Hw Ha) i Hi')|].
    split; [exact I|]. split; assumption.
Qed.

(** ** Panels 1 and 12: the directional payoff *)

Lemma offsets_4000 : offsets_ok 4000 = true.
Proof. vm_compute. reflexivity. Qed.

Lemma pow2_50_51 z : (Z.abs z <= 2 ^ 50)%Z -> (Z.abs (z - 2000) <= 2 ^ 51)%Z.
Proof. intros H. assert (2 ^ 51 = 2 * 2 ^ 50)%Z by reflexivity.
  assert (2000 <= 2 ^ 50)%Z by (vm_compute; discriminate). lia. Qed.

(** The value of [p - entry] for a sample [p] of the grid. *)
Lemma sample_minus_entry (p : float) (entry lo hi : Z) :
  b64_in 153 p -> inject_Z lo <= B2Q p -> B2Q p <= inject_Z hi ->
  (Z.abs entry <= 2 ^ 51)%Z -> (Z.abs (lo - entry) <= 2 ^ 53)%Z ->
  (Z.abs (hi - entry) <= 2 ^ 53)%Z ->
  let v := (p - b64_of_int entry)%float in
  b64_in 206 v /\ B2Q v == round53 (B2Q p - inject_Z entry) /\
  inject_Z (lo - entry) <= B2Q v /\ B2Q v <= inject_Z (hi - entry).
Proof.
  intros Ip L U He Hl Hh v.
  assert (P1 : (2 ^ 53 = 4 * 2 ^ 51)%Z) by reflexivity.
  assert (P3 : (2 ^ 51 <= 2 ^ 153)%Z) by (apply Z.pow_le_mono_r; lia).
  destruct (@b64_in_of_int entry 153) as [Ie Ee]; [lia|lia|].
  rewrite round53_int in Ee by lia.
  destruct (b64_sub_value Ip Ie) as [I E]; [lia|].
  split; [exact I|]. unfold v. rewrite E, Ee. split; [reflexivity|]. split.
  - rewrite <- (@round53_int (lo - entry)) by lia. apply round53_le.
    rewrite inject_Z_sub. lra.
  - rewrite <- (@round53_int (hi - entry)) by lia. apply round53_le.
    rewrite inject_Z_sub. lra.
Qed.

Lemma directional_sample (entry : Z) (i : nat) :
  (Z.abs entry <= 2 ^ 50)%Z -> (i < 8)%nat ->
  exists p v,
    nth_error (Directional.prices Binary64 entry) i = Some p /\
    nth_error (Directional.pnl Binary64 (Directional.prices Binary64 entry) entry) i
      = Some v /\
    v = (p - b64_of_int entry)%float /\
    b64_in 153 p /\ b64_in 206 v /\
    inject_Z (entry - 2000 + 4000 * Z.of_nat i / 7) <= B2Q p /\
    B2Q p <= inject_Z (entry - 2000 + (4000 * Z.of_nat i / 7 + 1)) /\
    inject_Z (4000 * Z.of_nat i / 7 - 2000) <= B2Q v /\
    B2Q v <= inject_Z (4000 * Z.of_nat i / 7 - 1999).
Proof.
  intros He Hi.
  assert (P0 : (2 ^ 51 = 2 * 2 ^ 50)%Z) by reflexivity.
  assert (P1 : (2 ^ 53 = 4 * 2 ^ 51)%Z) by reflexivity.
  assert (P2 : (4000 <= 2 ^ 20)%Z) by (vm_compute; discriminate).
  assert (P4 : (2 ^ 20 <= 2 ^ 50)%Z) by (apply Z.pow_le_mono_r; lia).
  destruct (@grid_sample (entry - 2000) 4000 i offsets_4000) as (p & Ep & Ip & L & U);
    [lia|now apply pow2_50_51|exact Hi|].
  assert (Ep' : nth_error (Directional.prices Binary64 entry) i = Some p).
  { unfold Directional.prices. cbn [of_int Binary64].
    replace (entry + 2000)%Z with (entry - 2000 + 4000)%Z by lia. exact Ep. }
  assert (D : (0 <= 4000 * Z.of_nat i / 7 <= 4000)%Z).
  { split; [apply Z.div_pos; lia|apply Z.div_le_upper_bound; lia]. }
  destruct (@sample_minus_entry p entry _ _ Ip L U) as (Iv & _ & Lv & Uv); try lia.
  exists p, (p - b64_of_int entry)%float.
  split; [exact Ep'|]. split.
  { unfold Directional.pnl.
    apply map_nth_error with (f := fun p => fsub Binary64 p (of_int Binary64 entry)).
    exact Ep'. }
  split; [reflexivity|]. split; [exact Ip|]. split; [exact Iv|].
  split; [exact L|]. split; [exact U|]. split.
  - eapply Qle_trans; [|exact Lv]. rewrite <- Zle_Qle. lia.
  - eapply Qle_trans; [exact Uv|]. rewrite <- Zle_Qle. lia.
Qed.

Lemma directional_ends (entry : Z) :
  (Z.abs entry <= 2 ^ 50)%Z ->
  let pnl := Directional.pnl Binary64 (Directional.prices Binary64 entry) entry in
  nth_error pnl 0 = Some (b64_of_int (-2000)) /\ nth_error pnl 7 = Some (b64_of_int 2000).
Proof.
  intros He pnl.
  assert (P0 : (2 ^ 51 = 2 * 2 ^ 50)%Z) by reflexivity.
  assert (P1 : (2 ^ 52 = 4 * 2 ^ 50)%Z) by reflexivity.
  assert (P2 : (4000 <= 2 ^ 20)%Z) by (vm_compute; discriminate).
  assert (P3 : (2000 <= 2 ^ 50)%Z) by (vm_compute; discriminate).
  assert (Hw : (0 < 4000 <= 2 ^ 20)%Z) by lia.
  pose proof (@grid_first (entry - 2000) 4000 Hw (@pow2_50_51 entry He)) as G0.
  pose proof (proj2 (@grid_samples (entry - 2000) 4000 Hw (@pow2_50_51 entry He))) as G7.
  replace (entry - 2000 + 4000)%Z with (entry + 2000)%Z in G0, G7 by lia.
  change (linspace Binary64 (b64_of_int (entry - 2000)) (b64_of_int (entry + 2000)) 8)
    with (Directional.prices Binary64 entry) in G0, G7.
  split.
  - unfold pnl, Directional.pnl.
    rewrite (map_nth_error (fun p => fsub Binary64 p (of_int Binary64 entry)) 0 _ G0).
    f_equal. cbn [fsub of_int Binary64].
    rewrite b64_of_int_sub by lia. f_equal. lia.
  - unfold pnl, Directional.pnl.
    rewrite (map_nth_error (fun p => fsub Binary64 p (of_int Binary64 entry)) 7 _ G7).
    f_equal. cbn [fsub of_int Binary64].
    rewrite b64_of_int_sub by lia. f_equal. lia.
Qed.

(** X1: the payoff of a directional trade.  In exact arithmetic the P&L at
    sample [i] is [4000 * i / 7 - 2000], whatever the entry price.  In
    binary64, for an entry price up to [2^50] in magnitude, the eight values
    start at exactly -2000 and end at exactly 2000, each lies between the
    integers around its exact value, they increase strictly, and none is
    zero: the table has no break-even row. *)
Theorem directional_payoff :
  (forall (entry : Z) (i : nat), (i < 8)%nat ->
     exists v,
       nth_error (Directional.pnl Exact (Directional.prices Exact entry) entry) i = Some v /\
       v == 4000 * inject_Z (Z.of_nat i) / 7 - 2000) /\
  (forall entry : Z, (Z.abs entry <= 2 ^ 50)%Z ->
     let pnl := Directional.pnl Binary64 (Directional.prices Binary64 entry) entry in
     length pnl = 8%nat /\
     nth_error pnl 0 = Some (b64_of_int (-2000)) /\
     nth_error pnl 7 = Some (b64_of_int 2000) /\
     (forall i v, nth_error pnl i = Some v ->
        b64_finite v = true /\
        inject_Z (4000 * Z.of_nat i / 7 - 2000) <= B2Q v /\
        B2Q v <= inject_Z (4000 * Z.of_nat i / 7 - 1999) /\
        PrimFloat.eqb v 0 = false) /\
     (forall i j u v, (i < j)%nat -> nth_error pnl i = Some u -> nth_error pnl j = Some v ->
        PrimFloat.ltb u v = true)).
Proof.
  split.
  - intros entry i Hi.
    destruct (@linspace_exact_nth (inject_Z (entry - 2000)) (inject_Z (entry + 2000)) 8 i)
      as (p & Ep & Vp); [lia|exact Hi|].
    exists (p - inject_Z entry). split.
    + unfold Directional.pnl.
      apply map_nth_error with (f := fun p => fsub Exact p (of_int Exact entry)).
      exact Ep.
    + rewrite Vp. unfold grid_point. rewrite !inject_Z_sub, inject_Z_plus.
      change (inject_Z (Z.of_nat 8)) with 8. change (inject_Z 2000) with 2000.
      change (inject_Z 1) with 1. field.
  - intros entry He pnl.
    assert (Len : length pnl = 8%nat).
    { unfold pnl, Directional.pnl, Directional.prices.
      rewrite length_map. apply linspace_length. }
    assert (S : forall i v, nth_error pnl i = Some v ->
        b64_finite v = true /\
        inject_Z (4000 * Z.of_nat i / 7 - 2000) <= B2Q v /\
        B2Q v <= inject_Z (4000 * Z.of_nat i / 7 - 1999)).
    { intros i v Ev.
      assert (Hi : (i < 8)%nat).
      { rewrite <- Len. apply nth_error_Some. rewrite Ev. discriminate. }
      destruct (@directional_sample entry i He Hi) as (p & v' & _ & Ev' & _ & _ & Iv & _ & _ & L & U).
      fold pnl in Ev'. rewrite Ev in Ev'. injection Ev' as <-.
      split; [apply Iv|]. split; assumption. }
    split; [exact Len|]. split; [apply (@directional_ends entry He)|].
    split; [apply (@directional_ends entry He)|]. split.
    + intros i v Ev. destruct (S i v Ev) as (F & L & U).
      split; [exact F|]. split; [exact L|]. split; [exact U|].
      destruct (PrimFloat.eqb v 0) eqn:Eq; [|reflexivity]. exfalso.
      apply (proj1 (proj2 (proj2 (@b64_compare_correct v 0 F eq_refl)))) in Eq.
      change (B2Q 0) with 0 in Eq. rewrite Eq in L, U.
      change 0 with (inject_Z 0) in L, U. rewrite <- Zle_Qle in L, U.
      pose proof (Z.div_mod (4000 * Z.of_nat i) 7 ltac:(lia)).
      pose proof (Z.mod_pos_bound (4000 * Z.of_nat i) 7 ltac:(lia)).
      destruct (Nat.le_gt_cases i 3); lia.
    + intros i j u v Hij Eu Ev.
      assert (Hj : (j < 8)%nat).
      { rewrite <- Len. apply nth_error_Some. rewrite Ev. discriminate. }
      destruct (S i u Eu) as (Fu & _ & Uu). destruct (S j v Ev) as (Fv & Lv & _).
      apply (proj2 (proj1 (proj2 (@b64_compare_correct u v Fu Fv)))).
      eapply Qle_lt_trans; [exact Uu|]. eapply Qlt_le_trans; [|exact Lv].
      rewrite <- Zlt_Qlt.
      pose proof (Z.div_mod (4000 * Z.of_nat i) 7 ltac:(lia)).
      pose proof (Z.mod_pos_bound (4000 * Z.of_nat i) 7 ltac:(lia)).
      pose proof (Z.div_mod (4000 * Z.of_nat j) 7 ltac:(lia)).
      pose proof (Z.mod_pos_bound (4000 * Z.of_nat j) 7 ltac:(lia)).
      lia.
Qed.

(** ** Panel 3: margin balances *)

Section MarginFacts.

Variable A : Arith.
Variables (position : string) (entry contracts init_margin maint_margin : Z).

Let bal_of (p : num A) : num A :=
  Margin.bal A init_margin (Margin.pnl A position p entry contracts).

Let status_at (p : num A) : string := Margin.status_of A (bal_of p) maint_margin.

Lemma margin_loop (l : list (num A)) (bs : list (num A)) (ss : list string) :
  fold_left (Margin.body A position entry contracts init_margin maint_margin) l (bs, ss)
  = (bs ++ map bal_of l, ss ++ map status_at l).
Proof.
  revert bs ss. induction l as [|p l IH]; intros bs ss.
  - cbn. now rewrite !app_nil_r.
  - cbn [fold_left map]. unfold Margin.body at 2. rewrite IH.
    now rewrite <- !app_assoc.
Qed.

Lemma margin_run :
  Margin.run A position entry contracts init_margin maint_margin
  = (map bal_of (Directional.prices A entry), map status_at (Directional.prices A entry)).
Proof. unfold Margin.run. now rewrite margin_loop. Qed.

End MarginFacts.

Lemma margin_balance_value (position : string) (p : float)
    (entry contracts init_margin : Z) :
  b64_in 153 p ->
  (Z.abs entry <= 2 ^ 50)%Z -> (0 <= contracts <= 2 ^ 20)%Z ->
  (Z.abs init_margin <= 2 ^ 50)%Z ->
  let b := Margin.bal Binary64 init_margin
             (Margin.pnl Binary64 position p entry contracts) in
  b64_finite b = true /\
  B2Q b == balance_value (String.eqb position "Long") (B2Q p) entry contracts init_margin.
Proof.
  intros Ip He Hc Hi b.
  assert (P1 : (2 ^ 53 = 8 * 2 ^ 50)%Z) by reflexivity.
  assert (P2 : (2 ^ 20 <= 2 ^ 50)%Z) by (apply Z.pow_le_mono_r; lia).
  assert (P3 : (2 ^ 50 <= 2 ^ 153)%Z) by (apply Z.pow_le_mono_r; lia).
  assert (P4 : (2 ^ 50 <= 2 ^ 232)%Z) by (apply Z.pow_le_mono_r; lia).
  destruct (@b64_in_of_int entry 153) as [Ie Ee]; [lia|lia|].
  destruct (@b64_in_of_int contracts 20) as [Ic Ec]; [lia|lia|].
  destruct (@b64_in_of_int 50 6) as [I50 E50]; [vm_compute; discriminate|lia|].
  destruct (@b64_in_of_int init_margin 232) as [Ii Ei]; [lia|lia|].
  rewrite round53_int in Ee, Ec, Ei by lia.
  rewrite round53_int in E50 by (vm_compute; discriminate).
  assert (D : exists d, b64_in 206 d /\
     B2Q d == round53 (if String.eqb position "Long"
                       then B2Q p - inject_Z entry else inject_Z entry - B2Q p) /\
     Margin.pnl Binary64 position p entry contracts
     = (d * b64_of_int contracts * b64_of_int 50)%float).
  { unfold Margin.pnl, Margin.size. cbn [fmul fsub of_int Binary64].
    destruct (String.eqb position "Long").
    - destruct (b64_sub_value Ip Ie) as [I E]; [lia|].
      eexists. split; [exact I|]. split; [|reflexivity]. now rewrite E, Ee.
    - destruct (b64_sub_value Ie Ip) as [I E]; [lia|].
      eexists. split; [exact I|]. split; [|reflexivity]. now rewrite E, Ee. }
  destruct D as (d & Id & Ed & Ep).
  destruct (@b64_mul_value 206 20 _ _ Id Ic) as [I1 E1]; try lia.
  destruct (@b64_mul_value 226 6 _ _ I1 I50) as [I2 E2]; try lia.
  destruct (@b64_add_value 232 _ _ Ii I2) as [I3 E3]; try lia.
  unfold b, Margin.bal. cbn [fadd of_int Binary64]. rewrite Ep.
  split; [apply I3|].
  rewrite E3, Ei, E2, E50, E1, Ec, Ed. unfold balance_value.
  change (inject_Z 50) with 50. reflexivity.
Qed.

Lemma balance_value_mono (P Q' : Q) (entry contracts init_margin : Z) :
  (0 <= contracts)%Z -> P <= Q' ->
  balance_value true P entry contracts init_margin
    <= balance_value true Q' entry contracts init_margin /\
  balance_value false Q' entry contracts init_margin
    <= balance_value false P entry contracts init_margin.
Proof.
  intros Hc H. unfold balance_value.
  assert (C : 0 <= inject_Z contracts)
    by (change 0 with (inject_Z 0); now rewrite <- Zle_Qle).
  split.
  - apply round53_le. apply Qplus_le_r. apply round53_le.
    apply Qmult_le_compat_r; [|discriminate]. apply round53_le.
    apply Qmult_le_compat_r; [|exact C]. apply round53_le. lra.
  - apply round53_le. apply Qplus_le_r. apply round53_le.
    apply Qmult_le_compat_r; [|discriminate]. apply round53_le.
    apply Qmult_le_compat_r; [|exact C]. apply round53_le. lra.
Qed.

Lemma directional_prices_sorted (entry : Z) (i j : nat) (p q : float) :
  (Z.abs entry <= 2 ^ 50)%Z -> (i <= j)%nat ->
  nth_error (Directional.prices Binary64 entry) i = Some p ->
  nth_error (Directional.prices Binary64 entry) j = Some q ->
  b64_in 153 p /\ b64_in 153 q /\ B2Q p <= B2Q q.
Proof.
  intros He Hij Ep Eq.
  assert (Len : length (Directional.prices Binary64 entry) = 8%nat) by apply linspace_length.
  assert (Hi : (i < 8)%nat) by (rewrite <- Len; apply nth_error_Some; rewrite Ep; discriminate).
  assert (Hj : (j < 8)%nat) by (rewrite <- Len; apply nth_error_Some; rewrite Eq; discriminate).
  destruct (@directional_sample entry i He Hi) as (p' & _ & Ep' & _ & _ & Ip & _ & Lp & Up & _).
  destruct (@directional_sample entry j He Hj) as (q' & _ & Eq' & _ & _ & Iq & _ & Lq & Uq & _).
  rewrite Ep in Ep'. injection Ep' as <-. rewrite Eq in Eq'. injection Eq' as <-.
  split; [exact Ip|]. split; [exact Iq|].
  destruct (Nat.eq_dec i j) as [->|N].
  - rewrite Ep in Eq. injection Eq as <-. apply Qle_refl.
  - eapply Qle_trans; [exact Up|]. eapply Qle_trans; [|exact Lq].
    rewrite <- Zle_Qle.
    pose proof (Z.div_mod (4000 * Z.of_nat i) 7 ltac:(lia)).
    pose proof (Z.mod_pos_bound (4000 * Z.of_nat i) 7 ltac:(lia)).
    pose proof (Z.div_mod (4000 * Z.of_nat j) 7 ltac:(lia)).
    pose proof (Z.mod_pos_bound (4000 * Z.of_nat j) 7 ltac:(lia)).
    lia.
Qed.

Lemma margin_status_nth (position : string) (entry contracts init_margin maint_margin : Z)
    (i : nat) (p : float) :
  nth_error (Directional.prices Binary64 entry) i = Some p ->
  nth_error (snd (Margin.run Binary64 position entry contracts init_margin maint_margin)) i
  = Some (Margin.status_of Binary64
            (Margin.bal Binary64 init_margin (Margin.pnl Binary64 position p entry contracts))
            maint_margin).
Proof.
  intros Ep. rewrite margin_run. cbn [snd].
  now rewrite (map_nth_error _ i _ Ep).
Qed.

Lemma margin_call_iff (b : float) (maint_margin : Z) :
  b64_finite b = true -> (Z.abs maint_margin <= 2 ^ 50)%Z ->
  (Margin.status_of Binary64 b maint_margin = "MARGIN CALL"%string
   <-> B2Q b < inject_Z maint_margin).
Proof.
  intros F Hm.
  assert (P1 : (2 ^ 53 = 8 * 2 ^ 50)%Z) by reflexivity.
  destruct (@b64_of_int_exact maint_margin) as [Fm Em]; [lia|].
  pose proof (proj1 (proj2 (@b64_compare_correct b (b64_of_int maint_margin) F Fm))) as C.
  rewrite Em in C. unfold Margin.status_of. cbn [fltb of_int Binary64].
  destruct (PrimFloat.ltb b (b64_of_int maint_margin)).
  - split; [intros _; now apply C|reflexivity].
  - split; [discriminate|]. intros H. apply C in H. discriminate.
Qed.

(** The lowest and the highest price of the table are the two bounds. *)
Lemma directional_price_ends (entry : Z) :
  (Z.abs entry <= 2 ^ 50)%Z ->
  nth_error (Directional.prices Binary64 entry) 0 = Some (b64_of_int (entry - 2000)) /\
  nth_error (Directional.prices Binary64 entry) 7 = Some (b64_of_int (entry + 2000)).
Proof.
  intros He.
  assert (P2 : (4000 <= 2 ^ 20)%Z) by (vm_compute; discriminate).
  assert (Hw : (0 < 4000 <= 2 ^ 20)%Z) by lia.
  pose proof (@grid_first (entry - 2000) 4000 Hw (@pow2_50_51 entry He)) as G0.
  replace (entry - 2000 + 4000)%Z with (entry + 2000)%Z in G0 by lia.
  split; [exact G0|].
  apply (@linspace_last Binary64 (b64_of_int (entry - 2000)) (b64_of_int (entry + 2000)) 8).
  lia.
Qed.

(** At a whole price the balance is computed without rounding. *)
Lemma balance_value_int (long : bool) (z entry contracts init_margin : Z) :
  (Z.abs (z - entry) <= 2 ^ 12)%Z -> (Z.abs contracts <= 2 ^ 20)%Z ->
  (Z.abs init_margin <= 2 ^ 50)%Z ->
  balance_value long (inject_Z z) entry contracts init_margin
  == inject_Z (init_margin + (if long then z - entry else entry - z) * contracts * 50).
Proof.
  intros Hd Hc Hi. unfold balance_value.
  set (d := (if long then z - entry else entry - z)%Z).
  assert (Ed : (if long then inject_Z z - inject_Z entry else inject_Z entry - inject_Z z)
               == inject_Z d).
  { unfold d. destruct long; now rewrite inject_Z_sub. }
  assert (Hd' : (Z.abs d <= 2 ^ 12)%Z) by (unfold d; destruct long; lia).
  assert (P12 : (2 ^ 12 = 4096)%Z) by reflexivity.
  assert (P20 : (2 ^ 20 = 1048576)%Z) by reflexivity.
  assert (P50 : (2 ^ 50 = 1125899906842624)%Z) by reflexivity.
  assert (P53 : (2 ^ 53 = 9007199254740992)%Z) by reflexivity.
  assert (B1 : (Z.abs (d * contracts) <= 2 ^ 32)%Z).
  { rewrite Z.abs_mul. change (2 ^ 32)%Z with (2 ^ 12 * 2 ^ 20)%Z.
    apply Z.mul_le_mono_nonneg; lia. }
  assert (P32 : (2 ^ 32 = 4294967296)%Z) by reflexivity.
  rewrite Ed.
  rewrite (@round53_int d) by lia.
  rewrite <- inject_Z_mult. rewrite (@round53_int (d * contracts)) by lia.
  change 50 with (inject_Z 50). rewrite <- inject_Z_mult.
  rewrite (@round53_int (d * contracts * 50)) by lia.
  rewrite <- inject_Z_plus. apply round53_int. lia.
Qed.

(** The balance at one of the two end prices. *)
Lemma margin_end_balance (position : string) (z entry contracts init_margin : Z) :
  (Z.abs entry <= 2 ^ 50)%Z -> (Z.abs (z - entry) <= 2 ^ 12)%Z ->
  (0 <= contracts <= 2 ^ 20)%Z -> (Z.abs init_margin <= 2 ^ 50)%Z ->
  let b := Margin.bal Binary64 init_margin
             (Margin.pnl Binary64 position (b64_of_int z) entry contracts) in
  b64_finite b = true /\
  B2Q b == inject_Z (init_margin
                     + (if String.eqb position "Long" then z - entry else entry - z)
                       * contracts * 50).
Proof.
  intros He Hz Hc Hi b.
  assert (P12 : (2 ^ 12 = 4096)%Z) by reflexivity.
  assert (P50 : (2 ^ 50 = 1125899906842624)%Z) by reflexivity.
  assert (P53 : (2 ^ 53 = 9007199254740992)%Z) by reflexivity.
  assert (P153 : (2 ^ 53 <= 2 ^ 153)%Z) by (apply Z.pow_le_mono_r; lia).
  destruct (@b64_in_of_int z 153) as [Iz _]; [lia|lia|].
  destruct (@b64_of_int_exact z) as [_ Ez]; [lia|].
  destruct (@margin_balance_value position (b64_of_int z) entry contracts init_margin
              Iz He Hc Hi) as [F E].
  split; [exact F|]. fold b in E. rewrite E.
  assert (E' : balance_value (String.eqb position "Long") (B2Q (b64_of_int z))
                 entry contracts init_margin
               == balance_value (String.eqb position "Long") (inject_Z z)
                    entry contracts init_margin).
  { unfold balance_value. destruct (String.eqb position "Long"); now rewrite Ez. }
  rewrite E'. apply balance_value_int; lia.
Qed.

Lemma margin_status_value (b : float) (maint_margin v : Z) :
  b64_finite b = true -> B2Q b == inject_Z v -> (Z.abs maint_margin <= 2 ^ 50)%Z ->
  Margin.status_of Binary64 b maint_margin
  = if (v <? maint_margin)%Z then "MARGIN CALL"%string else "OK"%string.
Proof.
  intros F E Hm.
  pose proof (@margin_call_iff b maint_margin F Hm) as C. rewrite E in C.
  rewrite <- Zlt_Qlt in C.
  destruct (Z.ltb_spec v maint_margin) as [L|G].
  - now apply C.
  - unfold Margin.status_of in *. destruct (fltb Binary64 b (of_int Binary64 maint_margin)).
    + exfalso. assert (v < maint_margin)%Z by now apply C. lia.
    + reflexivity.
Qed.

Lemma margin_balance_nth (A : Arith) (position : string)
    (entry contracts init_margin maint_margin : Z) (i : nat) (p : num A) :
  nth_error (Directional.prices A entry) i = Some p ->
  nth_error (fst (Margin.run A position entry contracts init_margin maint_margin)) i
  = Some (Margin.bal A init_margin (Margin.pnl A position p entry contracts)).
Proof.
  intros Ep. rewrite margin_run. cbn [fst].
  now rewrite (map_nth_error _ i _ Ep).
Qed.

Lemma margin_status_nth_any (A : Arith) (position : string)
    (entry contracts init_margin maint_margin : Z) (i : nat) (p : num A) :
  nth_error (Directional.prices A entry) i = Some p ->
  nth_error (snd (Margin.run A position entry contracts init_margin maint_margin)) i
  = Some (Margin.status_of A
            (Margin.bal A init_margin (Margin.pnl A position p entry contracts))
            maint_margin).
Proof.
  intros Ep. rewrite margin_run. cbn [snd].
  now rewrite (map_nth_error _ i _ Ep).
Qed.

Lemma margin_ok (b : float) (maint_margin : Z) :
  b64_finite b = true -> (Z.abs maint_margin <= 2 ^ 50)%Z ->
  inject_Z maint_margin <= B2Q b ->
  Margin.status_of Binary64 b maint_margin = "OK"%string.
Proof.
  intros F Hm H.
  pose proof (@margin_call_iff b maint_margin F Hm) as C.
  unfold Margin.status_of in *.
  destruct (fltb Binary64 b (of_int Binary64 maint_margin)); [|reflexivity].
  exfalso. assert (B2Q b < inject_Z maint_margin) by now apply C. lra.
Qed.

(** The favourable half of the table: the balance is no lower than the
    initial margin. *)
Lemma margin_favourable (position : string) (entry contracts init_margin : Z)
    (i : nat) (p : float) :
  (Z.abs entry <= 2 ^ 50)%Z -> (0 <= contracts <= 2 ^ 20)%Z ->
  (Z.abs init_margin <= 2 ^ 50)%Z ->
  nth_error (Directional.prices Binary64 entry) i = Some p ->
  (if String.eqb position "Long" then (4 <= i)%nat else (i <= 3)%nat) ->
  let b := Margin.bal Binary64 init_margin
             (Margin.pnl Binary64 position p entry contracts) in
  b64_finite b = true /\ inject_Z init_margin <= B2Q b.
Proof.
  intros He Hc Hi Ep Hs b.
  assert (Len : length (Directional.prices Binary64 entry) = 8%nat) by apply linspace_length.
  assert (Hi8 : (i < 8)%nat) by (rewrite <- Len; apply nth_error_Some; rewrite Ep; discriminate).
  destruct (@directional_sample entry i He Hi8) as (p' & _ & Ep' & _ & _ & Ip & _ & Lp & Up & _).
  rewrite Ep in Ep'. injection Ep' as <-.
  destruct (@margin_balance_value position p entry contracts init_margin Ip He Hc Hi) as [F E].
  fold b in F, E. split; [exact F|]. rewrite E.
  assert (P12 : (2 ^ 12 = 4096)%Z) by reflexivity.
  assert (P20 : (2 ^ 20 = 1048576)%Z) by reflexivity.
  pose proof (@balance_value_int (String.eqb position "Long") entry entry contracts init_margin
                ltac:(lia) ltac:(lia) Hi) as E0.
  assert (Z0 : (init_margin
                + (if String.eqb position "Long" then entry - entry else entry - entry)
                  * contracts * 50 = init_margin)%Z)
    by (destruct (String.eqb position "Long"); lia).
  rewrite Z0 in E0. rewrite <- E0.
  pose proof (Z.div_mod (4000 * Z.of_nat i) 7 ltac:(lia)) as D1.
  pose proof (Z.mod_pos_bound (4000 * Z.of_nat i) 7 ltac:(lia)) as D2.
  assert (C0 : (0 <= contracts)%Z) by lia.
  destruct (String.eqb position "Long").
  - assert (HP : inject_Z entry <= B2Q p).
    { eapply Qle_trans; [|exact Lp]. rewrite <- Zle_Qle. lia. }
    exact (proj1 (@balance_value_mono (inject_Z entry) (B2Q p) entry contracts
                    init_margin C0 HP)).
  - assert (HP : B2Q p <= inject_Z entry).
    { eapply Qle_trans; [exact Up|]. rewrite <- Zle_Qle. lia. }
    exact (proj2 (@balance_value_mono (B2Q p) (inject_Z entry) entry contracts
                    init_margin C0 HP)).
Qed.

(** X3: the margin table.  The loop of panel 3 fills the two lists in step
    with the eight prices [np.linspace(entry-2000, entry+2000, 8)]: at the
    price [p] the balance is [init_margin + (p - entry) * contracts * 50]
    for a long position and [init_margin + (entry - p) * contracts * 50]
    for any other, and the status is "MARGIN CALL" when that balance is
    below the maintenance margin, "OK" otherwise.  In exact arithmetic the
    balance at index [i] is
    [init_margin +/- (4000 * i / 7 - 2000) * contracts * 50].  In binary64,
    for entry price and margins up to [2^50] in magnitude and up to [2^20]
    contracts, the balances at the lowest and at the highest price are
    exactly [init_margin -/+ 100000 * contracts] (long) and
    [init_margin +/- 100000 * contracts] (short), which decides the two
    statuses; and with a maintenance margin no higher than the initial one
    the status is "OK" on the favourable half of the table: the four
    highest prices for a long position, the four lowest for a short. *)
Theorem margin_table :
  (forall (A : Arith) (position : string)
          (entry contracts init_margin maint_margin : Z),
     let prices := linspace A (of_int A (entry - 2000)) (of_int A (entry + 2000)) 8 in
     let pnl := fun p =>
       if String.eqb position "Long"
       then fmul A (fmul A (fsub A p (of_int A entry)) (of_int A contracts)) (of_int A 50)
       else fmul A (fmul A (fsub A (of_int A entry) p) (of_int A contracts)) (of_int A 50) in
     let bal := fun p => fadd A (of_int A init_margin) (pnl p) in
     let status := fun p =>
       if fltb A (bal p) (of_int A maint_margin) then "MARGIN CALL"%string else "OK"%string in
     Margin.run A position entry contracts init_margin maint_margin
     = (map bal prices, map status prices) /\
     length (map bal prices) = 8%nat /\ length (map status prices) = 8%nat) /\
  (forall (position : string) (entry contracts init_margin maint_margin : Z) (i : nat),
     (i < 8)%nat ->
     let run := Margin.run Exact position entry contracts init_margin maint_margin in
     exists b,
       nth_error (fst run) i = Some b /\
       b == inject_Z init_margin
            + (if String.eqb position "Long" then 1 else - (1))
              * (4000 * inject_Z (Z.of_nat i) / 7 - 2000) * inject_Z contracts * 50 /\
       (nth_error (snd run) i = Some "MARGIN CALL"%string <-> b < inject_Z maint_margin) /\
       (nth_error (snd run) i = Some "OK"%string <-> inject_Z maint_margin <= b)) /\
  (forall (position : string) (entry contracts init_margin maint_margin : Z),
     (Z.abs entry <= 2 ^ 50)%Z -> (0 <= contracts <= 2 ^ 20)%Z ->
     (Z.abs init_margin <= 2 ^ 50)%Z -> (Z.abs maint_margin <= 2 ^ 50)%Z ->
     let run := Margin.run Binary64 position entry contracts init_margin maint_margin in
     let k := if String.eqb position "Long" then 1%Z else (-1)%Z in
     let lowest := (init_margin - k * 100000 * contracts)%Z in
     let highest := (init_margin + k * 100000 * contracts)%Z in
     (exists b0 b7,
        nth_error (fst run) 0 = Some b0 /\ nth_error (fst run) 7 = Some b7 /\
        b64_finite b0 = true /\ b64_finite b7 = true /\
        B2Q b0 == inject_Z lowest /\ B2Q b7 == inject_Z highest) /\
     nth_error (snd run) 0
       = Some (if (lowest <? maint_margin)%Z then "MARGIN CALL"%string else "OK"%string) /\
     nth_error (snd run) 7
       = Some (if (highest <? maint_margin)%Z then "MARGIN CALL"%string else "OK"%string) /\
     ((maint_margin <= init_margin)%Z ->
      forall i, (i < 8)%nat ->
        (if String.eqb position "Long" then (4 <= i)%nat else (i <= 3)%nat) ->
        nth_error (snd run) i = Some "OK"%string)).
Proof.
  split; [|split].
  - intros A position entry contracts init_margin maint_margin prices pnl bal status.
    split; [|split].
    + rewrite margin_run. reflexivity.
    + rewrite length_map. apply linspace_length.
    + rewrite length_map. apply linspace_length.
  - intros position entry contracts init_margin maint_margin i Hi run.
    destruct (@linspace_exact_nth (inject_Z (entry - 2000)) (inject_Z (entry + 2000)) 8 i)
      as (p & Ep & Vp); [lia|exact Hi|].
    change (nth_error (Directional.prices Exact entry) i = Some p) in Ep.
    pose proof (@margin_balance_nth Exact position entry contracts init_margin maint_margin
                  i p Ep) as Eb.
    pose proof (@margin_status_nth_any Exact position entry contracts init_margin maint_margin
                  i p Ep) as Es.
    fold run in Eb, Es.
    eexists. split; [exact Eb|].
    set (b := Margin.bal Exact init_margin (Margin.pnl Exact position p entry contracts)) in *.
    assert (Vb : b == inject_Z init_margin
            + (if String.eqb position "Long" then 1 else - (1))
              * (4000 * inject_Z (Z.of_nat i) / 7 - 2000) * inject_Z contracts * 50).
    { unfold b, Margin.bal, Margin.pnl, Margin.size.
      destruct (String.eqb position "Long"); cbn [fadd fmul fsub of_int Exact Rounded];
        rewrite Vp; unfold grid_point; rewrite !inject_Z_sub, inject_Z_plus;
        change (inject_Z (Z.of_nat 8)) with 8; change (inject_Z 2000) with 2000;
        change (inject_Z 1) with 1; change (inject_Z 50) with 50; field. }
    split; [exact Vb|].
    rewrite Es. unfold Margin.status_of. cbn [fltb of_int Exact Rounded].
    destruct (Qle_bool (inject_Z maint_margin) b) eqn:Q; cbn [negb].
    + apply Qle_bool_iff in Q. split; split; try discriminate; try reflexivity.
      * intros H. exfalso. lra.
      * intros _. exact Q.
    + assert (N : ~ inject_Z maint_margin <= b)
        by (intros H; apply Qle_bool_iff in H; congruence).
      split; split; try discriminate; try reflexivity.
      * intros _. lra.
      * intros H. contradiction.
  - intros position entry contracts init_margin maint_margin He Hc Hi Hm run k lowest highest.
    assert (P12 : (2 ^ 12 = 4096)%Z) by reflexivity.
    destruct (@directional_price_ends entry He) as [E0 E7].
    pose proof (@margin_balance_nth Binary64 position entry contracts init_margin maint_margin
                  _ _ E0) as B0.
    pose proof (@margin_balance_nth Binary64 position entry contracts init_margin maint_margin
                  _ _ E7) as B7.
    pose proof (@margin_status_nth position entry contracts init_margin maint_margin
                  _ _ E0) as S0.
    pose proof (@margin_status_nth position entry contracts init_margin maint_margin
                  _ _ E7) as S7.
    fold run in B0, B7, S0, S7.
    destruct (@margin_end_balance position (entry - 2000) entry contracts init_margin
                He ltac:(lia) Hc Hi) as [F0 V0].
    destruct (@margin_end_balance position (entry + 2000) entry contracts init_margin
                He ltac:(lia) Hc Hi) as [F7 V7].
    assert (L0 : (init_margin
                  + (if String.eqb position "Long"
                     then entry - 2000 - entry else entry - (entry - 2000))
                    * contracts * 50 = lowest)%Z)
      by (unfold lowest, k; destruct (String.eqb position "Long"); lia).
    assert (L7 : (init_margin
                  + (if String.eqb position "Long"
                     then entry + 2000 - entry else entry - (entry + 2000))
                    * contracts * 50 = highest)%Z)
      by (unfold highest, k; destruct (String.eqb position "Long"); lia).
    rewrite L0 in V0. rewrite L7 in V7.
    split; [|split; [|split]].
    + do 2 eexists. split; [exact B0|]. split; [exact B7|].
      split; [exact F0|]. split; [exact F7|]. split; [exact V0|exact V7].
    + rewrite S0. f_equal. now apply margin_status_value.
    + rewrite S7. f_equal. now apply margin_status_value.
    + intros Hmi i Hi8 Hs.
      assert (Len : length (Directional.prices Binary64 entry) = 8%nat) by apply linspace_length.
      destruct (nth_error (Directional.prices Binary64 entry) i) as [p|] eqn:Ep;
        [|apply nth_error_None in Ep; lia].
      unfold run. rewrite (@margin_status_nth position entry contracts init_margin maint_margin
                 _ _ Ep).
      f_equal.
      destruct (@margin_favourable position entry contracts init_margin i p He Hc Hi Ep Hs)
        as [F V].
      apply margin_ok; [exact F|exact Hm|].
      eapply Qle_trans; [|exact V]. rewrite <- Zle_Qle. exact Hmi.
Qed.

Lemma margin_table_witness :
  nth_error (snd (Margin.run Binary64 "Long" 22000 5 150000 100000)) 0
    = Some "MARGIN CALL"%string /\
  nth_error (snd (Margin.run Binary64 "Long" 22000 5 150000 100000)) 5 = Some "OK"%string.
Proof.
  assert (H1 : (Z.abs 22000 <= 2 ^ 50)%Z) by (vm_compute; discriminate).
  assert (H2 : (0 <= 5 <= 2 ^ 20)%Z) by (split; vm_compute; discriminate).
  assert (H3 : (Z.abs 150000 <= 2 ^ 50)%Z) by (vm_compute; discriminate).
  assert (H4 : (Z.abs 100000 <= 2 ^ 50)%Z) by (vm_compute; discriminate).
  pose proof (proj2 (proj2 margin_table) "Long"%string 22000%Z 5%Z 150000%Z 100000%Z H1 H2 H3 H4)
    as (_ & S0 & _ & Ok).
  split.
  - exact S0.
  - apply Ok; [vm_compute; discriminate|lia|cbn; lia].
Defined.

(** X4: margin calls are ordered along the price axis.  In binary64, for a
    long position a margin call at some price of the table comes with a
    margin call at every lower price; for a short position, at every higher
    price. *)
Theorem margin_calls_ordered (entry contracts init_margin maint_margin : Z) :
  (Z.abs entry <= 2 ^ 50)%Z -> (0 <= contracts <= 2 ^ 20)%Z ->
  (Z.abs init_margin <= 2 ^ 50)%Z -> (Z.abs maint_margin <= 2 ^ 50)%Z ->
  (forall i j, (i <= j)%nat ->
     nth_error (snd (Margin.run Binary64 "Long" entry contracts init_margin maint_margin)) j
       = Some "MARGIN CALL"%string ->
     nth_error (snd (Margin.run Binary64 "Long" entry contracts init_margin maint_margin)) i
       = Some "MARGIN CALL"%string) /\
  (forall (position : string) i j, position <> "Long"%string -> (i <= j < 8)%nat ->
     nth_error (snd (Margin.run Binary64 position entry contracts init_margin maint_margin)) i
       = Some "MARGIN CALL"%string ->
     nth_error (snd (Margin.run Binary64 position entry contracts init_margin maint_margin)) j
       = Some "MARGIN CALL"%string).
Proof.
  intros He Hc Hi Hm.
  assert (Len : length (Directional.prices Binary64 entry) = 8%nat) by apply linspace_length.
  assert (Lst : forall position,
     length (snd (Margin.run Binary64 position entry contracts init_margin maint_margin))
     = 8%nat).
  { intros position. rewrite margin_run. cbn [snd]. now rewrite length_map. }
  assert (G : forall i j, (i <= j)%nat -> (j < 8)%nat ->
     exists p q,
       nth_error (Directional.prices Binary64 entry) i = Some p /\
       nth_error (Directional.prices Binary64 entry) j = Some q /\
       b64_in 153 p /\ b64_in 153 q /\ B2Q p <= B2Q q).
  { intros i j Hij Hj.
    destruct (nth_error (Directional.prices Binary64 entry) i) as [p|] eqn:Ep;
      [|apply nth_error_None in Ep; lia].
    destruct (nth_error (Directional.prices Binary64 entry) j) as [q|] eqn:Eq;
      [|apply nth_error_None in Eq; lia].
    exists p, q. split; [reflexivity|]. split; [reflexivity|].
    exact (@directional_prices_sorted entry i j p q He Hij Ep Eq). }
  split.
  - intros i j Hij Sj.
    assert (Hj : (j < 8)%nat).
    { rewrite <- (Lst "Long"%string). apply nth_error_Some. rewrite Sj. discriminate. }
    destruct (G i j Hij Hj) as (p & q & Ep & Eq & Ip & Iq & Le).
    rewrite (@margin_status_nth _ _ _ _ _ _ _ Eq) in Sj. injection Sj as Sj.
    rewrite (@margin_status_nth _ _ _ _ _ _ _ Ep). f_equal.
    destruct (@margin_balance_value "Long" p entry contracts init_margin Ip He Hc Hi)
      as [Fp Vp].
    destruct (@margin_balance_value "Long" q entry contracts init_margin Iq He Hc Hi)
      as [Fq Vq].
    apply (@margin_call_iff _ _ Fq Hm) in Sj. apply (@margin_call_iff _ _ Fp Hm).
    rewrite Vq in Sj. rewrite Vp. cbn [String.eqb Ascii.eqb Bool.eqb] in *.
    destruct (@balance_value_mono (B2Q p) (B2Q q) entry contracts init_margin) as [M _];
      [lia|exact Le|]. lra.
  - intros position i j Np [Hij Hj] Si.
    destruct (G i j Hij Hj) as (p & q & Ep & Eq & Ip & Iq & Le).
    rewrite (@margin_status_nth _ _ _ _ _ _ _ Ep) in Si. injection Si as Si.
    rewrite (@margin_status_nth _ _ _ _ _ _ _ Eq). f_equal.
    destruct (@margin_balance_value position p entry contracts init_margin Ip He Hc Hi)
      as [Fp Vp].
    destruct (@margin_balance_value position q entry contracts init_margin Iq He Hc Hi)
      as [Fq Vq].
    apply (@margin_call_iff _ _ Fp Hm) in Si. apply (@margin_call_iff _ _ Fq Hm).
    rewrite Vp in Si. rewrite Vq.
    destruct (String.eqb_spec position "Long") as [E|_]; [contradiction|].
    destruct (@balance_value_mono (B2Q p) (B2Q q) entry contracts init_margin) as [_ M];
      [lia|exact Le|]. lra.
Qed.

Lemma margin_calls_ordered_witness :
  (Z.abs 22000 <= 2 ^ 50)%Z /\ (0 <= 5 <= 2 ^ 20)%Z /\
  nth_error (snd (Margin.run Binary64 "Long" 22000 5 150000 100000)) 0
    = Some "MARGIN CALL"%string.
Proof.
  assert (H1 : (Z.abs 22000 <= 2 ^ 50)%Z) by (vm_compute; discriminate).
  assert (H2 : (0 <= 5 <= 2 ^ 20)%Z) by (split; vm_compute; discriminate).
  assert (H3 : (Z.abs 150000 <= 2 ^ 50)%Z) by (vm_compute; discriminate).
  assert (H4 : (Z.abs 100000 <= 2 ^ 50)%Z) by (vm_compute; discriminate).
  split; [exact H1|]. split; [exact H2|].
  apply (proj1 (@margin_calls_ordered 22000 5 150000 100000 H1 H2 H3 H4) 0%nat 2%nat);
    [lia | reflexivity].
Defined.

(** ** Panel 4: long and short P&L *)

Lemma trading_side_value (d : float) (contracts : Z) :
  b64_in 206 d -> (0 <= contracts <= 2 ^ 20)%Z ->
  let v := (d * b64_of_int contracts * b64_of_int 50)%float in
  b64_finite v = true /\ B2Q v == round53 (round53 (B2Q d * inject_Z contracts) * 50).
Proof.
  intros Id Hc v.
  assert (P1 : (2 ^ 20 <= 2 ^ 53)%Z) by (apply Z.pow_le_mono_r; lia).
  destruct (@b64_in_of_int contracts 20) as [Ic Ec]; [lia|lia|].
  destruct (@b64_in_of_int 50 6) as [I50 E50]; [vm_compute; discriminate|lia|].
  rewrite round53_int in Ec by lia.
  rewrite round53_int in E50 by (vm_compute; discriminate).
  destruct (@b64_mul_value 206 20 _ _ Id Ic) as [I1 E1]; try lia.
  destruct (@b64_mul_value 226 6 _ _ I1 I50) as [I2 E2]; try lia.
  split; [apply I2|]. unfold v. rewrite E2, E50, E1, Ec. reflexivity.
Qed.

Lemma side_value_opp (d : Q) (contracts : Z) :
  side_value (- d) contracts == - side_value d contracts.
Proof.
  unfold side_value. rewrite <- round53_opp. apply round53_proper.
  rewrite round53_opp.
  setoid_replace (- round53 d * inject_Z contracts) with (- (round53 d * inject_Z contracts))
    by ring.
  rewrite round53_opp. ring.
Qed.

(** X5: trading P&L is zero-sum.  In binary64, at every price of the table
    the short P&L is the opposite of the long P&L; with at least one
    contract the long side loses at the four prices below the entry and
    gains at the four above. *)
Theorem trading_zero_sum (entry contracts : Z) :
  (Z.abs entry <= 2 ^ 50)%Z -> (1 <= contracts <= 2 ^ 20)%Z ->
  let prices := Directional.prices Binary64 entry in
  let long := Trading.long Binary64 prices entry contracts in
  let short := Trading.short Binary64 prices entry contracts in
  length long = 8%nat /\ length short = 8%nat /\
  forall i l s, nth_error long i = Some l -> nth_error short i = Some s ->
    b64_finite l = true /\ b64_finite s = true /\
    PrimFloat.eqb s (PrimFloat.opp l) = true /\
    ((i < 4)%nat -> PrimFloat.ltb l 0 = true) /\
    ((4 <= i)%nat -> PrimFloat.ltb 0 l = true).
Proof.
  intros He Hc prices long short.
  assert (Len : length prices = 8%nat) by apply linspace_length.
  assert (Ll : length long = 8%nat) by (unfold long, Trading.long; now rewrite length_map).
  assert (Ls : length short = 8%nat) by (unfold short, Trading.short; now rewrite length_map).
  split; [exact Ll|]. split; [exact Ls|].
  intros i l s El Es.
  assert (Hi : (i < 8)%nat) by (rewrite <- Ll; apply nth_error_Some; rewrite El; discriminate).
  destruct (@directional_sample entry i He Hi) as (p & v & Ep & _ & Ev & Ip & Iv & _ & _ & Lv & Uv).
  subst v. fold prices in Ep.
  assert (P0 : (2 ^ 51 = 2 * 2 ^ 50)%Z) by reflexivity.
  assert (P3 : (2 ^ 50 <= 2 ^ 153)%Z) by (apply Z.pow_le_mono_r; lia).
  destruct (@b64_in_of_int entry 153) as [Ie Ee]; [lia|lia|].
  assert (P1 : (2 ^ 53 = 8 * 2 ^ 50)%Z) by reflexivity.
  rewrite round53_int in Ee by lia.
  destruct (b64_sub_value Ip Ie) as [Id Ed]; [lia|].
  destruct (b64_sub_value Ie Ip) as [Id' Ed']; [lia|].
  unfold long, Trading.long in El. unfold short, Trading.short in Es.
  rewrite (map_nth_error _ i _ Ep) in El. rewrite (map_nth_error _ i _ Ep) in Es.
  injection El as <-. injection Es as <-.
  cbn [fmul fsub of_int Binary64]. unfold Trading.size.
  destruct (@trading_side_value _ contracts Id) as [Fl Vl]; [lia|].
  destruct (@trading_side_value _ contracts Id') as [Fs Vs]; [lia|].
  cbv zeta in Fl, Vl, Fs, Vs.
  rewrite Ed, Ee in Vl. rewrite Ed', Ee in Vs.
  fold (side_value (B2Q p - inject_Z entry) contracts) in Vl.
  fold (side_value (inject_Z entry - B2Q p) contracts) in Vs.
  split; [exact Fl|]. split; [exact Fs|].
  assert (Vd : B2Q (p - b64_of_int entry)%float == round53 (B2Q p - inject_Z entry))
    by (now rewrite Ed, Ee).
  rewrite Vd in Lv, Uv.
  split; [|split].
  - destruct (b64_opp_correct ((p - b64_of_int entry) * b64_of_int contracts
                               * b64_of_int 50)%float) as [Fo Eo].
    apply (proj2 (proj2 (proj2 (@b64_compare_correct _ _ Fs ltac:(now rewrite Fo))))).
    rewrite Eo, Vs, Vl, <- side_value_opp. unfold side_value.
    apply round53_proper. apply Qmult_comp; [|reflexivity]. apply round53_proper.
    apply Qmult_comp; [|reflexivity]. apply round53_proper. ring.
  - intros H4.
    apply (proj2 (proj1 (proj2 (@b64_compare_correct _ 0%float Fl eq_refl)))).
    change (B2Q 0) with 0. rewrite Vl. unfold side_value.
    assert (B : round53 (B2Q p - inject_Z entry) <= inject_Z (-285)).
    { eapply Qle_trans; [exact Uv|]. rewrite <- Zle_Qle.
      pose proof (Z.div_mod (4000 * Z.of_nat i) 7 ltac:(lia)).
      pose proof (Z.mod_pos_bound (4000 * Z.of_nat i) 7 ltac:(lia)). lia. }
    assert (C1 : 1 <= inject_Z contracts)
      by (change 1 with (inject_Z 1); rewrite <- Zle_Qle; lia).
    change (inject_Z (-285)) with (-285 # 1) in B.
    assert (B1 : round53 (round53 (B2Q p - inject_Z entry) * inject_Z contracts)
                 <= round53 (inject_Z (-285))).
    { apply round53_le. change (inject_Z (-285)) with (-285 # 1). nra. }
    rewrite round53_int in B1 by (vm_compute; discriminate).
    change (inject_Z (-285)) with (-285 # 1) in B1.
    assert (B2 : round53 (round53 (round53 (B2Q p - inject_Z entry) * inject_Z contracts) * 50)
                 <= round53 (inject_Z (-14250))).
    { apply round53_le. change (inject_Z (-14250)) with (-14250 # 1). lra. }
    rewrite round53_int in B2 by (vm_compute; discriminate).
    change (inject_Z (-14250)) with (-14250 # 1) in B2. lra.
  - intros H4.
    apply (proj2 (proj1 (proj2 (@b64_compare_correct 0%float _ eq_refl Fl)))).
    change (B2Q 0) with 0. rewrite Vl. unfold side_value.
    assert (B : inject_Z 285 <= round53 (B2Q p - inject_Z entry)).
    { eapply Qle_trans; [|exact Lv]. rewrite <- Zle_Qle.
      pose proof (Z.div_mod (4000 * Z.of_nat i) 7 ltac:(lia)).
      pose proof (Z.mod_pos_bound (4000 * Z.of_nat i) 7 ltac:(lia)). lia. }
    assert (C1 : 1 <= inject_Z contracts)
      by (change 1 with (inject_Z 1); rewrite <- Zle_Qle; lia).
    change (inject_Z 285) with (285 # 1) in B.
    assert (B1 : round53 (inject_Z 285)
                 <= round53 (round53 (B2Q p - inject_Z entry) * inject_Z contracts)).
    { apply round53_le. change (inject_Z 285) with (285 # 1). nra. }
    rewrite round53_int in B1 by (vm_compute; discriminate).
    change (inject_Z 285) with (285 # 1) in B1.
    assert (B2 : round53 (inject_Z 14250)
      <= round53 (round53 (round53 (B2Q p - inject_Z entry) * inject_Z contracts) * 50)).
    { apply round53_le. change (inject_Z 14250) with (14250 # 1). lra. }
    rewrite round53_int in B2 by (vm_compute; discriminate).
    change (inject_Z 14250) with (14250 # 1) in B2. lra.
Qed.

Lemma trading_zero_sum_witness :
  let prices := Directional.prices Binary64 22000 in
  let long := Trading.long Binary64 prices 22000 5 in
  let short := Trading.short Binary64 prices 22000 5 in
  length long = 8%nat /\ length short = 8%nat /\
  forall i l s, nth_error long i = Some l -> nth_error short i = Some s ->
    b64_finite l = true /\ b64_finite s = true /\
    PrimFloat.eqb s (PrimFloat.opp l) = true /\
    ((i < 4)%nat -> PrimFloat.ltb l 0 = true) /\
    ((4 <= i)%nat -> PrimFloat.ltb 0 l = true).
Proof.
  apply (@trading_zero_sum 22000 5); try split; vm_compute; discriminate.
Defined.

(** ** Panel 7: the impact on the hedged portfolio *)

Lemma basis_moves_moderate : forallb b64_move (BasisConvergence.moves Binary64) = true.
Proof. vm_compute. reflexivity. Qed.

Lemma basis_moves_length (A : Arith) : length (BasisConvergence.moves A) = 10%nat.
Proof. apply linspace_length. Qed.

Lemma ok_map_length (T U : Type) (g : T -> U) (l : list T) (p : list U) :
  Py.Ok (map g l) = Py.Ok p -> length p = length l.
Proof. intros [= <-]. apply length_map. Qed.

(** X6: the hedge of panel 7 is the optimal hedge of panel 5 on ten moves.
    The contracts are the builder's optimal contracts for the multiplier
    50; a futures price of 0 raises [ZeroDivisionError]; and in binary64,
    for positive [V] and [futures] up to [2^100] and a [beta] of moderate
    magnitude, the panel returns ten net values, each at most the unhedged
    value in absolute value. *)
Theorem basis_impact_hedged :
  (forall (A : Arith) (V futures : Z) (beta : num A),
     BasisConvergence.contracts A beta V futures 50
     = HedgingBuilder.optimal_contracts A beta V futures HedgingBuilder.size) /\
  (forall (V : Z) (beta : float),
     fits Binary64 V = true ->
     BasisImpact.run Binary64 V beta 0 = Py.Raise Py.ZeroDivisionError) /\
  (forall (V futures : Z) (beta : float),
     (0 < V <= 2 ^ 100)%Z -> (0 < futures <= 2 ^ 100)%Z -> b64_moderate beta = true ->
     exists c p f,
       BasisImpact.run Binary64 V beta futures
       = Py.Ok (c, p, f, HedgingBuilder.net Binary64 p f) /\
       length p = 10%nat /\ length (HedgingBuilder.net Binary64 p f) = 10%nat /\
       forall i, (i < 10)%nat ->
         exists pv nv, nth_error p i = Some pv /\
                       nth_error (HedgingBuilder.net Binary64 p f) i = Some nv /\
                       (abs nv <=? abs pv)%float = true).
Proof.
  split; [reflexivity|]. split.
  - intros V beta HV. unfold BasisImpact.run, BasisConvergence.contracts, mul_int, truediv.
    rewrite (to_float_ok _ _ HV). cbn [Py.bind]. reflexivity.
  - intros V futures beta HV HF Hb.
    destruct (@full_hedge_binary64 V futures 50 beta (BasisConvergence.moves Binary64)
                HV HF ltac:(lia) Hb basis_moves_moderate)
      as (opt & p & f & Eo & Ep & Ef & H).
    change (HedgingBuilder.contracts Binary64 "Optimal Hedge" opt) with opt in Ef.
    exists opt, p, f. unfold BasisImpact.run.
    change (BasisConvergence.contracts Binary64 beta V futures 50)
      with (HedgingBuilder.optimal_contracts Binary64 beta V futures 50).
    rewrite Eo. cbn [Py.bind]. rewrite Ep. cbn [Py.bind]. rewrite Ef. cbn [Py.bind].
    split; [reflexivity|].
    pose proof (basis_moves_length Binary64) as L.
    assert (Lp : length p = 10%nat).
    { rewrite portfolio_ok in Ep by now apply b64_fits_widget.
      rewrite (ok_map_length _ _ Ep). exact L. }
    assert (Lf : length f = 10%nat).
    { rewrite futures_ok in Ef by (apply b64_fits_widget; lia).
      rewrite (ok_map_length _ _ Ef). exact L. }
    split; [exact Lp|]. split.
    + unfold HedgingBuilder.net. rewrite zip_with_length; lia.
    + intros i Hi. apply H. exact (eq_ind_r (fun n => (i < n)%nat) Hi L).
Qed.

Lemma basis_impact_hedged_witness :
  (0 < 5000000 <= 2 ^ 100)%Z /\ (0 < 22150 <= 2 ^ 100)%Z /\ b64_moderate 1%float = true /\
  exists c p f,
    BasisImpact.run Binary64 5000000 1%float 22150
    = Py.Ok (c, p, f, HedgingBuilder.net Binary64 p f) /\
    length p = 10%nat /\ length (HedgingBuilder.net Binary64 p f) = 10%nat /\
    forall i, (i < 10)%nat ->
      exists pv nv, nth_error p i = Some pv /\
                    nth_error (HedgingBuilder.net Binary64 p f) i = Some nv /\
                    (abs nv <=? abs pv)%float = true.
Proof.
  assert (H1 : (0 < 5000000 <= 2 ^ 100)%Z) by (split; vm_compute; [reflexivity|discriminate]).
  assert (H2 : (0 < 22150 <= 2 ^ 100)%Z) by (split; vm_compute; [reflexivity|discriminate]).
  assert (H3 : b64_moderate 1%float = true) by (vm_compute; reflexivity).
  split; [exact H1|]. split; [exact H2|]. split; [exact H3|].
  exact (proj2 (proj2 basis_impact_hedged) 5000000%Z 22150%Z 1%float H1 H2 H3).
Defined.

(** ** Panel 11: Equity Portfolio Hedge *)

Lemma ok_inj (T : Type) (a b : T) : Py.Ok a = Py.Ok b -> a = b.
Proof. now intros [= ->]. Qed.

Lemma b64_mul_one_l (x : float) : (1 * x = x)%float.
Proof. rewrite b64_mul_comm. apply b64_mul_one_r. Qed.

Lemma moves10_moderate : forallb b64_move (Cases.moves10 Binary64) = true.
Proof. vm_compute. reflexivity. Qed.

Lemma moves10_length (A : Arith) : length (Cases.moves10 A) = 8%nat.
Proof. apply linspace_length. Qed.

Lemma equity_is_builder (V F : Z) :
  (0 < V <= 2 ^ 53)%Z -> (0 < F <= 2 ^ 46)%Z ->
  let N := (b64_of_int V / b64_of_int (F * 50))%float in
  Cases.equity_N Binary64 V F = Py.Ok N /\
  HedgingBuilder.optimal_contracts Binary64 1%float V F 50 = Py.Ok N /\
  HedgingBuilder.portfolio Binary64 V 1%float (Cases.moves10 Binary64)
  = Py.Ok (Cases.equity_portfolio Binary64 V (Cases.moves10 Binary64)) /\
  HedgingBuilder.futures Binary64 N 50 F (Cases.moves10 Binary64)
  = Py.Ok (Cases.equity_futures Binary64 N F (Cases.moves10 Binary64)).
Proof.
  intros HV HF N.
  assert (P1 : (2 ^ 53 <= 2 ^ 100)%Z) by (apply Z.pow_le_mono_r; lia).
  assert (P2 : (2 ^ 46 <= 2 ^ 100)%Z) by (apply Z.pow_le_mono_r; lia).
  assert (FV : fits Binary64 V = true) by (apply b64_fits_widget; lia).
  assert (FF : fits Binary64 F = true) by (apply b64_fits_widget; lia).
  assert (F50 : fits Binary64 50 = true) by reflexivity.
  assert (FFs : fits Binary64 (F * 50) = true) by (apply b64_fits_widget_mul; lia).
  split; [|split; [|split]].
  - unfold Cases.equity_N, Cases.int_truediv.
    destruct (Z.eqb_spec (F * 50) 0) as [E|_]; [lia|reflexivity].
  - rewrite optimal_contracts_ok by (try assumption; lia).
    cbn [fdiv fmul of_int Binary64]. now rewrite b64_mul_one_l.
  - rewrite portfolio_ok by assumption. f_equal. unfold Cases.equity_portfolio.
    apply map_ext. intros m. cbn [fmul of_int Binary64]. now rewrite b64_mul_one_r.
  - rewrite futures_ok by assumption. reflexivity.
Qed.

(** X7: the equity case is the optimal hedge of panel 5 at beta 1.  A
    futures price of 0 raises [ZeroDivisionError]; in binary64, for a
    portfolio value up to [2^53] and a futures price up to [2^46], both
    positive, the contracts and the two series are those of the builder
    with beta 1.0 on the eight moves, and each of the eight hedged values
    is at most the unhedged value in absolute value. *)
Theorem equity_case_hedge :
  (forall (A : Arith) (V : Z), Cases.equity A V 0 = Py.Raise Py.ZeroDivisionError) /\
  (forall V F : Z, (0 < V <= 2 ^ 53)%Z -> (0 < F <= 2 ^ 46)%Z ->
     exists N p f n,
       Cases.equity_N Binary64 V F = Py.Ok N /\
       HedgingBuilder.optimal_contracts Binary64 1%float V F 50 = Py.Ok N /\
       Cases.equity Binary64 V F = Py.Ok (p, f, n) /\
       HedgingBuilder.portfolio Binary64 V 1%float (Cases.moves10 Binary64) = Py.Ok p /\
       HedgingBuilder.futures Binary64 N 50 F (Cases.moves10 Binary64) = Py.Ok f /\
       length p = 8%nat /\ length n = 8%nat /\
       forall i, (i < 8)%nat ->
         exists pv nv, nth_error p i = Some pv /\ nth_error n i = Some nv /\
                       (abs nv <=? abs pv)%float = true).
Proof.
  split; [reflexivity|].
  intros V F HV HF.
  destruct (equity_is_builder HV HF) as (EN & Eo & Ep & Ef).
  assert (P1 : (2 ^ 53 <= 2 ^ 100)%Z) by (apply Z.pow_le_mono_r; lia).
  assert (P2 : (2 ^ 46 <= 2 ^ 100)%Z) by (apply Z.pow_le_mono_r; lia).
  destruct (@full_hedge_binary64 V F 50 1%float (Cases.moves10 Binary64)
              ltac:(lia) ltac:(lia) ltac:(lia) eq_refl moves10_moderate)
    as (opt & p & f & Eo' & Ep' & Ef' & H).
  change (HedgingBuilder.contracts Binary64 "Optimal Hedge" opt) with opt in Ef', H.
  rewrite Eo in Eo'. apply ok_inj in Eo'. subst opt.
  rewrite Ep in Ep'. apply ok_inj in Ep'. subst p.
  rewrite Ef in Ef'. apply ok_inj in Ef'. subst f.
  set (N := (b64_of_int V / b64_of_int (F * 50))%float) in *.
  set (p := Cases.equity_portfolio Binary64 V (Cases.moves10 Binary64)) in *.
  set (f := Cases.equity_futures Binary64 N F (Cases.moves10 Binary64)) in *.
  exists N, p, f, (HedgingBuilder.net Binary64 p f).
  pose proof (moves10_length Binary64) as L.
  assert (Lp : length p = 8%nat) by (unfold p, Cases.equity_portfolio; now rewrite length_map).
  assert (Lf : length f = 8%nat) by (unfold f, Cases.equity_futures; now rewrite length_map).
  split; [exact EN|]. split; [exact Eo|].
  split; [unfold Cases.equity; rewrite EN; reflexivity|].
  split; [exact Ep|]. split; [exact Ef|]. split; [exact Lp|]. split.
  - unfold HedgingBuilder.net. rewrite zip_with_length; lia.
  - intros i Hi. apply H. exact (eq_ind_r (fun n => (i < n)%nat) Hi L).
Qed.

Lemma equity_case_hedge_witness :
  (0 < 5000000 <= 2 ^ 53)%Z /\ (0 < 22000 <= 2 ^ 46)%Z /\
  exists N p f n,
    Cases.equity_N Binary64 5000000 22000 = Py.Ok N /\
    HedgingBuilder.optimal_contracts Binary64 1%float 5000000 22000 50 = Py.Ok N /\
    Cases.equity Binary64 5000000 22000 = Py.Ok (p, f, n) /\
    HedgingBuilder.portfolio Binary64 5000000 1%float (Cases.moves10 Binary64) = Py.Ok p /\
    HedgingBuilder.futures Binary64 N 50 22000 (Cases.moves10 Binary64) = Py.Ok f /\
    length p = 8%nat /\ length n = 8%nat /\
    forall i, (i < 8)%nat ->
      exists pv nv, nth_error p i = Some pv /\ nth_error n i = Some nv /\
                    (abs nv <=? abs pv)%float = true.
Proof.
  assert (H1 : (0 < 5000000 <= 2 ^ 53)%Z) by (split; vm_compute; [reflexivity|discriminate]).
  assert (H2 : (0 < 22000 <= 2 ^ 46)%Z) by (split; vm_compute; [reflexivity|discriminate]).
  split; [exact H1|]. split; [exact H2|].
  exact (proj2 equity_case_hedge 5000000%Z 22000%Z H1 H2).
Defined.

(** ** Scaling a series by the unhedged share [1 - h] *)

Lemma b64_fraction_in h :
  b64_fraction h = true -> b64_in 20 h /\ 0 <= B2Q h /\ B2Q h <= 1.
Proof.
  unfold b64_fraction. intros H. apply orb_prop in H as [H|H].
  - destruct (b64_eqb_zero H) as [s Es]. destruct (@b64_zero_value _ _ Es) as [F E].
    split; [split; [exact F|now left]|]. rewrite E. split; discriminate.
  - apply andb_prop in H as [H1 H2].
    assert (Fx : b64_finite h = true) by (apply (@b64_between_finite 0x1p-20 h 1); auto).
    assert (E1 : B2Q 0x1p-20 == pow2 (-20)) by (vm_compute; reflexivity).
    assert (E2 : B2Q 1 == 1) by (vm_compute; reflexivity).
    apply (proj1 (@b64_compare_correct 0x1p-20 h eq_refl Fx)) in H1.
    apply (proj1 (@b64_compare_correct h 1 Fx eq_refl)) in H2.
    rewrite E1 in H1. rewrite E2 in H2.
    assert (P : 0 < pow2 (-20)) by apply pow2_pos.
    assert (Q20 : 1 <= pow2 20) by (vm_compute; discriminate).
    split; [split; [exact Fx|right]|split; lra].
    cbn [Z.opp]. rewrite Qabs_pos by lra. split; lra.
Qed.

Lemma round53_one : round53 1 == 1.
Proof. change 1 with (pow2 0). apply round53_pow2. Qed.

Lemma round53_nonneg x : 0 <= x -> 0 <= round53 x.
Proof.
  intros H. apply round53_le in H. rewrite round53_zero in H by reflexivity. exact H.
Qed.

Lemma round53_le_one x : x <= 1 -> round53 x <= 1.
Proof. intros H. apply round53_le in H. now rewrite round53_one in H. Qed.

(** The unhedged share [1 - h] of a fraction [h]: between 0 and 1. *)
Lemma b64_share (h : float) :
  b64_in 20 h -> 0 <= B2Q h -> B2Q h <= 1 ->
  let c := (b64_of_int 1 - h)%float in
  b64_in 73 c /\ B2Q c == round53 (1 - B2Q h) /\ 0 <= B2Q c /\ B2Q c <= 1.
Proof.
  intros Ih H0 H1 c.
  destruct (@b64_in_of_int 1 20) as [I1 E1]; [vm_compute; discriminate|lia|].
  rewrite round53_int in E1 by (vm_compute; discriminate).
  destruct (b64_sub_value I1 Ih) as [Ic Ec]; [lia|].
  change (20 + 53)%Z with 73%Z in Ic. rewrite E1 in Ec.
  change (inject_Z 1) with 1 in Ec.
  split; [exact Ic|]. split; [exact Ec|]. unfold c. rewrite Ec. split.
  - apply round53_nonneg. lra.
  - apply round53_le_one. lra.
Qed.

Lemma b64_abs_le (x y : float) :
  b64_finite x = true -> b64_finite y = true -> Qabs (B2Q x) <= Qabs (B2Q y) ->
  (abs x <=? abs y)%float = true.
Proof.
  intros Fx Fy H.
  destruct (b64_abs_correct x) as [Fa Ea]. destruct (b64_abs_correct y) as [Fb Eb].
  apply (proj1 (@b64_compare_correct (abs x) (abs y)
                  ltac:(now rewrite Fa) ltac:(now rewrite Fb))).
  now rewrite Ea, Eb.
Qed.

(** Scaling by a share shrinks, and by a smaller share shrinks more. *)
Lemma b64_scaled (u c : float) (k : Z) :
  b64_in k u -> b64_in 73 c -> 0 <= B2Q c -> B2Q c <= 1 -> (0 <= k <= 900)%Z ->
  b64_in (k + 73) (u * c)%float /\
  B2Q (u * c)%float == round53 (B2Q u * B2Q c) /\
  Qabs (B2Q (u * c)%float) <= Qabs (B2Q u).
Proof.
  intros Iu Ic C0 C1 Hk.
  destruct (b64_mul_value Iu Ic) as [Im Em]; try lia.
  split; [exact Im|]. split; [exact Em|].
  rewrite Em, round53_abs.
  rewrite <- (b64_in_round Iu) at 2 by lia. rewrite round53_abs.
  apply round53_le. rewrite Qabs_Qmult, (Qabs_pos (B2Q c)) by exact C0.
  pose proof (Qabs_nonneg (B2Q u)). nra.
Qed.

Lemma b64_scaled_mono (u c c' : float) (k : Z) :
  b64_in k u -> b64_in 73 c -> b64_in 73 c' -> 0 <= B2Q c' -> B2Q c' <= B2Q c ->
  (0 <= k <= 900)%Z ->
  Qabs (B2Q (u * c')%float) <= Qabs (B2Q (u * c)%float).
Proof.
  intros Iu Ic Ic' C0 C1 Hk.
  destruct (b64_mul_value Iu Ic) as [_ Em]; try lia.
  destruct (b64_mul_value Iu Ic') as [_ Em']; try lia.
  rewrite Em, Em', !round53_abs. apply round53_le.
  rewrite !Qabs_Qmult, (Qabs_pos (B2Q c)), (Qabs_pos (B2Q c')) by lra.
  pose proof (Qabs_nonneg (B2Q u)). nra.
Qed.

(** ** Panel 11: Airline Fuel Hedge *)

Lemma moves20_moderate : forallb b64_move (Cases.moves20 Binary64) = true.
Proof. vm_compute. reflexivity. Qed.

Lemma moves20_length (A : Arith) : length (Cases.moves20 A) = 8%nat.
Proof. apply linspace_length. Qed.

Lemma exposure_sample (exposure : Z) (moves : list float) (i : nat) (u : float) :
  (Z.abs exposure <= 2 ^ 53)%Z -> forallb b64_move moves = true ->
  nth_error (map (fun m => (b64_of_int exposure * m)%float) moves) i = Some u ->
  b64_in 153 u.
Proof.
  intros He Hm E. rewrite nth_error_map in E.
  destruct (nth_error moves i) as [m|] eqn:Em; [|discriminate]. injection E as <-.
  rewrite forallb_forall in Hm. apply nth_error_In in Em. apply Hm in Em.
  apply b64_move_in in Em.
  destruct (@b64_in_of_int exposure 53 He ltac:(lia)) as [Ie _].
  destruct (b64_mul_value Ie Em) as [I _]; try lia. exact I.
Qed.

Lemma hedge_ratio_value (percent : Z) :
  (0 <= percent <= 100)%Z ->
  let hr := (b64_of_int percent / b64_of_int 100)%float in
  Cases.hedge_ratio Binary64 percent = Py.Ok hr /\
  b64_in 20 hr /\ B2Q hr == round53 (inject_Z percent / 100) /\
  0 <= B2Q hr /\ B2Q hr <= 1.
Proof.
  intros Hp hr. split; [reflexivity|].
  assert (P7 : (2 ^ 7 = 128)%Z) by reflexivity.
  destruct (@b64_in_of_int percent 7) as [Ip Ep]; [lia|lia|].
  destruct (@b64_in_of_int 100 7) as [Ic Ec]; [vm_compute; discriminate|lia|].
  assert (P53 : (128 <= 2 ^ 53)%Z) by (vm_compute; discriminate).
  rewrite round53_int in Ep by lia. rewrite round53_int in Ec by (vm_compute; discriminate).
  change (inject_Z 100) with 100 in Ec.
  destruct (b64_div_value Ip Ic) as [Ih Eh]; try lia.
  { rewrite Ec. discriminate. }
  rewrite Ep, Ec in Eh.
  assert (Q0 : 0 <= inject_Z percent)
    by (change 0 with (inject_Z 0); rewrite <- Zle_Qle; lia).
  assert (Q1 : inject_Z percent <= 100)
    by (change 100 with (inject_Z 100); rewrite <- Zle_Qle; lia).
  split; [apply (@b64_in_weaken (7 + 7) 20); [lia|exact Ih]|].
  split; [exact Eh|]. fold hr in Eh. rewrite Eh. split.
  - apply round53_nonneg. apply Qle_shift_div_l; [reflexivity|lra].
  - apply round53_le_one. apply Qle_shift_div_r; [reflexivity|lra].
Qed.

(** X8: the airline hedge scales the exposure down.  In binary64, for a
    fuel exposure up to [2^53] in magnitude and a hedge percentage from 0
    to 100, each hedged value is at most the unhedged value in absolute
    value; at 0 percent the hedged series is the unhedged one, at 100
    percent every hedged value is zero, and a higher percentage never gives
    a larger hedged value. *)
Theorem airline_hedge_scales (fuel_cost percent : Z) :
  (Z.abs fuel_cost <= 2 ^ 53)%Z -> (0 <= percent <= 100)%Z ->
  exists hr,
    Cases.hedge_ratio Binary64 percent = Py.Ok hr /\
    let unhedged := Cases.airline_unhedged Binary64 fuel_cost in
    let hedged := Cases.airline_hedged Binary64 unhedged hr in
    length unhedged = 8%nat /\ length hedged = 8%nat /\
    (forall i u h, nth_error unhedged i = Some u -> nth_error hedged i = Some h ->
       b64_finite h = true /\ (abs h <=? abs u)%float = true) /\
    (percent = 0%Z -> hedged = unhedged) /\
    (percent = 100%Z -> forall i h, nth_error hedged i = Some h -> (h =? 0)%float = true) /\
    (forall percent' hr', (percent <= percent' <= 100)%Z ->
       Cases.hedge_ratio Binary64 percent' = Py.Ok hr' ->
       forall i h h', nth_error hedged i = Some h ->
         nth_error (Cases.airline_hedged Binary64 unhedged hr') i = Some h' ->
         (abs h' <=? abs h)%float = true).
Proof.
  intros Hf Hp.
  destruct (hedge_ratio_value Hp) as (Eh & Ih & Vh & H0 & H1).
  set (hr := (b64_of_int percent / b64_of_int 100)%float) in *.
  exists hr. split; [exact Eh|]. intros unhedged hedged.
  destruct (b64_share Ih H0 H1) as (Ic & Ec & C0 & C1).
  assert (Lu : length unhedged = 8%nat).
  { unfold unhedged, Cases.airline_unhedged. rewrite length_map. apply moves20_length. }
  assert (Iu : forall i u, nth_error unhedged i = Some u -> b64_in 153 u).
  { intros i u E. exact (@exposure_sample fuel_cost _ i u Hf moves20_moderate E). }
  split; [exact Lu|]. split; [unfold hedged, Cases.airline_hedged; now rewrite length_map|].
  split; [|split; [|split]].
  - intros i u h Eu E. unfold hedged, Cases.airline_hedged in E.
    rewrite (map_nth_error _ i _ Eu) in E. injection E as <-.
    cbn [fmul fsub of_int Binary64].
    destruct (b64_scaled (Iu _ _ Eu) Ic C0 C1) as (Im & _ & Le); [lia|].
    split; [apply Im|]. apply b64_abs_le; [apply Im|apply (Iu _ _ Eu)|exact Le].
  - intros ->. unfold hedged, Cases.airline_hedged.
    rewrite <- (map_id unhedged) at 2. apply map_ext. intros u.
    cbn [fmul fsub of_int Binary64].
    change (b64_of_int 1 - hr)%float with 1%float. apply b64_mul_one_r.
  - intros -> i h E. unfold hedged, Cases.airline_hedged in E.
    rewrite nth_error_map in E.
    destruct (nth_error unhedged i) as [u|] eqn:Eu; [|discriminate]. injection E as <-.
    cbn [fmul fsub of_int Binary64].
    change (b64_of_int 1 - hr)%float with 0%float.
    destruct (@b64_mul_zero u 0%float (proj1 (Iu _ _ Eu)) eq_refl) as [s Es].
    exact (b64_zero_eqb _ Es).
  - intros percent' hr' Hp' Eh' i h h' E E'.
    destruct (@hedge_ratio_value percent' ltac:(lia)) as (Eh2 & Ih' & Vh' & H0' & H1').
    rewrite Eh2 in Eh'. apply ok_inj in Eh'. subst hr'.
    destruct (b64_share Ih' H0' H1') as (Ic' & Ec' & C0' & C1').
    unfold hedged, Cases.airline_hedged in E. unfold Cases.airline_hedged in E'.
    rewrite nth_error_map in E, E'.
    destruct (nth_error unhedged i) as [u|] eqn:Eu; [|discriminate].
    injection E as <-. injection E' as <-.
    cbn [fmul fsub of_int Binary64].
    destruct (b64_scaled (Iu _ _ Eu) Ic C0 C1) as (Im & _ & _); [lia|].
    destruct (b64_scaled (Iu _ _ Eu) Ic' C0' C1') as (Im' & _ & _); [lia|].
    apply b64_abs_le; [apply Im'|apply Im|].
    apply (@b64_scaled_mono u _ _ 153 (Iu _ _ Eu) Ic Ic' C0'); [|lia].
    rewrite Ec, Ec'. apply round53_le. rewrite Vh, Vh'.
    assert (M : round53 (inject_Z percent / 100) <= round53 (inject_Z percent' / 100)).
    { apply round53_le. apply Qmult_le_compat_r; [|discriminate].
      rewrite <- Zle_Qle. lia. }
    lra.
Qed.

Lemma airline_hedge_scales_witness :
  (Z.abs 10000000 <= 2 ^ 53)%Z /\ (0 <= 70 <= 100)%Z /\
  exists hr,
    Cases.hedge_ratio Binary64 70 = Py.Ok hr /\
    length (Cases.airline_hedged Binary64 (Cases.airline_unhedged Binary64 10000000) hr)
    = 8%nat.
Proof.
  assert (H1 : (Z.abs 10000000 <= 2 ^ 53)%Z) by (vm_compute; discriminate).
  assert (H2 : (0 <= 70 <= 100)%Z) by (split; vm_compute; discriminate).
  split; [exact H1|]. split; [exact H2|].
  destruct (@airline_hedge_scales 10000000 70 H1 H2) as (hr & E & _ & L & _).
  exists hr. split; [exact E|exact L].
Defined.

(** ** Panel 12: Cross Hedging *)

Lemma nth_error_map_some (T U : Type) (g : T -> U) (l : list T) (i : nat) (y : U) :
  nth_error (map g l) i = Some y -> exists x, nth_error l i = Some x /\ y = g x.
Proof.
  rewrite nth_error_map. destruct (nth_error l i) as [x|]; [|discriminate].
  intros [= <-]. now exists x.
Qed.

Lemma b64_one_minus_zero (c : float) : (c =? 0)%float = true -> (b64_of_int 1 - c = 1)%float.
Proof.
  intros H. destruct (b64_eqb_zero H) as [s Es].
  apply Prim2SF_inj. rewrite sub_spec, Es. now destruct s.
Qed.

(** X9: the cross hedge scales the exposure down by [1 - corr].  In
    binary64, for an exposure up to [2^53] in magnitude and a correlation
    that is zero or between [2^-20] and 1, each hedged value is at most the
    unhedged value in absolute value; at correlation 0 the hedged series is
    the unhedged one, at correlation 1 every hedged value is zero, and a
    higher correlation never gives a larger hedged value. *)
Theorem cross_hedge_scales (exposure : Z) (corr : float) :
  (Z.abs exposure <= 2 ^ 53)%Z -> b64_fraction corr = true ->
  let unhedged := Strategies.cross_unhedged Binary64 exposure in
  let hedged := Strategies.cross_hedged Binary64 exposure corr in
  length unhedged = 8%nat /\ length hedged = 8%nat /\
  (forall i u h, nth_error unhedged i = Some u -> nth_error hedged i = Some h ->
     b64_finite h = true /\ (abs h <=? abs u)%float = true) /\
  ((corr =? 0)%float = true -> hedged = unhedged) /\
  (corr = 1%float -> forall i h, nth_error hedged i = Some h -> (h =? 0)%float = true) /\
  (forall corr', b64_fraction corr' = true -> (corr <=? corr')%float = true ->
     forall i h h', nth_error hedged i = Some h ->
       nth_error (Strategies.cross_hedged Binary64 exposure corr') i = Some h' ->
       (abs h' <=? abs h)%float = true).
Proof.
  intros He Hc unhedged hedged.
  destruct (@b64_fraction_in _ Hc) as (Ih & H0 & H1).
  destruct (b64_share Ih H0 H1) as (Ic & Ec & C0 & C1).
  assert (Iu : forall i u, nth_error unhedged i = Some u -> b64_in 153 u).
  { intros i u E. exact (@exposure_sample exposure _ i u He moves10_moderate E). }
  assert (Eh : forall c, Strategies.cross_hedged Binary64 exposure c
                         = map (fun u => (u * (b64_of_int 1 - c))%float) unhedged).
  { intros c. unfold Strategies.cross_hedged, unhedged, Strategies.cross_unhedged.
    rewrite map_map. reflexivity. }
  assert (Lu : length unhedged = 8%nat).
  { unfold unhedged, Strategies.cross_unhedged. rewrite length_map. apply moves10_length. }
  split; [exact Lu|]. split; [unfold hedged; rewrite Eh; now rewrite length_map|].
  split; [|split; [|split]].
  - intros i u h Eu E. unfold hedged in E. rewrite Eh in E.
    rewrite (map_nth_error _ i _ Eu) in E. injection E as <-.
    destruct (b64_scaled (Iu _ _ Eu) Ic C0 C1) as (Im & _ & Le); [lia|].
    split; [apply Im|]. apply b64_abs_le; [apply Im|apply (Iu _ _ Eu)|exact Le].
  - intros Z0. unfold hedged. rewrite Eh.
    rewrite <- (map_id unhedged) at 2. apply map_ext. intros u.
    rewrite (b64_one_minus_zero Z0). apply b64_mul_one_r.
  - intros -> i h E. unfold hedged in E. rewrite Eh in E.
    apply nth_error_map_some in E as (u & Eu & ->).
    change (b64_of_int 1 - 1)%float with 0%float.
    destruct (@b64_mul_zero u 0%float (proj1 (Iu _ _ Eu)) eq_refl) as [s Es].
    exact (b64_zero_eqb _ Es).
  - intros corr' Hc' Hle i h h' E E'.
    destruct (@b64_fraction_in _ Hc') as (Ih' & H0' & H1').
    destruct (b64_share Ih' H0' H1') as (Ic' & Ec' & C0' & C1').
    unfold hedged in E. rewrite Eh in E. rewrite Eh in E'.
    apply nth_error_map_some in E as (u & Eu & ->).
    rewrite (map_nth_error _ i _ Eu) in E'. injection E' as <-.
    destruct (b64_scaled (Iu _ _ Eu) Ic C0 C1) as (Im & _ & _); [lia|].
    destruct (b64_scaled (Iu _ _ Eu) Ic' C0' C1') as (Im' & _ & _); [lia|].
    apply b64_abs_le; [apply Im'|apply Im|].
    apply (@b64_scaled_mono u _ _ 153 (Iu _ _ Eu) Ic Ic' C0'); [|lia].
    rewrite Ec, Ec'. apply round53_le.
    apply (proj1 (@b64_compare_correct corr corr' (proj1 Ih) (proj1 Ih'))) in Hle. lra.
Qed.

Lemma cross_hedge_scales_witness :
  (Z.abs 1000000 <= 2 ^ 53)%Z /\ b64_fraction 0.5%float = true /\
  length (Strategies.cross_hedged Binary64 1000000 0.5%float) = 8%nat.
Proof.
  assert (H1 : (Z.abs 1000000 <= 2 ^ 53)%Z) by (vm_compute; discriminate).
  assert (H2 : b64_fraction 0.5%float = true) by (vm_compute; reflexivity).
  split; [exact H1|]. split; [exact H2|].
  exact (proj1 (proj2 (@cross_hedge_scales 1000000 0.5%float H1 H2))).
Defined.

(** ** An integer minus a sample *)

Lemma b64_sub_self (x : float) : b64_finite x = true -> (x - x = 0)%float.
Proof.
  intros F. apply Prim2SF_inj. rewrite sub_spec. unfold b64_finite in F.
  destruct (Prim2SF x) as [s|s| |s m e]; try discriminate.
  - now destruct s.
  - unfold SF64sub, SFsub. rewrite Z.min_id. unfold shl_align.
    rewrite Z.sub_diag. reflexivity.
Qed.

Lemma b64_of_int_diff a b :
  (Z.abs a <= 2 ^ 52)%Z -> (Z.abs b <= 2 ^ 52)%Z ->
  (b64_of_int b - b64_of_int a)%float = b64_of_int (b - a).
Proof.
  intros Ha Hb. destruct (Z.eq_dec a b) as [->|N].
  - rewrite Z.sub_diag. apply b64_sub_self.
    assert (P : (2 ^ 52 <= 2 ^ 53)%Z) by (apply Z.pow_le_mono_r; lia).
    apply b64_of_int_exact. lia.
  - now apply b64_of_int_sub.
Qed.

Lemma int_minus_sample (d : float) (S lo hi : Z) :
  b64_in 206 d -> inject_Z lo <= B2Q d -> B2Q d <= inject_Z hi ->
  (Z.abs S <= 2 ^ 52)%Z -> (Z.abs (S - lo) <= 2 ^ 53)%Z -> (Z.abs (S - hi) <= 2 ^ 53)%Z ->
  let v := (b64_of_int S - d)%float in
  b64_in 259 v /\ B2Q v == round53 (inject_Z S - B2Q d) /\
  inject_Z (S - hi) <= B2Q v /\ B2Q v <= inject_Z (S - lo).
Proof.
  intros Id L U HS Hl Hh v.
  assert (P1 : (2 ^ 53 = 2 * 2 ^ 52)%Z) by reflexivity.
  assert (P3 : (2 ^ 52 <= 2 ^ 206)%Z) by (apply Z.pow_le_mono_r; lia).
  destruct (@b64_in_of_int S 206) as [Ie Ee]; [lia|lia|].
  rewrite round53_int in Ee by lia.
  destruct (b64_sub_value Ie Id) as [I E]; [lia|].
  split; [exact I|]. unfold v. rewrite E, Ee. split; [reflexivity|]. split.
  - rewrite <- (@round53_int (S - hi)) by lia. apply round53_le.
    rewrite inject_Z_sub. lra.
  - rewrite <- (@round53_int (S - lo)) by lia. apply round53_le.
    rewrite inject_Z_sub. lra.
Qed.

(** ** Panels 11 and 12: the calendar spread *)

Lemma offsets_2000 : offsets_ok 2000 = true.
Proof. vm_compute. reflexivity. Qed.

Lemma div7_bounds (w : Z) (i : nat) :
  (0 < w)%Z -> (i < 8)%nat -> (0 <= w * Z.of_nat i / 7 <= w)%Z.
Proof.
  intros Hw Hi. split; [apply Z.div_pos; lia|apply Z.div_le_upper_bound; nia].
Qed.

Lemma calendar_sample (near far : Z) (i : nat) :
  (Z.abs near <= 2 ^ 50)%Z -> (Z.abs far <= 2 ^ 50)%Z -> (i < 8)%nat ->
  exists p v,
    nth_error (Cases.calendar_prices Binary64 near) i = Some p /\
    nth_error (Cases.calendar_pnl Binary64 near far (Cases.calendar_prices Binary64 near)) i
      = Some v /\
    v = (b64_of_int (far - near) - (p - b64_of_int near))%float /\
    b64_finite v = true /\
    inject_Z (far - near + 999 - 2000 * Z.of_nat i / 7) <= B2Q v /\
    B2Q v <= inject_Z (far - near + 1000 - 2000 * Z.of_nat i / 7).
Proof.
  intros Hn Hf Hi.
  assert (P0 : (2 ^ 51 = 2 * 2 ^ 50)%Z) by reflexivity.
  assert (P1 : (2 ^ 53 = 4 * 2 ^ 51)%Z) by reflexivity.
  assert (P5 : (2 ^ 52 = 2 * 2 ^ 51)%Z) by reflexivity.
  assert (P2 : (2000 <= 2 ^ 20)%Z) by (vm_compute; discriminate).
  assert (P4 : (2 ^ 20 <= 2 ^ 50)%Z) by (apply Z.pow_le_mono_r; lia).
  destruct (@grid_sample (near - 1000) 2000 i offsets_2000) as (p & Ep & Ip & L & U);
    [lia|lia|exact Hi|].
  assert (Ep' : nth_error (Cases.calendar_prices Binary64 near) i = Some p).
  { unfold Cases.calendar_prices. cbn [of_int Binary64].
    replace (near + 1000)%Z with (near - 1000 + 2000)%Z by lia. exact Ep. }
  pose proof (@div7_bounds 2000 i ltac:(lia) Hi) as D.
  destruct (@sample_minus_entry p near _ _ Ip L U) as (Id & _ & Ld & Ud); try lia.
  destruct (@int_minus_sample _ (far - near) _ _ Id Ld Ud) as (Iv & _ & Lv & Uv); try lia.
  exists p, (b64_of_int (far - near) - (p - b64_of_int near))%float.
  split; [exact Ep'|]. split.
  { unfold Cases.calendar_pnl.
    apply map_nth_error
      with (f := fun p => fsub Binary64 (of_int Binary64 (far - near))
                            (fsub Binary64 p (of_int Binary64 near))).
    exact Ep'. }
  split; [reflexivity|]. split; [apply Iv|]. split.
  - eapply Qle_trans; [|exact Lv]. rewrite <- Zle_Qle. lia.
  - eapply Qle_trans; [exact Uv|]. rewrite <- Zle_Qle. lia.
Qed.

Lemma calendar_ends (near far : Z) :
  (Z.abs near <= 2 ^ 50)%Z -> (Z.abs far <= 2 ^ 50)%Z ->
  let pnl := Cases.calendar_pnl Binary64 near far (Cases.calendar_prices Binary64 near) in
  nth_error pnl 0 = Some (b64_of_int (far - near + 1000)) /\
  nth_error pnl 7 = Some (b64_of_int (far - near - 1000)).
Proof.
  intros Hn Hf pnl.
  assert (P0 : (2 ^ 51 = 2 * 2 ^ 50)%Z) by reflexivity.
  assert (P1 : (2 ^ 52 = 4 * 2 ^ 50)%Z) by reflexivity.
  assert (P2 : (2000 <= 2 ^ 20)%Z) by (vm_compute; discriminate).
  assert (P3 : (2000 <= 2 ^ 50)%Z) by (vm_compute; discriminate).
  assert (Hw : (0 < 2000 <= 2 ^ 20)%Z) by lia.
  assert (Ha : (Z.abs (near - 1000) <= 2 ^ 51)%Z) by lia.
  pose proof (@grid_first (near - 1000) 2000 Hw Ha) as G0.
  pose proof (proj2 (@grid_samples (near - 1000) 2000 Hw Ha)) as G7.
  replace (near - 1000 + 2000)%Z with (near + 1000)%Z in G0, G7 by lia.
  change (linspace Binary64 (b64_of_int (near - 1000)) (b64_of_int (near + 1000)) 8)
    with (Cases.calendar_prices Binary64 near) in G0, G7.
  split.
  - unfold pnl, Cases.calendar_pnl.
    rewrite (map_nth_error (fun p => fsub Binary64 (of_int Binary64 (far - near))
                                       (fsub Binary64 p (of_int Binary64 near))) 0 _ G0).
    f_equal. cbn [fsub of_int Binary64].
    rewrite (@b64_of_int_diff near (near - 1000)) by lia.
    rewrite b64_of_int_diff by lia. f_equal. lia.
  - unfold pnl, Cases.calendar_pnl.
    rewrite (map_nth_error (fun p => fsub Binary64 (of_int Binary64 (far - near))
                                       (fsub Binary64 p (of_int Binary64 near))) 7 _ G7).
    f_equal. cbn [fsub of_int Binary64].
    rewrite (@b64_of_int_diff near (near + 1000)) by lia.
    rewrite b64_of_int_diff by lia. f_equal. lia.
Qed.

(** X10: the calendar spread payoff.  In exact arithmetic the P&L at sample
    [i] is [(far - near) + 1000 - 2000 * i / 7]: it depends on the two
    prices only through the spread.  In binary64, for prices up to [2^50]
    in magnitude, the eight values start at exactly [spread + 1000] and end
    at exactly [spread - 1000], each lies between the integers around its
    exact value, and they decrease strictly. *)
Theorem calendar_spread_payoff :
  (forall (near far : Z) (i : nat), (i < 8)%nat ->
     exists v,
       nth_error (Cases.calendar_pnl Exact near far (Cases.calendar_prices Exact near)) i
         = Some v /\
       v == inject_Z (far - near) + 1000 - 2000 * inject_Z (Z.of_nat i) / 7) /\
  (forall near far : Z, (Z.abs near <= 2 ^ 50)%Z -> (Z.abs far <= 2 ^ 50)%Z ->
     let pnl := Cases.calendar_pnl Binary64 near far (Cases.calendar_prices Binary64 near) in
     length pnl = 8%nat /\
     nth_error pnl 0 = Some (b64_of_int (far - near + 1000)) /\
     nth_error pnl 7 = Some (b64_of_int (far - near - 1000)) /\
     (forall i v, nth_error pnl i = Some v ->
        b64_finite v = true /\
        inject_Z (far - near + 999 - 2000 * Z.of_nat i / 7) <= B2Q v /\
        B2Q v <= inject_Z (far - near + 1000 - 2000 * Z.of_nat i / 7)) /\
     (forall i j u v, (i < j)%nat -> nth_error pnl i = Some u -> nth_error pnl j = Some v ->
        PrimFloat.ltb v u = true)).
Proof.
  split.
  - intros near far i Hi.
    destruct (@linspace_exact_nth (inject_Z (near - 1000)) (inject_Z (near + 1000)) 8 i)
      as (p & Ep & Vp); [lia|exact Hi|].
    exists (inject_Z (far - near) - (p - inject_Z near)). split.
    + unfold Cases.calendar_pnl.
      apply map_nth_error
        with (f := fun p => fsub Exact (of_int Exact (far - near))
                              (fsub Exact p (of_int Exact near))).
      exact Ep.
    + rewrite Vp. unfold grid_point. rewrite !inject_Z_sub, inject_Z_plus.
      change (inject_Z (Z.of_nat 8)) with 8. change (inject_Z 1000) with 1000.
      change (inject_Z 1) with 1. field.
  - intros near far Hn Hf pnl.
    assert (Len : length pnl = 8%nat).
    { unfold pnl, Cases.calendar_pnl, Cases.calendar_prices.
      rewrite length_map. apply linspace_length. }
    assert (S : forall i v, nth_error pnl i = Some v ->
        b64_finite v = true /\
        inject_Z (far - near + 999 - 2000 * Z.of_nat i / 7) <= B2Q v /\
        B2Q v <= inject_Z (far - near + 1000 - 2000 * Z.of_nat i / 7)).
    { intros i v Ev.
      assert (Hi : (i < 8)%nat).
      { rewrite <- Len. apply nth_error_Some. rewrite Ev. discriminate. }
      destruct (@calendar_sample near far i Hn Hf Hi) as (p & v' & _ & Ev' & _ & Fv & L & U).
      fold pnl in Ev'. rewrite Ev in Ev'. injection Ev' as <-.
      split; [exact Fv|]. split; assumption. }
    split; [exact Len|]. split; [apply (@calendar_ends near far Hn Hf)|].
    split; [apply (@calendar_ends near far Hn Hf)|]. split; [exact S|].
    intros i j u v Hij Eu Ev.
    assert (Hj : (j < 8)%nat).
    { rewrite <- Len. apply nth_error_Some. rewrite Ev. discriminate. }
    destruct (S i u Eu) as (Fu & Lu & _). destruct (S j v Ev) as (Fv & _ & Uv).
    apply (proj2 (proj1 (proj2 (@b64_compare_correct v u Fv Fu)))).
    eapply Qle_lt_trans; [exact Uv|]. eapply Qlt_le_trans; [|exact Lu].
    rewrite <- Zlt_Qlt.
    pose proof (Z.div_mod (2000 * Z.of_nat i) 7 ltac:(lia)).
    pose proof (Z.mod_pos_bound (2000 * Z.of_nat i) 7 ltac:(lia)).
    pose proof (Z.div_mod (2000 * Z.of_nat j) 7 ltac:(lia)).
    pose proof (Z.mod_pos_bound (2000 * Z.of_nat j) 7 ltac:(lia)).
    lia.
Qed.

(** ** Panel 11: Arbitrage Desk *)

Lemma offsets_400 : offsets_ok 400 = true.
Proof. vm_compute. reflexivity. Qed.

Lemma arbitrage_sample (spot futures : Z) (i : nat) :
  (Z.abs spot <= 2 ^ 50)%Z -> (Z.abs futures <= 2 ^ 50)%Z -> (i < 8)%nat ->
  exists p v,
    nth_error (Cases.arbitrage_prices Binary64 spot) i = Some p /\
    nth_error (Cases.arbitrage_pnl Binary64 futures (Cases.arbitrage_prices Binary64 spot)) i
      = Some v /\
    b64_finite v = true /\
    inject_Z (futures - spot + 199 - 400 * Z.of_nat i / 7) <= B2Q v /\
    B2Q v <= inject_Z (futures - spot + 200 - 400 * Z.of_nat i / 7).
Proof.
  intros Hs Hf Hi.
  assert (P0 : (2 ^ 51 = 2 * 2 ^ 50)%Z) by reflexivity.
  assert (P1 : (2 ^ 53 = 4 * 2 ^ 51)%Z) by reflexivity.
  assert (P5 : (2 ^ 52 = 2 * 2 ^ 51)%Z) by reflexivity.
  assert (P2 : (400 <= 2 ^ 20)%Z) by (vm_compute; discriminate).
  assert (P4 : (2 ^ 20 <= 2 ^ 50)%Z) by (apply Z.pow_le_mono_r; lia).
  destruct (@grid_sample (spot - 200) 400 i offsets_400) as (p & Ep & Ip & L & U);
    [lia|lia|exact Hi|].
  assert (Ep' : nth_error (Cases.arbitrage_prices Binary64 spot) i = Some p).
  { unfold Cases.arbitrage_prices. cbn [of_int Binary64].
    replace (spot + 200)%Z with (spot - 200 + 400)%Z by lia. exact Ep. }
  pose proof (@div7_bounds 400 i ltac:(lia) Hi) as D.
  destruct (@int_minus_sample p futures _ _ (@b64_in_weaken 153 206 p ltac:(lia) Ip) L U)
    as (Iv & _ & Lv & Uv); try lia.
  exists p, (b64_of_int futures - p)%float.
  split; [exact Ep'|]. split.
  { unfold Cases.arbitrage_pnl.
    apply map_nth_error with (f := fun p => fsub Binary64 (of_int Binary64 futures) p).
    exact Ep'. }
  split; [apply Iv|]. split.
  - eapply Qle_trans; [|exact Lv]. rewrite <- Zle_Qle. lia.
  - eapply Qle_trans; [exact Uv|]. rewrite <- Zle_Qle. lia.
Qed.

Lemma arbitrage_ends (spot futures : Z) :
  (Z.abs spot <= 2 ^ 50)%Z -> (Z.abs futures <= 2 ^ 50)%Z ->
  let pnl := Cases.arbitrage_pnl Binary64 futures (Cases.arbitrage_prices Binary64 spot) in
  nth_error pnl 0 = Some (b64_of_int (futures - spot + 200)) /\
  nth_error pnl 7 = Some (b64_of_int (futures - spot - 200)).
Proof.
  intros Hs Hf pnl.
  assert (P0 : (2 ^ 51 = 2 * 2 ^ 50)%Z) by reflexivity.
  assert (P1 : (2 ^ 52 = 4 * 2 ^ 50)%Z) by reflexivity.
  assert (P2 : (400 <= 2 ^ 20)%Z) by (vm_compute; discriminate).
  assert (P3 : (400 <= 2 ^ 50)%Z) by (vm_compute; discriminate).
  assert (Hw : (0 < 400 <= 2 ^ 20)%Z) by lia.
  assert (Ha : (Z.abs (spot - 200) <= 2 ^ 51)%Z) by lia.
  pose proof (@grid_first (spot - 200) 400 Hw Ha) as G0.
  pose proof (proj2 (@grid_samples (spot - 200) 400 Hw Ha)) as G7.
  replace (spot - 200 + 400)%Z with (spot + 200)%Z in G0, G7 by lia.
  change (linspace Binary64 (b64_of_int (spot - 200)) (b64_of_int (spot + 200)) 8)
    with (Cases.arbitrage_prices Binary64 spot) in G0, G7.
  split.
  - unfold pnl, Cases.arbitrage_pnl.
    rewrite (map_nth_error (fun p => fsub Binary64 (of_int Binary64 futures) p) 0 _ G0).
    f_equal. cbn [fsub of_int Binary64].
    rewrite b64_of_int_diff by lia. f_equal. lia.
  - unfold pnl, Cases.arbitrage_pnl.
    rewrite (map_nth_error (fun p => fsub Binary64 (of_int Binary64 futures) p) 7 _ G7).
    f_equal. cbn [fsub of_int Binary64].
    rewrite b64_of_int_diff by lia. f_equal. lia.
Qed.

Lemma fair_value (spot percent : Z) :
  (0 <= spot <= 2 ^ 50)%Z -> (0 <= percent <= 100)%Z ->
  let f := (b64_of_int spot * (b64_of_int 1 + b64_of_int percent / b64_of_int 100))%float in
  Cases.fair Binary64 spot percent = Py.Ok f /\
  b64_finite f = true /\
  B2Q f == round53 (inject_Z spot * round53 (1 + round53 (inject_Z percent / 100))) /\
  inject_Z spot <= B2Q f /\ B2Q f <= inject_Z (2 * spot).
Proof.
  intros Hs Hp f.
  assert (P50 : (2 ^ 53 = 8 * 2 ^ 50)%Z) by reflexivity.
  destruct (hedge_ratio_value Hp) as (_ & Ir & Vr & R0 & R1).
  set (r := (b64_of_int percent / b64_of_int 100)%float) in *.
  destruct (@b64_in_of_int 1 20) as [I1 E1]; [vm_compute; discriminate|lia|].
  rewrite round53_int in E1 by (vm_compute; discriminate). change (inject_Z 1) with 1 in E1.
  destruct (b64_add_value I1 Ir) as [Ic Ec]; [lia|].
  rewrite E1 in Ec.
  destruct (@b64_in_of_int spot 53) as [Is Es]; [lia|lia|].
  rewrite round53_int in Es by lia.
  destruct (b64_mul_value Is Ic) as [If Ef]; try lia.
  rewrite Es, Ec, Vr in Ef.
  split; [reflexivity|]. split; [apply If|]. split; [exact Ef|].
  assert (S0 : 0 <= inject_Z spot) by (change 0 with (inject_Z 0); rewrite <- Zle_Qle; lia).
  assert (C1 : 1 <= round53 (1 + round53 (inject_Z percent / 100))).
  { rewrite <- round53_one at 1. apply round53_le. rewrite <- Vr. lra. }
  assert (R2 : round53 2 == 2).
  { change 2 with (inject_Z 2). apply round53_int. vm_compute. discriminate. }
  assert (C2 : round53 (1 + round53 (inject_Z percent / 100)) <= 2).
  { apply Qle_trans with (round53 2); [|rewrite R2; apply Qle_refl].
    apply round53_le. rewrite <- Vr. lra. }
  unfold f. rewrite Ef. split.
  - rewrite <- (@round53_int spot) at 1 by lia. apply round53_le. nra.
  - rewrite <- (@round53_int (2 * spot)) by lia. apply round53_le.
    rewrite inject_Z_mult. change (inject_Z 2) with 2. nra.
Qed.

(** X11: the arbitrage desk.  In binary64, for a spot price from 0 to
    [2^50] and an interest percentage from 0 to 100, the fair value
    [spot*(1+r)] is at least the spot price, equals it at 0 percent, and
    never falls when the percentage rises.  The P&L [futures - prices] over
    the eight prices starts at exactly [futures - spot + 200], ends at
    exactly [futures - spot - 200], lies between the integers around its
    exact value [futures - spot + 200 - 400 * i / 7], and decreases
    strictly. *)
Theorem arbitrage_desk :
  (forall (spot futures : Z) (i : nat), (i < 8)%nat ->
     exists v,
       nth_error (Cases.arbitrage_pnl Exact futures (Cases.arbitrage_prices Exact spot)) i
         = Some v /\
       v == inject_Z (futures - spot) + 200 - 400 * inject_Z (Z.of_nat i) / 7) /\
  (forall spot percent : Z, (0 <= spot <= 2 ^ 50)%Z -> (0 <= percent <= 100)%Z ->
     exists f,
       Cases.fair Binary64 spot percent = Py.Ok f /\ b64_finite f = true /\
       (b64_of_int spot <=? f)%float = true /\
       (percent = 0%Z -> f = b64_of_int spot) /\
       (forall percent' f', (percent <= percent' <= 100)%Z ->
          Cases.fair Binary64 spot percent' = Py.Ok f' -> (f <=? f')%float = true)) /\
  (forall spot futures : Z, (Z.abs spot <= 2 ^ 50)%Z -> (Z.abs futures <= 2 ^ 50)%Z ->
     let pnl := Cases.arbitrage_pnl Binary64 futures (Cases.arbitrage_prices Binary64 spot) in
     length pnl = 8%nat /\
     nth_error pnl 0 = Some (b64_of_int (futures - spot + 200)) /\
     nth_error pnl 7 = Some (b64_of_int (futures - spot - 200)) /\
     (forall i v, nth_error pnl i = Some v ->
        b64_finite v = true /\
        inject_Z (futures - spot + 199 - 400 * Z.of_nat i / 7) <= B2Q v /\
        B2Q v <= inject_Z (futures - spot + 200 - 400 * Z.of_nat i / 7)) /\
     (forall i j u v, (i < j)%nat -> nth_error pnl i = Some u -> nth_error pnl j = Some v ->
        PrimFloat.ltb v u = true)).
Proof.
  split; [|split].
  - intros spot futures i Hi.
    destruct (@linspace_exact_nth (inject_Z (spot - 200)) (inject_Z (spot + 200)) 8 i)
      as (p & Ep & Vp); [lia|exact Hi|].
    exists (inject_Z futures - p). split.
    + unfold Cases.arbitrage_pnl.
      apply map_nth_error with (f := fun p => fsub Exact (of_int Exact futures) p).
      exact Ep.
    + rewrite Vp. unfold grid_point. rewrite !inject_Z_sub, inject_Z_plus.
      change (inject_Z (Z.of_nat 8)) with 8. change (inject_Z 200) with 200.
      change (inject_Z 1) with 1. field.
  - intros spot percent Hs Hp.
    destruct (fair_value Hs Hp) as (Ef & Ff & Vf & Lf & _).
    eexists. split; [exact Ef|]. split; [exact Ff|].
    assert (P50 : (2 ^ 53 = 8 * 2 ^ 50)%Z) by reflexivity.
    destruct (@b64_of_int_exact spot ltac:(lia)) as [Fs Es].
    split; [|split].
    + apply (proj1 (@b64_compare_correct _ _ Fs Ff)). now rewrite Es.
    + intros ->.
      change (b64_of_int 1 + b64_of_int 0 / b64_of_int 100)%float with 1%float.
      apply b64_mul_one_r.
    + intros percent' f' Hp' Ef'.
      destruct (@fair_value spot percent' Hs ltac:(lia)) as (Ef2 & Ff' & Vf' & _).
      rewrite Ef2 in Ef'. apply ok_inj in Ef'. subst f'.
      apply (proj1 (@b64_compare_correct _ _ Ff Ff')). rewrite Vf, Vf'.
      apply round53_le.
      assert (S0 : 0 <= inject_Z spot)
        by (change 0 with (inject_Z 0); rewrite <- Zle_Qle; lia).
      assert (M : round53 (1 + round53 (inject_Z percent / 100))
                  <= round53 (1 + round53 (inject_Z percent' / 100))).
      { apply round53_le.
        assert (M : round53 (inject_Z percent / 100) <= round53 (inject_Z percent' / 100)).
        { apply round53_le. apply Qmult_le_compat_r; [|discriminate].
          rewrite <- Zle_Qle. lia. }
        lra. }
      nra.
  - intros spot futures Hs Hf pnl.
    assert (Len : length pnl = 8%nat).
    { unfold pnl, Cases.arbitrage_pnl, Cases.arbitrage_prices.
      rewrite length_map. apply linspace_length. }
    assert (S : forall i v, nth_error pnl i = Some v ->
        b64_finite v = true /\
        inject_Z (futures - spot + 199 - 400 * Z.of_nat i / 7) <= B2Q v /\
        B2Q v <= inject_Z (futures - spot + 200 - 400 * Z.of_nat i / 7)).
    { intros i v Ev.
      assert (Hi : (i < 8)%nat).
      { rewrite <- Len. apply nth_error_Some. rewrite Ev. discriminate. }
      destruct (@arbitrage_sample spot futures i Hs Hf Hi) as (p & v' & _ & Ev' & Fv & L & U).
      fold pnl in Ev'. rewrite Ev in Ev'. injection Ev' as <-.
      split; [exact Fv|]. split; assumption. }
    split; [exact Len|]. split; [apply (@arbitrage_ends spot futures Hs Hf)|].
    split; [apply (@arbitrage_ends spot futures Hs Hf)|]. split; [exact S|].
    intros i j u v Hij Eu Ev.
    assert (Hj : (j < 8)%nat).
    { rewrite <- Len. apply nth_error_Some. rewrite Ev. discriminate. }
    destruct (S i u Eu) as (Fu & Lu & _). destruct (S j v Ev) as (Fv & _ & Uv).
    apply (proj2 (proj1 (proj2 (@b64_compare_correct v u Fv Fu)))).
    eapply Qle_lt_trans; [exact Uv|]. eapply Qlt_le_trans; [|exact Lu].
    rewrite <- Zlt_Qlt.
    pose proof (Z.div_mod (400 * Z.of_nat i) 7 ltac:(lia)).
    pose proof (Z.mod_pos_bound (400 * Z.of_nat i) 7 ltac:(lia)).
    pose proof (Z.div_mod (400 * Z.of_nat j) 7 ltac:(lia)).
    pose proof (Z.mod_pos_bound (400 * Z.of_nat j) 7 ltac:(lia)).
    lia.
Qed.

(** ** Panel 12: Strategy Comparison *)

Lemma comparison_sample (entry : Z) (i : nat) :
  (Z.abs entry <= 2 ^ 50)%Z -> (i < 8)%nat ->
  exists p d c,
    nth_error (Directional.prices Binary64 entry) i = Some p /\
    nth_error (Strategies.directional Binary64 (Directional.prices Binary64 entry) entry) i
      = Some d /\
    nth_error (Strategies.calendar Binary64 (Directional.prices Binary64 entry) entry) i
      = Some c /\
    b64_finite d = true /\ b64_finite c = true /\
    inject_Z (4000 * Z.of_nat i / 7 - 2000) <= B2Q d /\
    B2Q d <= inject_Z (4000 * Z.of_nat i / 7 - 1999) /\
    inject_Z (entry + 2199 - 4000 * Z.of_nat i / 7) <= B2Q c /\
    B2Q c <= inject_Z (entry + 2200 - 4000 * Z.of_nat i / 7).
Proof.
  intros He Hi.
  assert (P0 : (2 ^ 51 = 2 * 2 ^ 50)%Z) by reflexivity.
  assert (P1 : (2 ^ 53 = 4 * 2 ^ 51)%Z) by reflexivity.
  assert (P5 : (2 ^ 52 = 2 * 2 ^ 51)%Z) by reflexivity.
  assert (P4 : (4000 <= 2 ^ 50)%Z) by (vm_compute; discriminate).
  destruct (@directional_sample entry i He Hi)
    as (p & d & Ep & Ed & -> & Ip & Id & _ & _ & Ld & Ud).
  pose proof (@div7_bounds 4000 i ltac:(lia) Hi) as D.
  destruct (@int_minus_sample _ (entry + 200) _ _ Id Ld Ud) as (Ic & _ & Lc & Uc); try lia.
  exists p, (p - b64_of_int entry)%float,
    (b64_of_int (entry + 200) - (p - b64_of_int entry))%float.
  split; [exact Ep|]. split; [exact Ed|]. split.
  { unfold Strategies.calendar.
    apply map_nth_error
      with (f := fun p => fsub Binary64 (of_int Binary64 (entry + 200))
                            (fsub Binary64 p (of_int Binary64 entry))).
    exact Ep. }
  split; [apply Id|]. split; [apply Ic|]. split; [exact Ld|]. split; [exact Ud|]. split.
  - eapply Qle_trans; [|exact Lc]. rewrite <- Zle_Qle. lia.
  - eapply Qle_trans; [exact Uc|]. rewrite <- Zle_Qle. lia.
Qed.

(** X12: the strategy comparison.  The directional line is the P&L of
    panel 1, and in exact arithmetic the calendar line is its mirror image
    shifted by the price level: the two sum to [entry + 200] at every
    price.  In binary64, for an entry price up to [2^50] in magnitude, the
    calendar values start at exactly [entry + 2200], end at exactly
    [entry - 1800] and decrease strictly; for an entry price above 3800
    every calendar value is above every directional value, so the two
    lines of the chart never cross. *)
Theorem strategy_comparison :
  (forall (A : Arith) (prices : list (num A)) (entry : Z),
     Strategies.directional A prices entry = Directional.pnl A prices entry) /\
  (forall (entry : Z) (i : nat), (i < 8)%nat ->
     exists d c,
       nth_error (Strategies.directional Exact (Directional.prices Exact entry) entry) i
         = Some d /\
       nth_error (Strategies.calendar Exact (Directional.prices Exact entry) entry) i
         = Some c /\
       d + c == inject_Z (entry + 200) /\
       c == inject_Z entry + 2200 - 4000 * inject_Z (Z.of_nat i) / 7) /\
  (forall entry : Z, (Z.abs entry <= 2 ^ 50)%Z ->
     let prices := Directional.prices Binary64 entry in
     let directional := Strategies.directional Binary64 prices entry in
     let calendar := Strategies.calendar Binary64 prices entry in
     length directional = 8%nat /\ length calendar = 8%nat /\
     nth_error calendar 0 = Some (b64_of_int (entry + 2200)) /\
     nth_error calendar 7 = Some (b64_of_int (entry - 1800)) /\
     (forall i j u v, (i < j)%nat ->
        nth_error calendar i = Some u -> nth_error calendar j = Some v ->
        PrimFloat.ltb v u = true) /\
     ((3800 < entry)%Z ->
      forall i j d c, nth_error directional i = Some d -> nth_error calendar j = Some c ->
        PrimFloat.ltb d c = true)).
Proof.
  split; [reflexivity|]. split.
  - intros entry i Hi.
    destruct (@linspace_exact_nth (inject_Z (entry - 2000)) (inject_Z (entry + 2000)) 8 i)
      as (p & Ep & Vp); [lia|exact Hi|].
    exists (p - inject_Z entry), (inject_Z (entry + 200) - (p - inject_Z entry)).
    split; [|split; [|split]].
    + unfold Strategies.directional.
      apply map_nth_error with (f := fun p => fsub Exact p (of_int Exact entry)).
      exact Ep.
    + unfold Strategies.calendar.
      apply map_nth_error
        with (f := fun p => fsub Exact (of_int Exact (entry + 200))
                              (fsub Exact p (of_int Exact entry))).
      exact Ep.
    + ring.
    + rewrite Vp. unfold grid_point. rewrite !inject_Z_sub, !inject_Z_plus.
      change (inject_Z (Z.of_nat 8)) with 8. change (inject_Z 2000) with 2000.
      change (inject_Z 200) with 200. change (inject_Z 1) with 1. field.
  - intros entry He prices directional calendar.
    assert (Lp : length prices = 8%nat) by apply linspace_length.
    assert (Ld : length directional = 8%nat).
    { unfold directional, Strategies.directional. now rewrite length_map. }
    assert (Lc : length calendar = 8%nat).
    { unfold calendar, Strategies.calendar. now rewrite length_map. }
    assert (S : forall i, (i < 8)%nat -> exists d c,
      nth_error directional i = Some d /\ nth_error calendar i = Some c /\
      b64_finite d = true /\ b64_finite c = true /\
      inject_Z (4000 * Z.of_nat i / 7 - 2000) <= B2Q d /\
      B2Q d <= inject_Z (4000 * Z.of_nat i / 7 - 1999) /\
      inject_Z (entry + 2199 - 4000 * Z.of_nat i / 7) <= B2Q c /\
      B2Q c <= inject_Z (entry + 2200 - 4000 * Z.of_nat i / 7)).
    { intros i Hi.
      destruct (@comparison_sample entry i He Hi) as (p & d & c & _ & H).
      exists d, c. exact H. }
    assert (P0 : (2 ^ 51 = 2 * 2 ^ 50)%Z) by reflexivity.
    assert (P1 : (2 ^ 52 = 4 * 2 ^ 50)%Z) by reflexivity.
    assert (P3 : (4000 <= 2 ^ 50)%Z) by (vm_compute; discriminate).
    assert (G : nth_error prices 0 = Some (b64_of_int (entry - 2000)) /\
                nth_error prices 7 = Some (b64_of_int (entry + 2000))).
    { assert (Hw : (0 < 4000 <= 2 ^ 20)%Z) by (split; vm_compute; [reflexivity|discriminate]).
      pose proof (@grid_first (entry - 2000) 4000 Hw (@pow2_50_51 entry He)) as G0.
      pose proof (proj2 (@grid_samples (entry - 2000) 4000 Hw (@pow2_50_51 entry He))) as G7.
      replace (entry - 2000 + 4000)%Z with (entry + 2000)%Z in G0, G7 by lia.
      split; assumption. }
    destruct G as [G0 G7].
    assert (C0 : nth_error calendar 0 = Some (b64_of_int (entry + 2200))).
    { unfold calendar, Strategies.calendar.
      rewrite (map_nth_error (fun p => fsub Binary64 (of_int Binary64 (entry + 200))
                                (fsub Binary64 p (of_int Binary64 entry))) 0 _ G0).
      f_equal. cbn [fsub of_int Binary64].
      rewrite (@b64_of_int_diff entry (entry - 2000)) by lia.
      rewrite b64_of_int_diff by lia. f_equal. lia. }
    assert (C7 : nth_error calendar 7 = Some (b64_of_int (entry - 1800))).
    { unfold calendar, Strategies.calendar.
      rewrite (map_nth_error (fun p => fsub Binary64 (of_int Binary64 (entry + 200))
                                (fsub Binary64 p (of_int Binary64 entry))) 7 _ G7).
      f_equal. cbn [fsub of_int Binary64].
      rewrite (@b64_of_int_diff entry (entry + 2000)) by lia.
      rewrite b64_of_int_diff by lia. f_equal. lia. }
    pose proof (proj2 (@directional_ends entry He)) as D7.
    change (Directional.pnl Binary64 (Directional.prices Binary64 entry) entry)
      with directional in D7.
    split; [exact Ld|]. split; [exact Lc|]. split; [exact C0|]. split; [exact C7|]. split.
    + intros i j u v Hij Eu Ev.
      assert (Hj : (j < 8)%nat).
      { rewrite <- Lc. apply nth_error_Some. rewrite Ev. discriminate. }
      destruct (S i ltac:(lia)) as (_ & u' & _ & Eu' & _ & Fu & _ & _ & Lu & _).
      destruct (S j Hj) as (_ & v' & _ & Ev' & _ & Fv & _ & _ & _ & Uv).
      rewrite Eu in Eu'. injection Eu' as <-. rewrite Ev in Ev'. injection Ev' as <-.
      apply (proj2 (proj1 (proj2 (@b64_compare_correct v u Fv Fu)))).
      eapply Qle_lt_trans; [exact Uv|]. eapply Qlt_le_trans; [|exact Lu].
      rewrite <- Zlt_Qlt.
      pose proof (Z.div_mod (4000 * Z.of_nat i) 7 ltac:(lia)).
      pose proof (Z.mod_pos_bound (4000 * Z.of_nat i) 7 ltac:(lia)).
      pose proof (Z.div_mod (4000 * Z.of_nat j) 7 ltac:(lia)).
      pose proof (Z.mod_pos_bound (4000 * Z.of_nat j) 7 ltac:(lia)).
      lia.
    + intros Hbig i j d c Ed Ec.
      assert (Hi : (i < 8)%nat).
      { rewrite <- Ld. apply nth_error_Some. rewrite Ed. discriminate. }
      assert (Hj : (j < 8)%nat).
      { rewrite <- Lc. apply nth_error_Some. rewrite Ec. discriminate. }
      destruct (S i Hi) as (d' & _ & Ed' & _ & Fd & _ & _ & Ud & _).
      destruct (S j Hj) as (_ & c' & _ & Ec' & _ & Fc & _ & _ & Lc' & _).
      rewrite Ed in Ed'. injection Ed' as <-. rewrite Ec in Ec'. injection Ec' as <-.
      assert (P53 : (2 ^ 53 = 8 * 2 ^ 50)%Z) by reflexivity.
      assert (UD : B2Q d <= inject_Z 2000).
      { destruct (Nat.eq_dec i 7) as [->|N].
        - rewrite D7 in Ed. injection Ed as <-.
          destruct (@b64_of_int_exact 2000 ltac:(lia)) as [_ E]. rewrite E. apply Qle_refl.
        - eapply Qle_trans; [exact Ud|]. rewrite <- Zle_Qle.
          pose proof (Z.div_mod (4000 * Z.of_nat i) 7 ltac:(lia)).
          pose proof (Z.mod_pos_bound (4000 * Z.of_nat i) 7 ltac:(lia)).
          lia. }
      assert (LC : inject_Z (entry - 1800) <= B2Q c).
      { destruct (Nat.eq_dec j 7) as [->|N].
        - rewrite C7 in Ec. injection Ec as <-.
          destruct (@b64_of_int_exact (entry - 1800) ltac:(lia)) as [_ E]. rewrite E.
          apply Qle_refl.
        - eapply Qle_trans; [|exact Lc']. rewrite <- Zle_Qle.
          pose proof (Z.div_mod (4000 * Z.of_nat j) 7 ltac:(lia)).
          pose proof (Z.mod_pos_bound (4000 * Z.of_nat j) 7 ltac:(lia)).
          lia. }
      apply (proj2 (proj1 (proj2 (@b64_compare_correct d c Fd Fc)))).
      eapply Qle_lt_trans; [exact UD|]. eapply Qlt_le_trans; [|exact LC].
      rewrite <- Zlt_Qlt. lia.
Qed.

(** ** Panel 7: the basis path *)

Lemma path_value_opp (B : Q) (n1 i : Z) :
  path_value (- B) n1 i == - path_value B n1 i.
Proof.
  unfold path_value. rewrite <- round53_opp. apply round53_proper.
  setoid_replace (- - B / inject_Z n1) with (- (- B / inject_Z n1))
    by (unfold Qdiv; ring).
  rewrite round53_opp.
  setoid_replace (inject_Z i * - round53 (- B / inject_Z n1))
    with (- (inject_Z i * round53 (- B / inject_Z n1))) by ring.
  rewrite round53_opp. ring.
Qed.

Lemma path_step_nonpos (B : Q) (n1 : Z) :
  0 <= B -> (1 <= n1)%Z ->
  let x := - B / inject_Z n1 in
  x <= 0 /\ x * inject_Z n1 == - B /\ round53 x <= 0 /\ x * (1 + u64) <= round53 x.
Proof.
  intros HB Hn x.
  assert (N1 : 1 <= inject_Z n1) by (change 1 with (inject_Z 1); rewrite <- Zle_Qle; lia).
  assert (X0 : x <= 0).
  { unfold x. apply Qle_shift_div_r; [lra|]. lra. }
  assert (XN : x * inject_Z n1 == - B) by (unfold x; field; lra).
  split; [exact X0|]. split; [exact XN|]. split.
  - rewrite <- (round53_zero (x := 0)) by reflexivity. now apply round53_le.
  - apply (proj2 (rnd_bounds round53_standard_model x) X0).
Qed.

Lemma path_value_bounds (B : Q) (n1 i : Z) :
  0 <= B -> round53 B == B -> (1 <= n1 <= 2 ^ 20)%Z -> (0 <= i < n1)%Z ->
  0 <= path_value B n1 i /\ path_value B n1 i <= B.
Proof.
  intros HB RB Hn Hi.
  destruct (@path_step_nonpos B n1 HB ltac:(lia)) as (X0 & XN & S0 & SL).
  unfold path_value.
  set (x := - B / inject_Z n1) in *. set (s := round53 x) in *.
  assert (I0 : 0 <= inject_Z i) by (change 0 with (inject_Z 0); rewrite <- Zle_Qle; lia).
  assert (I1 : inject_Z i <= inject_Z n1 - 1).
  { rewrite <- (inject_Z_sub n1 1). rewrite <- Zle_Qle. lia. }
  assert (N2 : inject_Z n1 <= inject_Z (2 ^ 20)) by (rewrite <- Zle_Qle; lia).
  change (inject_Z (2 ^ 20)) with 1048576 in N2.
  assert (U : u64 * 1048576 <= 1) by (vm_compute; discriminate).
  pose proof u64_pos as U0.
  assert (K : inject_Z i * (1 + u64) <= inject_Z n1) by nra.
  split.
  - rewrite <- (round53_zero (x := 0)) by reflexivity. apply round53_le.
    assert (L : - B <= inject_Z i * s).
    { assert (L1 : inject_Z i * (x * (1 + u64)) <= inject_Z i * s) by nra.
      assert (L2 : x * inject_Z n1 <= x * (inject_Z i * (1 + u64))) by nra.
      lra. }
    apply round53_le in L. rewrite round53_opp, RB in L. lra.
  - rewrite <- RB at 2. apply round53_le.
    assert (L : inject_Z i * s <= 0) by nra.
    apply round53_le in L. rewrite (round53_zero (x := 0)) in L by reflexivity. lra.
Qed.

Lemma path_value_mono (B : Q) (n1 i j : Z) :
  0 <= B -> (1 <= n1)%Z -> (0 <= i <= j)%Z ->
  path_value B n1 j <= path_value B n1 i.
Proof.
  intros HB Hn Hij.
  destruct (@path_step_nonpos B n1 HB Hn) as (_ & _ & S0 & _).
  unfold path_value. apply round53_le.
  assert (I : inject_Z i <= inject_Z j) by (rewrite <- Zle_Qle; lia).
  assert (L : inject_Z j * round53 (- B / inject_Z n1)
              <= inject_Z i * round53 (- B / inject_Z n1)) by nra.
  apply round53_le in L. lra.
Qed.

Section BasisPath.

Variables (basis : Z) (days : nat).
Hypothesis Hb : (Z.abs basis <= 2 ^ 50)%Z.
Hypothesis Hd : (2 <= days)%nat.
Hypothesis Hd' : (Z.of_nat days <= 2 ^ 20)%Z.

Let start := b64_of_int basis.
Let stop := b64_of_int 0.
Let div := b64_of_int (Z.of_nat days - 1).
Let step := ((stop - start) / div)%float.

Lemma path_operands :
  b64_in 50 start /\ B2Q start == inject_Z basis /\
  b64_in 20 div /\ B2Q div == inject_Z (Z.of_nat days - 1) /\
  b64_in 103 (stop - start)%float /\ B2Q (stop - start)%float == - inject_Z basis.
Proof.
  assert (P1 : (2 ^ 53 = 8 * 2 ^ 50)%Z) by reflexivity.
  assert (P2 : (2 ^ 20 <= 2 ^ 50)%Z) by (apply Z.pow_le_mono_r; lia).
  destruct (@b64_in_of_int basis 50) as [Is Es]; [lia|lia|].
  rewrite round53_int in Es by lia.
  destruct (@b64_in_of_int (Z.of_nat days - 1) 20) as [Id Ed]; [lia|lia|].
  rewrite round53_int in Ed by lia.
  destruct (@b64_in_of_int 0 50) as [I0 E0]; [vm_compute; discriminate|lia|].
  rewrite round53_int in E0 by (vm_compute; discriminate).
  destruct (b64_sub_value I0 Is) as [Ix Ex]; [lia|].
  change (50 + 53)%Z with 103%Z in Ix.
  split; [exact Is|]. split; [exact Es|]. split; [exact Id|]. split; [exact Ed|].
  split; [exact Ix|]. unfold stop, start. rewrite Ex, E0, Es.
  change (inject_Z 0) with 0.
  setoid_replace (0 - inject_Z basis) with (inject_Z (- basis))
    by (rewrite inject_Z_opp; ring).
  rewrite round53_int by lia. rewrite inject_Z_opp. reflexivity.
Qed.

Lemma path_step :
  b64_in 123 step /\ B2Q step == round53 (- inject_Z basis / inject_Z (Z.of_nat days - 1)).
Proof.
  destruct path_operands as (_ & _ & Id & Ed & Ix & Ex).
  destruct (b64_div_value Ix Id) as [I E]; try lia.
  { rewrite Ed. change 0 with (inject_Z 0). rewrite inject_Z_injective. lia. }
  split; [exact I|]. unfold step. now rewrite E, Ex, Ed.
Qed.

Lemma path_step_nonzero : basis <> 0%Z -> PrimFloat.eqb step (b64_of_int 0) = false.
Proof.
  intros N. destruct path_step as [[F _] E].
  destruct (PrimFloat.eqb step (b64_of_int 0)) eqn:Eq; [|reflexivity]. exfalso.
  apply (proj1 (proj2 (proj2 (@b64_compare_correct step (b64_of_int 0) F eq_refl)))) in Eq.
  change (B2Q (b64_of_int 0)) with 0 in Eq. rewrite E in Eq.
  assert (A1 : 1 <= Qabs (inject_Z basis)).
  { rewrite Zabs_inject. change 1 with (inject_Z 1). rewrite <- Zle_Qle. lia. }
  assert (A2 : Qabs (inject_Z basis) <= pow2 50).
  { rewrite Zabs_inject. change (pow2 50) with (inject_Z (2 ^ 50)). now rewrite <- Zle_Qle. }
  assert (N1 : 1 <= inject_Z (Z.of_nat days - 1))
    by (change 1 with (inject_Z 1); rewrite <- Zle_Qle; lia).
  assert (N2 : inject_Z (Z.of_nat days - 1) <= pow2 20).
  { change (pow2 20) with (inject_Z (2 ^ 20)). rewrite <- Zle_Qle. lia. }
  assert (Q20 : pow2 (-20) * pow2 20 == 1) by reflexivity.
  assert (P20 : 0 < pow2 (-20)) by apply pow2_pos.
  assert (B : pow2 (-20) <= Qabs (- inject_Z basis / inject_Z (Z.of_nat days - 1))
              /\ Qabs (- inject_Z basis / inject_Z (Z.of_nat days - 1)) <= pow2 50).
  { unfold Qdiv. rewrite Qabs_Qmult, Qabs_opp.
    rewrite (Qabs_pos (/ inject_Z (Z.of_nat days - 1)))
      by (apply Qinv_le_0_compat; lra).
    change (Qabs (inject_Z basis) * / inject_Z (Z.of_nat days - 1))
      with (Qabs (inject_Z basis) / inject_Z (Z.of_nat days - 1)).
    split.
    - apply Qle_shift_div_l; [lra|]. nra.
    - apply Qle_shift_div_r; [lra|]. pose proof (pow2_pos 50). nra. }
  destruct (round53_abs_bounds _ _ _ (proj1 B) (proj2 B)) as [L _].
  rewrite Eq in L. change (Qabs 0) with 0 in L. lra.
Qed.

(** The samples short of the last, for a basis that is not zero. *)
Lemma path_sample (i : nat) :
  basis <> 0%Z -> (S i < days)%nat ->
  exists v,
    nth_error (linspace Binary64 start stop days) i = Some v /\
    b64_finite v = true /\
    B2Q v == path_value (inject_Z basis) (Z.of_nat days - 1) (Z.of_nat i).
Proof.
  intros N Hi.
  pose proof (@linspace_init Binary64 start stop days i Hi (path_step_nonzero N)) as L.
  cbn [fdiv fsub fmul fadd of_int Binary64] in L.
  eexists. split; [exact L|].
  destruct path_operands as (Is & Es & _). destruct path_step as [It Et].
  destruct (@b64_in_of_int (Z.of_nat i) 20) as [Ii Ei]; [lia|lia|].
  assert (P : (2 ^ 20 <= 2 ^ 53)%Z) by (apply Z.pow_le_mono_r; lia).
  rewrite round53_int in Ei by lia.
  destruct (b64_mul_value Ii It) as [Im Em]; try lia.
  change (20 + 123)%Z with 143%Z in Im.
  destruct (b64_add_value Im (@b64_in_weaken 50 143 _ ltac:(lia) Is)) as [Ia Ea]; [lia|].
  split; [apply Ia|]. unfold step, div in *. rewrite Ea, Em, Ei, Et, Es. reflexivity.
Qed.

(** With a zero basis every sample is a zero. *)
Lemma path_sample_zero (i : nat) :
  basis = 0%Z -> (S i < days)%nat ->
  exists v,
    nth_error (linspace Binary64 start stop days) i = Some v /\
    b64_finite v = true /\ B2Q v == 0.
Proof.
  intros Z0 Hi.
  destruct path_operands as (Is & Es & Id & Ed & Ix & Ex).
  destruct path_step as [It Et].
  assert (N1 : ~ B2Q div == 0).
  { rewrite Ed. change 0 with (inject_Z 0). rewrite inject_Z_injective. lia. }
  assert (Z1 : PrimFloat.eqb step (b64_of_int 0) = true).
  { apply b64_is_zero; [apply It|]. rewrite Et, Z0. apply round53_zero.
    unfold Qdiv. change (- inject_Z 0) with 0. ring. }
  pose proof (@linspace_init_zero Binary64 start stop days i Hi Z1) as L.
  cbn [fdiv fsub fmul fadd of_int Binary64] in L.
  eexists. split; [exact L|].
  destruct (@b64_in_of_int (Z.of_nat i) 20) as [Ii Ei]; [lia|lia|].
  destruct (b64_div_value Ii Id N1) as [Iq Eq]; try lia.
  destruct (b64_mul_value Iq Ix) as [Im Em]; try lia.
  change (20 + 20 + 103)%Z with 143%Z in Im.
  destruct (b64_add_value Im (@b64_in_weaken 50 143 _ ltac:(lia) Is)) as [Ia Ea]; [lia|].
  split; [apply Ia|]. unfold step, div in *. rewrite Ea, Em, Ex, Es, Z0. apply round53_zero.
  change (inject_Z 0) with 0.
  setoid_replace (B2Q (b64_of_int (Z.of_nat i) / b64_of_int (Z.of_nat days - 1)) * - 0)
    with 0 by ring.
  rewrite (round53_zero (x := 0)) by reflexivity. reflexivity.
Qed.

End BasisPath.

Lemma path_value_first (B : Q) (n1 : Z) : round53 B == B -> path_value B n1 0 == B.
Proof.
  intros RB. unfold path_value.
  setoid_replace (inject_Z 0 * round53 (- B / inject_Z n1)) with 0
    by (change (inject_Z 0) with 0; ring).
  rewrite (round53_zero (x := 0)) by reflexivity.
  setoid_replace (0 + B) with B by ring. exact RB.
Qed.

(** Every sample is the basis scaled down: [m] away from zero on the side
    of the basis, with [m] falling along the path. *)
Lemma path_magnitude (basis : Z) (days i : nat) :
  (Z.abs basis <= 2 ^ 50)%Z -> (2 <= days)%nat -> (Z.of_nat days <= 2 ^ 20)%Z ->
  (i < days)%nat ->
  let B := inject_Z (Z.abs basis) in
  let m := if (S i <? days)%nat then path_value B (Z.of_nat days - 1) (Z.of_nat i) else 0 in
  exists v,
    nth_error (linspace Binary64 (b64_of_int basis) (b64_of_int 0) days) i = Some v /\
    b64_finite v = true /\
    B2Q v == (if (0 <=? basis)%Z then m else - m) /\
    0 <= m /\ m <= B.
Proof.
  intros Hb Hd Hd' Hi B m.
  assert (P1 : (2 ^ 53 = 8 * 2 ^ 50)%Z) by reflexivity.
  assert (B0 : 0 <= B).
  { unfold B. change 0 with (inject_Z 0). rewrite <- Zle_Qle. lia. }
  assert (RB : round53 B == B) by (apply round53_int; lia).
  assert (M : 0 <= m /\ m <= B).
  { unfold m. destruct (Nat.ltb_spec (S i) days) as [L|L]; [|split; [apply Qle_refl|exact B0]].
    apply path_value_bounds; try assumption; lia. }
  destruct (Nat.ltb_spec (S i) days) as [L|L].
  - destruct (Z.eq_dec basis 0) as [Z0|N].
    + destruct (@path_sample_zero basis days Hb Hd Hd' i Z0 L) as (v & Ev & Fv & Vv).
      exists v. split; [exact Ev|]. split; [exact Fv|]. split; [|exact M].
      assert (BZ : B == 0) by (unfold B; now rewrite Z0).
      destruct M as [M0 M1]. rewrite Vv. destruct (0 <=? basis)%Z; lra.
    + destruct (@path_sample basis days Hb Hd Hd' i N L) as (v & Ev & Fv & Vv).
      exists v. split; [exact Ev|]. split; [exact Fv|]. split; [|exact M].
      rewrite Vv. unfold m, B. destruct (Z.leb_spec 0 basis) as [P|P].
      * now rewrite Z.abs_eq by exact P.
      * rewrite <- path_value_opp. rewrite Z.abs_neq by lia.
        rewrite inject_Z_opp.
        unfold path_value. apply round53_proper.
        setoid_replace (- - inject_Z basis) with (inject_Z basis) by ring.
        reflexivity.
  - assert (E : i = pred days) by lia. subst i.
    exists (b64_of_int 0). split; [apply (@linspace_last Binary64 _ _ days Hd)|].
    split; [reflexivity|]. split; [|exact M].
    change (B2Q (b64_of_int 0)) with 0. unfold m. destruct (0 <=? basis)%Z; reflexivity.
Qed.

(** X13: the basis converges to zero.  The time axis and the path have the
    same length, and from two days on the last sample is exactly zero.  In
    exact arithmetic sample [i] is [basis * (1 - i / (days - 1))].  In
    binary64, for a basis up to [2^50] in magnitude and from 2 to [2^20]
    days, the path starts at the basis, every sample is finite and lies
    between zero and the basis, and the magnitude never rises along the
    path: the basis shrinks to zero without crossing it. *)
Theorem basis_path_converges :
  (forall (A : Arith) (market_type : string) (basis : Z) (days : nat),
     length (BasisImpact.time days)
     = length (BasisConvergence.basis_path A market_type basis days) /\
     ((2 <= days)%nat ->
      nth_error (BasisConvergence.basis_path A market_type basis days) (pred days)
      = Some (of_int A 0))) /\
  (forall (market_type : string) (basis : Z) (days i : nat),
     (2 <= days)%nat -> (i < days)%nat ->
     exists v,
       nth_error (BasisConvergence.basis_path Exact market_type basis days) i = Some v /\
       v == inject_Z basis * (1 - inject_Z (Z.of_nat i) / inject_Z (Z.of_nat days - 1))) /\
  (forall (market_type : string) (basis : Z) (days : nat),
     (Z.abs basis <= 2 ^ 50)%Z -> (2 <= days)%nat -> (Z.of_nat days <= 2 ^ 20)%Z ->
     let path := BasisConvergence.basis_path Binary64 market_type basis days in
     (forall v, nth_error path 0 = Some v -> B2Q v == inject_Z basis) /\
     (forall i v, nth_error path i = Some v ->
        b64_finite v = true /\
        ((0 <= basis)%Z -> 0 <= B2Q v /\ B2Q v <= inject_Z basis) /\
        ((basis <= 0)%Z -> inject_Z basis <= B2Q v /\ B2Q v <= 0)) /\
     (forall i j u v, (i <= j)%nat -> nth_error path i = Some u -> nth_error path j = Some v ->
        (abs v <=? abs u)%float = true)).
Proof.
  assert (P : forall (A : Arith) mt basis days,
             BasisConvergence.basis_path A mt basis days
             = linspace A (of_int A basis) (of_int A 0) days).
  { intros A mt basis days. unfold BasisConvergence.basis_path.
    now destruct (String.eqb _ _). }
  split; [|split].
  - intros A mt basis days. rewrite P. split.
    + unfold BasisImpact.time. now rewrite length_map, length_seq, linspace_length.
    + intros Hd. now apply linspace_last.
  - intros mt basis days i Hd Hi. rewrite P.
    destruct (@linspace_exact_nth (inject_Z basis) (inject_Z 0) days i Hd Hi) as (v & Ev & Vv).
    exists v. split; [exact Ev|]. rewrite Vv. unfold grid_point.
    assert (N : ~ inject_Z (Z.of_nat days - 1) == 0).
    { change 0 with (inject_Z 0). rewrite inject_Z_injective. lia. }
    change (inject_Z 0) with 0. field. exact N.
  - intros mt basis days Hb Hd Hd' path. unfold path. rewrite P.
    cbn [of_int Binary64].
    set (B := inject_Z (Z.abs basis)).
    set (M := fun i : nat =>
                if (S i <? days)%nat
                then path_value B (Z.of_nat days - 1) (Z.of_nat i) else 0).
    assert (Len : length (linspace Binary64 (b64_of_int basis) (b64_of_int 0) days) = days)
      by apply linspace_length.
    assert (K : forall i v,
      nth_error (linspace Binary64 (b64_of_int basis) (b64_of_int 0) days) i = Some v ->
      b64_finite v = true /\
      B2Q v == (if (0 <=? basis)%Z then M i else - M i) /\ 0 <= M i /\ M i <= B).
    { intros i v Ev.
      assert (Hi : (i < days)%nat).
      { rewrite <- Len. apply nth_error_Some. rewrite Ev. discriminate. }
      destruct (@path_magnitude basis days i Hb Hd Hd' Hi) as (v' & Ev' & H).
      rewrite Ev in Ev'. injection Ev' as <-. exact H. }
    assert (P1 : (2 ^ 53 = 8 * 2 ^ 50)%Z) by reflexivity.
    assert (RB : round53 B == B) by (apply round53_int; lia).
    assert (AB : (0 <= basis)%Z -> B == inject_Z basis).
    { intros H. unfold B. now rewrite Z.abs_eq. }
    assert (AB' : (basis <= 0)%Z -> B == - inject_Z basis).
    { intros H. unfold B. rewrite Z.abs_neq by exact H. now rewrite inject_Z_opp. }
    split; [|split].
    + intros v Ev. destruct (K 0%nat v Ev) as (_ & Vv & _).
      assert (M0 : M 0%nat == B).
      { unfold M. destruct (Nat.ltb_spec 1 days) as [_|L]; [|lia].
        now apply path_value_first. }
      rewrite Vv. destruct (Z.leb_spec 0 basis) as [H|H].
      * rewrite M0. apply AB. exact H.
      * rewrite M0, AB' by lia. ring.
    + intros i v Ev. destruct (K i v Ev) as (Fv & Vv & M0 & M1).
      split; [exact Fv|]. split.
      * intros H. destruct (Z.leb_spec 0 basis) as [_|H']; [|lia].
        rewrite Vv, <- (AB H). split; assumption.
      * intros H. destruct (Z.leb_spec 0 basis) as [H'|_].
        -- assert (basis = 0%Z) by lia. subst basis.
           rewrite Vv. change (inject_Z 0) with 0.
           assert (B == 0) by reflexivity. split; lra.
        -- rewrite Vv. pose proof (AB' H). split; lra.
    + intros i j u v Hij Eu Ev.
      destruct (K i u Eu) as (Fu & Vu & U0 & _).
      destruct (K j v Ev) as (Fv & Vv & V0 & _).
      apply b64_abs_le; [exact Fv|exact Fu|].
      assert (Hj : (j < days)%nat).
      { rewrite <- Len. apply nth_error_Some. rewrite Ev. discriminate. }
      assert (Mij : M j <= M i).
      { unfold M in *. destruct (Nat.ltb_spec (S j) days) as [Lj|Lj].
        - destruct (Nat.ltb_spec (S i) days) as [Li|Li]; [|lia].
          apply path_value_mono; [|lia|lia].
          unfold B. change 0 with (inject_Z 0). rewrite <- Zle_Qle. lia.
        - exact U0. }
      rewrite Vu, Vv. destruct (0 <=? basis)%Z.
      * now rewrite !Qabs_pos.
      * now rewrite !Qabs_opp, !Qabs_pos.
Qed.

Lemma basis_path_converges_witness :
  (Z.abs (-150) <= 2 ^ 50)%Z /\ (2 <= 30)%nat /\ (Z.of_nat 30 <= 2 ^ 20)%Z /\
  forall v,
    nth_error (BasisConvergence.basis_path Binary64 "Contango (F > S)" (-150) 30) 0 = Some v ->
    B2Q v == inject_Z (-150).
Proof.
  assert (H1 : (Z.abs (-150) <= 2 ^ 50)%Z) by (vm_compute; discriminate).
  assert (H2 : (2 <= 30)%nat) by lia.
  assert (H3 : (Z.of_nat 30 <= 2 ^ 20)%Z) by (vm_compute; discriminate).
  split; [exact H1|]. split; [exact H2|]. split; [exact H3|].
  exact (proj1 (proj2 (proj2 basis_path_converges) "Contango (F > S)"%string
                  (-150)%Z 30%nat H1 H2 H3)).
Defined.

(** ** An integer times the samples of a fixed grid *)

Lemma increasing_nth (l : list float) :
  forallb b64_finite l = true -> increasing l = true ->
  forall i j u v, (i < j)%nat -> nth_error l i = Some u -> nth_error l j = Some v ->
    B2Q u < B2Q v.
Proof.
  induction l as [|x l IH]; intros F Inc i j u v Hij Eu Ev.
  - destruct i; discriminate.
  - cbn [forallb] in F. apply andb_prop in F as [Fx Fl].
    assert (Inc' : increasing l = true).
    { destruct l as [|y l']; [reflexivity|]. cbn [increasing] in Inc.
      now apply andb_prop in Inc as [_ Inc]. }
    destruct j as [|j]; [lia|]. cbn [nth_error] in Ev.
    destruct i as [|i].
    + cbn [nth_error] in Eu. injection Eu as ->.
      destruct l as [|y l']; [destruct j; discriminate|].
      cbn [increasing] in Inc. apply andb_prop in Inc as [Lxy _].
      cbn [forallb] in Fl. pose proof Fl as Fl'. apply andb_prop in Fl' as [Fy _].
      apply (proj1 (proj1 (proj2 (@b64_compare_correct u y Fx Fy)))) in Lxy.
      destruct j as [|j].
      * cbn [nth_error] in Ev. injection Ev as <-. exact Lxy.
      * eapply Qlt_trans; [exact Lxy|].
        apply (IH Fl Inc' 0%nat (S j) y v); [lia|reflexivity|exact Ev].
    + cbn [nth_error] in Eu. apply (IH Fl Inc' i j u v); [lia|exact Eu|exact Ev].
Qed.

Lemma int_times_sample (z : Z) (c : float) :
  (Z.abs z <= 2 ^ 53)%Z -> b64_move c = true ->
  b64_in 153 (b64_of_int z * c)%float /\
  B2Q (b64_of_int z * c)%float == round53 (inject_Z z * B2Q c).
Proof.
  intros Hz Hc. apply b64_move_in in Hc.
  destruct (@b64_in_of_int z 53 Hz ltac:(lia)) as [Iz Ez].
  rewrite round53_int in Ez by exact Hz.
  destruct (b64_mul_value Iz Hc) as [I E]; try lia.
  split; [exact I|]. now rewrite E, Ez.
Qed.

Lemma forallb_nth (T : Type) (f : T -> bool) (l : list T) (i : nat) (x : T) :
  forallb f l = true -> nth_error l i = Some x -> f x = true.
Proof.
  intros H E. rewrite forallb_forall in H. apply H. eapply nth_error_In. exact E.
Qed.

(** ** Panel 11: Commodity Producer Hedge *)

Lemma revenue_factors_ok :
  let cs := map (fun m => (b64_of_int 1 + m)%float) (Cases.moves20 Binary64) in
  forallb b64_move cs = true /\ forallb b64_finite cs = true /\ increasing cs = true /\
  (exists c0, nth_error cs 0 = Some c0 /\ 0 <= B2Q c0) /\
  (exists c3, nth_error cs 3 = Some c3 /\ B2Q c3 <= 1) /\
  (exists c4, nth_error cs 4 = Some c4 /\ 1 <= B2Q c4).
Proof.
  intros cs.
  split; [vm_compute; reflexivity|]. split; [vm_compute; reflexivity|].
  split; [vm_compute; reflexivity|].
  split; [|split]; eexists; (split; [vm_compute; reflexivity|]);
    apply Qle_bool_iff; vm_compute; reflexivity.
Qed.

(** X14: the producer's revenue.  In binary64, for a current revenue
    [output * price] from 0 to [2^53], the eight revenues are finite and
    never negative, never fall along the price changes, are at most the
    current revenue at the four negative changes and at least the current
    revenue at the four positive ones. *)
Theorem commodity_revenue (output price : Z) :
  (0 <= output * price <= 2 ^ 53)%Z ->
  let revenue := Cases.revenue Binary64 output price in
  length revenue = 8%nat /\
  (forall i r, nth_error revenue i = Some r ->
     b64_finite r = true /\ (0 <=? r)%float = true /\
     ((i < 4)%nat -> (r <=? b64_of_int (output * price))%float = true) /\
     ((4 <= i)%nat -> (b64_of_int (output * price) <=? r)%float = true)) /\
  (forall i j u v, (i <= j)%nat -> nth_error revenue i = Some u -> nth_error revenue j = Some v ->
     (u <=? v)%float = true).
Proof.
  intros Hop revenue.
  destruct revenue_factors_ok as (Mv & Fin & Inc & (c0 & E0 & P0) & (c3 & E3 & P3) & (c4 & E4 & P4)).
  set (cs := map (fun m => (b64_of_int 1 + m)%float) (Cases.moves20 Binary64)) in *.
  assert (R : revenue = map (fun c => (b64_of_int (output * price) * c)%float) cs).
  { unfold revenue, Cases.revenue, cs. rewrite map_map. reflexivity. }
  assert (Lc : length cs = 8%nat).
  { unfold cs. rewrite length_map. exact (moves20_length Binary64). }
  assert (Z0 : 0 <= inject_Z (output * price))
    by (change 0 with (inject_Z 0); rewrite <- Zle_Qle; lia).
  destruct (@b64_of_int_exact (output * price) ltac:(lia)) as [Fz Ez].
  assert (K : forall i r, nth_error revenue i = Some r ->
    exists c, nth_error cs i = Some c /\ b64_finite r = true /\
              B2Q r == round53 (inject_Z (output * price) * B2Q c)).
  { intros i r Er. rewrite R in Er. apply nth_error_map_some in Er as (c & Ec & ->).
    exists c. split; [exact Ec|].
    destruct (@int_times_sample (output * price) c ltac:(lia) (forallb_nth _ _ _ Mv Ec))
      as [I E].
    split; [apply I|exact E]. }
  assert (C0 : forall i c, nth_error cs i = Some c -> 0 <= B2Q c).
  { intros i c Ec. destruct i as [|i].
    - rewrite E0 in Ec. injection Ec as <-. exact P0.
    - pose proof (@increasing_nth cs Fin Inc 0%nat (S i) c0 c ltac:(lia) E0 Ec). lra. }
  split; [rewrite R, length_map; exact Lc|]. split.
  - intros i r Er. destruct (K i r Er) as (c & Ec & Fr & Vr).
    split; [exact Fr|]. split; [|split].
    + apply (proj1 (@b64_compare_correct 0%float r eq_refl Fr)).
      change (B2Q 0) with 0. rewrite Vr.
      rewrite <- (round53_zero (x := 0)) by reflexivity. apply round53_le.
      pose proof (C0 i c Ec). nra.
    + intros Hi. apply (proj1 (@b64_compare_correct r _ Fr Fz)). rewrite Vr, Ez.
      rewrite <- (@round53_int (output * price)) at 2 by lia. apply round53_le.
      assert (C1 : B2Q c <= 1).
      { destruct (Nat.eq_dec i 3) as [->|N].
        - rewrite E3 in Ec. injection Ec as <-. exact P3.
        - pose proof (@increasing_nth cs Fin Inc i 3%nat c c3 ltac:(lia) Ec E3). lra. }
      nra.
    + intros Hi. apply (proj1 (@b64_compare_correct _ r Fz Fr)). rewrite Vr, Ez.
      rewrite <- (@round53_int (output * price)) at 1 by lia. apply round53_le.
      assert (C1 : 1 <= B2Q c).
      { destruct (Nat.eq_dec i 4) as [->|N].
        - rewrite E4 in Ec. injection Ec as <-. exact P4.
        - pose proof (@increasing_nth cs Fin Inc 4%nat i c4 c ltac:(lia) E4 Ec). lra. }
      nra.
  - intros i j u v Hij Eu Ev.
    destruct (K i u Eu) as (c & Ec & Fu & Vu). destruct (K j v Ev) as (c' & Ec' & Fv & Vv).
    apply (proj1 (@b64_compare_correct u v Fu Fv)). rewrite Vu, Vv. apply round53_le.
    assert (C : B2Q c <= B2Q c').
    { destruct (Nat.eq_dec i j) as [->|N].
      - rewrite Ec in Ec'. injection Ec' as <-. apply Qle_refl.
      - pose proof (@increasing_nth cs Fin Inc i j c c' ltac:(lia) Ec Ec'). lra. }
    nra.
Qed.

Lemma commodity_revenue_witness :
  (0 <= 1000 * 5000 <= 2 ^ 53)%Z /\ length (Cases.revenue Binary64 1000 5000) = 8%nat.
Proof.
  assert (H : (0 <= 1000 * 5000 <= 2 ^ 53)%Z) by (split; vm_compute; discriminate).
  split; [exact H|]. exact (proj1 (@commodity_revenue 1000 5000 H)).
Defined.

(** ** Panel 11: Exporter Currency Hedge *)

Lemma fx_moves_ok :
  let cs := Cases.fx_moves Binary64 in
  forallb b64_move cs = true /\ forallb b64_finite cs = true /\ increasing cs = true /\
  (exists c0, nth_error cs 0 = Some c0 /\ B2Q c0 == inject_Z (-5)) /\
  (exists c3, nth_error cs 3 = Some c3 /\ B2Q c3 <= - (1 # 2)) /\
  (exists c4, nth_error cs 4 = Some c4 /\ (1 # 2) <= B2Q c4) /\
  (exists c7, nth_error cs 7 = Some c7 /\ B2Q c7 == inject_Z 5).
Proof.
  intros cs.
  split; [vm_compute; reflexivity|]. split; [vm_compute; reflexivity|].
  split; [vm_compute; reflexivity|].
  split; [eexists; split; [vm_compute; reflexivity|vm_compute; reflexivity]|].
  split; [eexists; split; [vm_compute; reflexivity|apply Qle_bool_iff; vm_compute; reflexivity]|].
  split; [eexists; split; [vm_compute; reflexivity|apply Qle_bool_iff; vm_compute; reflexivity]|].
  eexists; split; [vm_compute; reflexivity|vm_compute; reflexivity].
Qed.

Lemma map_const_repeat (T U : Type) (c : U) (l : list T) :
  map (fun _ => c) l = repeat c (length l).
Proof. induction l as [|x l IH]; [reflexivity|]. cbn. now rewrite IH. Qed.

Lemma round53_half : round53 (1 # 2) == 1 # 2.
Proof. change (1 # 2) with (pow2 (-1)). apply round53_pow2. Qed.

(** X15: the exporter's hedge.  The hedged series is eight zeros whatever
    the exposure, and the rate entered changes nothing.  In binary64, for
    an exposure from 1 to [2^50], the unhedged series starts at exactly
    [-5 * exposure], ends at exactly [5 * exposure], never falls, is
    negative at the four negative moves and positive at the four positive
    ones: no unhedged value is zero. *)
Theorem exporter_fully_hedged :
  (forall (A : Arith) (exposure : Z) (rate rate' : num A),
     Cases.exporter A exposure rate = Cases.exporter A exposure rate') /\
  (forall (A : Arith) (exposure : Z) (rate : num A),
     length (fst (Cases.exporter A exposure rate)) = 8%nat /\
     snd (Cases.exporter A exposure rate) = repeat (of_int A 0) 8) /\
  (forall (exposure : Z) (rate : float), (0 < exposure <= 2 ^ 50)%Z ->
     let unhedged := fst (Cases.exporter Binary64 exposure rate) in
     nth_error unhedged 0 = Some (b64_of_int (-5 * exposure)) /\
     nth_error unhedged 7 = Some (b64_of_int (5 * exposure)) /\
     (forall i u, nth_error unhedged i = Some u ->
        b64_finite u = true /\
        ((i < 4)%nat -> (u <? 0)%float = true) /\
        ((4 <= i)%nat -> (0 <? u)%float = true)) /\
     (forall i j u v, (i <= j)%nat ->
        nth_error unhedged i = Some u -> nth_error unhedged j = Some v ->
        (u <=? v)%float = true)).
Proof.
  split; [reflexivity|]. split.
  - intros A exposure rate. unfold Cases.exporter. cbn [fst snd].
    assert (L : length (map (fun m => fmul A (of_int A exposure) m) (Cases.fx_moves A)) = 8%nat).
    { rewrite length_map. apply linspace_length. }
    split; [exact L|]. now rewrite map_const_repeat, L.
  - intros exposure rate He unhedged.
    destruct fx_moves_ok
      as (Mv & Fin & Inc & (c0 & E0 & P0) & (c3 & E3 & P3) & (c4 & E4 & P4) & (c7 & E7 & P7)).
    set (cs := Cases.fx_moves Binary64) in *.
    assert (R : unhedged = map (fun c => (b64_of_int exposure * c)%float) cs) by reflexivity.
    assert (P50 : (2 ^ 53 = 8 * 2 ^ 50)%Z) by reflexivity.
    assert (Z1 : 1 <= inject_Z exposure)
      by (change 1 with (inject_Z 1); rewrite <- Zle_Qle; lia).
    assert (K : forall i u, nth_error unhedged i = Some u ->
      exists c, nth_error cs i = Some c /\ b64_finite u = true /\
                B2Q u == round53 (inject_Z exposure * B2Q c)).
    { intros i u Eu. rewrite R in Eu. apply nth_error_map_some in Eu as (c & Ec & ->).
      exists c. split; [exact Ec|].
      destruct (@int_times_sample exposure c ltac:(lia) (forallb_nth _ _ _ Mv Ec)) as [I E].
      split; [apply I|exact E]. }
    assert (Ends : forall i c k, nth_error cs i = Some c -> B2Q c == inject_Z k ->
              (Z.abs k <= 5)%Z -> k <> 0%Z ->
              nth_error unhedged i = Some (b64_of_int (k * exposure))).
    { intros i c k Ec Vc Hk Nk. rewrite R. rewrite (map_nth_error _ i _ Ec). f_equal.
      destruct (@int_times_sample exposure c ltac:(lia) (forallb_nth _ _ _ Mv Ec)) as [I E].
      assert (Bk : (Z.abs (k * exposure) <= 2 ^ 53)%Z).
      { rewrite Z.abs_mul, (Z.abs_eq exposure) by lia. nia. }
      apply b64_int_value_eq; [apply I| |nia|exact Bk].
      rewrite E, Vc, <- inject_Z_mult, (Z.mul_comm exposure k).
      now apply round53_int. }
    split; [apply (Ends 0%nat c0 (-5)%Z E0 P0); lia|].
    split; [apply (Ends 7%nat c7 5%Z E7 P7); lia|]. split.
    + intros i u Eu. destruct (K i u Eu) as (c & Ec & Fu & Vu).
      split; [exact Fu|]. split.
      * intros Hi.
        apply (proj2 (proj1 (proj2 (@b64_compare_correct u 0%float Fu eq_refl)))).
        change (B2Q 0) with 0. rewrite Vu.
        assert (C : B2Q c <= - (1 # 2)).
        { destruct (Nat.eq_dec i 3) as [->|N].
          - rewrite E3 in Ec. injection Ec as <-. exact P3.
          - pose proof (@increasing_nth cs Fin Inc i 3%nat c c3 ltac:(lia) Ec E3). lra. }
        assert (L : inject_Z exposure * B2Q c <= - (1 # 2)) by nra.
        apply round53_le in L. rewrite round53_opp, round53_half in L. lra.
      * intros Hi.
        apply (proj2 (proj1 (proj2 (@b64_compare_correct 0%float u eq_refl Fu)))).
        change (B2Q 0) with 0. rewrite Vu.
        assert (C : (1 # 2) <= B2Q c).
        { destruct (Nat.eq_dec i 4) as [->|N].
          - rewrite E4 in Ec. injection Ec as <-. exact P4.
          - pose proof (@increasing_nth cs Fin Inc 4%nat i c4 c ltac:(lia) E4 Ec). lra. }
        assert (L : (1 # 2) <= inject_Z exposure * B2Q c) by nra.
        apply round53_le in L. rewrite round53_half in L. lra.
    + intros i j u v Hij Eu Ev.
      destruct (K i u Eu) as (c & Ec & Fu & Vu). destruct (K j v Ev) as (c' & Ec' & Fv & Vv).
      apply (proj1 (@b64_compare_correct u v Fu Fv)). rewrite Vu, Vv. apply round53_le.
      assert (C : B2Q c <= B2Q c').
      { destruct (Nat.eq_dec i j) as [->|N].
        - rewrite Ec in Ec'. injection Ec' as <-. apply Qle_refl.
        - pose proof (@increasing_nth cs Fin Inc i j c c' ltac:(lia) Ec Ec'). lra. }
      nra.
Qed.

(** ** Panel 5: the under hedge and the over hedge *)

Lemma under_bound (P a b r u : Q) :
  0 < u -> u <= 1 # 100 -> 0 <= P ->
  P * (1 - 4 * u) <= a -> a <= P * (1 + 4 * u) ->
  P * (1 # 2) * (1 - 20 * u) <= b -> b <= P * (1 # 2) * (1 + 20 * u) ->
  Qabs (r - (a - b)) <= u * Qabs (a - b) ->
  0 <= r /\ r <= a.
Proof.
  intros Hu Hu' HP Ha1 Ha2 Hb1 Hb2 Hr.
  assert (D0 : P * ((1 # 2) - 14 * u) <= a - b) by nra.
  assert (D1 : a - b <= P * ((1 # 2) + 14 * u)) by nra.
  assert (D : 0 <= a - b) by nra.
  rewrite (Qabs_pos (a - b)) in Hr by exact D.
  apply Qabs_Qle_condition in Hr. destruct Hr as [Hr1 Hr2].
  split; nra.
Qed.

Lemma over_bound (P a b r u : Q) :
  0 < u -> u <= 1 # 100 -> 0 <= P ->
  P * (1 - 4 * u) <= a -> a <= P * (1 + 4 * u) ->
  P * (3 # 2) * (1 - 20 * u) <= b -> b <= P * (3 # 2) * (1 + 20 * u) ->
  Qabs (r - (a - b)) <= u * Qabs (a - b) ->
  r <= 0 /\ - r <= a.
Proof.
  intros Hu Hu' HP Ha1 Ha2 Hb1 Hb2 Hr.
  assert (D0 : - (P * ((1 # 2) + 34 * u)) <= a - b) by nra.
  assert (D1 : a - b <= - (P * ((1 # 2) - 34 * u))) by nra.
  assert (D : a - b <= 0) by nra.
  rewrite (Qabs_neg (a - b)) in Hr by exact D.
  apply Qabs_Qle_condition in Hr. destruct Hr as [Hr1 Hr2].
  split; nra.
Qed.

(** The rounded sum of an exposure and a hedge of half, or of one and a
    half, its size: on the side of the exposure, or on the other side, and
    no larger. *)
Lemma partial_rounded (over : bool) s P lop hip lof hif p f r :
  swithin s P lop hip p ->
  swithin (negb s) (P * (if over then 3 # 2 else 1 # 2)) lof hif f ->
  1 - 4 * u64 <= lop -> hip <= 1 + 4 * u64 ->
  1 - 20 * u64 <= lof -> hif <= 1 + 20 * u64 ->
  r == round53 (p + f) ->
  (if over then signed s r <= 0 /\ - signed s r <= signed s p
   else 0 <= signed s r /\ signed s r <= signed s p).
Proof.
  intros Hp Hf Hlop Hhip Hlof Hhif Er.
  assert (HP : 0 <= P) by apply Hp.
  unfold swithin, within in Hp, Hf.
  destruct Hp as (_ & Hp1 & Hp2 & Hp3 & Hp4).
  destruct Hf as (_ & Hf1 & Hf2 & Hf3 & Hf4).
  rewrite signed_negb in Hf3, Hf4.
  pose proof (rnd_error round53_standard_model (p + f)) as Hr.
  pose proof u64_pos as U0.
  assert (U1 : u64 <= 1 # 100) by (vm_compute; discriminate).
  assert (E : Qabs (signed s r - (signed s p - - signed s f)) <= u64 * Qabs (signed s p - - signed s f)).
  { rewrite <- signed_plus, (Qabs_signed s (p + f)).
    eapply Qle_trans; [|exact Hr].
    rewrite <- (Qabs_signed s (round53 (p + f) - (p + f))).
    assert (E : signed s r - signed s (p + f) == signed s (round53 (p + f) - (p + f))).
    { destruct s; simpl signed; rewrite Er; ring. }
    rewrite E. apply Qle_refl. }
  destruct over.
  - apply over_bound with (P := P) (b := - signed s f) (u := u64);
      try assumption; nra.
  - apply under_bound with (P := P) (b := - signed s f) (u := u64);
      try assumption; nra.
Qed.

Lemma b64_zero_leb (x : float) :
  (x =? 0)%float = true -> (0 <=? x)%float = true /\ (x <=? 0)%float = true.
Proof.
  intros H. destruct (b64_eqb_zero H) as [s Es].
  destruct (@b64_zero_value _ _ Es) as [F E].
  split.
  - apply (proj1 (@b64_compare_correct 0%float x eq_refl F)). rewrite E. apply Qle_refl.
  - apply (proj1 (@b64_compare_correct x 0%float F eq_refl)). rewrite E. apply Qle_refl.
Qed.

Lemma partial_point_binary64 (over : bool) (V F size : Z) (beta m : float) :
  (0 < V <= 2 ^ 100)%Z -> (0 < F <= 2 ^ 100)%Z -> (0 < size <= 2 ^ 100)%Z ->
  b64_moderate beta = true ->
  (m =? 0)%float = true \/ b64_moderate m = true ->
  let opt := (beta * b64_of_int V / b64_of_int (F * size))%float in
  let c := (opt * b64_lit (if over then 3 # 2 else 1 # 2))%float in
  let p := (b64_of_int V * beta * m)%float in
  let f := (- c * b64_of_int size * b64_of_int F * m)%float in
  let n := (p + f)%float in
  b64_finite n = true /\ (abs n <=? abs p)%float = true /\
  ((0 <=? p)%float = true ->
   ((if over then n <=? 0 else 0 <=? n)%float = true)) /\
  ((p <=? 0)%float = true ->
   ((if over then 0 <=? n else n <=? 0)%float = true)).
Proof.
  intros [HV HV'] [HF HF'] [Hs Hs'] Hb Hmv opt c p f n.
  destruct (@pow_bound_mul F size 100 100) as [HFs HFs']; try lia.
  change (100 + 100)%Z with 200%Z in HFs'.
  pose proof (inject_Z_pos HV) as QV. pose proof (inject_Z_pos HF) as QF.
  pose proof (inject_Z_pos Hs) as Qs. pose proof (inject_Z_pos HFs) as QFs.
  assert (K1 : (1 <= 2 ^ 0)%Z) by (vm_compute; discriminate).
  assert (K2 : (2 <= 2 ^ 1)%Z) by (vm_compute; discriminate).
  assert (K3 : (3 <= 2 ^ 2)%Z) by (vm_compute; discriminate).
  destruct (fw_moderate _ Hb) as [sb Fb].
  assert (Hyb : 0 < Qabs (B2Q beta)).
  { destruct Fb as (_ & _ & H & _). pose proof (pow2_pos (-100)). lra. }
  set (yb := Qabs (B2Q beta)) in *.
  destruct Hmv as [Hz|Hmv].
  - assert (Fa : exists s y lo hi a b, fw s y lo hi a b (b64_of_int V * beta)%float).
    { do 6 eexists. ftrack. }
    assert (Ff : exists s y lo hi a b,
               fw s y lo hi a b (- c * b64_of_int size * b64_of_int F)%float).
    { destruct over; do 6 eexists; unfold c, opt, b64_lit; cbn [Qnum Qden]; ftrack. }
    destruct Fa as (? & ? & ? & ? & ? & ? & Fa & _).
    destruct Ff as (? & ? & ? & ? & ? & ? & Ff & _).
    destruct (@b64_zero_move _ _ _ Fa Ff Hz) as (Hp0 & _ & Hn0).
    fold p in Hp0. fold f in Hn0. fold n in Hn0.
    destruct (b64_zero_leb Hn0) as [N1 N2].
    split.
    { destruct (b64_eqb_zero Hn0) as [s Es]. apply (@b64_zero_value _ _ Es). }
    split; [now apply b64_zero_abs_le|].
    split; intros _; destruct over; assumption.
  - destruct (fw_moderate _ Hmv) as [sm Fm].
    assert (Hym : 0 < Qabs (B2Q m)).
    { destruct Fm as (_ & _ & H & _). pose proof (pow2_pos (-100)). lra. }
    set (ym := Qabs (B2Q m)) in *.
    set (P := inject_Z V * yb * ym).
    assert (Hp : exists lo hi a b, fw (xorb sb sm) P lo hi a b p /\
       Qle_bool (1 - 4 * u64) lo = true /\ Qle_bool hi (1 + 4 * u64) = true /\
       (-900 <= a)%Z /\ (b <= 900)%Z).
    { assert (H : exists s y lo hi a b, fw s y lo hi a b p /\ s = xorb sb sm /\ y == P /\
         Qle_bool (1 - 4 * u64) lo = true /\ Qle_bool hi (1 + 4 * u64) = true /\
         (-900 <= a)%Z /\ (b <= 900)%Z).
      { do 6 eexists. split; [|split; [|split; [|split; [|split; [|split]]]]].
        - unfold p. ftrack.
        - reflexivity.
        - reflexivity.
        - vm_compute; reflexivity.
        - vm_compute; reflexivity.
        - lia.
        - lia. }
      destruct H as (s & y & lo & hi & a & b & H & -> & Ey & Hlo & Hhi & Ha & Hb').
      exists lo, hi, a, b. split; [exact (fw_eq Ey H)|]. repeat split; assumption. }
    assert (Hf : exists lo hi a b,
       fw (negb (xorb sb sm)) (P * (if over then 3 # 2 else 1 # 2)) lo hi a b f /\
       Qle_bool (1 - 20 * u64) lo = true /\ Qle_bool hi (1 + 20 * u64) = true /\
       (-900 <= a)%Z /\ (b <= 900)%Z).
    { assert (H : exists s y lo hi a b, fw s y lo hi a b f /\
         s = negb (xorb sb sm) /\ y == P * (if over then 3 # 2 else 1 # 2) /\
         Qle_bool (1 - 20 * u64) lo = true /\ Qle_bool hi (1 + 20 * u64) = true /\
         (-900 <= a)%Z /\ (b <= 900)%Z).
      { unfold f, c, opt, b64_lit. destruct over; cbn [Qnum Qden].
        - do 6 eexists. split; [|split; [|split; [|split; [|split; [|split]]]]].
          + ftrack.
          + now destruct sb, sm.
          + unfold P. rewrite inject_Z_mult.
            change (inject_Z 3) with 3. change (inject_Z 2) with 2. field. split; lra.
          + vm_compute; reflexivity.
          + vm_compute; reflexivity.
          + lia.
          + lia.
        - do 6 eexists. split; [|split; [|split; [|split; [|split; [|split]]]]].
          + ftrack.
          + now destruct sb, sm.
          + unfold P. rewrite inject_Z_mult.
            change (inject_Z 1) with 1. change (inject_Z 2) with 2. field. split; lra.
          + vm_compute; reflexivity.
          + vm_compute; reflexivity.
          + lia.
          + lia. }
      destruct H as (s & y & lo & hi & a & b & H & -> & Ey & Hlo & Hhi & Ha & Hb').
      exists lo, hi, a, b. split; [exact (fw_eq Ey H)|]. repeat split; assumption. }
    destruct Hp as (lop & hip & ap & bp & Fp & Hlop & Hhip & Hap & Hbp).
    destruct Hf as (lof & hif & af & bf & Ff & Hlof & Hhif & Haf & Hbf).
    apply Qle_bool_iff in Hlop, Hhip, Hlof, Hhif.
    destruct (fw_abs_bounds Fp) as [Lp Up]. destruct (fw_abs_bounds Ff) as [Lf Uf].
    assert (Fp' := Fp). assert (Ff' := Ff).
    destruct Fp' as (Fpf & Sp & _). destruct Ff' as (Fff & Sf & _).
    destruct (@b64_add_correct p f Fpf Fff) as [Fn En].
    + eapply pow2_chain; [|exact Lp]. lia.
    + eapply pow2_chain; [|exact Lf]. lia.
    + eapply Qle_lt_trans; [apply Qabs_triangle|].
      assert (Up' : Qabs (B2Q p) <= pow2 901) by (eapply Qle_trans; [exact Up|apply pow2_le; lia]).
      assert (Uf' : Qabs (B2Q f) <= pow2 901) by (eapply Qle_trans; [exact Uf|apply pow2_le; lia]).
      assert (E : pow2 902 == 2 * pow2 901) by (change 902%Z with (901 + 1)%Z; apply pow2_succ).
      assert (pow2 902 < pow2 1023) by (apply pow2_lt; lia).
      lra.
    + fold n in Fn, En.
      pose proof (@partial_rounded over _ _ _ _ _ _ _ _ _ Sp Sf Hlop Hhip Hlof Hhif En) as R.
      assert (SP : 0 <= signed (xorb sb sm) (B2Q p)).
      { destruct Sp as (HP & L1 & _ & L2 & _). nra. }
      split; [exact Fn|]. split; [|split].
      * apply b64_abs_le; [exact Fn|exact Fpf|].
        rewrite <- (Qabs_signed (xorb sb sm) (B2Q n)), <- (Qabs_signed (xorb sb sm) (B2Q p)).
        rewrite (Qabs_pos (signed _ (B2Q p))) by exact SP.
        apply Qabs_Qle_condition. destruct over; destruct R; split; lra.
      * intros Hp0.
        apply (proj1 (@b64_compare_correct 0%float p eq_refl Fpf)) in Hp0.
        change (B2Q 0) with 0 in Hp0.
        destruct over.
        -- apply (proj1 (@b64_compare_correct n 0%float Fn eq_refl)).
           change (B2Q 0) with 0. destruct R as [R1 R2].
           destruct (xorb sb sm); cbn [signed] in *; lra.
        -- apply (proj1 (@b64_compare_correct 0%float n eq_refl Fn)).
           change (B2Q 0) with 0. destruct R as [R1 R2].
           destruct (xorb sb sm); cbn [signed] in *; lra.
      * intros Hp0.
        apply (proj1 (@b64_compare_correct p 0%float Fpf eq_refl)) in Hp0.
        change (B2Q 0) with 0 in Hp0.
        destruct over.
        -- apply (proj1 (@b64_compare_correct 0%float n eq_refl Fn)).
           change (B2Q 0) with 0. destruct R as [R1 R2].
           destruct (xorb sb sm); cbn [signed] in *; lra.
        -- apply (proj1 (@b64_compare_correct n 0%float Fn eq_refl)).
           change (B2Q 0) with 0. destruct R as [R1 R2].
           destruct (xorb sb sm); cbn [signed] in *; lra.
Qed.

Lemma partial_series_binary64 (over : bool) (V F : Z) (beta : float) (hedge_type : string) :
  (0 < V <= 2 ^ 100)%Z -> (0 < F <= 2 ^ 100)%Z -> b64_moderate beta = true ->
  (forall o, HedgingBuilder.contracts Binary64 hedge_type o
             = (o * b64_lit (if over then 3 # 2 else 1 # 2))%float) ->
  exists out,
    HedgingBuilder.run Binary64 V beta F hedge_type = Py.Ok out /\
    forall i, (i < 20)%nat ->
      exists pv nv,
        nth_error (HedgingBuilder.out_portfolio out) i = Some pv /\
        nth_error (HedgingBuilder.out_net out) i = Some nv /\
        b64_finite nv = true /\ (abs nv <=? abs pv)%float = true /\
        ((0 <=? pv)%float = true -> ((if over then nv <=? 0 else 0 <=? nv)%float = true)) /\
        ((pv <=? 0)%float = true -> ((if over then 0 <=? nv else nv <=? 0)%float = true)).
Proof.
  intros HV HF Hb Hc.
  assert (Hs : (0 < HedgingBuilder.size <= 2 ^ 100)%Z) by (unfold HedgingBuilder.size; lia).
  unfold HedgingBuilder.run.
  rewrite optimal_contracts_ok;
    [|now apply b64_fits_widget|now apply b64_fits_widget_mul|unfold HedgingBuilder.size; nia].
  cbn [Py.bind]. rewrite portfolio_ok by now apply b64_fits_widget.
  cbn [Py.bind]. rewrite futures_ok by now apply b64_fits_widget.
  cbn [Py.bind]. eexists. split; [reflexivity|].
  cbn [HedgingBuilder.out_portfolio HedgingBuilder.out_net].
  intros i Hi.
  pose proof (linspace_length Binary64 (fneg Binary64 (lit Binary64 (1 # 10)))
                (lit Binary64 (1 # 10)) 20) as L.
  fold (HedgingBuilder.moves Binary64) in L.
  destruct (nth_error (HedgingBuilder.moves Binary64) i) as [m|] eqn:Em;
    [|apply nth_error_None in Em; rewrite L in Em; lia].
  unfold HedgingBuilder.net.
  do 2 eexists. split; [|split].
  - apply map_nth_error. exact Em.
  - apply zip_with_nth_error; apply map_nth_error; exact Em.
  - rewrite Hc. cbn [fadd fmul fdiv fneg of_int Binary64].
    apply (@partial_point_binary64 over V F HedgingBuilder.size beta m HV HF Hs Hb).
    pose proof (forallb_nth _ _ _ panel_moves_moderate Em) as M.
    unfold b64_move in M. apply orb_prop in M. exact M.
Qed.

(** X16: the under hedge and the over hedge of panel 5.  In binary64, for
    positive [V] and [F] up to [2^100] and a [beta] of moderate magnitude,
    at each of the 20 moves the net P&L is at most the unhedged P&L in
    absolute value; with the under hedge it stays on the side of the
    unhedged P&L, and with the over hedge, the branch every other label
    takes, it is on the opposite side. *)
Theorem partial_hedge_sides (V F : Z) (beta : float) :
  (0 < V <= 2 ^ 100)%Z -> (0 < F <= 2 ^ 100)%Z -> b64_moderate beta = true ->
  (exists out,
     HedgingBuilder.run Binary64 V beta F "Under Hedge" = Py.Ok out /\
     forall i, (i < 20)%nat ->
       exists pv nv,
         nth_error (HedgingBuilder.out_portfolio out) i = Some pv /\
         nth_error (HedgingBuilder.out_net out) i = Some nv /\
         b64_finite nv = true /\ (abs nv <=? abs pv)%float = true /\
         ((0 <=? pv)%float = true -> (0 <=? nv)%float = true) /\
         ((pv <=? 0)%float = true -> (nv <=? 0)%float = true)) /\
  (forall hedge_type : string,
     hedge_type <> "Optimal Hedge"%string -> hedge_type <> "Under Hedge"%string ->
     exists out,
       HedgingBuilder.run Binary64 V beta F hedge_type = Py.Ok out /\
       forall i, (i < 20)%nat ->
         exists pv nv,
           nth_error (HedgingBuilder.out_portfolio out) i = Some pv /\
           nth_error (HedgingBuilder.out_net out) i = Some nv /\
           b64_finite nv = true /\ (abs nv <=? abs pv)%float = true /\
           ((0 <=? pv)%float = true -> (nv <=? 0)%float = true) /\
           ((pv <=? 0)%float = true -> (0 <=? nv)%float = true)).
Proof.
  intros HV HF Hb. split.
  - apply (@partial_series_binary64 false V F beta "Under Hedge" HV HF Hb).
    intros o. reflexivity.
  - intros hedge_type N1 N2.
    apply (@partial_series_binary64 true V F beta hedge_type HV HF Hb).
    intros o. unfold HedgingBuilder.contracts.
    apply String.eqb_neq in N1, N2. rewrite N1, N2. reflexivity.
Qed.

Lemma partial_hedge_sides_witness :
  (0 < 5000000 <= 2 ^ 100)%Z /\ (0 < 22000 <= 2 ^ 100)%Z /\ b64_moderate 1%float = true /\
  exists out,
    HedgingBuilder.run Binary64 5000000 1%float 22000 "Under Hedge" = Py.Ok out /\
    forall i, (i < 20)%nat ->
      exists pv nv,
        nth_error (HedgingBuilder.out_portfolio out) i = Some pv /\
        nth_error (HedgingBuilder.out_net out) i = Some nv /\
        b64_finite nv = true /\ (abs nv <=? abs pv)%float = true /\
        ((0 <=? pv)%float = true -> (0 <=? nv)%float = true) /\
        ((pv <=? 0)%float = true -> (nv <=? 0)%float = true).
Proof.
  assert (H1 : (0 < 5000000 <= 2 ^ 100)%Z) by (split; vm_compute; [reflexivity|discriminate]).
  assert (H2 : (0 < 22000 <= 2 ^ 100)%Z) by (split; vm_compute; [reflexivity|discriminate]).
  assert (H3 : b64_moderate 1%float = true) by (vm_compute; reflexivity).
  split; [exact H1|]. split; [exact H2|]. split; [exact H3|].
  exact (proj1 (@partial_hedge_sides 5000000 22000 1%float H1 H2 H3)).
Defined.

(** ** Panel 13: the quiz *)

(** X17: the radio answers alone can pass the quiz.  In every arithmetic,
    when questions 2, 6, 7, 8 and 9 hold their right answers, which are
    the options those radios show first, the score is at least 5 whatever
    the other five answers are, and a certificate is produced for every
    non-empty name and ID. *)
Theorem quiz_radios_pass (A : Arith) (a : Quiz.answers A)
    (student_name student_id today : string) :
  Quiz.q2 a = "Zero"%string -> Quiz.q6 a = "Credit risk"%string ->
  Quiz.q7 a = "Contango"%string -> Quiz.q8 a = "High"%string ->
  Quiz.q9 a = "Close & reopen"%string ->
  student_name <> ""%string -> student_id <> ""%string ->
  (5 <= Quiz.score a)%Z /\
  Quiz.sub_certificate (Quiz.submit a student_name student_id today)
  = Some (Quiz.make_certificate student_name student_id (Quiz.score a) today).
Proof.
  intros E2 E6 E7 E8 E9 Hn Hi.
  assert (S5 : (5 <= Quiz.score a)%Z).
  { unfold Quiz.score, Quiz.incr. rewrite E2, E6, E7, E8, E9.
    change (String.eqb "Zero" "Zero") with true.
    change (String.eqb "Credit risk" "Credit risk") with true.
    change (String.eqb "Contango" "Contango") with true.
    change (String.eqb "High" "High") with true.
    change (String.eqb "Close & reopen" "Close & reopen") with true.
    cbv beta iota zeta.
    destruct (String.eqb (Quiz.q1 a) "Short"),
      (Quiz.close_to A (Quiz.q3 a) 110 (of_int A 1)),
      (Quiz.close_to A (Quiz.q4 a) 500 (of_int A 1)),
      (Quiz.close_to A (Quiz.q5 a) 1 (lit A (1 # 2))),
      (Quiz.close_to A (Quiz.q10 a) 200 (of_int A 1)); lia. }
  split; [exact S5|].
  unfold Quiz.submit, Quiz.sub_certificate.
  destruct (Z.leb_spec 5 (Quiz.score a)) as [_|H]; [|lia].
  destruct student_name; [congruence|]. destruct student_id; [congruence|]. reflexivity.
Qed.

Lemma quiz_radios_pass_witness :
  let a := Quiz.mkAnswers Binary64 "Long" "Zero" 0%float 0%float 0%float
             "Credit risk" "Contango" "High" "Close & reopen" 0%float in
  (5 <= Quiz.score a)%Z /\
  Quiz.sub_certificate (Quiz.submit a "A" "1" "01 January 2026")
  = Some (Quiz.make_certificate "A" "1" (Quiz.score a) "01 January 2026").
Proof.
  intros a.
  apply (@quiz_radios_pass Binary64 a "A" "1" "01 January 2026");
    try reflexivity; discriminate.
Defined.

Lemma close_to_window (q : float) (target : Z) (tol : float) :
  b64_in 900 q -> (Z.abs target <= 2 ^ 53)%Z -> b64_in 900 tol ->
  Quiz.close_to Binary64 q target tol = true ->
  Qabs (B2Q q - inject_Z target) < B2Q tol.
Proof.
  intros Iq Ht It H. unfold Quiz.close_to in H. cbn [fltb fabs fsub of_int Binary64] in H.
  destruct (@b64_in_of_int target 53 Ht ltac:(lia)) as [Itg Etg].
  rewrite round53_int in Etg by exact Ht.
  destruct (b64_sub_value Iq (@b64_in_weaken 53 900 _ ltac:(lia) Itg)) as [Id Ed]; [lia|].
  destruct (b64_abs_correct (q - b64_of_int target)) as [Fa Ea].
  apply (proj1 (proj1 (proj2 (@b64_compare_correct _ tol
           ltac:(rewrite Fa; apply Id) (proj1 It))))) in H.
  rewrite Ea, Ed, Etg, round53_abs in H.
  destruct (Qlt_le_dec (Qabs (B2Q q - inject_Z target)) (B2Q tol)) as [L|L]; [exact L|].
  exfalso. apply round53_le in L. rewrite (b64_in_round It) in L by lia. lra.
Qed.

Lemma close_to_exact (target : Z) (tol : float) :
  (Z.abs target <= 2 ^ 53)%Z -> b64_finite tol = true -> 0 < B2Q tol ->
  Quiz.close_to Binary64 (b64_of_int target) target tol = true.
Proof.
  intros Ht Ft Pt. unfold Quiz.close_to. cbn [fltb fabs fsub of_int Binary64].
  rewrite b64_sub_self by (apply b64_of_int_exact; exact Ht).
  change (abs 0) with 0%float.
  apply (proj2 (proj1 (proj2 (@b64_compare_correct 0%float tol eq_refl Ft)))).
  exact Pt.
Qed.

(** X18: the tolerance windows of the numeric questions.  In binary64, an
    answer that is finite and zero or between [2^-900] and [2^900] in
    magnitude scores only strictly inside its window: question 3 between
    109 and 111, question 4 between 499 and 501, question 5 between 0.5
    and 1.5, question 10 between 199 and 201; and the answers 110, 500, 1
    and 200 themselves score. *)
Theorem quiz_numeric_windows :
  (forall a : Quiz.answers Binary64,
     (b64_in 900 (Quiz.q3 a) ->
      Quiz.close_to Binary64 (Quiz.q3 a) 110 (of_int Binary64 1) = true ->
      109 < B2Q (Quiz.q3 a) /\ B2Q (Quiz.q3 a) < 111) /\
     (b64_in 900 (Quiz.q4 a) ->
      Quiz.close_to Binary64 (Quiz.q4 a) 500 (of_int Binary64 1) = true ->
      499 < B2Q (Quiz.q4 a) /\ B2Q (Quiz.q4 a) < 501) /\
     (b64_in 900 (Quiz.q5 a) ->
      Quiz.close_to Binary64 (Quiz.q5 a) 1 (lit Binary64 (1 # 2)) = true ->
      (1 # 2) < B2Q (Quiz.q5 a) /\ B2Q (Quiz.q5 a) < (3 # 2)) /\
     (b64_in 900 (Quiz.q10 a) ->
      Quiz.close_to Binary64 (Quiz.q10 a) 200 (of_int Binary64 1) = true ->
      199 < B2Q (Quiz.q10 a) /\ B2Q (Quiz.q10 a) < 201)) /\
  (Quiz.close_to Binary64 (b64_of_int 110) 110 (of_int Binary64 1) = true /\
   Quiz.close_to Binary64 (b64_of_int 500) 500 (of_int Binary64 1) = true /\
   Quiz.close_to Binary64 (b64_of_int 1) 1 (lit Binary64 (1 # 2)) = true /\
   Quiz.close_to Binary64 (b64_of_int 200) 200 (of_int Binary64 1) = true) /\
  (forall a : Quiz.answers Binary64,
     b64_in 900 (Quiz.q3 a) -> b64_in 900 (Quiz.q4 a) ->
     b64_in 900 (Quiz.q5 a) -> b64_in 900 (Quiz.q10 a) ->
     B2Q (Quiz.q3 a) <= 109 -> B2Q (Quiz.q4 a) <= 499 ->
     B2Q (Quiz.q5 a) <= 1 # 2 -> B2Q (Quiz.q10 a) <= 199 ->
     (Quiz.score a <= 6)%Z).
Proof.
  assert (I1 : b64_in 900 (of_int Binary64 1)).
  { apply (@b64_in_weaken 0 900); [lia|]. apply b64_in_of_int; [vm_compute; discriminate|lia]. }
  assert (V1 : B2Q (of_int Binary64 1) == 1) by (vm_compute; reflexivity).
  assert (Ih : b64_in 900 (lit Binary64 (1 # 2))).
  { apply (@b64_in_weaken 1 900); [lia|]. split; [reflexivity|]. right.
    split; apply Qle_bool_iff; vm_compute; reflexivity. }
  assert (Vh : B2Q (lit Binary64 (1 # 2)) == 1 # 2) by (vm_compute; reflexivity).
  assert (W : forall q target tol, b64_in 900 q -> (Z.abs target <= 2 ^ 53)%Z ->
            b64_in 900 tol -> Quiz.close_to Binary64 q target tol = true ->
            inject_Z target - B2Q tol < B2Q q /\ B2Q q < inject_Z target + B2Q tol).
  { intros q target tol Iq Ht It H.
    pose proof (close_to_window Iq Ht It H) as L.
    destruct (Qabs_Qlt_condition (B2Q q - inject_Z target) (B2Q tol)) as [C _].
    destruct (C L). split; lra. }
  assert (B110 : (Z.abs 110 <= 2 ^ 53)%Z) by (vm_compute; discriminate).
  assert (B500 : (Z.abs 500 <= 2 ^ 53)%Z) by (vm_compute; discriminate).
  assert (B1 : (Z.abs 1 <= 2 ^ 53)%Z) by (vm_compute; discriminate).
  assert (B200 : (Z.abs 200 <= 2 ^ 53)%Z) by (vm_compute; discriminate).
  split; [|split].
  - intros a. split; [|split; [|split]]; intros Iq H.
    + destruct (W _ _ _ Iq B110 I1 H) as [L U]. rewrite V1 in L, U.
      change (inject_Z 110) with 110 in L, U. split; lra.
    + destruct (W _ _ _ Iq B500 I1 H) as [L U]. rewrite V1 in L, U.
      change (inject_Z 500) with 500 in L, U. split; lra.
    + destruct (W _ _ _ Iq B1 Ih H) as [L U]. rewrite Vh in L, U.
      change (inject_Z 1) with 1 in L, U. split; lra.
    + destruct (W _ _ _ Iq B200 I1 H) as [L U]. rewrite V1 in L, U.
      change (inject_Z 200) with 200 in L, U. split; lra.
  - repeat split; apply close_to_exact;
      try (vm_compute; discriminate); try reflexivity.
  - intros a I3 I4 I5 I10 H3 H4 H5 H10.
    assert (N : forall q target tol, b64_in 900 q -> (Z.abs target <= 2 ^ 53)%Z ->
              b64_in 900 tol -> B2Q q <= inject_Z target - B2Q tol ->
              Quiz.close_to Binary64 q target tol = false).
    { intros q target tol Iq Ht It Hq.
      destruct (Quiz.close_to Binary64 q target tol) eqn:E; [|reflexivity]. exfalso.
      destruct (W _ _ _ Iq Ht It E) as [L U]. lra. }
    assert (N3 : Quiz.close_to Binary64 (Quiz.q3 a) 110 (of_int Binary64 1) = false).
    { apply N; try assumption. rewrite V1. change (inject_Z 110) with 110. lra. }
    assert (N4 : Quiz.close_to Binary64 (Quiz.q4 a) 500 (of_int Binary64 1) = false).
    { apply N; try assumption. rewrite V1. change (inject_Z 500) with 500. lra. }
    assert (N5 : Quiz.close_to Binary64 (Quiz.q5 a) 1 (lit Binary64 (1 # 2)) = false).
    { apply N; try assumption. rewrite Vh. change (inject_Z 1) with 1. lra. }
    assert (N10 : Quiz.close_to Binary64 (Quiz.q10 a) 200 (of_int Binary64 1) = false).
    { apply N; try assumption. rewrite V1. change (inject_Z 200) with 200. lra. }
    unfold Quiz.score, Quiz.incr. rewrite N3, N4, N5, N10. cbv beta iota zeta.
    repeat match goal with |- context [if ?b then _ else _] => destruct b end; lia.
Qed.

(** ** Instances on the default inputs *)

Lemma directional_payoff_witness :
  (Z.abs 22000 <= 2 ^ 50)%Z /\
  nth_error (Directional.pnl Binary64 (Directional.prices Binary64 22000) 22000) 0
  = Some (b64_of_int (-2000)).
Proof.
  assert (H : (Z.abs 22000 <= 2 ^ 50)%Z) by (vm_compute; discriminate).
  split; [exact H|]. exact (proj1 (proj2 (proj2 directional_payoff 22000%Z H))).
Defined.

Lemma calendar_spread_payoff_witness :
  (Z.abs 22000 <= 2 ^ 50)%Z /\ (Z.abs 22200 <= 2 ^ 50)%Z /\
  nth_error (Cases.calendar_pnl Binary64 22000 22200 (Cases.calendar_prices Binary64 22000)) 0
  = Some (b64_of_int (22200 - 22000 + 1000)).
Proof.
  assert (H1 : (Z.abs 22000 <= 2 ^ 50)%Z) by (vm_compute; discriminate).
  assert (H2 : (Z.abs 22200 <= 2 ^ 50)%Z) by (vm_compute; discriminate).
  split; [exact H1|]. split; [exact H2|].
  exact (proj1 (proj2 (proj2 calendar_spread_payoff 22000%Z 22200%Z H1 H2))).
Defined.

Lemma arbitrage_desk_witness :
  (Z.abs 1000 <= 2 ^ 50)%Z /\ (Z.abs 1050 <= 2 ^ 50)%Z /\
  nth_error (Cases.arbitrage_pnl Binary64 1050 (Cases.arbitrage_prices Binary64 1000)) 0
  = Some (b64_of_int (1050 - 1000 + 200)).
Proof.
  assert (H1 : (Z.abs 1000 <= 2 ^ 50)%Z) by (vm_compute; discriminate).
  assert (H2 : (Z.abs 1050 <= 2 ^ 50)%Z) by (vm_compute; discriminate).
  split; [exact H1|]. split; [exact H2|].
  exact (proj1 (proj2 (proj2 (proj2 arbitrage_desk) 1000%Z 1050%Z H1 H2))).
Defined.

Lemma strategy_comparison_witness :
  (Z.abs 22000 <= 2 ^ 50)%Z /\
  nth_error (Strategies.calendar Binary64 (Directional.prices Binary64 22000) 22000) 7
  = Some (b64_of_int (22000 - 1800)).
Proof.
  assert (H : (Z.abs 22000 <= 2 ^ 50)%Z) by (vm_compute; discriminate).
  split; [exact H|].
  exact (proj1 (proj2 (proj2 (proj2 (proj2 (proj2 strategy_comparison) 22000%Z H))))).
Defined.

Lemma exporter_fully_hedged_witness :
  (0 < 1000000 <= 2 ^ 50)%Z /\
  nth_error (fst (Cases.exporter Binary64 1000000 83%float)) 0
  = Some (b64_of_int (-5 * 1000000)).
Proof.
  assert (H : (0 < 1000000 <= 2 ^ 50)%Z) by (split; vm_compute; [reflexivity|discriminate]).
  split; [exact H|].
  exact (proj1 (proj2 (proj2 exporter_fully_hedged) 1000000%Z 83%float H)).
Defined.

Lemma quiz_numeric_windows_witness :
  let a := Quiz.mkAnswers Binary64 "Short" "Zero" 110%float 500%float 1%float
             "Credit risk" "Contango" "High" "Close & reopen" 200%float in
  b64_in 900 (Quiz.q3 a) /\
  Quiz.close_to Binary64 (Quiz.q3 a) 110 (of_int Binary64 1) = true /\
  109 < B2Q (Quiz.q3 a) /\ B2Q (Quiz.q3 a) < 111.
Proof.
  intros a.
  assert (H1 : b64_in 900 (Quiz.q3 a)).
  { split; [reflexivity|]. right. split; apply Qle_bool_iff; vm_compute; reflexivity. }
  assert (H2 : Quiz.close_to Binary64 (Quiz.q3 a) 110 (of_int Binary64 1) = true)
    by reflexivity.
  split; [exact H1|]. split; [exact H2|].
  exact (proj1 (proj1 quiz_numeric_windows a) H1 H2).
Defined.

(** * Scenarios and inputs in binary64 *)

(** ** Scenarios *)

Lemma round53_pos_gt x : 0 < x -> 0 < round53 x.
Proof.
  intros H. destruct (proj1 (rnd_bounds round53_standard_model x) ltac:(lra)) as [L _].
  pose proof u64_lt1. nra.
Qed.

(** The error of one sample [round (round (I * s) + L)], for a step [s]
    computed as [round (round (H - L) / N)]. *)
Lemma grid_error (L H N I d s t v : Q) :
  L < H -> 1 <= N -> N <= 1048576 -> 0 <= I -> I <= N - 1 ->
  (H - L) * (1 - u64) <= d -> d <= (H - L) * (1 + u64) ->
  d / N * (1 - u64) <= s -> s <= d / N * (1 + u64) ->
  I * s * (1 - u64) <= t -> t <= I * s * (1 + u64) ->
  Qabs (v - (t + L)) <= u64 * Qabs (t + L) ->
  Qabs (v - (L + I * ((H - L) / N))) <= 5 * u64 * (Qabs L + Qabs H) /\
  0 <= t /\ t <= H - L.
Proof.
  intros HL N1 N2 I0 I1 D1 D2 S1 S2 T1 T2 V.
  pose proof u64_pos as U0.
  assert (U1 : u64 * 4194304 <= 1) by (vm_compute; discriminate).
  set (D := H - L) in *. assert (D0 : 0 < D) by (unfold D; lra).
  set (q := D / N) in *.
  assert (QN : q * N == D) by (unfold q; field; lra).
  assert (q0 : 0 <= q) by (apply Qle_shift_div_l; lra).
  set (e := d / N) in *.
  assert (EN : e * N == d) by (unfold e; field; lra).
  assert (Ninv : 0 <= / N) by (apply Qinv_le_0_compat; lra).
  assert (E1 : q * (1 - u64) <= e).
  { unfold q, e, Qdiv.
    setoid_replace (D * / N * (1 - u64)) with (D * (1 - u64) * / N) by ring.
    apply Qmult_le_compat_r; assumption. }
  assert (E2 : e <= q * (1 + u64)).
  { unfold q, e, Qdiv.
    setoid_replace (D * / N * (1 + u64)) with (D * (1 + u64) * / N) by ring.
    apply Qmult_le_compat_r; assumption. }
  assert (e0 : 0 <= e) by nra.
  assert (s0 : 0 <= s) by nra.
  assert (S1' : q * (1 - 2 * u64) <= s) by nra.
  assert (S2' : s <= q * (1 + 2 * u64 + u64 * u64)) by nra.
  set (p := I * q).
  assert (p0 : 0 <= p) by (unfold p; nra).
  assert (W1 : p * (1 - 2 * u64) <= I * s) by (unfold p; nra).
  assert (W2 : I * s <= p * (1 + 2 * u64 + u64 * u64)) by (unfold p; nra).
  assert (w0 : 0 <= I * s) by nra.
  assert (T1' : p * (1 - 3 * u64) <= t) by nra.
  assert (T2' : t <= p * (1 + (7 # 2) * u64)) by nra.
  assert (pq : p <= D - q) by (unfold p; nra).
  fold p.
  pose proof (Qle_Qabs L) as AL. pose proof (Qle_Qabs H) as AH.
  pose proof (Qle_Qabs (- L)) as AL'. pose proof (Qle_Qabs (- H)) as AH'.
  rewrite Qabs_opp in AL', AH'.
  set (S := Qabs L + Qabs H) in *.
  assert (pS : p <= S) by (unfold S, D in *; lra).
  assert (S0 : 0 <= S) by (unfold S; lra).
  set (uS := u64 * S).
  assert (uS0 : 0 <= uS) by (unfold uS; nra).
  assert (Tp1 : t - p <= (7 # 2) * uS) by (unfold uS; clear - T2' pS U0 p0; nra).
  assert (Tp2 : - (3 * uS) <= t - p) by (unfold uS; clear - T1' pS U0 p0; nra).
  assert (TL : Qabs (t + L) <= S + (7 # 2) * uS).
  { apply Qabs_Qle_condition. unfold S, D in *. split; lra. }
  assert (V' : Qabs (v - (t + L)) <= uS + (1 # 2) * uS).
  { eapply Qle_trans; [exact V|].
    apply Qle_trans with (u64 * (S + (7 # 2) * uS)).
    - apply Qmult_le_l; [exact U0|exact TL].
    - assert (u64 * uS <= (1 # 7) * uS) by (clear - U0 U1 uS0; nra).
      fold uS. unfold uS in *. lra. }
  apply Qabs_Qle_condition in V'. destruct V' as [V1 V2].
  split; [|split].
  - setoid_replace (5 * u64 * S) with (5 * uS) by (unfold uS; ring).
    apply Qabs_Qle_condition. split; lra.
  - clear - T1' p0 U0 U1. nra.
  - assert (K : (7 # 2) * u64 * D <= q).
    { assert (UN : u64 * N <= 1 # 4) by (clear - U0 U1 N1 N2; nra).
      assert (QU : q * (u64 * N) <= q * (1 # 4)) by (clear - q0 UN; nra).
      rewrite <- QN. clear - QU q0. lra. }
    assert (K1 : p * u64 <= (D - q) * u64) by (clear - pq U0; nra).
    assert (K2 : 0 <= q * u64) by (clear - q0 U0; nra).
    clear - T2' pq K K1 K2. lra.
Qed.

Section Linspace64.

Variables (low high : float) (n : nat).
Hypothesis Il : b64_in 800 low.
Hypothesis Ih : b64_in 800 high.
Hypothesis Hlh : B2Q low < B2Q high.
Hypothesis Hn : (2 <= n)%nat.
Hypothesis Hn' : (Z.of_nat n <= 2 ^ 20)%Z.

Let L := B2Q low.
Let H := B2Q high.
Let N := inject_Z (Z.of_nat n - 1).
Let delta := (high - low)%float.
Let div := b64_of_int (Z.of_nat n - 1).
Let step := (delta / div)%float.

Lemma ls_N : 1 <= N /\ N <= 1048576.
Proof.
  unfold N. split.
  - change 1 with (inject_Z 1). rewrite <- Zle_Qle. lia.
  - change 1048576 with (inject_Z (2 ^ 20)). rewrite <- Zle_Qle. lia.
Qed.

Lemma ls_delta :
  b64_in 853 delta /\ B2Q delta == round53 (H - L) /\
  (H - L) * (1 - u64) <= B2Q delta /\ B2Q delta <= (H - L) * (1 + u64).
Proof.
  destruct (b64_sub_value Ih Il) as [I E]; [lia|].
  change (800 + 53)%Z with 853%Z in I.
  split; [exact I|]. split; [exact E|]. unfold delta. rewrite E.
  apply (proj1 (rnd_bounds round53_standard_model (H - L))). unfold H, L. lra.
Qed.

Lemma ls_div : b64_in 20 div /\ B2Q div == N.
Proof.
  assert (P : (2 ^ 20 <= 2 ^ 53)%Z) by (apply Z.pow_le_mono_r; lia).
  destruct (@b64_in_of_int (Z.of_nat n - 1) 20) as [I E]; [lia|lia|].
  rewrite round53_int in E by lia. split; assumption.
Qed.

Lemma ls_step :
  b64_in 873 step /\ B2Q step == round53 (B2Q delta / N) /\ 0 < B2Q step /\
  B2Q delta / N * (1 - u64) <= B2Q step /\ B2Q step <= B2Q delta / N * (1 + u64).
Proof.
  destruct ls_delta as (Id & Ed & D1 & D2). destruct ls_div as [Iv Ev].
  destruct ls_N as [N1 N2].
  destruct (b64_div_value Id Iv) as [I E]; try lia.
  { rewrite Ev. lra. }
  change (853 + 20)%Z with 873%Z in I. rewrite Ev in E.
  pose proof u64_pos as U0. pose proof u64_lt1 as U1.
  assert (D0 : 0 < B2Q delta) by (unfold H, L in *; nra).
  assert (Q0 : 0 < B2Q delta / N) by (apply Qlt_shift_div_l; lra).
  split; [exact I|]. split; [exact E|]. unfold step. rewrite E.
  split; [now apply round53_pos_gt|].
  apply (proj1 (rnd_bounds round53_standard_model (B2Q delta / N))). lra.
Qed.

Lemma ls_step_nonzero : PrimFloat.eqb step (b64_of_int 0) = false.
Proof.
  destruct ls_step as ([F _] & _ & P & _).
  destruct (PrimFloat.eqb step (b64_of_int 0)) eqn:Eq; [|reflexivity]. exfalso.
  apply (proj1 (proj2 (proj2 (@b64_compare_correct step (b64_of_int 0) F eq_refl)))) in Eq.
  change (B2Q (b64_of_int 0)) with 0 in Eq. lra.
Qed.

(** The samples short of the last. *)
Lemma ls_sample (i : nat) :
  (S i < n)%nat ->
  exists v,
    nth_error (linspace Binary64 low high n) i = Some v /\
    b64_finite v = true /\
    B2Q v == round53 (round53 (inject_Z (Z.of_nat i) * B2Q step) + L).
Proof.
  intros Hi.
  pose proof (@linspace_init Binary64 low high n i Hi ls_step_nonzero) as E.
  cbn [fdiv fsub fmul fadd of_int Binary64] in E.
  eexists. split; [exact E|].
  destruct ls_step as (It & _).
  assert (P : (2 ^ 20 <= 2 ^ 53)%Z) by (apply Z.pow_le_mono_r; lia).
  destruct (@b64_in_of_int (Z.of_nat i) 20) as [Ii Ei]; [lia|lia|].
  rewrite round53_int in Ei by lia.
  destruct (b64_mul_value Ii It) as [Im Em]; try lia.
  change (20 + 873)%Z with 893%Z in Im.
  destruct (b64_add_value Im (@b64_in_weaken 800 893 _ ltac:(lia) Il)) as [Ia Ea]; [lia|].
  split; [apply Ia|]. unfold step, delta, div in *. rewrite Ea, Em, Ei. reflexivity.
Qed.

Let val (i : nat) : Q :=
  if (S i <? n)%nat then round53 (round53 (inject_Z (Z.of_nat i) * B2Q step) + L) else H.
Let tol := 5 * u64 * (Qabs L + Qabs H).

Lemma ls_track (i : nat) :
  (S i < n)%nat ->
  Qabs (round53 (round53 (inject_Z (Z.of_nat i) * B2Q step) + L) - grid_point L H n i) <= tol /\
  0 <= round53 (inject_Z (Z.of_nat i) * B2Q step) /\
  round53 (inject_Z (Z.of_nat i) * B2Q step) <= H - L.
Proof.
  intros Hi.
  destruct ls_delta as (_ & _ & D1 & D2). destruct ls_step as (_ & _ & S0 & S1 & S2).
  destruct ls_N as [N1 N2].
  assert (I0 : 0 <= inject_Z (Z.of_nat i)).
  { change 0 with (inject_Z 0). rewrite <- Zle_Qle. lia. }
  assert (I1 : inject_Z (Z.of_nat i) <= N - 1).
  { assert (I1 : inject_Z (Z.of_nat i) <= inject_Z (Z.of_nat n - 1 - 1))
      by (rewrite <- Zle_Qle; lia).
    rewrite inject_Z_sub in I1. exact I1. }
  assert (P : 0 <= inject_Z (Z.of_nat i) * B2Q step) by nra.
  destruct (proj1 (rnd_bounds round53_standard_model _) P) as [T1 T2].
  unfold tol, grid_point. fold N.
  apply (@grid_error L H N (inject_Z (Z.of_nat i)) (B2Q delta) (B2Q step)); try assumption.
  apply (rnd_error round53_standard_model).
Qed.

Lemma ls_value (i : nat) :
  (i < n)%nat ->
  exists v, nth_error (linspace Binary64 low high n) i = Some v /\
            b64_finite v = true /\ B2Q v == val i.
Proof.
  intros Hi. unfold val.
  destruct (Nat.ltb_spec (S i) n) as [Hs|Hs].
  - now apply ls_sample.
  - assert (E : i = pred n) by lia. subst i.
    exists high. split; [now apply (linspace_last Binary64)|].
    split; [apply Ih|reflexivity].
Qed.

Lemma ls_val_first : val 0 == L.
Proof.
  unfold val. destruct (Nat.ltb_spec 1 n) as [_|Hs]; [|lia].
  cbn [Z.of_nat]. setoid_replace (inject_Z 0 * B2Q step) with 0 by ring.
  rewrite (round53_zero (x := 0)) by reflexivity.
  setoid_replace (0 + L) with L by ring.
  apply (b64_in_round Il). lia.
Qed.

Lemma ls_val_error (i : nat) : (i < n)%nat -> Qabs (val i - grid_point L H n i) <= tol.
Proof.
  intros Hi. unfold val.
  destruct (Nat.ltb_spec (S i) n) as [Hs|Hs].
  - now apply ls_track.
  - assert (E : i = pred n) by lia. subst i.
    rewrite (grid_point_last L H Hn).
    setoid_replace (H - H) with 0 by ring. cbn [Qabs Z.abs Qnum Qden].
    unfold tol. pose proof u64_pos. pose proof (Qabs_nonneg L). pose proof (Qabs_nonneg H). nra.
Qed.

Lemma ls_val_le_high (i : nat) : val i <= H.
Proof.
  unfold val. destruct (Nat.ltb_spec (S i) n) as [Hs|Hs]; [|lra].
  destruct (ls_track Hs) as (_ & _ & T).
  assert (RH : round53 (B2Q high) == B2Q high) by (apply (b64_in_round Ih); lia).
  fold H in RH.
  assert (R : round53 (round53 (inject_Z (Z.of_nat i) * B2Q step) + L) <= round53 H)
    by (apply round53_le; lra).
  lra.
Qed.

Lemma ls_val_mono (i j : nat) : (i <= j)%nat -> val i <= val j.
Proof.
  intros Hij. unfold val at 2.
  destruct (Nat.ltb_spec (S j) n) as [Hj|Hj]; [|apply ls_val_le_high].
  unfold val. destruct (Nat.ltb_spec (S i) n) as [_|Hs]; [|lia].
  destruct ls_step as (_ & _ & S0 & _).
  apply round53_le. apply Qplus_le_l. apply round53_le.
  assert (I : inject_Z (Z.of_nat i) <= inject_Z (Z.of_nat j)) by (rewrite <- Zle_Qle; lia).
  nra.
Qed.

Lemma ls_gap (i j : nat) :
  (i < j)%nat -> (H - L) / N <= grid_point L H n j - grid_point L H n i.
Proof.
  intros Hij. unfold grid_point. fold N. destruct ls_N as [N1 _].
  assert (q0 : 0 <= (H - L) / N) by (apply Qle_shift_div_l; unfold H, L; lra).
  assert (I : inject_Z (Z.of_nat i) + 1 <= inject_Z (Z.of_nat j)).
  { change 1 with (inject_Z 1). rewrite <- inject_Z_plus, <- Zle_Qle. lia. }
  nra.
Qed.

Lemma ls_val_strict (i j : nat) :
  Qabs L + Qabs H <= pow2 49 * ((H - L) / N) ->
  (i < j)%nat -> (j < n)%nat -> val i < val j.
Proof.
  intros Sep Hij Hj.
  pose proof (@ls_val_error i ltac:(lia)) as Ei. pose proof (ls_val_error Hj) as Ej.
  pose proof (ls_gap Hij) as G.
  apply Qabs_Qle_condition in Ei. apply Qabs_Qle_condition in Ej.
  destruct ls_N as [N1 _].
  assert (q0 : 0 < (H - L) / N) by (apply Qlt_shift_div_l; unfold H, L; lra).
  assert (T : 2 * tol <= (5 # 8) * ((H - L) / N)).
  { unfold tol. set (S := Qabs L + Qabs H) in *. set (q := (H - L) / N) in *.
    assert (U : 10 * u64 * pow2 49 == 5 # 8) by reflexivity.
    pose proof u64_pos as U0.
    assert (M : u64 * S <= u64 * (pow2 49 * q)) by (apply Qmult_le_l; assumption).
    rewrite <- U. lra. }
  lra.
Qed.

Lemma ls_nth_lt (i : nat) (v : float) :
  nth_error (linspace Binary64 low high n) i = Some v -> (i < n)%nat.
Proof.
  intros E. rewrite <- (linspace_length Binary64 low high n).
  apply nth_error_Some. rewrite E. discriminate.
Qed.

Lemma ls_nth_value (i : nat) (v : float) :
  nth_error (linspace Binary64 low high n) i = Some v ->
  (i < n)%nat /\ b64_finite v = true /\ B2Q v == val i.
Proof.
  intros E. pose proof (@ls_nth_lt _ _ E) as Hi. split; [exact Hi|].
  destruct (ls_value Hi) as (v' & E' & F & V).
  rewrite E in E'. injection E' as <-. split; assumption.
Qed.

(** The grid of binary64 samples between two finite bounds. *)
Lemma linspace_binary64 :
  (exists v, nth_error (linspace Binary64 low high n) 0 = Some v /\
             PrimFloat.eqb v low = true) /\
  nth_error (linspace Binary64 low high n) (pred n) = Some high /\
  (forall i, (i < n)%nat ->
     exists v, nth_error (linspace Binary64 low high n) i = Some v /\
               b64_finite v = true /\
               Qabs (B2Q v - grid_point (B2Q low) (B2Q high) n i)
               <= 5 * u64 * (Qabs (B2Q low) + Qabs (B2Q high))) /\
  (forall i v w,
     nth_error (linspace Binary64 low high n) i = Some v ->
     nth_error (linspace Binary64 low high n) (S i) = Some w ->
     Qabs (B2Q w - B2Q v - (B2Q high - B2Q low) / inject_Z (Z.of_nat n - 1))
     <= 10 * u64 * (Qabs (B2Q low) + Qabs (B2Q high))) /\
  (forall i j v w, (i <= j)%nat ->
     nth_error (linspace Binary64 low high n) i = Some v ->
     nth_error (linspace Binary64 low high n) j = Some w ->
     PrimFloat.leb v w = true) /\
  (Qabs (B2Q low) + Qabs (B2Q high)
   <= pow2 49 * ((B2Q high - B2Q low) / inject_Z (Z.of_nat n - 1)) ->
   forall i j v w, (i < j)%nat ->
     nth_error (linspace Binary64 low high n) i = Some v ->
     nth_error (linspace Binary64 low high n) j = Some w ->
     PrimFloat.ltb v w = true).
Proof.
  split; [|split; [|split; [|split; [|split]]]].
  - destruct (@ls_value 0%nat ltac:(lia)) as (v & E & F & V).
    exists v. split; [exact E|].
    apply (proj2 (proj2 (@b64_compare_correct v low F (proj1 Il)))).
    rewrite V. apply ls_val_first.
  - now apply (linspace_last Binary64).
  - intros i Hi. destruct (ls_value Hi) as (v & E & F & V).
    exists v. split; [exact E|]. split; [exact F|].
    rewrite V. now apply ls_val_error.
  - intros i v w Ev Ew.
    destruct (@ls_nth_value _ _ Ev) as (Hi & _ & Vv). destruct (@ls_nth_value _ _ Ew) as (Hj & _ & Vw).
    pose proof (ls_val_error Hi) as Ei. pose proof (ls_val_error Hj) as Ej.
    pose proof (grid_point_step L H n i) as G. fold L H.
    apply Qabs_Qle_condition in Ei. apply Qabs_Qle_condition in Ej.
    rewrite Vv, Vw. unfold tol in *. apply Qabs_Qle_condition. split; lra.
  - intros i j v w Hij Ev Ew.
    destruct (@ls_nth_value _ _ Ev) as (_ & Fv & Vv). destruct (@ls_nth_value _ _ Ew) as (_ & Fw & Vw).
    apply (proj1 (@b64_compare_correct v w Fv Fw)). rewrite Vv, Vw. now apply ls_val_mono.
  - intros Sep i j v w Hij Ev Ew.
    destruct (@ls_nth_value _ _ Ev) as (_ & Fv & Vv). destruct (@ls_nth_value _ _ Ew) as (Hj & Fw & Vw).
    apply (proj1 (proj2 (@b64_compare_correct v w Fv Fw))). rewrite Vv, Vw.
    now apply ls_val_strict.
Qed.

End Linspace64.

(** Without the bound on the step neighbouring samples can round to the
    same float, and bounds near the largest float overflow. *)
Remark linspace_ties :
  linspace Binary64 1%float (next_up 1%float) 5
  = [1%float; 1%float; 1%float; next_up 1%float; next_up 1%float].
Proof. vm_compute. reflexivity. Qed.

Remark linspace_overflow :
  match linspace Binary64 (- 0x1p1023)%float 0x1p1023%float 3 with
  | v :: _ => PrimFloat.eqb v v = false
  | [] => False
  end.
Proof. vm_compute. reflexivity. Qed.

(** C7. [np.linspace(low, high, n)] returns [n] samples and, for [n >= 2],
    [high] itself as the last one.  In exact arithmetic the sample at index
    [i] is [low + i * (high - low) / (n - 1)], so the first is [low], the
    last is [high], consecutive samples differ by the same step and the
    sequence is ordered.  In binary64, for finite bounds [low < high] that
    are zero or between [2^-800] and [2^800] in magnitude and for up to
    [2^20] points, the first sample equals [low], the last is [high], every
    sample is finite and within [5 * 2^-53 * (|low| + |high|)] of the evenly
    spaced point, consecutive samples differ by the step up to twice that,
    the samples never decrease, and they increase strictly when the step is
    at least [2^-49 * (|low| + |high|)].  [np.linspace(-0.1, 0.1, 3)] is
    [-0.1, 0.0, 0.1], the net P&L at its index 1 is zero (for [V], [F],
    [size] up to [2^100] and a beta and a contract count of moderate
    magnitude), and the panels' scenarios of 20 and 10 points are strictly
    increasing. *)
Theorem linspace_even_grid :
  (forall (A : Arith) (low high : num A) (n : nat),
     length (linspace A low high n) = n /\
     ((2 <= n)%nat -> nth_error (linspace A low high n) (pred n) = Some high)) /\
  (forall (low high : Q) (n : nat), (2 <= n)%nat ->
     (forall i, (i < n)%nat ->
        exists v, nth_error (linspace Exact low high n) i = Some v /\
                  v == grid_point low high n i) /\
     grid_point low high n 0 == low /\
     grid_point low high n (pred n) == high /\
     (forall i, grid_point low high n (S i) - grid_point low high n i
                == (high - low) / inject_Z (Z.of_nat n - 1)) /\
     (low <= high -> forall i j, (i <= j)%nat ->
        grid_point low high n i <= grid_point low high n j) /\
     (low < high -> forall i j, (i < j)%nat ->
        grid_point low high n i < grid_point low high n j)) /\
  (forall (low high : float) (n : nat),
     b64_in 800 low -> b64_in 800 high -> B2Q low < B2Q high ->
     (2 <= n)%nat -> (Z.of_nat n <= 2 ^ 20)%Z ->
     (exists v, nth_error (linspace Binary64 low high n) 0 = Some v /\
                PrimFloat.eqb v low = true) /\
     nth_error (linspace Binary64 low high n) (pred n) = Some high /\
     (forall i, (i < n)%nat ->
        exists v, nth_error (linspace Binary64 low high n) i = Some v /\
                  b64_finite v = true /\
                  Qabs (B2Q v - grid_point (B2Q low) (B2Q high) n i)
                  <= 5 * u64 * (Qabs (B2Q low) + Qabs (B2Q high))) /\
     (forall i v w,
        nth_error (linspace Binary64 low high n) i = Some v ->
        nth_error (linspace Binary64 low high n) (S i) = Some w ->
        Qabs (B2Q w - B2Q v - (B2Q high - B2Q low) / inject_Z (Z.of_nat n - 1))
        <= 10 * u64 * (Qabs (B2Q low) + Qabs (B2Q high))) /\
     (forall i j v w, (i <= j)%nat ->
        nth_error (linspace Binary64 low high n) i = Some v ->
        nth_error (linspace Binary64 low high n) j = Some w ->
        PrimFloat.leb v w = true) /\
     (Qabs (B2Q low) + Qabs (B2Q high)
      <= pow2 49 * ((B2Q high - B2Q low) / inject_Z (Z.of_nat n - 1)) ->
      forall i j v w, (i < j)%nat ->
        nth_error (linspace Binary64 low high n) i = Some v ->
        nth_error (linspace Binary64 low high n) j = Some w ->
        PrimFloat.ltb v w = true)) /\
  (example_scenario Binary64
     = [(- 0x1.999999999999ap-4)%float; 0%float; 0x1.999999999999ap-4%float] /\
   forall (V F size : Z) (beta c : float),
     (0 < V <= 2 ^ 100)%Z -> (0 < F <= 2 ^ 100)%Z -> (0 < size <= 2 ^ 100)%Z ->
     b64_moderate beta = true -> b64_moderate c = true ->
     exists p f nv,
       HedgingBuilder.portfolio Binary64 V beta (example_scenario Binary64) = Py.Ok p /\
       HedgingBuilder.futures Binary64 c size F (example_scenario Binary64) = Py.Ok f /\
       nth_error (HedgingBuilder.net Binary64 p f) 1 = Some nv /\
       PrimFloat.eqb nv 0 = true) /\
  (length (HedgingBuilder.moves Binary64) = 20%nat /\
   increasing (HedgingBuilder.moves Binary64) = true /\
   length (BasisConvergence.moves Binary64) = 10%nat /\
   increasing (BasisConvergence.moves Binary64) = true).
Proof.
  assert (Hex : example_scenario Binary64
     = [(- 0x1.999999999999ap-4)%float; 0%float; 0x1.999999999999ap-4%float])
    by (vm_compute; reflexivity).
  split; [|split; [|split; [|split]]].
  - intros A low high n. split; [apply linspace_length | apply linspace_last].
  - intros low high n Hn.
    split; [intros i Hi; now apply linspace_exact_nth|].
    split; [apply grid_point_first|].
    split; [now apply grid_point_last|].
    split; [intros i; apply grid_point_step|].
    split; [intros Hlh i j Hij; now apply grid_point_mono|].
    intros Hlh i j Hij. now apply grid_point_strict.
  - intros low high n Il Ih Hlh Hn Hn'. now apply linspace_binary64.
  - split; [exact Hex|].
    intros V F size beta c HV HF Hs Hbeta Hc.
    destruct (@zero_move_on_ranges V F size beta c (example_scenario Binary64) 1 0%float
                HV HF Hs Hbeta Hc) as (p & f & pv & fv & nv & Ep & Ef & _ & _ & En & _ & _ & Hn);
      [rewrite Hex; reflexivity | reflexivity |].
    exists p, f, nv. repeat split; assumption.
  - split; [|split; [|split]]; vm_compute; reflexivity.
Qed.

Lemma linspace_even_grid_witness :
  (exists v, nth_error (linspace Exact (- (1 # 10)) (1 # 10) 3) 1 = Some v /\
             v == grid_point (- (1 # 10)) (1 # 10) 3 1) /\
  (exists v, nth_error (linspace Binary64 (- 0x1.999999999999ap-4)%float
                          0x1.999999999999ap-4%float 20) 0 = Some v /\
             PrimFloat.eqb v (- 0x1.999999999999ap-4)%float = true).
Proof.
  split.
  - apply (proj1 (proj2 linspace_even_grid) (- (1 # 10)) (1 # 10) 3%nat); lia.
  - assert (Il : b64_in 800 (- 0x1.999999999999ap-4)%float)
      by (split; [reflexivity|right; split; apply Qle_bool_iff; vm_compute; reflexivity]).
    assert (Ih : b64_in 800 0x1.999999999999ap-4%float)
      by (split; [reflexivity|right; split; apply Qle_bool_iff; vm_compute; reflexivity]).
    assert (Hlh : B2Q (- 0x1.999999999999ap-4)%float < B2Q 0x1.999999999999ap-4%float)
      by (vm_compute; reflexivity).
    assert (Hn : (2 <= 20)%nat) by lia.
    assert (Hn' : (Z.of_nat 20 <= 2 ^ 20)%Z) by (vm_compute; discriminate).
    exact (proj1 (proj1 (proj2 (proj2 linspace_even_grid)) _ _ 20%nat Il Ih Hlh Hn Hn')).
Defined.

(** ** Input validation *)

Section BuilderRun.

Variable A : Arith.


End BuilderRun.










(** An [int] beyond the float range is the one other way the builder
    stops. *)
Remark builder_overflow :
  HedgingBuilder.run Binary64 (2 ^ 1024) 1%float 22000 "Optimal Hedge"
  = Py.Raise Py.OverflowError.
Proof. reflexivity. Qed.
